(** * MathCompete AI: the problem-acquisition pipeline and the batch harvester

    A shallow embedding of [services/geminiService.ts] (JSON recovery, proxy
    fetching, HTML normalisation, document segmentation, answer extraction,
    problem assembly) and of the prefetch service (catalog generation and the
    queue runner), with the properties the specification states about them.

    JavaScript strings are modelled as lists of characters ([list ascii], one
    element per code unit below 256), years as binary naturals ([N]) and the
    numbers that the code only uses as small counters as [nat]. *)

From Stdlib Require Import Ascii String Numbers.DecimalString.
From Stdlib Require Import List Arith NArith ZArith QArith Lia Bool.
From Stdlib Require Import Orders Sorting.Mergesort Sorting.Permutation Sorting.Sorted.
From Stdlib Require Floats.PrimFloat Floats.SpecFloat Floats.FloatOps Numbers.Cyclic.Int63.Uint63.
From Stdlib Require Numbers.DecimalN.
Import ListNotations.

Set Implicit Arguments.
Arguments Ascii.eqb : simpl never.
Set Warnings "-register-all".
Close Scope Q_scope.
Open Scope nat_scope.
Open Scope list_scope.

(* ================================================================== *)
(** * JavaScript strings *)
(* ================================================================== *)

Module JS.

Definition jsstring := list ascii.

(** String literals of the source. *)
Definition lit (s : string) : jsstring := list_ascii_of_string s.

Definition ch (s : string) : ascii :=
  match s with
  | String c _ => c
  | EmptyString => Ascii.zero
  end.

(** The double quote, the backslash and the line feed. *)
Definition dquote : ascii := ascii_of_nat 34.
Definition backslash : ascii := ascii_of_nat 92.
Definition newline : ascii := ascii_of_nat 10.

(** A quoted literal, as it appears inside JSON or HTML text. *)
Definition quoted (s : string) : jsstring := dquote :: lit s ++ [dquote].

(** Template-literal interpolation of a number, [`${n}`]. *)
Definition numToString (n : N) : jsstring :=
  lit (NilEmpty.string_of_uint (N.to_uint n)).

Fixpoint streq (a b : jsstring) : bool :=
  match a, b with
  | [], [] => true
  | x :: a', y :: b' => Ascii.eqb x y && streq a' b'
  | _, _ => false
  end.

(** [s.startsWith(p)] *)
Fixpoint startsWith (p s : jsstring) : bool :=
  match p, s with
  | [], _ => true
  | x :: p', y :: s' => Ascii.eqb x y && startsWith p' s'
  | _ :: _, [] => false
  end.

(** [s.includes(p)] *)
Fixpoint includes (p s : jsstring) : bool :=
  startsWith p s ||
  match s with
  | [] => false
  | _ :: s' => includes p s'
  end.

(** [s.indexOf(c)] for a one-character needle; [None] is the source's -1. *)
Fixpoint indexOf (c : ascii) (s : jsstring) : option nat :=
  match s with
  | [] => None
  | x :: s' =>
      if Ascii.eqb x c then Some 0
      else match indexOf c s' with
           | Some i => Some (S i)
           | None => None
           end
  end.

(** [s.lastIndexOf(c)] for a one-character needle. *)
Fixpoint lastIndexOf (c : ascii) (s : jsstring) : option nat :=
  match s with
  | [] => None
  | x :: s' =>
      match lastIndexOf c s' with
      | Some i => Some (S i)
      | None => if Ascii.eqb x c then Some 0 else None
      end
  end.

(** [s.substring(a, b)]: the arguments are swapped when [a > b]. *)
Definition substring (a b : nat) (s : jsstring) : jsstring :=
  firstn (Nat.max a b - Nat.min a b) (skipn (Nat.min a b) s).

(** The white space of [\s] and of [trim()] among the code units below 256:
    TAB, LF, VT, FF, CR, SPACE and NBSP. *)
Definition isSpace (c : ascii) : bool :=
  let n := nat_of_ascii c in
  ((9 <=? n) && (n <=? 13)) || (n =? 32) || (n =? 160).

Fixpoint trimStart (s : jsstring) : jsstring :=
  match s with
  | c :: s' => if isSpace c then trimStart s' else s
  | [] => []
  end.

Definition trimEnd (s : jsstring) : jsstring := rev (trimStart (rev s)).

Definition trim (s : jsstring) : jsstring := trimEnd (trimStart s).

(** ASCII case mapping of [toUpperCase()]. *)
Definition upperChar (c : ascii) : ascii :=
  let n := nat_of_ascii c in
  if (97 <=? n) && (n <=? 122) then ascii_of_nat (n - 32) else c.

Definition toUpperCase (s : jsstring) : jsstring := map upperChar s.

(** [s.split(sep).pop()]: the part after the last separator. *)
Fixpoint lastSegment (sep : ascii) (s : jsstring) : jsstring :=
  match s with
  | [] => []
  | c :: s' =>
      if existsb (Ascii.eqb sep) s' then lastSegment sep s'
      else if Ascii.eqb c sep then s' else s
  end.

Definition nonEmpty (s : jsstring) : bool :=
  match s with
  | [] => false
  | _ :: _ => true
  end.

Definition hexDigit (n : nat) : ascii :=
  if n <? 10 then ascii_of_nat (48 + n) else ascii_of_nat (55 + n).

Definition percent (byte : nat) : jsstring :=
  [ch "%"; hexDigit (byte / 16); hexDigit (byte mod 16)].

Definition isUnreserved (c : ascii) : bool :=
  let n := nat_of_ascii c in
  ((48 <=? n) && (n <=? 57)) || ((65 <=? n) && (n <=? 90)) || ((97 <=? n) && (n <=? 122))
  || existsb (Ascii.eqb c) (lit "-_.!~*'()").

(** [encodeURIComponent(s)]: every character but the unreserved ones is
    replaced by the escaped bytes of its UTF-8 encoding. *)
Definition encodeURIComponent (s : jsstring) : jsstring :=
  flat_map (fun c =>
    let n := nat_of_ascii c in
    if isUnreserved c then [c]
    else if n <? 128 then percent n
    else percent (192 + n / 64) ++ percent (128 + n mod 64)) s.

End JS.
Import JS.

(* ================================================================== *)
(** * Completions: a value returned, or an error raised *)
(* ================================================================== *)

(** What a [throw] carries: the [message] of the [Error]. *)
Record error := Error { message : jsstring }.

Inductive completion (A : Type) : Type :=
| Return (a : A)
| Throw (e : error).
Arguments Return {A} a.
Arguments Throw {A} e.

(** [try { c } catch (e) { h e }] *)
Definition tryCatch {A} (c : completion A) (h : error -> completion A) : completion A :=
  match c with
  | Return a => Return a
  | Throw e => h e
  end.

(* ================================================================== *)
(** * Regular expressions of the source *)
(* ================================================================== *)

(** Every regular expression literal of the two services is a sequence of
    single-character classes, each taken once, optionally ([?]), or
    repeated greedily ([*], [+]), with at most one capturing group around
    one class and possibly the end anchor [$].  The matcher below is the
    backtracking matcher of the language restricted to that shape: classes
    are tried left to right, greedy items take the longest run first and
    give characters back one at a time. *)

Module Regex.

Inductive charClass :=
| CChar (c : ascii)              (* a literal character *)
| CSpace                         (* \s *)
| CRange (lo hi : ascii)         (* [lo-hi] *)
| CNot (cls : charClass).        (* [^...] *)

Inductive item :=
| Chr (cls : charClass)          (* x *)
| OptChr (cls : charClass)       (* x? *)
| StarChr (cls : charClass)      (* x* *)
| PlusChr (cls : charClass)      (* x+ *)
| Group (cls : charClass)        (* (x) *)
| EndOfInput.                    (* $ *)

Record regex := mkRegex {
  items : list item;
  ignoreCase : bool              (* the i flag *)
}.

Definition lowerChar (c : ascii) : ascii :=
  let n := nat_of_ascii c in
  if (65 <=? n) && (n <=? 90) then ascii_of_nat (n + 32) else c.

Definition inRange (lo hi c : ascii) : bool :=
  (nat_of_ascii lo <=? nat_of_ascii c) && (nat_of_ascii c <=? nat_of_ascii hi).

(** Under the i flag two characters match when their canonical (upper case)
    forms agree; the patterns of the source are ASCII, and no code unit
    outside ASCII has an ASCII canonical form. *)
Fixpoint classMatches (ic : bool) (cls : charClass) (c : ascii) : bool :=
  match cls with
  | CChar x => if ic then Ascii.eqb (upperChar x) (upperChar c) else Ascii.eqb x c
  | CSpace => isSpace c
  | CRange lo hi =>
      if ic then inRange lo hi c || inRange lo hi (upperChar c) || inRange lo hi (lowerChar c)
      else inRange lo hi c
  | CNot cls' => negb (classMatches ic cls' c)
  end.

(** A successful match: the captured groups and what is left of the input. *)
Definition result := (list jsstring * jsstring)%type.

Definition orElse (a b : option result) : option result :=
  match a with
  | Some _ => a
  | None => b
  end.

(** Greedy repetition of a class, then the continuation [k]. *)
Fixpoint starLoop (p : ascii -> bool) (k : jsstring -> option result) (s : jsstring)
    : option result :=
  match s with
  | c :: s' => if p c then orElse (starLoop p k s') (k s) else k s
  | [] => k s
  end.

Fixpoint matchHere (ic : bool) (r : list item) : jsstring -> option result :=
  match r with
  | [] => fun s => Some ([], s)
  | it :: r' =>
      let k := matchHere ic r' in
      match it with
      | Chr cls => fun s =>
          match s with
          | c :: s' => if classMatches ic cls c then k s' else None
          | [] => None
          end
      | Group cls => fun s =>
          match s with
          | c :: s' =>
              if classMatches ic cls c then
                match k s' with
                | Some (caps, rest) => Some ([c] :: caps, rest)
                | None => None
                end
              else None
          | [] => None
          end
      | OptChr cls => fun s =>
          match s with
          | c :: s' => if classMatches ic cls c then orElse (k s') (k s) else k s
          | [] => k s
          end
      | StarChr cls => starLoop (classMatches ic cls) k
      | PlusChr cls => fun s =>
          match s with
          | c :: s' => if classMatches ic cls c then starLoop (classMatches ic cls) k s' else None
          | [] => None
          end
      | EndOfInput => fun s =>
          match s with
          | [] => k s
          | _ :: _ => None
          end
      end
  end.

(** The leftmost match: the text before it, the groups, the text after. *)
Fixpoint search (re : regex) (s : jsstring) : option (jsstring * list jsstring * jsstring) :=
  match matchHere (ignoreCase re) (items re) s with
  | Some (caps, rest) => Some ([], caps, rest)
  | None =>
      match s with
      | [] => None
      | c :: s' =>
          match search re s' with
          | Some (before, caps, rest) => Some (c :: before, caps, rest)
          | None => None
          end
      end
  end.

(** [s.match(re)] without the g flag: [None] is [null]; of the match array
    only the groups are kept, [m[1]] being [group 1 m]. *)
Definition matchRe (re : regex) (s : jsstring) : option (list jsstring) :=
  match search re s with
  | Some (_, caps, _) => Some caps
  | None => None
  end.

Definition group (n : nat) (m : list jsstring) : jsstring := nth (n - 1) m [].

(** [s.replace(re, repl)] with the g flag.  [skip] counts the characters of
    the current match that are still to be dropped.  An empty match inserts
    the replacement and moves on by one character. *)
Fixpoint replaceFrom (re : regex) (repl : jsstring) (skip : nat) (s : jsstring) : jsstring :=
  match s with
  | [] =>
      match skip, matchHere (ignoreCase re) (items re) [] with
      | 0, Some _ => repl
      | _, _ => []
      end
  | c :: s' =>
      match skip with
      | S n => replaceFrom re repl n s'
      | 0 =>
          match matchHere (ignoreCase re) (items re) s with
          | Some (_, rest) =>
              match length s - length rest with
              | 0 => repl ++ c :: replaceFrom re repl 0 s'
              | S n => repl ++ replaceFrom re repl n s'
              end
          | None => c :: replaceFrom re repl 0 s'
          end
      end
  end.

Definition replaceAll (re : regex) (repl : jsstring) (s : jsstring) : jsstring :=
  replaceFrom re repl 0 s.

(** Building patterns: a run of literal characters. *)
Definition chars (s : string) : list item := map (fun c => Chr (CChar c)) (lit s).

Definition ws : item := StarChr CSpace.                 (* \s* *)
Definition letterAE : charClass := CRange (ch "A") (ch "E").  (* [A-E] *)

End Regex.

(* ================================================================== *)
(** * JSON values *)
(* ================================================================== *)

Module Json.

(** What [JSON.parse] and [Response.json()] produce. *)
Inductive value :=
| JNull
| JBool (b : bool)
| JNumber (q : Q)
| JString (s : jsstring)
| JArray (elements : list value)
| JObject (members : list (jsstring * value)).

(** [data.key] on a parsed value: [None] is [undefined].  Reading a property
    of [null] raises a TypeError; of a duplicated key the last one counts. *)
Fixpoint lookupLast (key : jsstring) (members : list (jsstring * value)) : option value :=
  match members with
  | [] => None
  | (k, v) :: rest =>
      match lookupLast key rest with
      | Some v' => Some v'
      | None => if streq k key then Some v else None
      end
  end.

Definition getProperty (data : value) (key : jsstring) : completion (option value) :=
  match data with
  | JNull => Throw (Error (lit "Cannot read properties of null"))
  | JObject members => Return (lookupLast key members)
  | _ => Return None
  end.

(** Truthiness, [!!v], of a value or [undefined]. *)
Definition truthy (v : option value) : bool :=
  match v with
  | None => false
  | Some JNull => false
  | Some (JBool b) => b
  | Some (JNumber q) => negb (Qeq_bool q 0%Q)
  | Some (JString s) => match s with [] => false | _ => true end
  | Some (JArray _) => true
  | Some (JObject _) => true
  end.

End Json.

(* ================================================================== *)
(** * A reference JSON reader *)
(* ================================================================== *)

(** [JSON.parse] belongs to the platform and is a parameter of the model.
    To run the model on concrete texts, this reader covers the JSON grammar
    except for fractions and exponents in numbers and for [\u] escapes,
    which it rejects. *)

Module JsonReader.
Import Json.

Definition isJsonSpace (c : ascii) : bool :=
  let n := nat_of_ascii c in
  (n =? 32) || (n =? 9) || (n =? 10) || (n =? 13).

Fixpoint skipSpace (s : jsstring) : jsstring :=
  match s with
  | c :: s' => if isJsonSpace c then skipSpace s' else s
  | [] => []
  end.

Definition isDigit (c : ascii) : bool :=
  let n := nat_of_ascii c in (48 <=? n) && (n <=? 57).

Fixpoint readDigits (acc : Z) (s : jsstring) : Z * jsstring :=
  match s with
  | c :: s' =>
      if isDigit c then readDigits (acc * 10 + Z.of_nat (nat_of_ascii c - 48)) s'
      else (acc, s)
  | [] => (acc, [])
  end.

Definition startsFraction (s : jsstring) : bool :=
  match s with
  | c :: _ => Ascii.eqb c (ch ".") || Ascii.eqb c (ch "e") || Ascii.eqb c (ch "E")
  | [] => false
  end.

Definition readNatural (s : jsstring) : option (Z * jsstring) :=
  match s with
  | c :: s' =>
      if Ascii.eqb c (ch "0") then
        (match s' with
         | d :: _ => if isDigit d then None else Some (0%Z, s')
         | [] => Some (0%Z, s')
         end)
      else if isDigit c then Some (readDigits 0 s)
      else None
  | [] => None
  end.

Definition unescape (c : ascii) : option ascii :=
  if Ascii.eqb c dquote then Some dquote
  else if Ascii.eqb c backslash then Some backslash
  else if Ascii.eqb c (ch "/") then Some (ch "/")
  else if Ascii.eqb c (ch "b") then Some (ascii_of_nat 8)
  else if Ascii.eqb c (ch "f") then Some (ascii_of_nat 12)
  else if Ascii.eqb c (ch "n") then Some (ascii_of_nat 10)
  else if Ascii.eqb c (ch "r") then Some (ascii_of_nat 13)
  else if Ascii.eqb c (ch "t") then Some (ascii_of_nat 9)
  else None.

(** The characters of a string literal, after its opening quote. *)
Fixpoint readString (s : jsstring) : option (jsstring * jsstring) :=
  match s with
  | [] => None
  | c :: s' =>
      if Ascii.eqb c dquote then Some ([], s')
      else if Ascii.eqb c backslash then
        match s' with
        | e :: s'' =>
            match unescape e, readString s'' with
            | Some x, Some (str, rest) => Some (x :: str, rest)
            | _, _ => None
            end
        | [] => None
        end
      else if nat_of_ascii c <? 32 then None
      else
        match readString s' with
        | Some (str, rest) => Some (c :: str, rest)
        | None => None
        end
  end.

Section Sequences.

Variable readValue : jsstring -> option (value * jsstring).

(** The elements of an array after the first one: [, value]* followed by the
    closing bracket. *)
Fixpoint readMoreElements (fuel : nat) (s : jsstring) : option (list value * jsstring) :=
  match fuel with
  | 0 => None
  | S fuel' =>
      match skipSpace s with
      | c :: s' =>
          if Ascii.eqb c (ch "]") then Some ([], s')
          else if Ascii.eqb c (ch ",") then
            match readValue s' with
            | Some (v, s'') =>
                match readMoreElements fuel' s'' with
                | Some (vs, rest) => Some (v :: vs, rest)
                | None => None
                end
            | None => None
            end
          else None
      | [] => None
      end
  end.

Definition readMember (s : jsstring) : option (jsstring * value * jsstring) :=
  match skipSpace s with
  | c :: s' =>
      if Ascii.eqb c dquote then
        match readString s' with
        | Some (key, s'') =>
            match skipSpace s'' with
            | d :: s3 =>
                if Ascii.eqb d (ch ":") then
                  match readValue s3 with
                  | Some (v, rest) => Some (key, v, rest)
                  | None => None
                  end
                else None
            | [] => None
            end
        | None => None
        end
      else None
  | [] => None
  end.

Fixpoint readMoreMembers (fuel : nat) (s : jsstring)
    : option (list (jsstring * value) * jsstring) :=
  match fuel with
  | 0 => None
  | S fuel' =>
      match skipSpace s with
      | c :: s' =>
          if Ascii.eqb c (ch "}") then Some ([], s')
          else if Ascii.eqb c (ch ",") then
            match readMember s' with
            | Some (k, v, s'') =>
                match readMoreMembers fuel' s'' with
                | Some (ms, rest) => Some ((k, v) :: ms, rest)
                | None => None
                end
            | None => None
            end
          else None
      | [] => None
      end
  end.

End Sequences.

Fixpoint readValue (fuel : nat) (s : jsstring) : option (value * jsstring) :=
  match fuel with
  | 0 => None
  | S fuel' =>
      match skipSpace s with
      | [] => None
      | c :: s' =>
          if Ascii.eqb c (ch "{") then
            match skipSpace s' with
            | d :: s'' =>
                if Ascii.eqb d (ch "}") then Some (JObject [], s'')
                else
                  match readMember (readValue fuel') s' with
                  | Some (k, v, s3) =>
                      match readMoreMembers (readValue fuel') fuel' s3 with
                      | Some (ms, rest) => Some (JObject ((k, v) :: ms), rest)
                      | None => None
                      end
                  | None => None
                  end
            | [] => None
            end
          else if Ascii.eqb c (ch "[") then
            match skipSpace s' with
            | d :: s'' =>
                if Ascii.eqb d (ch "]") then Some (JArray [], s'')
                else
                  match readValue fuel' s' with
                  | Some (v, s3) =>
                      match readMoreElements (readValue fuel') fuel' s3 with
                      | Some (vs, rest) => Some (JArray (v :: vs), rest)
                      | None => None
                      end
                  | None => None
                  end
            | [] => None
            end
          else if Ascii.eqb c dquote then
            match readString s' with
            | Some (str, rest) => Some (JString str, rest)
            | None => None
            end
          else if startsWith (lit "null") (c :: s') then Some (JNull, skipn 4 (c :: s'))
          else if startsWith (lit "true") (c :: s') then Some (JBool true, skipn 4 (c :: s'))
          else if startsWith (lit "false") (c :: s') then Some (JBool false, skipn 5 (c :: s'))
          else
            let '(negative, digits) :=
              if Ascii.eqb c (ch "-") then (true, s') else (false, c :: s') in
            match readNatural digits with
            | Some (n, rest) =>
                if startsFraction rest then None
                else Some (JNumber (inject_Z (if negative then - n else n)), rest)
            | None => None
            end
      end
  end.

Definition syntaxError : error := Error (lit "SyntaxError").

(** The whole text must be one value, white space around it allowed. *)
Definition parse (s : jsstring) : completion value :=
  match readValue (S (length s)) s with
  | Some (v, rest) =>
      match skipSpace rest with
      | [] => Return v
      | _ :: _ => Throw syntaxError
      end
  | None => Throw syntaxError
  end.

End JsonReader.

(* ================================================================== *)
(** * Lenient JSON extraction (geminiService.ts) *)
(* ================================================================== *)

Module JsonRecovery.
Import Regex Json.

(** [/```json\s*/gi] *)
Definition fenceJsonRe : regex := mkRegex (chars "```json" ++ [ws]) true.
(** [/```\s*$/g] *)
Definition fenceAtEndRe : regex := mkRegex (chars "```" ++ [ws; EndOfInput]) false.
(** [/```/g] *)
Definition fenceRe : regex := mkRegex (chars "```") false.
(** [/\\/g]: one backslash *)
Definition backslashRe : regex := mkRegex [Chr (CChar backslash)] false.
(** [/\\\\\\/g]: three backslashes *)
Definition threeBackslashesRe : regex :=
  mkRegex [Chr (CChar backslash); Chr (CChar backslash); Chr (CChar backslash)] false.

(** Step 1: the Markdown wrappers are removed. *)
Definition stripFences (text : jsstring) : jsstring :=
  trim (replaceAll fenceRe [] (replaceAll fenceAtEndRe [] (replaceAll fenceJsonRe [] text))).

(** Step 2: the text is cut to the outer array or object. *)
Definition cutToBoundaries (clean : jsstring) : jsstring :=
  let first := indexOf (ch "{") clean in
  let firstArr := indexOf (ch "[") clean in
  let last := lastIndexOf (ch "}") clean in
  let lastArr := lastIndexOf (ch "]") clean in
  let arrayIsOuter :=
    match firstArr, first with
    | Some a, None => true
    | Some a, Some f => a <? f
    | None, _ => false
    end in
  if arrayIsOuter then
    match firstArr, lastArr with
    | Some a, Some l => substring a (l + 1) clean
    | _, _ => clean
    end
  else
    match first, last with
    | Some f, Some l => substring f (l + 1) clean
    | _, _ => clean
    end.

(** Step 4: every backslash is doubled, then every run of three is cut back
    to two. *)
Definition repairBackslashes (clean : jsstring) : jsstring :=
  replaceAll threeBackslashesRe [backslash; backslash]
    (replaceAll backslashRe [backslash; backslash] clean).

Section Parser.

(** [JSON.parse]: the parsed value, or the SyntaxError raised. *)
Variable JSON_parse : jsstring -> completion value.

(** [text] is [None] for [undefined]; the result [JNull] is [null]. *)
Definition parseJsonFromResponse (text : option jsstring) : completion value :=
  match text with
  | None => Return JNull
  | Some [] => Return JNull
  | Some text =>
      let clean := cutToBoundaries (stripFences text) in
      tryCatch (JSON_parse clean)
        (fun e =>
           let fixed := repairBackslashes clean in
           tryCatch (JSON_parse fixed) (fun e2 => Return JNull))
  end.

End Parser.

End JsonRecovery.

(* ================================================================== *)
(** * The document object model *)
(* ================================================================== *)

Module Dom.

(** A parsed document is a tree of nodes; element names and attribute names
    are the lower-case names the HTML parser stores. *)
Inductive node :=
| Text (data : jsstring)
| Comment (data : jsstring)
| Element (localName : jsstring) (attributes : list (jsstring * jsstring))
          (childNodes : list node).

(** A document: its root element and its mode.  A document parsed from text
    without a doctype is in quirks mode, where class and id selectors ignore
    ASCII case. *)
Record document := mkDocument {
  quirks : bool;
  documentElement : node
}.

Definition isElement (n : node) : bool :=
  match n with
  | Element _ _ _ => true
  | _ => false
  end.

Definition children (n : node) : list node :=
  match n with
  | Element _ _ cs => cs
  | _ => []
  end.

(** [e.children], and what [firstElementChild] and [nextElementSibling] then
    walk through. *)
Definition elementChildren (n : node) : list node := filter isElement (children n).

Definition localNameOf (n : node) : jsstring :=
  match n with
  | Element name _ _ => name
  | _ => []
  end.

(** [e.tagName] *)
Definition tagName (n : node) : jsstring := toUpperCase (localNameOf n).

Fixpoint lookupAttr (name : jsstring) (attrs : list (jsstring * jsstring)) : option jsstring :=
  match attrs with
  | [] => None
  | (k, v) :: rest => if streq k name then Some v else lookupAttr name rest
  end.

(** [e.getAttribute(name)]: [None] is [null]. *)
Definition getAttribute (name : jsstring) (n : node) : option jsstring :=
  match n with
  | Element _ attrs _ => lookupAttr name attrs
  | _ => None
  end.

Fixpoint updateAttr (name value : jsstring) (attrs : list (jsstring * jsstring))
    : list (jsstring * jsstring) :=
  match attrs with
  | [] => [(name, value)]
  | (k, v) :: rest =>
      if streq k name then (k, value) :: rest else (k, v) :: updateAttr name value rest
  end.

(** [e.setAttribute(name, value)] *)
Definition setAttribute (name value : jsstring) (n : node) : node :=
  match n with
  | Element tag attrs cs => Element tag (updateAttr name value attrs) cs
  | _ => n
  end.

(** [e.id]: the empty string when there is no id attribute. *)
Definition idOf (n : node) : jsstring :=
  match getAttribute (lit "id") n with
  | Some v => v
  | None => []
  end.

(** [e.textContent] *)
Fixpoint textContent (n : node) : jsstring :=
  match n with
  | Text data => data
  | Comment _ => []
  | Element _ _ cs => flat_map textContent cs
  end.

(** The class names of an element: its class attribute split at ASCII white
    space. *)
Definition isAsciiSpace (c : ascii) : bool :=
  let n := nat_of_ascii c in
  (n =? 32) || (n =? 9) || (n =? 10) || (n =? 12) || (n =? 13).

Fixpoint splitWords (cur : jsstring) (s : jsstring) : list jsstring :=
  match s with
  | [] => match cur with [] => [] | _ => [rev cur] end
  | c :: s' =>
      if isAsciiSpace c then
        match cur with
        | [] => splitWords [] s'
        | _ => rev cur :: splitWords [] s'
        end
      else splitWords (c :: cur) s'
  end.

Definition classList (n : node) : list jsstring :=
  match getAttribute (lit "class") n with
  | Some v => splitWords [] v
  | None => []
  end.

Definition sameName (quirksMode : bool) (a b : jsstring) : bool :=
  if quirksMode then streq (toUpperCase a) (toUpperCase b) else streq a b.

(** The selectors of the source: a comma-separated list of simple ones. *)
Inductive simpleSelector :=
| SelTag (name : jsstring)                    (* h2 *)
| SelClass (cls : jsstring)                   (* .toc *)
| SelId (id : jsstring)                       (* #toc *)
| SelTagClass (name cls : jsstring).          (* img.latex *)

Definition matchesSimple (quirksMode : bool) (sel : simpleSelector) (n : node) : bool :=
  isElement n &&
  match sel with
  | SelTag name => streq (localNameOf n) name
  | SelClass cls => existsb (sameName quirksMode cls) (classList n)
  | SelId id =>
      match getAttribute (lit "id") n with
      | Some v => sameName quirksMode id v
      | None => false
      end
  | SelTagClass name cls =>
      streq (localNameOf n) name && existsb (sameName quirksMode cls) (classList n)
  end.

Definition matches (quirksMode : bool) (sel : list simpleSelector) (n : node) : bool :=
  existsb (fun s => matchesSimple quirksMode s n) sel.

(** The descendants of a node in document order. *)
Fixpoint descendants (n : node) : list node :=
  match n with
  | Element _ _ cs => flat_map (fun c => c :: descendants c) cs
  | _ => []
  end.

Definition querySelectorAll (quirksMode : bool) (sel : list simpleSelector) (n : node)
    : list node :=
  filter (matches quirksMode sel) (descendants n).

Definition querySelector (quirksMode : bool) (sel : list simpleSelector) (n : node)
    : option node :=
  head (querySelectorAll quirksMode sel n).

(** [root.querySelectorAll(sel).forEach(e => { if (p(e)) e.remove() })]:
    elements are visited in document order, so [p] sees each element as it
    was before anything below it was removed. *)
Fixpoint removeWhere (p : node -> bool) (n : node) : node :=
  match n with
  | Element tag attrs cs =>
      Element tag attrs
        ((fix keep (l : list node) : list node :=
            match l with
            | [] => []
            | c :: l' => if p c then keep l' else removeWhere p c :: keep l'
            end) cs)
  | _ => n
  end.

(** [list.forEach(e => { if (...) e.replaceWith(f(e)) })]: [f] gives the
    replacement of a node, if it is to be replaced. *)
Fixpoint replaceWhere (f : node -> option node) (n : node) : node :=
  match n with
  | Element tag attrs cs =>
      Element tag attrs
        (map (fun c => match f c with
                       | Some c' => c'
                       | None => replaceWhere f c
                       end) cs)
  | _ => n
  end.

(** [list.forEach(e => e.setAttribute(...))]: [g] rewrites the attributes
    of every element below the root. *)
Fixpoint updateElements (g : node -> node) (n : node) : node :=
  match n with
  | Element tag attrs cs =>
      Element tag attrs
        (map (fun c => match g c with
                       | Element tag' attrs' _ =>
                           Element tag' attrs' (children (updateElements g c))
                       | other => other
                       end) cs)
  | _ => n
  end.

(** The element siblings after the first descendant (in document order)
    that satisfies [p]: what [nextElementSibling] walks through. *)
Fixpoint followingOfFirst (p : node -> bool) (n : node) : option (list node) :=
  match n with
  | Element _ _ cs =>
      (fix scan (l : list node) : option (list node) :=
         match l with
         | [] => None
         | c :: l' =>
             if p c then Some (filter isElement l')
             else
               match followingOfFirst p c with
               | Some following => Some following
               | None => scan l'
               end
         end) cs
  | _ => None
  end.

(** The document itself as a node, with the root element as its only child:
    what [doc.querySelectorAll] searches. *)
Definition documentNode (doc : document) : node := Element [] [] [documentElement doc].

(** [doc.body], read off a document node: [None] is [null]. *)
Definition bodyOf (docNode : node) : option node :=
  match children docNode with
  | root :: _ => find (fun c => streq (localNameOf c) (lit "body")) (children root)
  | [] => None
  end.

End Dom.

(* ================================================================== *)
(** * A reference HTML reader and writer *)
(* ================================================================== *)

(** [DOMParser] and the serialisation behind [innerHTML] and [outerHTML]
    belong to the browser and are parameters of the model.  To run the model
    on concrete markup, this module reads and writes the well-nested subset
    of HTML: elements with attributes, void elements, comments, a doctype,
    text with the five named character references the writer produces.
    Everything is placed in the body; [html], [head] and [body] tags are
    skipped. *)

Module HtmlReference.
Import Dom.

Definition voidElements : list jsstring :=
  map lit ["area"; "base"; "br"; "col"; "embed"; "hr"; "img"; "input"; "link"; "meta";
           "source"; "track"; "wbr"]%string.

Definition isVoid (name : jsstring) : bool := existsb (streq name) voidElements.

Definition rawTextParents : list jsstring :=
  map lit ["style"; "script"; "xmp"; "iframe"; "noembed"; "noframes"; "plaintext"]%string.

(** ** Writing *)

Definition escapeChar (attributeMode : bool) (c : ascii) : jsstring :=
  if Ascii.eqb c (ch "&") then lit "&amp;"
  else if nat_of_ascii c =? 160 then lit "&nbsp;"
  else if Ascii.eqb c (ch "<") then lit "&lt;"
  else if Ascii.eqb c (ch ">") then lit "&gt;"
  else if attributeMode && Ascii.eqb c dquote then lit "&quot;"
  else [c].

Definition escape (attributeMode : bool) (s : jsstring) : jsstring :=
  flat_map (escapeChar attributeMode) s.

Definition writeAttribute (a : jsstring * jsstring) : jsstring :=
  lit " " ++ fst a ++ lit "=" ++ [dquote] ++ escape true (snd a) ++ [dquote].

Fixpoint writeNode (parent : jsstring) (n : node) : jsstring :=
  match n with
  | Text data =>
      if existsb (streq parent) rawTextParents then data else escape false data
  | Comment data => lit "<!--" ++ data ++ lit "-->"
  | Element name attrs cs =>
      lit "<" ++ name ++ flat_map writeAttribute attrs ++ lit ">"
      ++ (if isVoid name then []
          else flat_map (writeNode name) cs ++ lit "</" ++ name ++ lit ">")
  end.

Definition outerHTML (n : node) : jsstring := writeNode [] n.

Definition innerHTML (n : node) : jsstring :=
  flat_map (writeNode (localNameOf n)) (children n).

(** ** Reading *)

Inductive token :=
| TText (data : jsstring)
| TComment (data : jsstring)
| TDoctype
| TStart (name : jsstring) (attrs : list (jsstring * jsstring))
| TEnd (name : jsstring).

Definition lowerChar (c : ascii) : ascii :=
  let n := nat_of_ascii c in
  if (65 <=? n) && (n <=? 90) then ascii_of_nat (n + 32) else c.

Definition isLetter (c : ascii) : bool :=
  let n := nat_of_ascii (lowerChar c) in (97 <=? n) && (n <=? 122).

Definition references : list (jsstring * ascii) :=
  [(lit "amp;", ch "&"); (lit "lt;", ch "<"); (lit "gt;", ch ">");
   (lit "quot;", dquote); (lit "nbsp;", ascii_of_nat 160)].

(** Character references are replaced; [skip] counts the characters of the
    current reference still to be dropped. *)
Fixpoint decodeFrom (skip : nat) (s : jsstring) : jsstring :=
  match s with
  | [] => []
  | c :: s' =>
      match skip with
      | S n => decodeFrom n s'
      | 0 =>
          if Ascii.eqb c (ch "&") then
            match find (fun r => startsWith (fst r) s') references with
            | Some (name, x) => x :: decodeFrom (length name) s'
            | None => c :: decodeFrom 0 s'
            end
          else c :: decodeFrom 0 s'
      end
  end.

Definition decode (s : jsstring) : jsstring := decodeFrom 0 s.

Inductive attrState :=
| ABefore
| AName (name : jsstring)
| AAfterName (name : jsstring)
| ABeforeValue (name : jsstring)
| AQuoted (name : jsstring) (quote : ascii) (value : jsstring)
| AUnquoted (name : jsstring) (value : jsstring).

Definition attr (name value : jsstring) : jsstring * jsstring :=
  (map lowerChar (rev name), decode (rev value)).

(** The attributes of a start tag; names and values are kept reversed while
    they are read. *)
Fixpoint readAttrs (st : attrState) (s : jsstring) : list (jsstring * jsstring) :=
  match s with
  | [] =>
      match st with
      | ABefore => []
      | AName n | AAfterName n | ABeforeValue n => [attr n []]
      | AQuoted n _ v | AUnquoted n v => [attr n v]
      end
  | c :: s' =>
      match st with
      | ABefore =>
          if isAsciiSpace c || Ascii.eqb c (ch "/") then readAttrs ABefore s'
          else readAttrs (AName [c]) s'
      | AName n =>
          if isAsciiSpace c then readAttrs (AAfterName n) s'
          else if Ascii.eqb c (ch "=") then readAttrs (ABeforeValue n) s'
          else if Ascii.eqb c (ch "/") then attr n [] :: readAttrs ABefore s'
          else readAttrs (AName (c :: n)) s'
      | AAfterName n =>
          if isAsciiSpace c then readAttrs (AAfterName n) s'
          else if Ascii.eqb c (ch "=") then readAttrs (ABeforeValue n) s'
          else attr n [] :: readAttrs (AName [c]) s'
      | ABeforeValue n =>
          if isAsciiSpace c then readAttrs (ABeforeValue n) s'
          else if Ascii.eqb c dquote || Ascii.eqb c (ch "'") then readAttrs (AQuoted n c []) s'
          else readAttrs (AUnquoted n [c]) s'
      | AQuoted n q v =>
          if Ascii.eqb c q then attr n v :: readAttrs ABefore s'
          else readAttrs (AQuoted n q (c :: v)) s'
      | AUnquoted n v =>
          if isAsciiSpace c then attr n v :: readAttrs ABefore s'
          else readAttrs (AUnquoted n (c :: v)) s'
      end
  end.

(** Of an attribute given twice the first one counts. *)
Fixpoint firstOfEach (seen : list jsstring) (attrs : list (jsstring * jsstring))
    : list (jsstring * jsstring) :=
  match attrs with
  | [] => []
  | (k, v) :: rest =>
      if existsb (streq k) seen then firstOfEach seen rest
      else (k, v) :: firstOfEach (k :: seen) rest
  end.

Fixpoint takeName (s : jsstring) : jsstring * jsstring :=
  match s with
  | [] => ([], [])
  | c :: s' =>
      if isAsciiSpace c || Ascii.eqb c (ch "/") then ([], s)
      else let '(name, rest) := takeName s' in (lowerChar c :: name, rest)
  end.

(** The token for what stands between [<] and [>]. *)
Definition tagToken (inside : jsstring) : token :=
  if startsWith (lit "!--") inside then
    TComment (firstn (length inside - 5) (skipn 3 inside))
  else
    match inside with
    | c :: rest =>
        if Ascii.eqb c (ch "!") then TDoctype
        else if Ascii.eqb c (ch "/") then TEnd (fst (takeName rest))
        else let '(name, more) := takeName inside in
             TStart name (firstOfEach [] (readAttrs ABefore more))
    | [] => TText (lit "<>")
    end.

Definition tagComplete (inside : jsstring) : bool :=
  if startsWith (lit "!--") inside then
    (5 <=? length inside) && startsWith (lit "--") (rev inside)
  else true.

Definition opensTag (s : jsstring) : bool :=
  match s with
  | c :: _ => isLetter c || Ascii.eqb c (ch "/") || Ascii.eqb c (ch "!")
  | [] => false
  end.

Definition flushText (buf : jsstring) : list token :=
  match buf with
  | [] => []
  | _ => [TText (decode (rev buf))]
  end.

(** [inTag] tells whether the characters read into [buf] (reversed) are
    inside a tag. *)
Fixpoint tokenize (inTag : bool) (buf : jsstring) (s : jsstring) : list token :=
  match s with
  | [] => if inTag then [TText (ch "<" :: rev buf)] else flushText buf
  | c :: s' =>
      if inTag then
        if Ascii.eqb c (ch ">") && tagComplete (rev buf)
        then tagToken (rev buf) :: tokenize false [] s'
        else tokenize true (c :: buf) s'
      else
        if Ascii.eqb c (ch "<") && opensTag s'
        then flushText buf ++ tokenize true [] s'
        else tokenize false (c :: buf) s'
  end.

(** An open element: its name, its attributes, and the nodes read before it
    at the level of its parent (newest first). *)
Definition frame := (jsstring * list (jsstring * jsstring) * list node)%type.

Definition closeFrame (f : frame) (cur : list node) : list node :=
  let '(name, attrs, before) := f in Element name attrs (rev cur) :: before.

Fixpoint closeAll (stack : list frame) (cur : list node) : list node :=
  match stack with
  | [] => cur
  | f :: stack' => closeAll stack' (closeFrame f cur)
  end.

Fixpoint closeUntil (name : jsstring) (stack : list frame) (cur : list node)
    : list frame * list node :=
  match stack with
  | [] => ([], cur)
  | f :: stack' =>
      if streq (fst (fst f)) name then (stack', closeFrame f cur)
      else closeUntil name stack' (closeFrame f cur)
  end.

Definition skippedTags : list jsstring := map lit ["html"; "head"; "body"]%string.

(** [cur] holds the children read so far of the innermost open element,
    newest first; the result is the list of top-level nodes, newest first. *)
Fixpoint build (toks : list token) (stack : list frame) (cur : list node) : list node :=
  match toks with
  | [] => closeAll stack cur
  | t :: toks' =>
      match t with
      | TText data => build toks' stack (Text data :: cur)
      | TComment data => build toks' stack (Comment data :: cur)
      | TDoctype => build toks' stack cur
      | TStart name attrs =>
          if existsb (streq name) skippedTags then build toks' stack cur
          else if isVoid name then build toks' stack (Element name attrs [] :: cur)
          else build toks' ((name, attrs, cur) :: stack) []
      | TEnd name =>
          if existsb (streq name) skippedTags then build toks' stack cur
          else if existsb (fun f : frame => streq (fst (fst f)) name) stack then
            let '(stack', cur') := closeUntil name stack cur in build toks' stack' cur'
          else build toks' stack cur
      end
  end.

Definition hasDoctype (toks : list token) : bool :=
  existsb (fun t => match t with TDoctype => true | _ => false end) toks.

(** [new DOMParser().parseFromString(html, 'text/html')] *)
Definition parseFromString (html : jsstring) : document :=
  let toks := tokenize false [] html in
  {| quirks := negb (hasDoctype toks);
     documentElement :=
       Element (lit "html") []
         [Element (lit "head") [] [];
          Element (lit "body") [] (rev (build toks [] []))] |}.

End HtmlReference.


(* ================================================================== *)
(** * The problem record (types.ts) *)
(* ================================================================== *)

Inductive ExamLevel := AMC8 | AMC10 | AMC12.

Inductive ProblemSource := AOPS | MOCK | AI_GENERATED.

Record ChatMessage := { role : jsstring; text : jsstring }.

Module Problem.
Record t := make {
  id : jsstring;
  source : ProblemSource;
  originalUrl : option jsstring;
  questionHtml : jsstring;
  images : list jsstring;
  options : list jsstring;
  correctOption : jsstring;
  solutionHtml : jsstring;
  difficulty : nat;
  userAnswer : option jsstring;
  isCorrect : option bool;
  hints : list jsstring;
  solutionChat : list ChatMessage;
  topic : option jsstring
}.
End Problem.

(* ================================================================== *)
(** * Scraper helpers and the problem assembler (geminiService.ts) *)
(* ================================================================== *)

Module Scraper.
Import Regex Json Dom.

(** constants.ts *)
Definition MODEL_FLASH : jsstring := lit "gemini-3-flash-preview".

(** ** The answer extractor's patterns *)

Definition optChar (s : string) : item := OptChr (CChar (ch s)).

(** [/\\boxed\s*\{\s*\\?textbf\s*\{\s*\(?\s*([A-E])\s*\)?\s*\}\s*\}/i] *)
Definition boxedTextbfRe : regex :=
  mkRegex (chars "\boxed" ++ [ws] ++ chars "{" ++ [ws; OptChr (CChar backslash)]
             ++ chars "textbf" ++ [ws] ++ chars "{"
             ++ [ws; optChar "("; ws; Group letterAE; ws; optChar ")"; ws]
             ++ chars "}" ++ [ws] ++ chars "}") true.

(** [/\\boxed\s*\{\s*\(?\s*([A-E])\s*\)?\s*\}/i] *)
Definition boxedRe : regex :=
  mkRegex (chars "\boxed" ++ [ws] ++ chars "{"
             ++ [ws; optChar "("; ws; Group letterAE; ws; optChar ")"; ws]
             ++ chars "}") true.

(** [/<[^>]+>/g] *)
Definition tagRe : regex :=
  mkRegex [Chr (CChar (ch "<")); PlusChr (CNot (CChar (ch ">"))); Chr (CChar (ch ">"))] false.

(** [/answer is\s*\(?([A-E])\)?/i] *)
Definition answerIsRe : regex :=
  mkRegex (chars "answer is" ++ [ws; optChar "("; Group letterAE; optChar ")"]) true.

(** [/[^A-E]/g] *)
Definition notLetterRe : regex := mkRegex [Chr (CNot letterAE)] false.

(** [html.match(boxed with textbf) || html.match(boxed)] *)
Definition boxedMatch (html : jsstring) : option (list jsstring) :=
  match matchRe boxedTextbfRe html with
  | Some m => Some m
  | None => matchRe boxedRe html
  end.

(** The prose pattern, looked for in the text with its tags removed. *)
Definition textMatch (html : jsstring) : option (list jsstring) :=
  matchRe answerIsRe (replaceAll tagRe [] html).

(** "Regex Extraction": the value of [correctOption] before the fallback. *)
Definition regexCorrectOption (html : jsstring) : jsstring :=
  match boxedMatch html with
  | Some m => group 1 m
  | None =>
      match textMatch html with
      | Some m => group 1 m
      | None => []
      end
  end.

(** ** The document segmenter *)

Inductive mode := question | solution | done.

Definition h3Open : jsstring :=
  lit "<h3 class=" ++ quoted "font-bold text-lg mt-6 mb-3 text-slate-800 border-b border-slate-200 pb-2"
    ++ lit ">".

(** The sub-heading put in front of a solution section. *)
Definition subHeading (title : jsstring) : jsstring := h3Open ++ title ++ lit "</h3>".

Section Segmenter.

Variable quirksMode : bool.
Variable outerHTML : node -> jsstring.

(** [curr.id || curr.querySelector('.mw-headline')?.id || ""] *)
Definition headingId (curr : node) : jsstring :=
  if nonEmpty (idOf curr) then idOf curr
  else
    match querySelector quirksMode [SelClass (lit "mw-headline")] curr with
    | Some headline => idOf headline
    | None => []
    end.

Definition isH2 (curr : node) : bool := streq (tagName curr) (lit "H2").

(** The test of the first [if] under [tag === 'H2']. *)
Definition saysSolution (curr : node) : bool :=
  includes (lit "Solution") (textContent curr)
  || includes (lit "Solution") (headingId curr)
  || includes (lit "Video Solution") (textContent curr).

(** The test of the second [if]. *)
Definition saysSeeAlso (curr : node) : bool :=
  includes (lit "See also") (textContent curr)
  || includes (lit "See Also") (textContent curr)
  || includes (lit "See_Also") (headingId curr).

Record walkState := mkWalk {
  w_mode : mode;
  questionAccumulator : jsstring;
  solutionAccumulator : jsstring
}.

(** [while (curr) { ... curr = curr.nextElementSibling; }] over the element
    siblings from [curr] on. *)
Fixpoint walk (siblings : list node) (st : walkState) : walkState :=
  match siblings with
  | [] => st
  | curr :: rest =>
      if isH2 curr && saysSolution curr then
        walk rest
          {| w_mode := solution;
             questionAccumulator := questionAccumulator st;
             solutionAccumulator :=
               solutionAccumulator st ++ subHeading (trim (textContent curr)) |}
      else if isH2 curr && saysSeeAlso curr then
        {| w_mode := done;
           questionAccumulator := questionAccumulator st;
           solutionAccumulator := solutionAccumulator st |}
      else
        walk rest
          match w_mode st with
          | question =>
              {| w_mode := question;
                 questionAccumulator := questionAccumulator st ++ outerHTML curr;
                 solutionAccumulator := solutionAccumulator st |}
          | solution =>
              {| w_mode := solution;
                 questionAccumulator := questionAccumulator st;
                 solutionAccumulator := solutionAccumulator st ++ outerHTML curr |}
          | done => st
          end
  end.

Definition segment (siblings : list node) : walkState :=
  walk siblings {| w_mode := question; questionAccumulator := []; solutionAccumulator := [] |}.

(** The heading the walk starts after. *)
Definition isProblemHeader (h : node) : bool :=
  matches quirksMode [SelTag (lit "h2")] h
  && (streq (idOf h) (lit "Problem")
      || streq (trim (textContent h)) (lit "Problem")
      || match querySelector quirksMode [SelId (lit "Problem")] h with
         | Some _ => true
         | None => false
         end).

(** Table-of-contents elements and redirect notices are removed first. *)
Definition isRedirectNotice (e : node) : bool :=
  matches quirksMode [SelTag (lit "dl")] e
  && (includes (lit "following problem is from") (textContent e)
      || includes (lit "redirects to this page") (textContent e)).

Definition stripNotices (contentDiv : node) : node :=
  removeWhere isRedirectNotice
    (removeWhere (matches quirksMode [SelClass (lit "toc"); SelId (lit "toc")]) contentDiv).

(** Where the walk starts: after the "Problem" heading, or at the first
    element child. *)
Definition startOfWalk (contentDiv : node) : list node :=
  match followingOfFirst isProblemHeader contentDiv with
  | Some following => following
  | None => elementChildren contentDiv
  end.

End Segmenter.

(** ** The HTML normaliser *)

Record cleaned := mkCleaned {
  html : jsstring;
  images : list jsstring
}.

Definition isLatexImage (quirksMode : bool) (n : node) : bool :=
  matches quirksMode
    [SelTagClass (lit "img") (lit "latex"); SelTagClass (lit "img") (lit "latexcenter")] n.

(** The first [forEach]: the span that takes the place of a LaTeX image. *)
Definition latexReplacement (quirksMode : bool) (img : node) : option node :=
  if isLatexImage quirksMode img then
    match getAttribute (lit "alt") img with
    | Some alt =>
        if nonEmpty alt && negb (startsWith (lit "[asy]") (trim alt))
        then Some (Element (lit "span") [] [Text (lit " " ++ alt ++ lit " ")])
        else None
    | None => None
    end
  else None.

Definition absoluteSrc (src : jsstring) : jsstring :=
  if startsWith (lit "//") src then lit "https:" ++ src
  else if startsWith (lit "/") src then lit "https://artofproblemsolving.com" ++ src
  else src.

(** The second [forEach]: the new [src] of an image, when it has one. *)
Definition imageSrc (quirksMode : bool) (n : node) : option jsstring :=
  if matches quirksMode [SelTag (lit "img")] n then
    match getAttribute (lit "src") n with
    | Some src => if nonEmpty src then Some (absoluteSrc src) else None
    | None => None
    end
  else None.

Definition fixImage (quirksMode : bool) (n : node) : node :=
  match imageSrc quirksMode n with
  | Some src => setAttribute (lit "src") src n
  | None => n
  end.

(** [if (!images.includes(src)) images.push(src)] *)
Definition pushNew (images : list jsstring) (src : jsstring) : list jsstring :=
  if existsb (streq src) images then images else images ++ [src].

(** The third [forEach]. *)
Definition fixLink (quirksMode : bool) (n : node) : node :=
  if matches quirksMode [SelTag (lit "a")] n then
    match getAttribute (lit "href") n with
    | Some href =>
        if nonEmpty href && startsWith (lit "/") href then
          setAttribute (lit "target") (lit "_blank")
            (setAttribute (lit "href") (lit "https://artofproblemsolving.com" ++ href) n)
        else n
    | None => n
    end
  else n.

(** The three passes over the parsed document. *)
Definition restoreLatex (quirksMode : bool) (docNode : node) : node :=
  replaceWhere (latexReplacement quirksMode) docNode.

Definition normalizeTree (quirksMode : bool) (docNode : node) : node :=
  updateElements (fixLink quirksMode)
    (updateElements (fixImage quirksMode) (restoreLatex quirksMode docNode)).

Definition collectImages (quirksMode : bool) (docNode : node) : list jsstring :=
  fold_left pushNew
    (flat_map (fun n => match imageSrc quirksMode n with
                        | Some src => [src]
                        | None => []
                        end)
              (descendants docNode))
    [].

Section Normalizer.

Variable parseFromString : jsstring -> document.
Variable innerHTML : node -> jsstring.

(** Reading [doc.body.innerHTML] raises a TypeError when there is no body. *)
Definition cleanAndRestoreLatex (rawHtml : jsstring) : completion cleaned :=
  let doc := parseFromString (lit "<div>" ++ rawHtml ++ lit "</div>") in
  let restored := restoreLatex (quirks doc) (documentNode doc) in
  let images := collectImages (quirks doc) restored in
  match bodyOf (normalizeTree (quirks doc) (documentNode doc)) with
  | Some body => Return {| html := innerHTML body; images := images |}
  | None => Throw (Error (lit "Cannot read properties of null (reading 'innerHTML')"))
  end.

End Normalizer.

(** ** The network, the model and the console *)

(** A [fetch] response: [res.ok], [res.status], and what [res.text()] and
    [res.json()] resolve to or reject with. *)
Record Response := mkResponse {
  ok : bool;
  status : N;
  bodyText : completion jsstring;
  bodyJson : completion value
}.

(** A [generateContent] response: [response.text], [None] for [undefined]. *)
Record AiResponse := mkAiResponse { aiText : option jsstring }.

(** A [console.warn] call: its message and the error passed along, if any. *)
Record warning := mkWarning {
  warnMessage : jsstring;
  warnError : option error
}.

Section Effects.

(** The outside world: the network and the model service. *)
Variable World : Type.

Record env := mkEnv {
  world : World;
  console : list warning
}.

(** An asynchronous computation: it returns or raises, and leaves the world
    and the console changed. *)
Definition M (A : Type) : Type := env -> completion A * env.

Definition ret {A} (a : A) : M A := fun s => (Return a, s).
Definition throw {A} (e : error) : M A := fun s => (Throw e, s).
Definition lift {A} (c : completion A) : M A := fun s => (c, s).

Definition bindM {A B} (m : M A) (k : A -> M B) : M B :=
  fun s =>
    match m s with
    | (Return a, s') => k a s'
    | (Throw e, s') => (Throw e, s')
    end.

(** [try { m } catch (e) { handler e }] *)
Definition tryM {A} (m : M A) (handler : error -> M A) : M A :=
  fun s =>
    match m s with
    | (Return a, s') => (Return a, s')
    | (Throw e, s') => handler e s'
    end.

Definition consoleWarn (msg : jsstring) (e : option error) : M unit :=
  fun s => (Return tt, {| world := world s; console := console s ++ [mkWarning msg e] |}).

Definition onWorld {A} (f : World -> completion A * World) : M A :=
  fun s => let '(r, w) := f (world s) in (r, {| world := w; console := console s |}).

Local Notation "x <- m ;; k" := (bindM m (fun x => k))
  (at level 61, m at next level, right associativity).
Local Notation "m ;;; k" := (bindM m (fun _ => k))
  (at level 61, right associativity).

Variable fetch : jsstring -> World -> completion Response * World.
Variable apiKey : World -> option jsstring.
Variable generateContent : jsstring -> jsstring -> World -> completion AiResponse * World.
Variable parseFromString : jsstring -> document.
Variable outerHTML : node -> jsstring.
Variable innerHTML : node -> jsstring.
(** [String(v)] for a parsed value that is not a string. *)
Variable ToString : value -> jsstring.

(** ** Proxy fetcher *)

(** The result is what the caller gets: the text of the primary answer, or
    the [contents] member of the backup's answer, whatever its type. *)
Definition fetchViaProxy (url : jsstring) (retries : nat) : M value :=
  tryM
    (let proxyUrl := lit "https://corsproxy.io/?" ++ encodeURIComponent url in
     res <- onWorld (fetch proxyUrl) ;;
     if negb (ok res) then
       throw (Error (lit "Primary Proxy Error: " ++ numToString (status res)))
     else
       text <- lift (bodyText res) ;;
       if negb (nonEmpty text) || (length text <? 100) then
         throw (Error (lit "Empty contents"))
       else ret (JString text))
    (fun e =>
       if 0 <? retries then
         tryM
           (let backupUrl :=
              lit "https://api.allorigins.win/get?url=" ++ encodeURIComponent url in
            res <- onWorld (fetch backupUrl) ;;
            if negb (ok res) then
              throw (Error (lit "Backup Proxy Error: " ++ numToString (status res)))
            else
              data <- lift (bodyJson res) ;;
              contents <- lift (getProperty data (lit "contents")) ;;
              match contents with
              | Some v =>
                  if truthy contents then ret v
                  else throw (Error (lit "Empty contents from backup"))
              | None => throw (Error (lit "Empty contents from backup"))
              end)
           (fun e2 => consoleWarn (lit "Both proxies failed") None ;;; throw e2)
       else throw e).

(** ** AI fallback of the answer extractor *)

Definition getAiClient : M unit :=
  fun s =>
    match apiKey (world s) with
    | Some key =>
        if nonEmpty key then (Return tt, s)
        else (Throw (Error (lit "API Key not found in environment")), s)
    | None => (Throw (Error (lit "API Key not found in environment")), s)
    end.

Definition indent : jsstring := lit "            ".

Definition extractionPrompt (solutionText : jsstring) : jsstring :=
  lit "Identify the final answer letter (A, B, C, D, or E) from this math solution text."
    ++ [newline] ++ indent ++ [newline] ++ indent ++ lit "Solution: " ++ [dquote]
    ++ substring 0 1000 solutionText ++ lit "..." ++ [dquote]
    ++ [newline] ++ indent ++ [newline] ++ indent
    ++ lit "Return ONLY the letter. If not found, return X.".

(** [response.text?.trim().toUpperCase().replace(/[^A-E]/g, '') || ""], then
    its first character.  Only the ASCII part of the case mapping matters,
    since everything but A to E is deleted next. *)
Definition firstLetter (responseText : option jsstring) : jsstring :=
  let text :=
    match responseText with
    | Some t => replaceAll notLetterRe [] (toUpperCase (trim t))
    | None => []
    end in
  match text with
  | c :: _ => [c]
  | [] => []
  end.

Definition extractCorrectOptionWithAI (solutionText : jsstring) : M jsstring :=
  getAiClient ;;;
  tryM
    (response <- onWorld (generateContent MODEL_FLASH (extractionPrompt solutionText)) ;;
     ret (firstLetter (aiText response)))
    (fun e => ret []).

(** ** Answer extractor *)

(** The ordered strategies: the two patterns first, the model only when
    they found nothing. *)
Definition extractAnswer (solutionHtml : jsstring) : M jsstring :=
  let found := regexCorrectOption solutionHtml in
  if nonEmpty found then ret found
  else extractCorrectOptionWithAI solutionHtml.

(** ** Problem assembler *)

Definition domString (v : value) : jsstring :=
  match v with
  | JString s => s
  | other => ToString other
  end.

Definition placeholderSolution : jsstring := lit "<p>Solution parsing failed.</p>".

(** The statements inside the [try] of [fetchAoPSProblem]. *)
Definition scrapeProblem (url id : jsstring) (level : ExamLevel) : M Problem.t :=
  fetched <- fetchViaProxy url 1 ;;
  let doc := parseFromString (domString fetched) in
  match querySelector (quirks doc) [SelClass (lit "mw-parser-output")] (documentNode doc) with
  | None => throw (Error (lit "Could not find content (.mw-parser-output)"))
  | Some contentDiv =>
      let contentDiv := stripNotices (quirks doc) contentDiv in
      let walked :=
        segment (quirks doc) outerHTML (startOfWalk (quirks doc) contentDiv) in
      if negb (nonEmpty (trim (questionAccumulator walked))) then
        throw (Error (lit "No question content found"))
      else
        questionData <-
          lift (cleanAndRestoreLatex parseFromString innerHTML (questionAccumulator walked)) ;;
        solutionData <-
          lift (cleanAndRestoreLatex parseFromString innerHTML
                  (if nonEmpty (solutionAccumulator walked)
                   then solutionAccumulator walked else placeholderSolution)) ;;
        correctOption <- extractAnswer (html solutionData) ;;
        ret {| Problem.id := id;
               Problem.source := AOPS;
               Problem.originalUrl := Some url;
               Problem.questionHtml := html questionData;
               Problem.images := images questionData;
               Problem.options := map lit ["A"; "B"; "C"; "D"; "E"]%string;
               Problem.correctOption := correctOption;
               Problem.solutionHtml := html solutionData;
               Problem.difficulty := 5;
               Problem.userAnswer := None;
               Problem.isCorrect := None;
               Problem.hints := [];
               Problem.solutionChat := [];
               Problem.topic := None |}
  end.

(** [try { ... return problem } catch (e) { console.warn(...); return null }] *)
Definition fetchAoPSProblem (url id : jsstring) (level : ExamLevel) : M (option Problem.t) :=
  tryM
    (problem <- scrapeProblem url id level ;; ret (Some problem))
    (fun e =>
       consoleWarn (lit "Scraping error for " ++ url ++ lit ":") (Some e) ;;; ret None).

End Effects.

End Scraper.

(* ================================================================== *)
(** * Catalog generator (prefetch service) *)
(* ================================================================== *)

Module Catalog.

(** constants.ts *)
Definition AMC8_START_YEAR : N := 1985.
Definition AMC10_12_START_YEAR : N := 2000.
Definition CURRENT_YEAR : N := 2025.

Definition ExamLevel_eqb (a b : ExamLevel) : bool :=
  match a, b with
  | AMC8, AMC8 | AMC10, AMC10 | AMC12, AMC12 => true
  | _, _ => false
  end.

Record PrefetchTask := mkTask {
  url : jsstring;
  id : jsstring;
  level : ExamLevel;
  year : N;
  examType : jsstring
}.

(** The inner helper [addTask]: the tasks it pushes, for [i = 1 .. count]. *)
Definition addTask (y : N) (lvl : ExamLevel) (wikiName display idSuffix : jsstring)
    (count : nat) : list PrefetchTask :=
  map (fun i =>
         {| url := lit "https://artofproblemsolving.com/wiki/index.php?title="
                     ++ numToString y ++ lit "_" ++ wikiName
                     ++ lit "_Problems/Problem_" ++ numToString (N.of_nat i);
            id := numToString y ++ lit "-" ++ idSuffix ++ lit "-" ++ numToString (N.of_nat i);
            level := lvl;
            year := y;
            examType := display |})
      (seq 1 count).

(** [for (let y = from; y >= to; y--) body(y)]: the loop runs
    [from + 1 - to] times, on [from], [from - 1], ..., [to]. *)
Fixpoint forYearsDownN (n : nat) (from : N) (body : N -> list PrefetchTask) : list PrefetchTask :=
  match n with
  | 0 => []
  | S n' => body from ++ forYearsDownN n' (from - 1)%N body
  end.

Definition forYearsDown (from to : N) (body : N -> list PrefetchTask) : list PrefetchTask :=
  forYearsDownN (N.to_nat (from + 1 - to)) from body.

Definition amc8Year (y : N) : list PrefetchTask :=
  let isAjhsme := (y <=? 1998)%N in
  let name := if isAjhsme then lit "AJHSME" else lit "AMC_8" in
  let display := if isAjhsme then lit "AJHSME" else lit "AMC 8" in
  addTask y AMC8 name display (lit "amc8") 25.

Definition amc10Year (y : N) : list PrefetchTask :=
  if (y =? 2000)%N || (y =? 2001)%N then
    addTask y AMC10 (lit "AMC_10") (lit "AMC 10") (lit "amc10") 25
  else
    addTask y AMC10 (lit "AMC_10A") (lit "AMC 10A") (lit "amc10a") 25
    ++ addTask y AMC10 (lit "AMC_10B") (lit "AMC 10B") (lit "amc10b") 25.

Definition amc12Year (y : N) : list PrefetchTask :=
  if (y =? 2000)%N || (y =? 2001)%N then
    addTask y AMC12 (lit "AMC_12") (lit "AMC 12") (lit "amc12") 25
  else
    addTask y AMC12 (lit "AMC_12A") (lit "AMC 12A") (lit "amc12a") 25
    ++ addTask y AMC12 (lit "AMC_12B") (lit "AMC 12B") (lit "amc12b") 25.

Definition generateFullCatalogQueue : list PrefetchTask :=
  forYearsDown CURRENT_YEAR AMC8_START_YEAR amc8Year
  ++ forYearsDown CURRENT_YEAR AMC10_12_START_YEAR amc10Year
  ++ forYearsDown CURRENT_YEAR AMC10_12_START_YEAR amc12Year.

(** The problem number of a task, as the runner reads it back:
    [task.id.split('-').pop()]. *)
Definition problemNumber (t : PrefetchTask) : jsstring :=
  lastSegment (ch "-") (id t).

(** The tasks of one (family, year, variant) combination, in queue order. *)
Definition tasksOf (lvl : ExamLevel) (y : N) (variant : jsstring)
    (q : list PrefetchTask) : list PrefetchTask :=
  filter (fun t => ExamLevel_eqb (level t) lvl && (year t =? y)%N && streq (examType t) variant) q.

(** The variants a family has in a year: the distinct [examType]s, in order
    of first appearance. *)
Fixpoint dedup (l : list jsstring) : list jsstring :=
  match l with
  | [] => []
  | x :: l' => x :: filter (fun z => negb (streq x z)) (dedup l')
  end.

Definition variantsOf (lvl : ExamLevel) (y : N) (q : list PrefetchTask) : list jsstring :=
  dedup (map examType (filter (fun t => ExamLevel_eqb (level t) lvl && (year t =? y)%N) q)).

End Catalog.

(* ================================================================== *)
(** * Batch harvester (prefetch service) *)
(* ================================================================== *)

Module Harvester.
Import Catalog.

Record PrefetchStats := mkStats {
  total : nat;
  success : nat;
  failed : nat;
  currentYear : N;
  currentExam : jsstring
}.

(** What the runner does to the outside, in order. *)
Inductive event :=
| EvProgress (stats : PrefetchStats) (log : jsstring) (result : option Problem.t)
| EvFetch (task : PrefetchTask) (outcome : completion (option Problem.t))
| EvConsoleError (e : error)
| EvWait (ms : nat).

Section Runner.

(** Everything outside the function: the caller's state behind [onProgress],
    the network behind [fetchAoPSProblem], and the shared [stopSignal]
    object, which the caller may write whenever it runs, that is inside the
    callback and while the runner is suspended at an [await].  The callback
    is the caller's code: it may raise. *)
Variable World : Type.
Variable stop : World -> bool.
Variable onProgress :
  PrefetchStats -> jsstring -> option Problem.t -> World -> completion unit * World.
Variable fetchAoPSProblem :
  jsstring -> jsstring -> ExamLevel -> World -> completion (option Problem.t) * World.
Variable wait : nat -> World -> World.

(** The local variables of [processPrefetchQueue], the world, and the trace
    of what has been done so far (newest event last). *)
Record state := mkState {
  st_success : nat;
  st_failed : nat;
  st_i : nat;
  st_world : World;
  st_trace : list event
}.

(** A call of the callback: how it completes, the world it leaves, and the
    trace with the call recorded. *)
Definition callProgress (stats : PrefetchStats) (log : jsstring)
    (result : option Problem.t) (w : World) (tr : list event)
    : completion unit * World * list event :=
  let '(r, w') := onProgress stats log result w in
  (r, w', tr ++ [EvProgress stats log result]).

(** One turn of the [for] loop, after the stop check.  [Some e] is an error
    that leaves the loop and rejects the promise of the run: the first
    report is made outside the [try], and the catch clause has no handler
    around its own report.  Inside the [try] are the attempt and the report
    on what it returned; an error raised by either reaches the catch
    clause. *)
Definition iteration (queueLength : nat) (task : PrefetchTask) (st : state)
    : option error * state :=
  let i := st_i st in
  let stats s f :=
    {| total := queueLength; success := s; failed := f;
       currentYear := year task; currentExam := examType task |} in
  let '(r1, w1, tr1) :=
    callProgress (stats (st_success st) (st_failed st))
      (lit "Fetching [" ++ numToString (N.of_nat (i + 1)) ++ lit "/"
         ++ numToString (N.of_nat queueLength) ++ lit "]: " ++ examType task
         ++ lit " #" ++ lastSegment (ch "-") (id task) ++ lit "...")
      None (st_world st) (st_trace st) in
  match r1 with
  | Throw e =>
      (Some e,
       {| st_success := st_success st; st_failed := st_failed st; st_i := i;
          st_world := w1; st_trace := tr1 |})
  | Return _ =>
      let '(outcome, w2) := fetchAoPSProblem (url task) (id task) (level task) w1 in
      let tr2 := tr1 ++ [EvFetch task outcome] in
      (* try { ... } *)
      let '(s3, f3, (r3, w3, tr3)) :=
        match outcome with
        | Return (Some problem) =>
            let s := S (st_success st) in
            (s, st_failed st,
             callProgress (stats s (st_failed st)) (lit "SUCCESS: " ++ id task)
               (Some problem) w2 tr2)
        | Return None =>
            let f := S (st_failed st) in
            (st_success st, f,
             callProgress (stats (st_success st) f)
               (lit "FAILED: " ++ id task ++ lit " (No data returned)") None w2 tr2)
        | Throw e => (st_success st, st_failed st, (Throw e, w2, tr2))
        end in
      (* catch (e) { ... } *)
      let '(f4, (r4, w4, tr4)) :=
        match r3 with
        | Return _ => (f3, (Return tt, w3, tr3))
        | Throw e =>
            let f := S f3 in
            (f,
             callProgress (stats s3 f)
               (lit "ERROR: " ++ id task ++ lit " - " ++ message e) None
               w3 (tr3 ++ [EvConsoleError e]))
        end in
      match r4 with
      | Throw e =>
          (Some e,
           {| st_success := s3; st_failed := f4; st_i := i;
              st_world := w4; st_trace := tr4 |})
      | Return _ =>
          (None,
           {| st_success := s3; st_failed := f4; st_i := S i;
              st_world := wait 800 w4; st_trace := tr4 ++ [EvWait 800] |})
      end
  end.

(** [for (let i = 0; i < queue.length; i++) { if (stopSignal.stop) break; ... }] *)
Fixpoint loop (queueLength : nat) (rest : list PrefetchTask) (st : state)
    : option error * state :=
  match rest with
  | [] => (None, st)
  | task :: rest' =>
      if stop (st_world st) then (None, st)
      else
        match iteration queueLength task st with
        | (None, st') => loop queueLength rest' st'
        | aborted => aborted
        end
  end.

Definition initial (w : World) : state :=
  {| st_success := 0; st_failed := 0; st_i := 0; st_world := w; st_trace := [] |}.

Definition processPrefetchQueue (queue : list PrefetchTask) (w : World)
    : option error * state :=
  loop (length queue) queue (initial w).

(** The given tasks processed one after the other, without the stop check,
    up to the first turn that an error leaves. *)
Fixpoint turns (queueLength : nat) (tasks : list PrefetchTask) (st : state)
    : option error * state :=
  match tasks with
  | [] => (None, st)
  | task :: tasks' =>
      match iteration queueLength task st with
      | (None, st') => turns queueLength tasks' st'
      | aborted => aborted
      end
  end.

(** The state after the first [k] tasks of the queue have been processed
    one after the other. *)
Definition afterTasks (queue : list PrefetchTask) (k : nat) (w : World)
    : option error * state :=
  turns (length queue) (firstn k queue) (initial w).

End Runner.

(** Reading a trace. *)
Definition isProgress (e : event) : bool :=
  match e with EvProgress _ _ _ => true | _ => false end.

Definition fetchedTasks (tr : list event) : list PrefetchTask :=
  flat_map (fun e => match e with EvFetch t _ => [t] | _ => [] end) tr.

Definition outcomes (tr : list event) : list (completion (option Problem.t)) :=
  flat_map (fun e => match e with EvFetch _ o => [o] | _ => [] end) tr.

(** The arguments of the calls of [onProgress], in order. *)
Definition report : Type := PrefetchStats * jsstring * option Problem.t.

Definition progressCalls (tr : list event) : list report :=
  flat_map (fun e => match e with EvProgress s l r => [(s, l, r)] | _ => [] end) tr.

Inductive classification := Success | SoftFailure | HardFailure.

Definition classify (o : completion (option Problem.t)) : classification :=
  match o with
  | Return (Some _) => Success
  | Return None => SoftFailure
  | Throw _ => HardFailure
  end.

Definition isSuccess (o : completion (option Problem.t)) : bool :=
  match classify o with Success => true | _ => false end.

(** The events of one task: a progress report, the attempt, then (after
    [console.error] for a raised error) a second progress report, then the
    pacing delay. *)
Inductive taskBlock (t : PrefetchTask) : list event -> Prop :=
| block_returned s1 l1 o s2 l2 r ms :
    classify o <> HardFailure ->
    taskBlock t [EvProgress s1 l1 None; EvFetch t o; EvProgress s2 l2 r; EvWait ms]
| block_raised s1 l1 e s2 l2 r ms :
    taskBlock t [EvProgress s1 l1 None; EvFetch t (Throw e); EvConsoleError e;
                 EvProgress s2 l2 r; EvWait ms].

End Harvester.

(* ================================================================== *)
(** * Retry with backoff (geminiService.ts) *)
(* ================================================================== *)

(** The message of an [Error], under a name that the records below do not
    hide. *)
Definition errorMessage (e : error) : jsstring := message e.

Module Retry.

(** What an API call rejects with, as far as the code looks at it:
    [error.status], a number when it is there, and [error.message], a
    string when it is there.  Both are absent for [null] and
    [undefined]. *)
Record failure := mkFailure {
  status : option N;
  message : option jsstring
}.

(** How a promise settles. *)
Inductive outcome (T : Type) : Type :=
| Resolved (v : T)
| Rejected (e : failure).
Arguments Resolved {T} v.
Arguments Rejected {T} e.

(** [error?.status === 429 || error?.message?.includes('429')
     || error?.message?.includes('quota')] *)
Definition isRateLimit (e : failure) : bool :=
  match status e with
  | Some n => (n =? 429)%N
  | None => false
  end
  || match message e with
     | Some m => includes (lit "429") m || includes (lit "quota") m
     | None => false
     end.

(** [error?.status >= 500] *)
Definition isServerErr (e : failure) : bool :=
  match status e with
  | Some n => (500 <=? n)%N
  | None => false
  end.

Definition retryable (e : failure) : bool := isRateLimit e || isServerErr e.

(** [`API Error (${error.status || 'Unknown'}). Retrying in ${delay}ms... (${retries} left)`] *)
Definition retryWarning (e : failure) (delay : N) (retries : nat) : jsstring :=
  lit "API Error ("
    ++ match status e with
       | Some n => if (n =? 0)%N then lit "Unknown" else numToString n
       | None => lit "Unknown"
       end
    ++ lit "). Retrying in " ++ numToString delay ++ lit "ms... ("
    ++ numToString (N.of_nat retries) ++ lit " left)".

(** What the wrapper does, in order. *)
Inductive event (T : Type) : Type :=
| EvAttempt (o : outcome T)
| EvWarn (msg : jsstring)
| EvWait (ms : N).
Arguments EvAttempt {T} o.
Arguments EvWarn {T} msg.
Arguments EvWait {T} ms.

Section Backoff.

Variable World : Type.
Variable T : Type.
(** The call to repeat, the console and the timer. *)
Variable fn : World -> outcome T * World.
Variable consoleWarn : jsstring -> World -> World.
Variable wait : N -> World -> World.

(** [retryWithBackoff(fn, retries, delay)], from world [w], with the trace
    [tr] of what has been done so far. *)
Fixpoint retryWithBackoff (retries : nat) (delay : N) (w : World) (tr : list (event T))
    : outcome T * World * list (event T) :=
  let '(o, w1) := fn w in
  let tr1 := tr ++ [EvAttempt o] in
  match o with
  | Resolved v => (Resolved v, w1, tr1)
  | Rejected e =>
      match retries with
      | S retries' =>
          if retryable e then
            let msg := retryWarning e delay retries in
            retryWithBackoff retries' (delay * 2)%N (wait delay (consoleWarn msg w1))
              (tr1 ++ [EvWarn msg; EvWait delay])
          else (Rejected e, w1, tr1)
      | 0 => (Rejected e, w1, tr1)
      end
  end.

(** The call with the default arguments, [retries = 3] and [delay = 3000],
    as every caller makes it. *)
Definition retried (w : World) : outcome T * World :=
  fst (retryWithBackoff 3 3000 w []).

End Backoff.

(** Reading a trace. *)
Definition attempts {T} (tr : list (event T)) : list (outcome T) :=
  flat_map (fun ev => match ev with EvAttempt o => [o] | _ => [] end) tr.

Definition waits {T} (tr : list (event T)) : list N :=
  flat_map (fun ev => match ev with EvWait ms => [ms] | _ => [] end) tr.

Definition warnings {T} (tr : list (event T)) : list jsstring :=
  flat_map (fun ev => match ev with EvWarn msg => [msg] | _ => [] end) tr.

End Retry.

(* ================================================================== *)
(** * Problems of an exam (types.ts) *)
(* ================================================================== *)

Module Exam.
Import Json.

(** A [Problem] object as the exam services handle it.  The members that
    the generators copy from a model's JSON are whatever the model sent, so
    they are JSON values, absent ([None]) for [undefined]; [difficulty] is
    any number. *)
Record problem := mkProblem {
  id : jsstring;
  source : ProblemSource;
  originalUrl : option jsstring;
  questionHtml : option value;
  images : list jsstring;
  options : value;
  correctOption : option jsstring;
  solutionHtml : option value;
  difficulty : Q;
  userAnswer : option jsstring;
  isCorrect : option bool;
  hints : list jsstring;
  solutionChat : list ChatMessage;
  topic : option jsstring
}.

(** The same object, seen from the scraper's record. *)
Definition ofScraped (p : Problem.t) : problem :=
  {| id := Problem.id p;
     source := Problem.source p;
     originalUrl := Problem.originalUrl p;
     questionHtml := Some (JString (Problem.questionHtml p));
     images := Problem.images p;
     options := JArray (map JString (Problem.options p));
     correctOption := Some (Problem.correctOption p);
     solutionHtml := Some (JString (Problem.solutionHtml p));
     difficulty := inject_Z (Z.of_nat (Problem.difficulty p));
     userAnswer := Problem.userAnswer p;
     isCorrect := Problem.isCorrect p;
     hints := Problem.hints p;
     solutionChat := Problem.solutionChat p;
     topic := Problem.topic p |}.

(** [p.difficulty = d] *)
Definition setDifficulty (d : Q) (p : problem) : problem :=
  {| id := id p; source := source p; originalUrl := originalUrl p;
     questionHtml := questionHtml p; images := images p; options := options p;
     correctOption := correctOption p; solutionHtml := solutionHtml p;
     difficulty := d;
     userAnswer := userAnswer p; isCorrect := isCorrect p; hints := hints p;
     solutionChat := solutionChat p; topic := topic p |}.

(** [Math.min], [Math.max], and the clamp to the 1-10 scale that the
    services write as [Math.max(1, Math.min(10, x))]. *)
Definition Math_min (a b : Q) : Q := if Qle_bool a b then a else b.
Definition Math_max (a b : Q) : Q := if Qle_bool a b then b else a.
Definition clamp (x : Q) : Q := Math_max 1 (Math_min 10 x).

(** [problems.sort((a, b) => a.difficulty - b.difficulty)]: the sort of the
    language is stable, and the comparator is a consistent order on
    numbers, so the result is the stable arrangement in ascending order. *)
Fixpoint insertByDifficulty (p : problem) (sorted : list problem) : list problem :=
  match sorted with
  | [] => [p]
  | p' :: rest =>
      if Qle_bool (difficulty p) (difficulty p') then p :: sorted
      else p' :: insertByDifficulty p rest
  end.

Definition sortByDifficulty (problems : list problem) : list problem :=
  fold_right insertByDifficulty [] problems.

End Exam.

(* ================================================================== *)
(** * The model-backed services (geminiService.ts) *)
(* ================================================================== *)

Module Ai.
Import Regex Json JsonRecovery Retry Exam.

(** constants.ts *)
Definition MODEL_FLASH : jsstring := lit "gemini-3-flash-preview".
Definition MODEL_PRO : jsstring := lit "gemini-3-pro-preview".

(** The values of the [ExamLevel] enum. *)
Definition levelName (level : ExamLevel) : jsstring :=
  match level with
  | AMC8 => lit "AMC 8"
  | AMC10 => lit "AMC 10"
  | AMC12 => lit "AMC 12"
  end.

Inductive Difficulty := Easy | Medium | Hard | Extreme.

Definition difficultyName (d : Difficulty) : jsstring :=
  match d with
  | Easy => lit "Easy"
  | Medium => lit "Medium"
  | Hard => lit "Hard"
  | Extreme => lit "Extreme"
  end.

(** [new Error(msg)], and the TypeError of a member access or method call
    on a value that has none. *)
Definition newError (msg : string) : failure := mkFailure None (Some (lit msg)).
Definition typeError : failure := newError "TypeError".

Definition ofCompletion {A} (c : completion A) : outcome A :=
  match c with
  | Return a => Resolved a
  | Throw e => Rejected (mkFailure None (Some (errorMessage e)))
  end.

(** The [config] members of the requests. *)
Definition searchConfig : value :=
  JObject [(lit "tools", JArray [JObject [(lit "googleSearch", JObject [])]])].
Definition thinkingConfig : value :=
  JObject [(lit "thinkingBudget", JNumber 1024)].
Definition jsonConfig : value :=
  JObject [(lit "responseMimeType", JString (lit "application/json"))].

Definition letters : list jsstring := map lit ["A"; "B"; "C"; "D"; "E"]%string.

(** [v || fallback] on a member that may be absent. *)
Definition orElse (v : option value) (fallback : value) : value :=
  match v with
  | Some x => if truthy v then x else fallback
  | None => fallback
  end.

Section Services.

Variable World : Type.
(** [process.env.API_KEY], the model client, the console and the timer. *)
Variable apiKey : World -> option jsstring.
Variable generateContent :
  jsstring -> jsstring -> option value -> World -> outcome Scraper.AiResponse * World.
Variable consoleWarn : jsstring -> option failure -> World -> World.
Variable wait : N -> World -> World.
(** [JSON.parse], [JSON.stringify], and [String(v)] for a parsed value that
    is not a string. *)
Variable JSON_parse : jsstring -> completion value.
Variable JSON_stringify : value -> jsstring.
Variable ToString : value -> jsstring.

(** [console.warn(msg)] with one argument. *)
Definition warn (msg : jsstring) : World -> World := consoleWarn msg None.

Definition getAiClient (w : World) : outcome unit :=
  match apiKey w with
  | Some key => if nonEmpty key then Resolved tt
                else Rejected (newError "API Key not found in environment")
  | None => Rejected (newError "API Key not found in environment")
  end.

(** [String(v)] and [v.toString()] *)
Definition stringOf (v : value) : jsstring :=
  match v with
  | JString s => s
  | other => ToString other
  end.

(** [`${v}`] for a member that may be absent, and for a string that may. *)
Definition interpolate (v : option value) : jsstring :=
  match v with
  | Some x => stringOf x
  | None => lit "undefined"
  end.

Definition interpolateText (s : option jsstring) : jsstring :=
  match s with
  | Some x => x
  | None => lit "undefined"
  end.

(** [v?.toString()] *)
Definition optionalToString (v : option value) : option jsstring :=
  match v with
  | None => None
  | Some JNull => None
  | Some x => Some (stringOf x)
  end.

Definition parse (response : Scraper.AiResponse) : outcome value :=
  ofCompletion (parseJsonFromResponse JSON_parse (Scraper.aiText response)).

(** ** fetchMockProblem *)

Definition mockPrompt (level : ExamLevel) : jsstring :=
  [newline] ++ lit "    Find a unique practice problem from a mock " ++ levelName level
    ++ lit " competition online." ++ [newline]
    ++ lit "    Extract problem text, solve it, and provide the correct option." ++ [newline]
    ++ lit "    OUTPUT JSON: { " ++ [dquote] ++ lit "questionHtml" ++ [dquote] ++ lit ": "
    ++ [dquote] ++ lit "..." ++ [dquote] ++ lit ", " ++ [dquote] ++ lit "correctOption"
    ++ [dquote] ++ lit ": " ++ [dquote] ++ lit "A" ++ [dquote] ++ lit ", " ++ [dquote]
    ++ lit "solutionHtml" ++ [dquote] ++ lit ": " ++ [dquote] ++ lit "..." ++ [dquote]
    ++ lit " }" ++ [newline] ++ lit "  ".

(** The function passed to the retry wrapper. *)
Definition mockAttempt (level : ExamLevel) (id : jsstring) (w : World)
    : outcome problem * World :=
  let '(r, w1) := generateContent MODEL_FLASH (mockPrompt level) (Some searchConfig) w in
  (match r with
   | Rejected e => Rejected e
   | Resolved response =>
       match parse response with
       | Rejected e => Rejected e
       | Resolved data =>
           if negb (truthy (Some data)) then Rejected (newError "Failed to parse JSON content.")
           else
             match getProperty data (lit "questionHtml"),
                   getProperty data (lit "correctOption"),
                   getProperty data (lit "solutionHtml") with
             | Return question, Return answer, Return solution =>
                 if negb (truthy question) then
                   Rejected (newError "Failed to parse JSON content.")
                 else
                   Resolved
                     {| id := id;
                        source := MOCK;
                        originalUrl := None;
                        questionHtml := question;
                        images := [];
                        options := JArray (map JString letters);
                        correctOption :=
                          Some (match optionalToString answer with
                                | Some s => s
                                | None => []
                                end);
                        solutionHtml := Some (orElse solution (JString []));
                        difficulty := 5;
                        userAnswer := None;
                        isCorrect := None;
                        hints := [];
                        solutionChat := [];
                        topic := None |}
             | _, _, _ => Rejected typeError
             end
       end
   end, w1).

Definition fetchMockProblem (level : ExamLevel) (id : jsstring) (w : World)
    : outcome problem * World :=
  match getAiClient w with
  | Rejected e => (Rejected e, w)
  | Resolved _ => retried (mockAttempt level id) warn wait w
  end.

(** ** generateAIProblem *)

Definition topicInstruction (topic : option jsstring) : jsstring :=
  match topic with
  | Some t =>
      if nonEmpty t then
      lit "The problem MUST be about: " ++ t ++ lit "."
      else lit "The problem topic should be random."
  | None => lit "The problem topic should be random."
  end.

Definition generationPrompt (level : ExamLevel) (difficulty : Difficulty)
    (topic : option jsstring) : jsstring :=
  [newline] ++ lit "    Create a unique math competition problem for " ++ levelName level
    ++ lit ". Difficulty: " ++ difficultyName difficulty ++ lit ". " ++ topicInstruction topic
    ++ [newline] ++ lit "    Use LaTeX. Provide 5 options. Step-by-step solution." ++ [newline]
    ++ lit "    " ++ [newline]
    ++ lit "    OUTPUT JSON with keys: questionHtml, options (array of A-E texts), correctOption (Letter), solutionHtml, estimatedDifficulty (1-10 integer)."
    ++ [newline] ++ lit "  ".

(** The [config] of the request: the thinking budget is set for the Pro
    model only. *)
Definition generationConfig (model : jsstring) : value :=
  JObject ((lit "responseMimeType", JString (lit "application/json"))
           :: if streq model MODEL_PRO then [(lit "thinkingConfig", thinkingConfig)] else []).

(** "Fallback logic for difficulty", then "Ensure 1-10 range". *)
Definition estimatedDifficulty (estimate : option value) (difficulty : Difficulty) : Q :=
  clamp
    match estimate with
    | Some (JNumber n) => n
    | _ =>
        let dStr :=
          match estimate with
          | Some e => if truthy estimate then stringOf e else difficultyName difficulty
          | None => difficultyName difficulty
          end in
        if includes (lit "Easy") dStr then 3
        else if includes (lit "Medium") dStr then 5
        else if includes (lit "Hard") dStr then 8
        else if includes (lit "Extreme") dStr then 10
        else 5
    end.

Definition generationAttempt (level : ExamLevel) (difficulty : Difficulty) (id : jsstring)
    (topic : option jsstring) (model : jsstring) (w : World) : outcome problem * World :=
  let '(r, w1) :=
    generateContent model (generationPrompt level difficulty topic)
      (Some (generationConfig model)) w in
  (match r with
   | Rejected e => Rejected e
   | Resolved response =>
       match parse response with
       | Rejected e => Rejected e
       | Resolved data =>
           if negb (truthy (Some data)) then Rejected (newError "Invalid JSON from AI Generation")
           else
             match getProperty data (lit "estimatedDifficulty"),
                   getProperty data (lit "questionHtml"),
                   getProperty data (lit "options"),
                   getProperty data (lit "correctOption"),
                   getProperty data (lit "solutionHtml") with
             | Return estimate, Return question, Return choices, Return answer,
               Return solution =>
                 Resolved
                   {| id := id;
                      source := AI_GENERATED;
                      originalUrl := None;
                      questionHtml := question;
                      images := [];
                      options := orElse choices (JArray (map JString letters));
                      correctOption := optionalToString answer;
                      solutionHtml := solution;
                      difficulty := estimatedDifficulty estimate difficulty;
                      userAnswer := None;
                      isCorrect := None;
                      hints := [];
                      solutionChat := [];
                      topic := topic |}
             | _, _, _, _, _ => Rejected typeError
             end
       end
   end, w1).

Definition generateAIProblem (level : ExamLevel) (difficulty : Difficulty) (id : jsstring)
    (topic : option jsstring) (model : jsstring) (w : World) : outcome problem * World :=
  match getAiClient w with
  | Rejected e => (Rejected e, w)
  | Resolved _ =>
      retried (generationAttempt level difficulty id topic model) warn wait w
  end.

(** ** gradeProblemsByDifficulty *)

(** [p.questionHtml.substring(0, 200).replace(/<[^>]+>/g, '')]: a TypeError
    when the member is not a string. *)
Definition summaryText (p : problem) : outcome jsstring :=
  match questionHtml p with
  | Some (JString s) => Resolved (replaceAll Scraper.tagRe [] (substring 0 200 s))
  | _ => Rejected typeError
  end.

Fixpoint summarize (problems : list problem) : outcome (list value) :=
  match problems with
  | [] => Resolved []
  | p :: rest =>
      match summaryText p with
      | Rejected e => Rejected e
      | Resolved text =>
          match summarize rest with
          | Rejected e => Rejected e
          | Resolved summaries =>
              Resolved (JObject [(lit "id", JString (id p)); (lit "text", JString text)]
                        :: summaries)
          end
      end
  end.

Definition gradingPrompt (problemSummaries : value) : jsstring :=
  [newline] ++ lit "        Assign a difficulty level (1-10) to each math problem. "
    ++ [newline]
    ++ lit "        1 is very easy (early AMC 8). 10 is very hard (late AMC 10/12)."
    ++ [newline]
    ++ lit "        Ensure the full range 1-10 is used appropriately based on standard competition difficulty."
    ++ [newline] ++ lit "        Input: " ++ JSON_stringify problemSummaries ++ [newline]
    ++ lit "        Output JSON: [{ " ++ [dquote] ++ lit "id" ++ [dquote] ++ lit ": "
    ++ [dquote] ++ lit "problem_id" ++ [dquote] ++ lit ", " ++ [dquote] ++ lit "difficulty"
    ++ [dquote] ++ lit ": 5 }, ...]" ++ [newline] ++ lit "    ".

(** [p.difficulty = ...] on [problems.find(pr => pr.id === gid)]: the first
    problem with that id. *)
Fixpoint gradeFirst (gid : jsstring) (d : Q) (problems : list problem) : list problem :=
  match problems with
  | [] => []
  | p :: rest =>
      if streq (id p) gid then setDifficulty (clamp d) p :: rest
      else p :: gradeFirst gid d rest
  end.

(** The body of the [forEach]: reading [g.id] of [null] raises. *)
Definition applyGrade (g : value) (problems : list problem) : outcome (list problem) :=
  match getProperty g (lit "id") with
  | Throw _ => Rejected typeError
  | Return (Some (JString gid)) =>
      match getProperty g (lit "difficulty") with
      | Return (Some (JNumber d)) => Resolved (gradeFirst gid d problems)
      | _ => Resolved problems
      end
  | Return _ => Resolved problems
  end.

(** [grades.forEach(...)]: the grades applied before an error stay. *)
Fixpoint applyGrades (grades : list value) (problems : list problem)
    : list problem * option failure :=
  match grades with
  | [] => (problems, None)
  | g :: rest =>
      match applyGrade g problems with
      | Resolved graded => applyGrades rest graded
      | Rejected e => (problems, Some e)
      end
  end.

Definition gradingFailed : jsstring := lit "Grading failed, keeping original difficulties".

Definition gradeProblemsByDifficulty (problems : list problem) (w : World)
    : outcome (list problem) * World :=
  match getAiClient w with
  | Rejected e => (Rejected e, w)
  | Resolved _ =>
      match summarize problems with
      | Rejected e => (Rejected e, w)
      | Resolved problemSummaries =>
          let '(r, w1) :=
            generateContent MODEL_FLASH (gradingPrompt (JArray problemSummaries))
              (Some jsonConfig) w in
          let '(graded, w2) :=
            match r with
            | Rejected e => (problems, consoleWarn gradingFailed (Some e) w1)
            | Resolved response =>
                match parse response with
                | Rejected e => (problems, consoleWarn gradingFailed (Some e) w1)
                | Resolved (JArray grades) =>
                    match applyGrades grades problems with
                    | (graded, None) => (graded, w1)
                    | (graded, Some e) => (graded, consoleWarn gradingFailed (Some e) w1)
                    end
                | Resolved _ => (problems, w1)
                end
            end in
          (Resolved (sortByDifficulty graded), w2)
      end
  end.

(** ** getProblemHint *)

Definition hintPrompt (problem : problem) (solutionText : jsstring) : jsstring :=
  [newline] ++ lit "    You are an expert math competition coach. A student is stuck."
    ++ [newline] ++ lit "    " ++ [newline] ++ lit "    Problem: "
    ++ interpolate (questionHtml problem) ++ [newline] ++ lit "    Correct Answer: "
    ++ interpolateText (correctOption problem) ++ [newline]
    ++ lit "    Official Solution Snippet: " ++ substring 0 500 solutionText ++ lit "..."
    ++ [newline] ++ lit "    " ++ [newline] ++ lit "    Previous hints given: "
    ++ JSON_stringify (JArray (map JString (hints problem))) ++ [newline] ++ lit "    "
    ++ [newline] ++ lit "    Give a subtle, nudging hint. " ++ [newline]
    ++ lit "    1. Do NOT reveal the answer." ++ [newline] ++ lit "    2. Do NOT just say "
    ++ [dquote] ++ lit "Use the formula" ++ [dquote] ++ lit ". Explain the intuition."
    ++ [newline] ++ lit "    3. Keep it short (under 30 words)." ++ [newline]
    ++ lit "    4. Use LaTeX for math." ++ [newline] ++ lit "  ".

Definition hintAttempt (prompt : jsstring) (w : World) : outcome jsstring * World :=
  let '(r, w1) := generateContent MODEL_PRO prompt None w in
  (match r with
   | Rejected e => Rejected e
   | Resolved response =>
       match Scraper.aiText response with
       | Some (c :: t) => Resolved (c :: t)
       | _ => Resolved (lit "Try visualizing the problem or working backwards.")
       end
   end, w1).

Definition getProblemHint (problem : problem) (w : World) : outcome jsstring * World :=
  match getAiClient w with
  | Rejected e => (Rejected e, w)
  | Resolved _ =>
      match solutionHtml problem with
      | Some (JString solutionText) =>
          retried (hintAttempt (hintPrompt problem solutionText)) warn wait w
      | _ => (Rejected typeError, w)
      end
  end.

(** ** getSolutionExplanation *)

Definition historyLine (h : ChatMessage) : jsstring :=
  (if streq (role h) (lit "user") then lit "Student" else lit "Tutor") ++ lit ": " ++ text h.

(** [lines.join('\n')] *)
Fixpoint joinLines (lines : list jsstring) : jsstring :=
  match lines with
  | [] => []
  | [line] => line
  | line :: rest => line ++ [newline] ++ joinLines rest
  end.

Definition historyText (history : list ChatMessage) : jsstring :=
  joinLines (map historyLine history).

Definition explanationPrompt (problem : problem) (userQuery : jsstring)
    (history : list ChatMessage) : jsstring :=
  [newline] ++ lit "    You are a friendly math tutor." ++ [newline] ++ lit "    Problem: "
    ++ interpolate (questionHtml problem) ++ [newline] ++ lit "    Solution: "
    ++ interpolate (solutionHtml problem) ++ [newline] ++ lit "    " ++ [newline]
    ++ lit "    Chat History:" ++ [newline] ++ lit "    " ++ historyText history ++ [newline]
    ++ lit "    " ++ [newline] ++ lit "    Student: " ++ userQuery ++ [newline] ++ lit "    "
    ++ [newline] ++ lit "    Explain the concept clearly. Use LaTeX. Be encouraging."
    ++ [newline] ++ lit "  ".

Definition explanationAttempt (prompt : jsstring) (w : World) : outcome jsstring * World :=
  let '(r, w1) :=
    generateContent MODEL_PRO prompt
      (Some (JObject [(lit "thinkingConfig", thinkingConfig)])) w in
  (match r with
   | Rejected e => Rejected e
   | Resolved response =>
       match Scraper.aiText response with
       | Some (c :: t) => Resolved (c :: t)
       | _ => Resolved (lit "I'm having trouble explaining that right now.")
       end
   end, w1).

Definition getSolutionExplanation (problem : problem) (userQuery : jsstring)
    (history : list ChatMessage) (w : World) : outcome jsstring * World :=
  match getAiClient w with
  | Rejected e => (Rejected e, w)
  | Resolved _ =>
      retried (explanationAttempt (explanationPrompt problem userQuery history)) warn wait w
  end.

(** ** analyzePerformance *)

Record performance := mkPerformance {
  analysis : value;
  topics : value
}.

(** [{ diff: p.difficulty, topic: p.topic || "General", correct: p.isCorrect }];
    a member that is [undefined] is left out by [JSON.stringify]. *)
Definition performanceEntry (p : problem) : value :=
  JObject ([(lit "diff", JNumber (difficulty p));
            (lit "topic", JString (match topic p with
                                   | Some (c :: t) => c :: t
                                   | _ => lit "General"
                                   end))]
           ++ match isCorrect p with
              | Some b => [(lit "correct", JBool b)]
              | None => []
              end).

Definition analysisPrompt (data : value) : jsstring :=
  [newline] ++ lit "    Analyze this student's math test performance: " ++ JSON_stringify data
    ++ [newline] ++ lit "    " ++ [newline] ++ lit "    1. Short analysis (strength/weakness)."
    ++ [newline] ++ lit "    2. 3 specific topics to practice." ++ [newline]
    ++ lit "    Output JSON: { " ++ [dquote] ++ lit "analysis" ++ [dquote] ++ lit ": "
    ++ [dquote] ++ lit "..." ++ [dquote] ++ lit ", " ++ [dquote] ++ lit "topics" ++ [dquote]
    ++ lit ": [...] }" ++ [newline] ++ lit "  ".

Definition analysisUnavailable : performance :=
  {| analysis := JString (lit "Analysis unavailable.");
     topics := JArray [JString (lit "General Math")] |}.

Definition analyzePerformance (problems : list problem) (w : World)
    : outcome performance * World :=
  match getAiClient w with
  | Rejected e => (Rejected e, w)
  | Resolved _ =>
      let data := JArray (map performanceEntry problems) in
      let '(r, w1) := generateContent MODEL_PRO (analysisPrompt data) (Some jsonConfig) w in
      (Resolved
         match r with
         | Rejected _ => analysisUnavailable
         | Resolved response =>
             match parse response with
             | Rejected _ => analysisUnavailable
             | Resolved res =>
                 match getProperty res (lit "analysis"), getProperty res (lit "topics") with
                 | Return a, Return t =>
                     {| analysis := orElse a (JString (lit "Great job completing the exam!"));
                        topics := orElse t (JArray (map JString
                                     (map lit ["Algebra"; "Geometry"; "Counting"]%string))) |}
                 | _, _ => analysisUnavailable
                 end
             end
         end, w1)
  end.

End Services.

End Ai.

(* ================================================================== *)
(** * The exam generator (problemService.ts) *)
(* ================================================================== *)

(** types.ts *)
Inductive ExamMode := INSTANT | ALL_AT_END | WARMUP.

(** The three counts are natural numbers, as the setup form enters them. *)
Record ExamConfig := mkExamConfig {
  realCount : nat;
  mockCount : nat;
  aiCount : nat
}.

Module ProblemService.
Import Json Retry Exam Ai Catalog.

(** ** Numbers *)

(** The numbers of the language are binary64 floats.  Whole numbers are
    kept as integers here, which is exact below [2 ^ 53]; where the code
    divides or draws a random fraction, the model computes with the
    kernel's floats. *)
Definition number := PrimFloat.float.

(** The float of a whole number [0 <= z < 2 ^ 53]. *)
Definition numberOfZ (z : Z) : number := PrimFloat.of_uint63 (Uint63.of_Z z).

(** [Math.floor] and [Math.ceil] of a finite number, as an integer. *)
Definition Math_floor (x : number) : Z :=
  match FloatOps.Prim2SF x with
  | SpecFloat.S754_finite s m e =>
      let v := if s then Z.neg m else Z.pos m in
      if (0 <=? e)%Z then Z.shiftl v e else Z.shiftr v (- e)
  | _ => 0%Z
  end.

Definition Math_ceil (x : number) : Z := (- Math_floor (PrimFloat.opp x))%Z.

Definition half : number := PrimFloat.div (numberOfZ 1) (numberOfZ 2).

(** [`${n}`] for a whole number. *)
Definition numberToString (z : Z) : jsstring :=
  if (z <? 0)%Z then ch "-" :: numToString (Z.to_N (- z)) else numToString (Z.to_N z).

(** [`${i}`] for a loop counter. *)
Definition counterToString (i : nat) : jsstring := numToString (N.of_nat i).

(** ** Addresses *)

Record meta := mkMeta {
  url : jsstring;
  problemNum : Z
}.

Definition wiki : jsstring := lit "https://artofproblemsolving.com/wiki/index.php?title=".

(** [["AMC_" + type + "A", "AMC_" + type + "B", "Fall_AMC_" + type + "A",
      "Fall_AMC_" + type + "B"]] *)
Definition variants (type : jsstring) : list jsstring :=
  [lit "AMC_" ++ type ++ lit "A"; lit "AMC_" ++ type ++ lit "B";
   lit "Fall_AMC_" ++ type ++ lit "A"; lit "Fall_AMC_" ++ type ++ lit "B"].

(** [array[i]] in a template: the element, or [undefined]. *)
Definition element (l : list jsstring) (i : Z) : jsstring :=
  if (i <? 0)%Z then lit "undefined"
  else match nth_error l (Z.to_nat i) with
       | Some s => s
       | None => lit "undefined"
       end.

Section Random.

Variable World : Type.

(** [Math.random()] *)
Variable Math_random : World -> number * World.

(** [Math.floor(Math.random() * (max - min + 1)) + min] *)
Definition randomInt (min max : Z) (w : World) : Z * World :=
  let '(r, w1) := Math_random w in
  ((Math_floor (PrimFloat.mul r (numberOfZ (max - min + 1))) + min)%Z, w1).

(** The level is [undefined] when it was read past the end of the list of
    levels; it is then neither AMC 8 nor AMC 10. *)
Definition getAoPSUrlAndMeta (level : option ExamLevel) (w : World) : meta * World :=
  match level with
  | Some AMC8 =>
      let '(year, w1) := randomInt (Z.of_N AMC8_START_YEAR) (Z.of_N CURRENT_YEAR) w in
      let '(problemNum, w2) := randomInt 1 25 w1 in
      let url :=
        if (year <=? 1998)%Z then
          wiki ++ numberToString year ++ lit "_AJHSME_Problems/Problem_"
            ++ numberToString problemNum
        else
          wiki ++ numberToString year ++ lit "_AMC_8_Problems/Problem_"
            ++ numberToString problemNum in
      ({| url := url; problemNum := problemNum |}, w2)
  | _ =>
      let '(year, w1) := randomInt (Z.of_N AMC10_12_START_YEAR) (Z.of_N CURRENT_YEAR) w in
      let '(problemNum, w2) := randomInt 1 25 w1 in
      let is10 := match level with Some AMC10 => true | _ => false end in
      let type := if is10 then lit "10" else lit "12" in
      if ((2000 <=? year) && (year <=? 2001))%Z then
        ({| url := wiki ++ numberToString year ++ lit "_AMC_" ++ type
                     ++ lit "P_Problems/Problem_" ++ numberToString problemNum;
            problemNum := problemNum |}, w2)
      else if (year =? 2021)%Z then
        let '(i, w3) := randomInt 0 3 w2 in
        let variant := element (variants type) i in
        ({| url := wiki ++ numberToString year ++ lit "_" ++ variant ++ lit "/Problem_"
                     ++ numberToString problemNum;
            problemNum := problemNum |}, w3)
      else
        let '(r, w3) := Math_random w2 in
        let variant := if PrimFloat.ltb half r then lit "A" else lit "B" in
        ({| url := wiki ++ numberToString year ++ lit "_AMC_" ++ type ++ variant
                     ++ lit "/Problem_" ++ numberToString problemNum;
            problemNum := problemNum |}, w3)
  end.

(** ** generateExam *)

(** What the generator does, in order: the calls it makes and their
    results, the pauses, the console lines and the progress reports. *)
Inductive event :=
| EvFetch (url id : jsstring) (level : option ExamLevel)
    (result : completion (option Problem.t))
| EvMock (level : option ExamLevel) (id : jsstring) (result : outcome (option problem))
| EvGenerate (level : option ExamLevel) (difficulty : Difficulty) (id : jsstring)
    (result : outcome problem)
| EvGrade (problems : list problem) (result : outcome (list problem))
| EvDelay (ms : N)
| EvWarn (msg : jsstring)
| EvError (msg : jsstring) (e : failure)
| EvProgress (msg : jsstring) (percent : Z).

(** The services the generator calls, *)
Variable fetchAoPSProblem :
  jsstring -> jsstring -> option ExamLevel -> World -> completion (option Problem.t) * World.
Variable fetchMockProblem :
  option ExamLevel -> jsstring -> World -> outcome (option problem) * World.
Variable generateAIProblem :
  option ExamLevel -> Difficulty -> jsstring -> World -> outcome problem * World.
Variable gradeProblemsByDifficulty : list problem -> World -> outcome (list problem) * World.

(** the timer, the console and the caller's callback. *)
Variable delay : N -> World -> World.
Variable consoleWarn : jsstring -> World -> World.
Variable consoleError : jsstring -> failure -> World -> World.
Variable onProgress : jsstring -> Z -> World -> World.

(** The variables of the function: the world, what has happened,
    [problems], [generatedUrls] and [completedTasks]. *)
Record state := mkState {
  world : World;
  trace : list event;
  problems : list problem;
  generatedUrls : list jsstring;
  completedTasks : nat
}.

Definition record (ev : event) (w : World) (st : state) : state :=
  {| world := w; trace := trace st ++ [ev]; problems := problems st;
     generatedUrls := generatedUrls st; completedTasks := completedTasks st |}.

Definition setWorld (w : World) (st : state) : state :=
  {| world := w; trace := trace st; problems := problems st;
     generatedUrls := generatedUrls st; completedTasks := completedTasks st |}.

(** [problems.push(p)] *)
Definition push (p : problem) (st : state) : state :=
  {| world := world st; trace := trace st; problems := problems st ++ [p];
     generatedUrls := generatedUrls st; completedTasks := completedTasks st |}.

(** [generatedUrls.add(url)] *)
Definition addUrl (u : jsstring) (st : state) : state :=
  {| world := world st; trace := trace st; problems := problems st;
     generatedUrls := if existsb (streq u) (generatedUrls st) then generatedUrls st
                      else generatedUrls st ++ [u];
     completedTasks := completedTasks st |}.

Section Exam.

Variable levels : list ExamLevel.
Variable config : ExamConfig.
Variable mode : ExamMode.

Definition isWarmup : bool := match mode with WARMUP => true | _ => false end.

Definition totalTasks : nat := realCount config + mockCount config + aiCount config.

(** [Math.min(90, Math.floor((completedTasks / totalTasks) * 90))] *)
Definition percentOf (completed : nat) : Z :=
  Z.min 90
    (Math_floor
       (PrimFloat.mul
          (PrimFloat.div (numberOfZ (Z.of_nat completed)) (numberOfZ (Z.of_nat totalTasks)))
          (numberOfZ 90))).

Definition updateProgress (msg : jsstring) (st : state) : state :=
  let completed := S (completedTasks st) in
  let percent := percentOf completed in
  {| world := onProgress msg percent (world st);
     trace := trace st ++ [EvProgress msg percent];
     problems := problems st;
     generatedUrls := generatedUrls st;
     completedTasks := completed |}.

(** [levels[randomInt(0, levels.length - 1)]] *)
Definition getRandomLevel (st : state) : option ExamLevel * state :=
  let '(i, w1) := randomInt 0 (Z.of_nat (length levels) - 1) (world st) in
  (if (i <? 0)%Z then None else nth_error levels (Z.to_nat i), setWorld w1 st).

Definition MAX_ATTEMPTS : nat := 10.

(** [Math.ceil((chosenProblemNum / 25) * 10)], then
    [Math.max(1, Math.min(10, p.difficulty))]. *)
Definition warmupDifficulty (chosenProblemNum : Z) : Z :=
  Z.max 1
    (Z.min 10
       (Math_ceil
          (PrimFloat.mul (PrimFloat.div (numberOfZ chosenProblemNum) (numberOfZ 25))
             (numberOfZ 10)))).

(** [`real-${i}`] *)
Definition realId (i : nat) : jsstring := lit "real-" ++ counterToString i.

(** The [while (!p && attempts < MAX_ATTEMPTS)] loop of slot [i], with
    [left = MAX_ATTEMPTS - attempts] rounds to go. *)
Fixpoint attemptSlot (left : nat) (i : nat) (lvl : option ExamLevel) (st : state)
    : option problem * state :=
  match left with
  | 0 => (None, st)
  | S left' =>
      let '(m, w1) := getAoPSUrlAndMeta lvl (world st) in
      let st1 := setWorld w1 st in
      if existsb (streq (url m)) (generatedUrls st1) then attemptSlot left' i lvl st1
      else
        let '(r, w2) := fetchAoPSProblem (url m) (realId i) lvl w1 in
        let st2 := record (EvFetch (url m) (realId i) lvl r) w2 st1 in
        match r with
        | Return (Some p0) =>
            let p := if isWarmup
                     then setDifficulty (inject_Z (warmupDifficulty (problemNum m)))
                            (ofScraped p0)
                     else ofScraped p0 in
            let st3 := addUrl (url m) st2 in
            (Some p, record (EvDelay 750) (delay 750 (world st3)) st3)
        | _ =>
            attemptSlot left' i lvl (record (EvDelay 200) (delay 200 (world st2)) st2)
        end
  end.

(** [`Could not find a valid real problem for slot ${i} after
    ${MAX_ATTEMPTS} attempts.`] *)
Definition slotWarning (i : nat) : jsstring :=
  lit "Could not find a valid real problem for slot " ++ counterToString i ++ lit " after "
    ++ counterToString MAX_ATTEMPTS ++ lit " attempts.".

(** [`Fetching AoPS Archives... (${problems.length} found)`] *)
Definition fetchingMessage (found : nat) : jsstring :=
  lit "Fetching AoPS Archives... (" ++ counterToString found ++ lit " found)".

(** One round of the first [for] loop. *)
Definition realSlot (i : nat) (st : state) : state :=
  let '(lvl, st1) := getRandomLevel st in
  let '(p, st2) := attemptSlot MAX_ATTEMPTS i lvl st1 in
  let st3 :=
    match p with
    | Some p => push p st2
    | None => record (EvWarn (slotWarning i)) (consoleWarn (slotWarning i) (world st2)) st2
    end in
  updateProgress (fetchingMessage (length (problems st3))) st3.

(** One round of the second [for] loop. *)
Definition mockSlot (i : nat) (st : state) : state :=
  let '(lvl, st1) := getRandomLevel st in
  let id := lit "mock-" ++ counterToString i in
  let '(r, w1) := fetchMockProblem lvl id (world st1) in
  let st2 := record (EvMock lvl id r) w1 st1 in
  let st3 :=
    match r with
    | Resolved (Some p) => push p st2
    | Resolved None => st2
    | Rejected e =>
        record (EvError (lit "Mock fetch failed") e)
          (consoleError (lit "Mock fetch failed") e (world st2)) st2
    end in
  updateProgress (lit "Finding Online Mocks...") st3.

(** [difficulties[i % 3]] *)
Definition difficultyOf (i : nat) : Difficulty :=
  match i mod 3 with
  | 0 => Easy
  | 1 => Medium
  | _ => Hard
  end.

(** One round of the third [for] loop. *)
Definition aiSlot (i : nat) (st : state) : state :=
  let '(lvl, st1) := getRandomLevel st in
  let id := lit "ai-" ++ counterToString i in
  let '(r, w1) := generateAIProblem lvl (difficultyOf i) id (world st1) in
  let st2 := record (EvGenerate lvl (difficultyOf i) id r) w1 st1 in
  let st3 :=
    match r with
    | Resolved p => push p st2
    | Rejected e =>
        record (EvError (lit "AI generation failed") e)
          (consoleError (lit "AI generation failed") e (world st2)) st2
    end in
  updateProgress (lit "Generating Fresh Problems...") st3.

(** [for (let i = 0; i < n; i++) body(i)] *)
Definition forCount (n : nat) (body : nat -> state -> state) (st : state) : state :=
  fold_left (fun st i => body i st) (seq 0 n) st.

(** The three loops. *)
Definition collect (w : World) : state :=
  forCount (aiCount config) aiSlot
    (forCount (mockCount config) mockSlot
       (forCount (realCount config) realSlot
          {| world := w; trace := []; problems := []; generatedUrls := [];
             completedTasks := 0 |})).

Definition report (msg : jsstring) (percent : Z) (st : state) : state :=
  record (EvProgress msg percent) (onProgress msg percent (world st)) st.

(** The fourth step, "Grading & Sorting (SKIP FOR WARMUP)". *)
Definition finish (st : state) : outcome (list problem) * state :=
  match problems st with
  | [] => (Resolved [], st)
  | _ :: _ =>
      if isWarmup then
        (Resolved (sortByDifficulty (problems st)),
         report (lit "Sorting warmup problems...") 98 st)
      else
        let st1 := report (lit "AI is grading problem difficulties...") 95 st in
        let '(r, w1) := gradeProblemsByDifficulty (problems st1) (world st1) in
        let st2 := record (EvGrade (problems st1) r) w1 st1 in
        match r with
        | Resolved sortedProblems =>
            (Resolved sortedProblems, report (lit "Finalizing exam...") 100 st2)
        | Rejected e => (Rejected e, st2)
        end
  end.

Definition generateExam (w : World) : outcome (list problem) * state :=
  finish (collect w).

End Exam.

End Random.

(** ** generateMiniQuiz *)

Section Quiz.

Variable World : Type.
Variable apiKey : World -> option jsstring.
Variable generateContent :
  jsstring -> jsstring -> option value -> World -> outcome Scraper.AiResponse * World.
Variable consoleWarn : jsstring -> option failure -> World -> World.
Variable wait : N -> World -> World.
Variable JSON_parse : jsstring -> completion value.
Variable JSON_stringify : value -> jsstring.
Variable ToString : value -> jsstring.

(** [i < 2 ? 'Easy' : i < 4 ? 'Medium' : 'Hard'] *)
Definition quizDifficulty (i : nat) : Difficulty :=
  if i <? 2 then Easy else if i <? 4 then Medium else Hard.

(** One round of the loop: an error of the generator is dropped. *)
Definition quizSlot (topic : jsstring) (level : ExamLevel) (acc : list problem * World)
    (i : nat) : list problem * World :=
  let '(problems, w) := acc in
  let '(r, w1) :=
    generateAIProblem apiKey generateContent consoleWarn wait JSON_parse ToString level
      (quizDifficulty i) (lit "quiz-" ++ counterToString i) (Some topic) MODEL_FLASH w in
  match r with
  | Resolved p => (problems ++ [p], w1)
  | Rejected _ => (problems, w1)
  end.

Definition quizProblems (topic : jsstring) (level : ExamLevel) (w : World)
    : list problem * World :=
  fold_left (quizSlot topic level) (seq 0 5) ([], w).

Definition generateMiniQuiz (topic : jsstring) (level : ExamLevel) (w : World)
    : outcome (list problem) * World :=
  let '(problems, w1) := quizProblems topic level w in
  gradeProblemsByDifficulty apiKey generateContent consoleWarn JSON_parse JSON_stringify
    problems w1.

End Quiz.

End ProblemService.

(* ================================================================== *)
(** * The application state and the problem card (App.tsx, ProblemCard.tsx) *)
(* ================================================================== *)

(** types.ts *)
Inductive TimerMode := TIMED | CUSTOM | UNTIMED.

Inductive AppView := SETUP | LOADING | EXAM | ANALYSIS | MINI_QUIZ_SETUP.

Module App.
Import Json Exam.

Record ExamSettings := mkExamSettings {
  levels : list ExamLevel;
  mode : ExamMode;
  timerMode : TimerMode;
  customTimeLimit : Q;
  config : ExamConfig
}.

Record ExamState := mkExamState {
  view : AppView;
  problems : list problem;
  currentProblemIndex : Z;
  startTime : Z;
  endTime : option Z;
  analysis : option value;
  suggestedTopics : option value
}.

(** [a === b] on levels. *)
Definition sameLevel (a b : ExamLevel) : bool :=
  match a, b with
  | AMC8, AMC8 | AMC10, AMC10 | AMC12, AMC12 => true
  | _, _ => false
  end.

(** The function that [toggleLevel(level)] passes to [setSettings]. *)
Definition toggleLevel (level : ExamLevel) (prev : ExamSettings) : ExamSettings :=
  let exists_ := existsb (sameLevel level) (levels prev) in
  let newLevels :=
    if exists_ then filter (fun l => negb (sameLevel l level)) (levels prev)
    else levels prev ++ [level] in
  match newLevels with
  | [] => prev
  | _ :: _ =>
      {| levels := newLevels; mode := mode prev; timerMode := timerMode prev;
         customTimeLimit := customTimeLimit prev; config := config prev |}
  end.

(** [{ ...p, userAnswer: ans, isCorrect: ans === p.correctOption }] *)
Definition answered (ans : jsstring) (p : problem) : problem :=
  {| id := id p; source := source p; originalUrl := originalUrl p;
     questionHtml := questionHtml p; images := images p; options := options p;
     correctOption := correctOption p; solutionHtml := solutionHtml p;
     difficulty := difficulty p;
     userAnswer := Some ans;
     isCorrect := Some match correctOption p with
                       | Some c => streq ans c
                       | None => false
                       end;
     hints := hints p; solutionChat := solutionChat p; topic := topic p |}.

(** The function that [handleAnswer(id, ans)] passes to [setState]. *)
Definition handleAnswer (id ans : jsstring) (prev : ExamState) : ExamState :=
  {| view := view prev;
     problems := map (fun p => if streq (Exam.id p) id then answered ans p else p)
                   (problems prev);
     currentProblemIndex := currentProblemIndex prev;
     startTime := startTime prev; endTime := endTime prev; analysis := analysis prev;
     suggestedTopics := suggestedTopics prev |}.

(** [state.problems.filter(p => p.isCorrect).length] *)
Definition correctCount (st : ExamState) : nat :=
  length (filter (fun p => match isCorrect p with Some b => b | None => false end)
            (problems st)).

End App.

Module ProblemCard.
Import Exam.

Definition fixImageUrl (url : jsstring) : jsstring :=
  if negb (nonEmpty url) then []
  else if startsWith (lit "http") url then url
  else if startsWith (lit "//") url then lit "https:" ++ url
  else if startsWith (lit "/") url then lit "https://artofproblemsolving.com" ++ url
  else url.

(** [problem.correctOption ? problem.correctOption.trim().toUpperCase() : ""] *)
Definition correctOpt (p : problem) : jsstring :=
  match correctOption p with
  | Some s => if nonEmpty s then toUpperCase (trim s) else []
  | None => []
  end.

Definition labels : list jsstring := map lit ["A"; "B"; "C"; "D"; "E"]%string.

(** [problem.source !== ProblemSource.AOPS && problem.images.length > 0] *)
Definition showImageGallery (p : problem) : bool :=
  negb (match source p with AOPS => true | _ => false end) && (0 <? length (images p)).

(** What the review shows for the selected option: [selected === correctOpt]. *)
Definition shownCorrect (selected : jsstring) (p : problem) : bool :=
  streq selected (correctOpt p).

End ProblemCard.

(* ================================================================== *)
(** * Properties *)
(* ================================================================== *)

Module JSFacts.

Lemma streq_eq (a b : jsstring) : streq a b = true <-> a = b.
Proof.
  revert b; induction a as [|x a IH]; intros [|y b]; simpl;
    try (split; [discriminate | congruence]); try tauto.
  rewrite andb_true_iff, Ascii.eqb_eq, IH.
  split; [intros [-> ->]; reflexivity | intros [= -> ->]; auto].
Qed.

Lemma streq_refl (a : jsstring) : streq a a = true.
Proof. apply streq_eq; reflexivity. Qed.

End JSFacts.
Import JSFacts.

(* ------------------------------------------------------------------ *)
(** ** Strings and the matcher *)

Module StringFacts.

Lemma trimStart_app (a b : jsstring) (c : ascii) (b' : jsstring) :
  b = c :: b' -> isSpace c = false -> trimStart (a ++ b) = trimStart a ++ b.
Proof.
  intros -> Hc. induction a as [|x a IH]; simpl.
  - now rewrite Hc.
  - destruct (isSpace x); [exact IH | reflexivity].
Qed.

Lemma trimStart_suffix (s : jsstring) : exists a, s = a ++ trimStart s.
Proof.
  induction s as [|c s [a IH]]; simpl.
  - now exists [].
  - destruct (isSpace c).
    + exists (c :: a). simpl. now f_equal.
    + now exists [].
Qed.

Lemma trimStart_Forall (P : ascii -> Prop) (s : jsstring) :
  Forall P s -> Forall P (trimStart s).
Proof.
  intros H. destruct (trimStart_suffix s) as [a Ha].
  rewrite Ha in H. now apply Forall_app in H.
Qed.

Lemma trimEnd_Forall (P : ascii -> Prop) (s : jsstring) :
  Forall P s -> Forall P (trimEnd s).
Proof.
  intros H. unfold trimEnd. apply Forall_rev, trimStart_Forall, Forall_rev, H.
Qed.

Lemma indexOf_head (c : ascii) (s : jsstring) : indexOf c (c :: s) = Some 0.
Proof. simpl. now rewrite Ascii.eqb_refl. Qed.

Lemma lastIndexOf_absent (c : ascii) (s : jsstring) :
  Forall (fun x => x <> c) s -> lastIndexOf c s = None.
Proof.
  induction 1 as [|x s Hx _ IH]; simpl; [reflexivity|].
  rewrite IH. apply Ascii.eqb_neq in Hx. now rewrite Hx.
Qed.

Lemma lastIndexOf_last (c : ascii) (a t : jsstring) :
  Forall (fun x => x <> c) t -> lastIndexOf c (a ++ c :: t) = Some (length a).
Proof.
  intros Ht. induction a as [|x a IH]; simpl.
  - rewrite (lastIndexOf_absent Ht). now rewrite Ascii.eqb_refl.
  - now rewrite IH.
Qed.

Lemma includes_suffix (p x y : jsstring) :
  includes p (x ++ y) = false -> includes p y = false.
Proof.
  induction x as [|c x IH]; simpl; [auto|].
  intros H. apply orb_false_iff in H as [_ H]. auto.
Qed.

Lemma includes_head (p s : jsstring) : includes p s = false -> startsWith p s = false.
Proof. destruct s; simpl; intros H; now apply orb_false_iff in H as [H _]. Qed.

End StringFacts.

Module RegexFacts.
Import Regex StringFacts.

(** Upper-casing never produces a backtick or a backslash out of another
    character. *)
Lemma upperChar_fixes (x c : ascii) :
  x = ch "`" \/ x = backslash -> Ascii.eqb (upperChar x) (upperChar c) = true -> c = x.
Proof.
  intros [-> | ->];
    destruct c as [[] [] [] [] [] [] [] []]; vm_compute; intros H;
    first [discriminate H | reflexivity].
Qed.

Lemma literal_matches (ic : bool) (x c : ascii) :
  x = ch "`" \/ x = backslash -> classMatches ic (CChar x) c = true -> c = x.
Proof.
  intros Hx. destruct ic; simpl.
  - now apply upperChar_fixes.
  - intros H. apply Ascii.eqb_eq in H. now subst.
Qed.

(** Replacing by the empty string only deletes characters. *)
Lemma replaceFrom_Forall (P : ascii -> Prop) (re : regex) (skip : nat) (s : jsstring) :
  Forall P s -> Forall P (replaceFrom re [] skip s).
Proof.
  revert skip; induction s as [|c s IH]; intros skip H; cbn [replaceFrom].
  - destruct skip; [destruct (matchHere _ _ [])|]; constructor.
  - inversion H as [|? ? Hc Hs]; subst.
    destruct skip as [|n]; [|now apply IH].
    destruct (matchHere _ _ (c :: s)) as [[caps rest]|].
    + destruct (length (c :: s) - length rest); cbn [app].
      * constructor; auto.
      * now apply IH.
    + constructor; auto.
Qed.

(** Where no match starts, the text is copied. *)
Lemma replaceFrom_copy (re : regex) (repl a b : jsstring) :
  (forall x y, a = x ++ y -> y <> [] ->
     matchHere (ignoreCase re) (items re) (y ++ b) = None) ->
  replaceFrom re repl 0 (a ++ b) = a ++ replaceFrom re repl 0 b.
Proof.
  induction a as [|c a IH]; intros H; [reflexivity|].
  pose proof (H [] (c :: a) eq_refl) as H0.
  cbn [app replaceFrom] in *. rewrite H0 by discriminate.
  f_equal. apply IH. intros x y -> Hy. now apply (H (c :: x) y).
Qed.

(** The patterns that begin with three backticks only match at three
    backticks. *)
Definition ticks : list item := chars "```".

Lemma ticks_needed (ic : bool) (r : list item) (s : jsstring) :
  startsWith (lit "```") s = false -> matchHere ic (ticks ++ r) s = None.
Proof.
  intros H.
  assert (Ht : forall c, classMatches ic (CChar (ch "`")) c = true -> c = ch "`")
    by (intros c; apply literal_matches; now left).
  destruct s as [|c1 s]; [reflexivity|].
  cbn [ticks chars lit list_ascii_of_string map app matchHere].
  destruct (classMatches ic (CChar "`") c1) eqn:E1; [|reflexivity].
  apply Ht in E1; subst c1.
  destruct s as [|c2 s]; [reflexivity|].
  destruct (classMatches ic (CChar "`") c2) eqn:E2; [|reflexivity].
  apply Ht in E2; subst c2.
  destruct s as [|c3 s]; [reflexivity|].
  destruct (classMatches ic (CChar "`") c3) eqn:E3; [|reflexivity].
  apply Ht in E3; subst c3.
  discriminate H.
Qed.

(** A text without three backticks in a row that ends in another character
    has no place where such a pattern could start, whatever follows it. *)
Lemma no_ticks_inside (obj : jsstring) (d : ascii) (front b : jsstring) :
  obj = front ++ [d] -> d <> ch "`" -> includes (lit "```") obj = false ->
  forall x y, obj = x ++ y -> y <> [] -> startsWith (lit "```") (y ++ b) = false.
Proof.
  intros Hobj Hd Hinc x y Hxy Hy.
  assert (Hsw : startsWith (lit "```") y = false).
  { apply includes_head. apply includes_suffix with (x := x). now rewrite <- Hxy. }
  assert (Hlast : exists y', y = y' ++ [d]).
  { destruct (exists_last Hy) as (y' & e & ->).
    exists y'. rewrite Hobj, app_assoc in Hxy.
    apply app_inj_tail in Hxy as [_ ->]. reflexivity. }
  destruct Hlast as [y' ->].
  apply Ascii.eqb_neq in Hd.
  rewrite Ascii.eqb_sym in Hd.
  destruct y' as [|c1 [|c2 [|c3 y']]]; cbn in *.
  - now rewrite Hd.
  - rewrite Hd. now rewrite andb_false_r.
  - rewrite Hd. now rewrite !andb_false_r.
  - exact Hsw.
Qed.

(** The characters a pattern can consume at all. *)
Definition itemClass (it : item) : option charClass :=
  match it with
  | Chr cls | OptChr cls | StarChr cls | PlusChr cls | Group cls => Some cls
  | EndOfInput => None
  end.

Definition accepts (ic : bool) (r : list item) (c : ascii) : bool :=
  existsb (fun it => match itemClass it with
                     | Some cls => classMatches ic cls c
                     | None => false
                     end) r.

Definition consumed (ic : bool) (r : list item) (s : jsstring) (v : result) : Prop :=
  exists m, s = m ++ snd v /\ Forall (fun c => accepts ic r c = true) m.

Lemma consumed_weaken (ic : bool) (it : item) (r : list item) (s : jsstring) (v : result) :
  consumed ic r s v -> consumed ic (it :: r) s v.
Proof.
  intros (m & Hs & Hm). exists m. split; [exact Hs|].
  eapply Forall_impl; [|exact Hm]. intros c Hc. unfold accepts in *.
  cbn [existsb]. rewrite Hc. apply orb_true_r.
Qed.

Lemma consumed_cons (ic : bool) (cls : charClass) (it : item) (r : list item)
    (c : ascii) (s : jsstring) (v : result) :
  itemClass it = Some cls -> classMatches ic cls c = true ->
  consumed ic (it :: r) s v -> consumed ic (it :: r) (c :: s) v.
Proof.
  intros Hit Hc (m & Hs & Hm). exists (c :: m). split; [now rewrite Hs|].
  constructor; [|exact Hm]. unfold accepts. cbn [existsb]. now rewrite Hit, Hc.
Qed.

Lemma starLoop_consumed (ic : bool) (cls : charClass) (it : item) (r : list item)
    (k : jsstring -> option result) :
  itemClass it = Some cls ->
  (forall s v, k s = Some v -> consumed ic (it :: r) s v) ->
  forall s v, starLoop (classMatches ic cls) k s = Some v -> consumed ic (it :: r) s v.
Proof.
  intros Hit Hk s. induction s as [|c s IH]; intros v; cbn [starLoop]; [apply Hk|].
  destruct (classMatches ic cls c) eqn:Ec; [|apply Hk].
  destruct (starLoop (classMatches ic cls) k s) as [v'|]; cbn [orElse].
  - intros [= <-]. apply consumed_cons with (cls := cls); auto.
  - apply Hk.
Qed.

(** What a match consumes is made of characters the pattern accepts. *)
Lemma matchHere_consumed (ic : bool) (r : list item) :
  forall s v, matchHere ic r s = Some v -> consumed ic r s v.
Proof.
  induction r as [|it r IH]; intros s v; cbn [matchHere].
  - intros [= <-]. exists []. split; [reflexivity | constructor].
  - assert (IH' : forall s v, matchHere ic r s = Some v -> consumed ic (it :: r) s v)
      by (intros; now apply consumed_weaken, IH).
    destruct it.
    + destruct s as [|c s]; [discriminate|].
      destruct (classMatches ic cls c) eqn:Ec; [|discriminate].
      intros H. apply consumed_cons with (cls := cls); auto.
    + destruct s as [|c s]; [apply IH'|].
      destruct (classMatches ic cls c) eqn:Ec; [|apply IH'].
      destruct (matchHere ic r s) as [v'|] eqn:E; cbn [orElse].
      * intros [= <-]. apply consumed_cons with (cls := cls); auto.
      * apply IH'.
    + apply starLoop_consumed with (cls := cls); auto.
    + destruct s as [|c s]; [discriminate|].
      destruct (classMatches ic cls c) eqn:Ec; [|discriminate].
      intros H. apply consumed_cons with (cls := cls); auto.
      revert H. apply starLoop_consumed with (cls := cls); auto.
    + destruct s as [|c s]; [discriminate|].
      destruct (classMatches ic cls c) eqn:Ec; [|discriminate].
      destruct (matchHere ic r s) as [[caps rest]|] eqn:E; [|discriminate].
      intros [= <-]. apply consumed_cons with (cls := cls); auto.
      destruct (IH' s _ E) as (m & Hs & Hm). exists m. now split.
    + destruct s as [|c s]; [apply IH' | discriminate].
Qed.

(** A match does not run over a character the pattern does not accept. *)
Lemma match_stops_before (ic : bool) (r : list item) (a : jsstring) (c : ascii)
    (b : jsstring) (v : result) :
  accepts ic r c = false ->
  matchHere ic r (a ++ c :: b) = Some v ->
  length (a ++ c :: b) - length (snd v) <= length a.
Proof.
  intros Hc H. destruct (matchHere_consumed _ _ _ H) as (m & Hs & Hm).
  rewrite Hs at 1. rewrite length_app.
  destruct (Nat.le_gt_cases (length m) (length a)) as [Hle | Hgt]; [lia|].
  exfalso.
  assert (Hn : nth_error m (length a) = Some c).
  { rewrite <- (nth_error_app1 m (snd v) Hgt), <- Hs.
    rewrite nth_error_app2 by lia. now rewrite Nat.sub_diag. }
  apply nth_error_In in Hn. rewrite Forall_forall in Hm.
  specialize (Hm _ Hn). congruence.
Qed.

(** The classes of the capturing groups of a pattern, in order. *)
Fixpoint groupsOf (r : list item) : list charClass :=
  match r with
  | [] => []
  | Group cls :: r' => cls :: groupsOf r'
  | _ :: r' => groupsOf r'
  end.

(** A captured text is one character of the group's class. *)
Definition captured (ic : bool) (cls : charClass) (cap : jsstring) : Prop :=
  exists c, cap = [c] /\ classMatches ic cls c = true.

Lemma starLoop_result (p : ascii -> bool) (k : jsstring -> option result)
    (P : result -> Prop) :
  (forall s v, k s = Some v -> P v) ->
  forall s v, starLoop p k s = Some v -> P v.
Proof.
  intros Hk s. induction s as [|c s IH]; intros v; cbn [starLoop]; [apply Hk|].
  destruct (p c); [|apply Hk].
  destruct (starLoop p k s) as [v'|]; cbn [orElse].
  - intros [= <-]. now apply IH.
  - apply Hk.
Qed.

Lemma matchHere_captures (ic : bool) (r : list item) :
  forall s v, matchHere ic r s = Some v -> Forall2 (captured ic) (groupsOf r) (fst v).
Proof.
  induction r as [|it r IH]; intros s v; cbn [matchHere groupsOf].
  - intros [= <-]. constructor.
  - destruct it.
    + destruct s as [|c s]; [discriminate|].
      destruct (classMatches ic cls c); [apply IH | discriminate].
    + destruct s as [|c s]; [apply IH|].
      destruct (classMatches ic cls c); [|apply IH].
      destruct (matchHere ic r s) as [v'|] eqn:E; cbn [orElse].
      * intros [= <-]. now apply (IH s).
      * apply IH.
    + apply (@starLoop_result _ _ (fun v => Forall2 (captured ic) (groupsOf r) (fst v))).
      exact IH.
    + destruct s as [|c s]; [discriminate|].
      destruct (classMatches ic cls c); [|discriminate].
      apply (@starLoop_result _ _ (fun v => Forall2 (captured ic) (groupsOf r) (fst v))).
      exact IH.
    + destruct s as [|c s]; [discriminate|].
      destruct (classMatches ic cls c) eqn:Ec; [|discriminate].
      destruct (matchHere ic r s) as [[caps rest]|] eqn:E; [|discriminate].
      intros [= <-]. cbn [fst]. constructor.
      * now exists c.
      * exact (IH s _ E).
    + destruct s as [|c s]; [apply IH | discriminate].
Qed.

Lemma search_captures (re : regex) (s : jsstring) (before : jsstring)
    (caps : list jsstring) (rest : jsstring) :
  search re s = Some (before, caps, rest) ->
  Forall2 (captured (ignoreCase re)) (groupsOf (items re)) caps.
Proof.
  revert before caps rest; induction s as [|c s IH]; intros before caps rest;
    cbn [search].
  - destruct (matchHere _ _ []) as [[caps' rest']|] eqn:E; [|discriminate].
    intros [= _ <- _]. exact (matchHere_captures _ _ _ E).
  - destruct (matchHere _ _ (c :: s)) as [[caps' rest']|] eqn:E.
    + intros [= _ <- _]. exact (matchHere_captures _ _ _ E).
    + destruct (search re s) as [[[b caps'] rest']|]; [|discriminate].
      intros [= _ <- _]. now apply (IH b caps' rest').
Qed.

(** A match further on is not lost by text put in front. *)
Lemma search_found_later (re : regex) (pre s : jsstring) :
  search re s <> None -> search re (pre ++ s) <> None.
Proof.
  intros H. induction pre as [|c pre IH]; cbn [app]; [exact H|].
  cbn [search]. destruct (matchHere _ _ (c :: pre ++ s)) as [[caps rest]|]; [discriminate|].
  destruct (search re (pre ++ s)) as [[[b caps] rest]|]; [discriminate | exact IH].
Qed.

End RegexFacts.

(* ------------------------------------------------------------------ *)
(** ** Lenient JSON extraction *)

Module JsonRecoveryFacts.
Import Regex Json JsonRecovery StringFacts RegexFacts.

(** The text of a JSON object: an opening brace, a closing brace, and
    whatever stands in between. *)
Definition objectText (mid : jsstring) : jsstring := ch "{" :: mid ++ [ch "}"].

(** What may stand before the object: anything without an opening brace or
    bracket; and after it: anything without a closing brace. *)
Definition noOpening (c : ascii) : Prop := c <> ch "{" /\ c <> ch "[".
Definition noClosing (c : ascii) : Prop := c <> ch "}".

Lemma objectText_no_match (re : regex) (r : list item) (mid b : jsstring) :
  items re = ticks ++ r ->
  includes (lit "```") (objectText mid) = false ->
  forall x y, objectText mid = x ++ y -> y <> [] ->
    matchHere (ignoreCase re) (items re) (y ++ b) = None.
Proof.
  intros Hre Hinc x y Hxy Hy. rewrite Hre. apply ticks_needed.
  assert (Hd : ch "}" <> ch "`") by discriminate.
  exact (@no_ticks_inside (objectText mid) (ch "}") (ch "{" :: mid) b eq_refl Hd Hinc
           x y Hxy Hy).
Qed.

(** Removing fences leaves the object in place: a fence before it ends at
    its opening brace at the latest, none starts inside it, and around it
    characters are only deleted. *)
Lemma replace_keeps_object (re : regex) (r : list item) (mid post : jsstring) :
  items re = ticks ++ r ->
  accepts (ignoreCase re) (items re) (ch "{") = false ->
  includes (lit "```") (objectText mid) = false ->
  forall pre skip, skip <= length pre ->
    exists pre',
      replaceFrom re [] skip (pre ++ objectText mid ++ post)
      = pre' ++ objectText mid ++ replaceFrom re [] 0 post
      /\ (forall P : ascii -> Prop, Forall P pre -> Forall P pre').
Proof.
  intros Hre Hbrace Hinc. induction pre as [|c pre IH]; intros skip Hskip.
  - assert (skip = 0) by (cbn in Hskip; lia). subst skip.
    exists []. split; [|auto]. cbn [app].
    apply replaceFrom_copy. now apply objectText_no_match with (r := r).
  - destruct skip as [|n].
    + cbn [app replaceFrom].
      destruct (matchHere (ignoreCase re) (items re) (c :: pre ++ objectText mid ++ post))
        as [[caps rest]|] eqn:E.
      * assert (Hstop : length (c :: pre ++ objectText mid ++ post) - length rest
                        <= length (c :: pre))
          by exact (@match_stops_before (ignoreCase re) (items re) (c :: pre) (ch "{")
                      ((mid ++ [ch "}"]) ++ post) (caps, rest) Hbrace E).
        destruct (length (c :: pre ++ objectText mid ++ post) - length rest) as [|k].
        -- destruct (IH 0 (Nat.le_0_l _)) as (pre' & Heq & HP).
           exists (c :: pre'). cbn [app]. rewrite Heq. split; [reflexivity|].
           intros P HPc. inversion HPc; subst. constructor; auto.
        -- destruct (IH k) as (pre' & Heq & HP); [cbn [length] in Hstop; lia|].
           exists pre'. cbn [app]. rewrite Heq. split; [reflexivity|].
           intros P HPc. inversion HPc; subst. auto.
      * destruct (IH 0 (Nat.le_0_l _)) as (pre' & Heq & HP).
        exists (c :: pre'). cbn [app]. rewrite Heq. split; [reflexivity|].
        intros P HPc. inversion HPc; subst. constructor; auto.
    + cbn [app replaceFrom].
      destruct (IH n) as (pre' & Heq & HP); [cbn [length] in Hskip; lia|].
      exists pre'. split; [exact Heq|].
      intros P HPc. inversion HPc; subst. auto.
Qed.

Lemma trim_around_object (pre mid post : jsstring) :
  trim (pre ++ objectText mid ++ post) = trimStart pre ++ objectText mid ++ trimEnd post.
Proof.
  unfold trim.
  rewrite (@trimStart_app pre (objectText mid ++ post) (ch "{") ((mid ++ [ch "}"]) ++ post))
    by reflexivity.
  unfold trimEnd at 1.
  rewrite !rev_app_distr, <- app_assoc.
  assert (Hrev : rev (objectText mid) ++ rev (trimStart pre)
                 = ch "}" :: rev (ch "{" :: mid) ++ rev (trimStart pre)).
  { unfold objectText. change (ch "{" :: mid ++ [ch "}"]) with ((ch "{" :: mid) ++ [ch "}"]).
    now rewrite rev_app_distr. }
  rewrite (@trimStart_app (rev post) _ (ch "}") _ Hrev) by reflexivity.
  rewrite !rev_app_distr, !rev_involutive, <- app_assoc. reflexivity.
Qed.

Lemma stripFences_keeps_object (pre mid post : jsstring) :
  includes (lit "```") (objectText mid) = false ->
  exists pre' post',
    stripFences (pre ++ objectText mid ++ post) = pre' ++ objectText mid ++ post'
    /\ (forall P : ascii -> Prop, Forall P pre -> Forall P pre')
    /\ (forall P : ascii -> Prop, Forall P post -> Forall P post').
Proof.
  intros Hinc. unfold stripFences, replaceAll.
  destruct (@replace_keeps_object fenceJsonRe (chars "json" ++ [ws]) mid post
              eq_refl eq_refl Hinc pre 0 (Nat.le_0_l _)) as (p1 & -> & HP1).
  destruct (@replace_keeps_object fenceAtEndRe [ws; EndOfInput] mid
              (replaceFrom fenceJsonRe [] 0 post)
              eq_refl eq_refl Hinc p1 0 (Nat.le_0_l _)) as (p2 & -> & HP2).
  destruct (@replace_keeps_object fenceRe [] mid
              (replaceFrom fenceAtEndRe [] 0 (replaceFrom fenceJsonRe [] 0 post))
              eq_refl eq_refl Hinc p2 0 (Nat.le_0_l _)) as (p3 & -> & HP3).
  rewrite trim_around_object.
  eexists _, _. split; [reflexivity|]. split.
  - intros P HP. apply trimStart_Forall. auto.
  - intros P HP. apply trimEnd_Forall. now repeat apply replaceFrom_Forall.
Qed.

Lemma indexOf_after (c : ascii) (a s : jsstring) :
  Forall (fun x => x <> c) a ->
  indexOf c (a ++ s) = option_map (Nat.add (length a)) (indexOf c s).
Proof.
  induction 1 as [|x a Hx _ IH]; cbn [app indexOf length].
  - destruct (indexOf c s); reflexivity.
  - apply Ascii.eqb_neq in Hx. rewrite Hx, IH.
    destruct (indexOf c s); reflexivity.
Qed.

Lemma cutToBoundaries_object (pre mid post : jsstring) :
  Forall noOpening pre -> Forall noClosing post ->
  cutToBoundaries (pre ++ objectText mid ++ post) = objectText mid.
Proof.
  intros Hpre Hpost. unfold cutToBoundaries.
  assert (Hfirst : indexOf (ch "{") (pre ++ objectText mid ++ post) = Some (length pre + 0)).
  { rewrite indexOf_after by (eapply Forall_impl; [|exact Hpre]; now intros c [H _]).
    cbn [objectText app]. now rewrite indexOf_head. }
  assert (HfirstArr : forall a,
            indexOf (ch "[") (pre ++ objectText mid ++ post) = Some a ->
            (a <? length pre + 0) = false).
  { intros a. rewrite indexOf_after by (eapply Forall_impl; [|exact Hpre]; now intros c [_ H]).
    destruct (indexOf (ch "[") (objectText mid ++ post)); [|discriminate].
    cbn [option_map]. intros [= <-]. apply Nat.ltb_ge. lia. }
  assert (Hlast : lastIndexOf (ch "}") (pre ++ objectText mid ++ post)
                  = Some (length pre + S (length mid))).
  { unfold objectText.
    replace (pre ++ (ch "{" :: mid ++ [ch "}"]) ++ post)
      with ((pre ++ ch "{" :: mid) ++ ch "}" :: post)
      by (rewrite <- !app_assoc; cbn [app]; now rewrite <- app_assoc).
    rewrite lastIndexOf_last by exact Hpost.
    rewrite length_app. reflexivity. }
  assert (Hcut : substring (length pre + 0) (length pre + S (length mid) + 1)
                   (pre ++ objectText mid ++ post) = objectText mid).
  { unfold substring.
    rewrite Nat.min_l, Nat.max_r by lia.
    rewrite skipn_app, skipn_all2 by lia.
    replace (length pre + 0 - length pre) with 0 by lia. cbn [skipn app].
    replace (length pre + S (length mid) + 1 - (length pre + 0))
      with (length (objectText mid) + 0)
      by (unfold objectText; cbn [length]; rewrite length_app; cbn [length]; lia).
    rewrite firstn_app_2. cbn [firstn]. apply app_nil_r. }
  rewrite Hfirst, Hlast.
  destruct (indexOf (ch "[") (pre ++ objectText mid ++ post)) as [a|] eqn:Ea.
  - rewrite (HfirstArr a eq_refl). exact Hcut.
  - exact Hcut.
Qed.

(** The response texts of the claim, with their values built on the
    reference reader. *)
Definition innerObject : jsstring :=
  lit "{" ++ quoted "a" ++ lit ":" ++ quoted "```" ++ lit "}".

Definition fencedWithBackticks : jsstring :=
  lit "```json" ++ [newline] ++ innerObject ++ [newline] ++ lit "```" ++ [newline]
    ++ lit "Done.".

(** C9, as stated, fails: a fenced object with three backticks inside a
    string value is not recovered, the backticks being stripped from the
    value too.  Here the inner object is [{"a":"```"}] and the result is the
    object [{"a":""}]. *)
Lemma C9_backticks_in_object_are_stripped :
  JsonReader.parse innerObject = Return (JObject [(lit "a", JString (lit "```"))])
  /\ parseJsonFromResponse JsonReader.parse (Some fencedWithBackticks)
     = Return (JObject [(lit "a", JString [])])
  /\ parseJsonFromResponse JsonReader.parse (Some fencedWithBackticks)
     <> JsonReader.parse innerObject.
Proof.
  assert (H1 : JsonReader.parse innerObject
               = Return (JObject [(lit "a", JString (lit "```"))]))
    by (vm_compute; reflexivity).
  assert (H2 : parseJsonFromResponse JsonReader.parse (Some fencedWithBackticks)
               = Return (JObject [(lit "a", JString [])]))
    by (vm_compute; reflexivity).
  repeat split; auto.
  rewrite H1, H2. discriminate.
Qed.

Section Claims.

Variable JSON_parse : jsstring -> completion value.

(** C9 (amended): when the text of a JSON object that has no three
    backticks in a row stands between an opening part without [{] and [[]
    (the fence [```json] and a line break, say) and a closing part without
    [}] (the closing fence and a sentence), the function returns the value
    [JSON.parse] gives for the object text; and on every input the function
    returns, with [null] when neither the cut text nor its repaired form
    parses. *)
Theorem C9_fenced_object_recovered :
  (forall (opening mid closing : jsstring) (v : value),
      Forall noOpening opening ->
      Forall noClosing closing ->
      includes (lit "```") (objectText mid) = false ->
      JSON_parse (objectText mid) = Return v ->
      parseJsonFromResponse JSON_parse (Some (opening ++ objectText mid ++ closing))
      = Return v)
  /\ (forall text, exists v, parseJsonFromResponse JSON_parse text = Return v)
  /\ (forall text e1 e2,
        text <> [] ->
        JSON_parse (cutToBoundaries (stripFences text)) = Throw e1 ->
        JSON_parse (repairBackslashes (cutToBoundaries (stripFences text))) = Throw e2 ->
        parseJsonFromResponse JSON_parse (Some text) = Return JNull).
Proof.
  split; [|split].
  - intros opening mid closing v Hopen Hclose Hinc Hparse.
    destruct (@stripFences_keeps_object opening mid closing Hinc)
      as (pre' & post' & Hstrip & Hpre & Hpost).
    assert (Hcut : cutToBoundaries (stripFences (opening ++ objectText mid ++ closing))
                   = objectText mid).
    { rewrite Hstrip. apply cutToBoundaries_object; auto. }
    unfold parseJsonFromResponse.
    destruct (opening ++ objectText mid ++ closing) as [|c text] eqn:Etext.
    + destruct opening; discriminate Etext.
    + now rewrite Hcut, Hparse.
  - intros [[|c text]|]; cbn [parseJsonFromResponse]; try (eexists; reflexivity).
    destruct (JSON_parse (cutToBoundaries (stripFences (c :: text)))) as [v|e1];
      cbn [tryCatch]; [eexists; reflexivity|].
    destruct (JSON_parse (repairBackslashes _)) as [v|e2];
      cbn [tryCatch]; eexists; reflexivity.
  - intros [|c text] e1 e2 Hne H1 H2; [congruence|].
    cbn [parseJsonFromResponse]. rewrite H1. cbn [tryCatch]. rewrite H2. reflexivity.
Qed.

End Claims.

(** The amended claim at work on a fenced object followed by a sentence. *)
Lemma C9_fenced_object_recovered_witness :
  parseJsonFromResponse JsonReader.parse
    (Some ((lit "```json" ++ [newline]) ++ objectText (quoted "a" ++ lit ":1")
             ++ [newline] ++ lit "```" ++ lit " Here you go."))
  = Return (JObject [(lit "a", JNumber 1)]).
Proof.
  apply (C9_fenced_object_recovered JsonReader.parse).
  - repeat constructor; discriminate.
  - repeat constructor; discriminate.
  - vm_compute; reflexivity.
  - vm_compute; reflexivity.
Defined.

End JsonRecoveryFacts.

(* ------------------------------------------------------------------ *)
(** ** The catalog *)

Module CatalogFacts.
Import Catalog.

(** A numeric code of a string, injective enough to tell the ids apart. *)
Definition strCode (s : jsstring) : N :=
  fold_left (fun acc c => (acc * 256 + N_of_ascii c)%N) s 1%N.

Module NLeb <: TotalLeBool.
Definition t := N.
Definition leb := N.leb.
Theorem leb_total : forall a b, leb a b = true \/ leb b a = true.
Proof.
  intros a b; unfold leb.
  destruct (N.leb_spec a b); [left; reflexivity | right].
  apply N.leb_le; lia.
Qed.
End NLeb.
Module NSort := Sort NLeb.

Fixpoint strictlyIncreasing (l : list N) : bool :=
  match l with
  | a :: (b :: _) as l' => (a <? b)%N && strictlyIncreasing l'
  | _ => true
  end.

Lemma strictlyIncreasing_lower (a : N) (l : list N) :
  strictlyIncreasing (a :: l) = true -> Forall (fun b => (a < b)%N) l.
Proof.
  revert a; induction l as [|b l IH]; intros a H; constructor.
  - simpl in H. apply andb_true_iff in H as [H _]. now apply N.ltb_lt.
  - change (strictlyIncreasing (a :: b :: l)) with
      ((a <? b)%N && strictlyIncreasing (b :: l)) in H.
    apply andb_true_iff in H as [Hab H].
    apply N.ltb_lt in Hab.
    eapply Forall_impl; [|apply (IH b H)].
    simpl; intros; lia.
Qed.

Lemma strictlyIncreasing_NoDup (l : list N) :
  strictlyIncreasing l = true -> NoDup l.
Proof.
  induction l as [|a l IH]; intros H; constructor.
  - intros Hin. pose proof (strictlyIncreasing_lower _ _ H) as Hlow.
    rewrite Forall_forall in Hlow. specialize (Hlow _ Hin). lia.
  - apply IH. destruct l as [|b l]; [reflexivity|].
    change (strictlyIncreasing (a :: b :: l)) with
      ((a <? b)%N && strictlyIncreasing (b :: l)) in H.
    now apply andb_true_iff in H as [_ H].
Qed.

(** Distinct codes, after sorting, certify distinct strings. *)
Lemma NoDup_by_codes (l : list jsstring) :
  strictlyIncreasing (NSort.sort (map strCode l)) = true -> NoDup l.
Proof.
  intros H. apply (NoDup_map_inv strCode).
  apply strictlyIncreasing_NoDup in H.
  eapply Permutation_NoDup; [|exact H].
  apply Permutation_sym, NSort.Permuted_sort.
Qed.

Definition oneTo25 : list N :=
  [1;2;3;4;5;6;7;8;9;10;11;12;13;14;15;16;17;18;19;20;21;22;23;24;25]%N.

(** The (family, year, variant) combinations of the catalog's range. *)
Definition catalogYears : list N :=
  map (fun k => (AMC8_START_YEAR + N.of_nat k)%N)
      (seq 0 (N.to_nat (CURRENT_YEAR + 1 - AMC8_START_YEAR))).

Lemma in_catalogYears (y : N) :
  (AMC8_START_YEAR <= y <= CURRENT_YEAR)%N -> In y catalogYears.
Proof.
  intros Hy. unfold catalogYears. apply in_map_iff.
  exists (N.to_nat (y - AMC8_START_YEAR)). split; [lia|].
  apply in_seq. lia.
Qed.

Definition combosOf (q : list PrefetchTask) : list (ExamLevel * N * jsstring) :=
  flat_map (fun lvl =>
    flat_map (fun y => map (fun v => (lvl, y, v)) (variantsOf lvl y q)) catalogYears)
    [AMC8; AMC10; AMC12].

Definition comboOfTask (t : PrefetchTask) := (level t, year t, examType t).

Definition combo_eqb (a b : ExamLevel * N * jsstring) : bool :=
  let '(l1, y1, v1) := a in
  let '(l2, y2, v2) := b in
  ExamLevel_eqb l1 l2 && (y1 =? y2)%N && streq v1 v2.

Lemma combo_eqb_eq a b : combo_eqb a b = true -> a = b.
Proof.
  destruct a as [[l1 y1] v1], b as [[l2 y2] v2]; simpl.
  rewrite !andb_true_iff, N.eqb_eq, streq_eq.
  intros [[Hl ->] ->]. destruct l1, l2; simpl in Hl; congruence.
Qed.

Definition expectedVariants (lvl : ExamLevel) (y : N) : list jsstring :=
  match lvl with
  | AMC8 => if (y <=? 1998)%N then [lit "AJHSME"] else [lit "AMC 8"]
  | AMC10 =>
      if (y <? AMC10_12_START_YEAR)%N then []
      else if (y =? 2000)%N || (y =? 2001)%N then [lit "AMC 10"]
      else [lit "AMC 10A"; lit "AMC 10B"]
  | AMC12 =>
      if (y <? AMC10_12_START_YEAR)%N then []
      else if (y =? 2000)%N || (y =? 2001)%N then [lit "AMC 12"]
      else [lit "AMC 12A"; lit "AMC 12B"]
  end.

Fixpoint list_streq (a b : list jsstring) : bool :=
  match a, b with
  | [], [] => true
  | x :: a', y :: b' => streq x y && list_streq a' b'
  | _, _ => false
  end.

Lemma list_streq_eq a b : list_streq a b = true -> a = b.
Proof.
  revert b; induction a as [|x a IH]; intros [|y b]; simpl; try discriminate; auto.
  rewrite andb_true_iff, streq_eq. intros [-> H]. f_equal; auto.
Qed.

(** The three checks, as boolean functions of the queue. *)
Definition tasksInCombos (q : list PrefetchTask) : bool :=
  let cs := combosOf q in
  forallb (fun t => existsb (combo_eqb (comboOfTask t)) cs) q.

Definition combosHave1To25 (q : list PrefetchTask) : bool :=
  let expected := map numToString oneTo25 in
  forallb (fun c => let '(lvl, y, v) := c in
             list_streq (map problemNumber (tasksOf lvl y v q)) expected)
          (combosOf q).

Definition variantsAsExpected (q : list PrefetchTask) : bool :=
  forallb (fun lvl =>
    forallb (fun y => list_streq (variantsOf lvl y q) (expectedVariants lvl y))
            catalogYears)
    [AMC8; AMC10; AMC12].

Lemma tasksInCombos_sound (q : list PrefetchTask) :
  tasksInCombos q = true ->
  forall t, In t q -> In (comboOfTask t) (combosOf q).
Proof.
  unfold tasksInCombos. intros H t Ht.
  rewrite forallb_forall in H. specialize (H _ Ht).
  apply existsb_exists in H as [c [Hc Heq]].
  apply combo_eqb_eq in Heq. now rewrite Heq.
Qed.

Lemma combosHave1To25_sound (q : list PrefetchTask) :
  combosHave1To25 q = true ->
  forall lvl y v, In (lvl, y, v) (combosOf q) ->
    map problemNumber (tasksOf lvl y v q) = map numToString oneTo25.
Proof.
  unfold combosHave1To25. intros H lvl y v Hc.
  rewrite forallb_forall in H. specialize (H _ Hc).
  now apply list_streq_eq.
Qed.

Lemma variantsAsExpected_sound (q : list PrefetchTask) :
  variantsAsExpected q = true ->
  forall lvl y, (AMC8_START_YEAR <= y <= CURRENT_YEAR)%N ->
    variantsOf lvl y q = expectedVariants lvl y.
Proof.
  unfold variantsAsExpected. intros H lvl y Hy.
  rewrite forallb_forall in H.
  assert (Hl : In lvl [AMC8; AMC10; AMC12]) by (destruct lvl; simpl; auto).
  specialize (H _ Hl). rewrite forallb_forall in H.
  apply list_streq_eq, H, in_catalogYears, Hy.
Qed.

Lemma catalog_tasksInCombos : tasksInCombos generateFullCatalogQueue = true.
Proof. vm_compute. reflexivity. Qed.

Lemma catalog_combosHave1To25 : combosHave1To25 generateFullCatalogQueue = true.
Proof. vm_compute. reflexivity. Qed.

Lemma catalog_variantsAsExpected : variantsAsExpected generateFullCatalogQueue = true.
Proof. vm_compute. reflexivity. Qed.

Lemma ids_distinct_codes :
  strictlyIncreasing (NSort.sort (map strCode (map id generateFullCatalogQueue))) = true.
Proof. vm_compute. reflexivity. Qed.

(** C2: in the generated catalog, every (family, year, variant) combination
    that occurs has exactly the problem numbers 1..25, in that order; the
    AMC 10 and AMC 12 families have the single unified variant in 2000 and
    2001 and exactly the A and B variants in every other year up to the
    current one (and the AMC 8 family one variant per year); and no two
    tasks share an id. *)
Theorem C2_catalog_shape :
  (forall t, In t generateFullCatalogQueue ->
     map problemNumber
         (tasksOf (level t) (year t) (examType t) generateFullCatalogQueue)
     = map numToString oneTo25)
  /\ (forall y, (AMC10_12_START_YEAR <= y <= CURRENT_YEAR)%N ->
        variantsOf AMC10 y generateFullCatalogQueue
        = (if (y =? 2000)%N || (y =? 2001)%N then [lit "AMC 10"]
           else [lit "AMC 10A"; lit "AMC 10B"])
        /\ variantsOf AMC12 y generateFullCatalogQueue
        = (if (y =? 2000)%N || (y =? 2001)%N then [lit "AMC 12"]
           else [lit "AMC 12A"; lit "AMC 12B"]))
  /\ (forall y, (AMC8_START_YEAR <= y <= CURRENT_YEAR)%N ->
        variantsOf AMC8 y generateFullCatalogQueue
        = (if (y <=? 1998)%N then [lit "AJHSME"] else [lit "AMC 8"]))
  /\ NoDup (map id generateFullCatalogQueue).
Proof.
  pose proof (variantsAsExpected_sound _ catalog_variantsAsExpected) as Hvar.
  assert (Hrange : (AMC8_START_YEAR <= AMC10_12_START_YEAR)%N) by (vm_compute; discriminate).
  split; [|split; [|split]].
  - intros t Ht.
    apply (combosHave1To25_sound _ catalog_combosHave1To25).
    apply (tasksInCombos_sound _ catalog_tasksInCombos _ Ht).
  - intros y Hy. rewrite !Hvar by lia. unfold expectedVariants.
    destruct (N.ltb_spec y AMC10_12_START_YEAR); [lia | split; reflexivity].
  - intros y Hy. now rewrite Hvar.
  - apply NoDup_by_codes, ids_distinct_codes.
Qed.

(** C2 at the year 2001 and at the year 2002 of the AMC 10 family. *)
Lemma C2_catalog_shape_witness :
  variantsOf AMC10 2001 generateFullCatalogQueue = [lit "AMC 10"]
  /\ variantsOf AMC10 2002 generateFullCatalogQueue = [lit "AMC 10A"; lit "AMC 10B"].
Proof.
  destruct C2_catalog_shape as (_ & Hv & _).
  split; [apply (Hv 2001%N) | apply (Hv 2002%N)]; vm_compute; split; discriminate.
Defined.

End CatalogFacts.

(* ------------------------------------------------------------------ *)
(** ** The batch harvester *)

Module HarvesterFacts.
Import Catalog Harvester.

Lemma fetchedTasks_app (a b : list event) :
  fetchedTasks (a ++ b) = fetchedTasks a ++ fetchedTasks b.
Proof. apply flat_map_app. Qed.

Lemma outcomes_app (a b : list event) : outcomes (a ++ b) = outcomes a ++ outcomes b.
Proof. apply flat_map_app. Qed.

Lemma progressCalls_app (a b : list event) :
  progressCalls (a ++ b) = progressCalls a ++ progressCalls b.
Proof. apply flat_map_app. Qed.

Definition countSuccess (os : list (completion (option Problem.t))) : nat :=
  length (filter isSuccess os).

Definition countFailure (os : list (completion (option Problem.t))) : nat :=
  length (filter (fun o => negb (isSuccess o)) os).

Lemma countSuccess_app a b : countSuccess (a ++ b) = countSuccess a + countSuccess b.
Proof. unfold countSuccess. now rewrite filter_app, length_app. Qed.

Lemma countFailure_app a b : countFailure (a ++ b) = countFailure a + countFailure b.
Proof. unfold countFailure. now rewrite filter_app, length_app. Qed.

Lemma count_partition os : countSuccess os + countFailure os = length os.
Proof.
  unfold countSuccess, countFailure.
  induction os as [|o os IH]; simpl; [reflexivity|].
  destruct (isSuccess o); simpl; lia.
Qed.

Definition countProgress (tr : list event) : nat := length (filter isProgress tr).

Lemma countProgress_app a b : countProgress (a ++ b) = countProgress a + countProgress b.
Proof. unfold countProgress. now rewrite filter_app, length_app. Qed.

Lemma countProgress_calls (tr : list event) : countProgress tr = length (progressCalls tr).
Proof.
  unfold countProgress, progressCalls.
  induction tr as [|e tr IH]; [reflexivity|].
  destruct e; cbn [filter isProgress flat_map app length]; rewrite ?IH; reflexivity.
Qed.

(** What a block of one task contributes to each reading of the trace. *)
Lemma taskBlock_readings (t : PrefetchTask) (b : list event) :
  taskBlock t b ->
  fetchedTasks b = [t] /\ countProgress b = 2 /\ exists o, outcomes b = [o].
Proof.
  intros H; destruct H; repeat split; try reflexivity; eexists; reflexivity.
Qed.

Lemma fetchedTasks_blocks (tasks : list PrefetchTask) (blocks : list (list event)) :
  Forall2 taskBlock tasks blocks ->
  fetchedTasks (concat blocks) = tasks
  /\ countProgress (concat blocks) = 2 * length tasks
  /\ length (outcomes (concat blocks)) = length tasks.
Proof.
  induction 1 as [|t b tasks blocks Hb _ IH]; [repeat split|].
  destruct IH as (IH1 & IH2 & IH3).
  destruct (taskBlock_readings Hb) as (H1 & H2 & o & H3).
  cbn [concat]. rewrite fetchedTasks_app, countProgress_app, outcomes_app, length_app.
  rewrite H1, H2, H3, IH1, IH2, IH3. cbn [length app]. repeat split; lia.
Qed.

Section RunnerFacts.

Variable World : Type.
Variable stop : World -> bool.
Variable onProgress :
  PrefetchStats -> jsstring -> option Problem.t -> World -> completion unit * World.
Variable fetchAoPSProblem :
  jsstring -> jsstring -> ExamLevel -> World -> completion (option Problem.t) * World.
Variable wait : nat -> World -> World.

Let iteration := iteration onProgress fetchAoPSProblem wait.
Let loop := loop stop onProgress fetchAoPSProblem wait.
Let turns := turns onProgress fetchAoPSProblem wait.

(** Case analysis on the completion of every call of the callback. *)
Ltac callbacks :=
  repeat match goal with
         | |- context [onProgress ?s ?l ?r ?w] =>
             let E := fresh "Ecall" in
             destruct (onProgress s l r w) as [[[]|?] ?] eqn:E;
             cbn -[lit numToString lastSegment]
         end.

(** One turn, whatever the callback does: the task is attempted at most
    once, and exactly once when the turn completes. *)
Lemma iteration_fetched (n : nat) (task : PrefetchTask) (st : state World) :
  exists evs : list event,
    st_trace (snd (iteration n task st)) = st_trace st ++ evs
    /\ (fetchedTasks evs = [] \/ fetchedTasks evs = [task])
    /\ (fst (iteration n task st) = None ->
        fetchedTasks evs = [task] /\ st_i (snd (iteration n task st)) = S (st_i st)).
Proof.
  unfold iteration, Harvester.iteration, callProgress.
  callbacks.
  2: { eexists; split; [reflexivity|]. split; [now left | discriminate]. }
  destruct (fetchAoPSProblem _ _ _ _) as [o w2].
  destruct o as [[p|]|e]; cbn -[lit numToString lastSegment]; callbacks;
    rewrite <- ?app_assoc; cbn [app];
    (eexists; split; [reflexivity|]); (split; [now right|]);
    intros H; try discriminate H; split; reflexivity.
Qed.

(** Processing a list of tasks: a prefix of them is attempted, all of them
    when no error leaves a turn. *)
Lemma turns_fetched (n : nat) (tasks : list PrefetchTask) (st : state World) :
  exists m,
    m <= length tasks
    /\ fetchedTasks (st_trace (snd (turns n tasks st)))
       = fetchedTasks (st_trace st) ++ firstn m tasks
    /\ (fst (turns n tasks st) = None ->
        m = length tasks /\ st_i (snd (turns n tasks st)) = st_i st + length tasks).
Proof.
  revert st; induction tasks as [|t tasks IH]; intros st.
  - exists 0. cbn. rewrite app_nil_r. repeat split; lia.
  - unfold turns in *. cbn [Harvester.turns].
    destruct (iteration_fetched n t st) as (evs & Htr & Hcases & Hdone).
    unfold iteration in *.
    destruct (Harvester.iteration onProgress fetchAoPSProblem wait n t st)
      as [[e|] st'] eqn:Eit; cbn [fst snd] in *.
    + destruct Hcases as [Hnone|Hone].
      * exists 0. rewrite Htr, fetchedTasks_app, Hnone. cbn [firstn].
        split; [lia|]. split; [reflexivity | discriminate].
      * exists 1. rewrite Htr, fetchedTasks_app, Hone. cbn [firstn length].
        split; [lia|]. split; [reflexivity | discriminate].
    + destruct (Hdone eq_refl) as [Hone Hi].
      destruct (IH st') as (m & Hm & Hft & Hall).
      exists (S m). cbn [length firstn]. split; [lia|].
      rewrite Hft, Htr, fetchedTasks_app, Hone, <- app_assoc. split; [reflexivity|].
      intros H. destruct (Hall H) as [-> ->]. split; lia.
Qed.

(** The loop processes a prefix of the tasks that are left: it stops at the
    first boundary at which the flag is seen set, or with the turn that an
    error leaves. *)
Lemma loop_prefix (n : nat) (rest : list PrefetchTask) (st : state World) :
  exists k,
    k <= length rest
    /\ loop n rest st = turns n (firstn k rest) st
    /\ (forall j, j < k -> stop (st_world (snd (turns n (firstn j rest) st))) = false)
    /\ (k < length rest -> fst (turns n (firstn k rest) st) = None ->
        stop (st_world (snd (turns n (firstn k rest) st))) = true).
Proof.
  revert st; induction rest as [|t rest IH]; intros st.
  - exists 0. cbn. repeat split; auto; lia.
  - unfold loop, turns in *. cbn [Harvester.loop].
    destruct (stop (st_world st)) eqn:Hstop.
    + exists 0. cbn. repeat split; auto; lia.
    + destruct (Harvester.iteration onProgress fetchAoPSProblem wait n t st)
        as [[e|] st'] eqn:Eit.
      * exists 1. cbn [firstn length Harvester.turns]. rewrite Eit.
        repeat split; try lia.
        -- intros [|j] Hj; [exact Hstop | lia].
        -- discriminate.
      * destruct (IH st') as (k & Hk & Hrun & Hbefore & Hat).
        exists (S k). cbn [firstn length Harvester.turns]. rewrite Eit.
        repeat split.
        -- lia.
        -- exact Hrun.
        -- intros [|j] Hj; [exact Hstop|].
           cbn [firstn Harvester.turns]. rewrite Eit. apply Hbefore; lia.
        -- intros Hlt. apply Hat. lia.
Qed.

Lemma loop_stops_at (n : nat) (rest : list PrefetchTask) (st : state World) (k : nat) :
  k < length rest ->
  (forall j, j < k -> stop (st_world (snd (turns n (firstn j rest) st))) = false) ->
  stop (st_world (snd (turns n (firstn k rest) st))) = true ->
  loop n rest st = turns n (firstn k rest) st.
Proof.
  revert st k; induction rest as [|t rest IH]; intros st k Hk Hbefore Hat.
  - cbn in Hk; lia.
  - unfold loop, turns in *. cbn [Harvester.loop]. destruct k as [|k].
    + cbn in Hat. now rewrite Hat.
    + pose proof (Hbefore 0 (Nat.lt_0_succ k)) as H0. cbn in H0. rewrite H0.
      cbn [firstn Harvester.turns] in *.
      destruct (Harvester.iteration onProgress fetchAoPSProblem wait n t st)
        as [[e|] st'] eqn:Eit; [reflexivity|].
      apply IH.
      * cbn in Hk; lia.
      * intros j Hj. specialize (Hbefore (S j)).
        cbn [firstn Harvester.turns] in Hbefore. rewrite Eit in Hbefore.
        apply Hbefore. lia.
      * exact Hat.
Qed.

(** What the caller has received: a reading [calls] of the world that every
    call of the callback extends by its arguments, and that the assembler
    and the pause leave alone. *)
Section Received.

Variable calls : World -> list report.
Hypothesis onProgress_records :
  forall s l r w, calls (snd (onProgress s l r w)) = calls w ++ [(s, l, r)].
Hypothesis fetch_keeps :
  forall u i lv w, calls (snd (fetchAoPSProblem u i lv w)) = calls w.
Hypothesis wait_keeps : forall ms w, calls (wait ms w) = calls w.

Ltac recorded :=
  repeat match goal with
         | |- context [onProgress ?s ?l ?r ?w] =>
             let E := fresh "Ecall" in
             let H := fresh "Hcall" in
             pose proof (onProgress_records s l r w) as H;
             destruct (onProgress s l r w) as [[[]|?] ?] eqn:E;
             cbn [snd] in H;
             cbn -[lit numToString lastSegment]
         end.

(** The progress events of the trace are the calls the callback received,
    whether it returned or raised. *)
Lemma iteration_received (n : nat) (task : PrefetchTask) (st : state World)
    (before : list report) :
  calls (st_world st) = before ++ progressCalls (st_trace st) ->
  calls (st_world (snd (iteration n task st)))
  = before ++ progressCalls (st_trace (snd (iteration n task st))).
Proof.
  intros Hinv.
  unfold iteration, Harvester.iteration, callProgress.
  recorded.
  2: { rewrite Hcall, Hinv, progressCalls_app, <- app_assoc. reflexivity. }
  pose proof (fetch_keeps (url task) (id task) (level task) w) as Hfetch.
  destruct (fetchAoPSProblem _ _ _ _) as [o w2]. cbn [snd] in Hfetch.
  destruct o as [[p|]|e]; cbn -[lit numToString lastSegment]; recorded;
    rewrite ?wait_keeps;
    repeat match goal with H : calls _ = _ |- _ => rewrite H; clear H end;
    rewrite !progressCalls_app; cbn [progressCalls flat_map app];
    rewrite ?app_nil_r, <- ?app_assoc; reflexivity.
Qed.

Lemma turns_received (n : nat) (tasks : list PrefetchTask) (st : state World)
    (before : list report) :
  calls (st_world st) = before ++ progressCalls (st_trace st) ->
  calls (st_world (snd (turns n tasks st)))
  = before ++ progressCalls (st_trace (snd (turns n tasks st))).
Proof.
  revert st; induction tasks as [|t tasks IH]; intros st Hinv; [exact Hinv|].
  unfold turns in *. cbn [Harvester.turns].
  pose proof (iteration_received n t st before Hinv) as Hstep. unfold iteration in Hstep.
  destruct (Harvester.iteration onProgress fetchAoPSProblem wait n t st) as [[e|] st'].
  - exact Hstep.
  - apply IH. exact Hstep.
Qed.

End Received.

(** A callback that returns normally whenever it is called. *)
Section ReturningCallback.

Hypothesis onProgress_returns : forall s l r w, fst (onProgress s l r w) = Return tt.

Ltac returned :=
  repeat match goal with
         | |- context [onProgress ?s ?l ?r ?w] =>
             let E := fresh "Ecall" in
             let H := fresh "Hcall" in
             pose proof (onProgress_returns s l r w) as H;
             destruct (onProgress s l r w) as [? ?] eqn:E;
             cbn [fst] in H; subst;
             cbn -[lit numToString lastSegment]
         end.

(** One turn of the loop: it completes, one block appended, one counter
    incremented. *)
Lemma iteration_spec (n : nat) (task : PrefetchTask) (st : state World) :
  exists (b : list event) (o : completion (option Problem.t)),
    fst (iteration n task st) = None
    /\ st_trace (snd (iteration n task st)) = st_trace st ++ b
    /\ taskBlock task b
    /\ outcomes b = [o]
    /\ st_success (snd (iteration n task st)) = st_success st + countSuccess [o]
    /\ st_failed (snd (iteration n task st)) = st_failed st + countFailure [o]
    /\ st_i (snd (iteration n task st)) = S (st_i st).
Proof.
  unfold iteration, Harvester.iteration, callProgress.
  returned.
  destruct (fetchAoPSProblem _ _ _ _) as [o w2].
  destruct o as [[p|]|e]; cbn -[lit numToString lastSegment]; returned;
    eexists; eexists; (split; [reflexivity|]);
    (split; [rewrite <- !app_assoc; reflexivity|]);
    cbn [app]; (split; [econstructor; cbn; congruence|]);
    (split; [reflexivity|]); cbn; repeat split; lia.
Qed.

(** Processing a list of tasks appends one block per task. *)
Lemma turns_spec (n : nat) (tasks : list PrefetchTask) (st : state World) :
  exists blocks : list (list event),
    fst (turns n tasks st) = None
    /\ st_trace (snd (turns n tasks st)) = st_trace st ++ concat blocks
    /\ Forall2 taskBlock tasks blocks
    /\ st_success (snd (turns n tasks st))
       = st_success st + countSuccess (outcomes (concat blocks))
    /\ st_failed (snd (turns n tasks st))
       = st_failed st + countFailure (outcomes (concat blocks))
    /\ st_i (snd (turns n tasks st)) = st_i st + length tasks.
Proof.
  revert st; induction tasks as [|t tasks IH]; intros st.
  - exists []. cbn. rewrite app_nil_r. repeat split; auto.
  - unfold turns in *. cbn [Harvester.turns].
    destruct (iteration_spec n t st) as (b & o & Hok & Htr & Hb & Ho & Hs & Hf & Hi).
    unfold iteration in *.
    destruct (Harvester.iteration onProgress fetchAoPSProblem wait n t st)
      as [r st'] eqn:Eit.
    cbn [fst snd] in *. subst r.
    destruct (IH st') as (bs & Hok' & Htr' & Hbs & Hs' & Hf' & Hi').
    exists (b :: bs). cbn [concat].
    rewrite Htr', Htr, Hs', Hs, Hf', Hf, Hi', Hi.
    rewrite outcomes_app, countSuccess_app, countFailure_app, Ho, <- app_assoc.
    repeat split; try (cbn [length]; lia); auto.
Qed.

End ReturningCallback.

End RunnerFacts.

Section Claims.

Variable World : Type.
Variable stop : World -> bool.
Variable onProgress :
  PrefetchStats -> jsstring -> option Problem.t -> World -> completion unit * World.
Variable fetchAoPSProblem :
  jsstring -> jsstring -> ExamLevel -> World -> completion (option Problem.t) * World.
Variable wait : nat -> World -> World.

(** The calls that the caller has received from the runner. *)
Variable calls : World -> list report.

Let run := processPrefetchQueue stop onProgress fetchAoPSProblem wait.
Let afterTasks := afterTasks onProgress fetchAoPSProblem wait.

(** C7: with a callback [onProgress] that returns normally whenever it is
    called, a run over any queue is never left by an error; the tasks
    attempted are a prefix of the queue; every attempt falls in exactly one
    of the three classes, [success] counting the first and [failed] the other
    two, so that the counters sum to the number of tasks processed; the trace
    is one block per processed task, with one call of [onProgress] before the
    attempt and one after it, whatever the outcome; these calls are the ones
    the caller receives, two per processed task, [calls] being any reading of
    the caller's state that every call extends by its arguments and that the
    assembler and the pause leave alone; if the stop flag is
    never set, every task of the queue is processed, raised errors included;
    and when five tasks are processed and only the third attempt raises, the
    counters end at 4 and 1. *)
Theorem C7_harvester_accounting (queue : list PrefetchTask) (w : World) :
  (forall s l r w', fst (onProgress s l r w') = Return tt) ->
  let st := snd (run queue w) in
  let tr := st_trace st in
  fst (run queue w) = None
  /\ fetchedTasks tr = firstn (st_i st) queue
  /\ st_success st = countSuccess (outcomes tr)
  /\ st_failed st = countFailure (outcomes tr)
  /\ st_success st + st_failed st = length (fetchedTasks tr)
  /\ (exists blocks, tr = concat blocks /\ Forall2 taskBlock (fetchedTasks tr) blocks)
  /\ countProgress tr = 2 * length (fetchedTasks tr)
  /\ ((forall s l r w', calls (snd (onProgress s l r w')) = calls w' ++ [(s, l, r)]) ->
      (forall u i lv w', calls (snd (fetchAoPSProblem u i lv w')) = calls w') ->
      (forall ms w', calls (wait ms w') = calls w') ->
      calls (st_world st) = calls w ++ progressCalls tr
      /\ length (calls (st_world st)) = length (calls w) + 2 * length (fetchedTasks tr))
  /\ ((forall w', stop w' = false) -> fetchedTasks tr = queue)
  /\ (map classify (outcomes tr) = [Success; Success; HardFailure; Success; Success] ->
      st_success st = 4 /\ st_failed st = 1).
Proof.
  intros Hreturns. cbn zeta.
  unfold run, Harvester.processPrefetchQueue.
  destruct (loop_prefix stop onProgress fetchAoPSProblem wait (length queue) queue
              (initial w)) as (k & Hk & Hrun & Hbefore & Hat).
  rewrite Hrun.
  destruct (turns_spec onProgress fetchAoPSProblem wait Hreturns (length queue)
              (firstn k queue) (initial w)) as (bs & Hok & Htr & Hbs & Hs & Hf & Hi).
  cbn [initial st_trace st_success st_failed st_i app Nat.add] in Htr, Hs, Hf, Hi.
  destruct (fetchedTasks_blocks Hbs) as (Hft & Hcp & Hlen).
  assert (Hsum : countSuccess (outcomes (concat bs)) + countFailure (outcomes (concat bs))
                 = length (firstn k queue)).
  { rewrite count_partition. exact Hlen. }
  rewrite length_firstn, Nat.min_l in Hsum by exact Hk.
  assert (Hreceived :
    (forall s l r w', calls (snd (onProgress s l r w')) = calls w' ++ [(s, l, r)]) ->
    (forall u i lv w', calls (snd (fetchAoPSProblem u i lv w')) = calls w') ->
    (forall ms w', calls (wait ms w') = calls w') ->
    calls (st_world (snd (turns onProgress fetchAoPSProblem wait (length queue)
                            (firstn k queue) (initial w))))
    = calls w ++ progressCalls (concat bs)).
  { intros Hrecords Hfetch Hwait.
    pose proof (@turns_received World onProgress fetchAoPSProblem wait calls Hrecords
                  Hfetch Hwait (length queue) (firstn k queue) (initial w) (calls w))
      as Hcalls.
    cbn [initial st_world st_trace progressCalls flat_map] in Hcalls.
    rewrite app_nil_r, Htr in Hcalls. exact (Hcalls eq_refl). }
  rewrite Htr, Hs, Hf, Hi, Hft, Hcp, Hok.
  rewrite length_firstn, Nat.min_l by exact Hk.
  repeat match goal with |- _ /\ _ => split end; auto.
  - exists bs. auto.
  - intros Hrecords Hfetch Hwait. rewrite (Hreceived Hrecords Hfetch Hwait).
    split; [reflexivity|].
    rewrite length_app, <- countProgress_calls, Hcp, length_firstn, Nat.min_l by exact Hk.
    reflexivity.
  - intros Hnever.
    destruct (Nat.eq_dec k (length queue)) as [->|Hne]; [apply firstn_all|].
    rewrite Hnever in Hat. assert (Hlt : k < length queue) by lia.
    specialize (Hat Hlt Hok). discriminate.
  - generalize (outcomes (concat bs)).
    intros [|o1 [|o2 [|o3 [|o4 [|o5 [|o6 os]]]]]] H5; try discriminate.
    injection H5 as H1 H2 H3 H4 H5. unfold countSuccess, countFailure, isSuccess.
    cbn [filter]. now rewrite H1, H2, H3, H4, H5.
Qed.

(** C8: if the stop flag is unset at each of the first [k] task boundaries
    and set when the [k]-th task has completed, with [k] smaller than the
    length of the queue, the run ends in the state reached after the [k]-th
    task: exactly the first [k] tasks are attempted, and none after them.
    This holds whenever the first [k] turns complete, as they do with a
    callback that returns normally.  When an error raised by the callback
    leaves one of these turns, the run ends with that turn: the tasks
    attempted are then fewer, a prefix of the first [k]. *)
Theorem C8_stop_after_k_tasks (queue : list PrefetchTask) (w : World) (k : nat) :
  k < length queue ->
  (forall j, j < k -> stop (st_world (snd (afterTasks queue j w))) = false) ->
  stop (st_world (snd (afterTasks queue k w))) = true ->
  run queue w = afterTasks queue k w
  /\ (exists m, m <= k
        /\ fetchedTasks (st_trace (snd (run queue w))) = firstn m queue)
  /\ (fst (afterTasks queue k w) = None ->
      fst (run queue w) = None
      /\ fetchedTasks (st_trace (snd (run queue w))) = firstn k queue
      /\ length (fetchedTasks (st_trace (snd (run queue w)))) = k
      /\ st_i (snd (run queue w)) = k)
  /\ ((forall s l r w', fst (onProgress s l r w') = Return tt) ->
      fst (run queue w) = None
      /\ fetchedTasks (st_trace (snd (run queue w))) = firstn k queue
      /\ length (fetchedTasks (st_trace (snd (run queue w)))) = k
      /\ st_i (snd (run queue w)) = k).
Proof.
  intros Hk Hbefore Hat.
  assert (Hrun : run queue w = afterTasks queue k w).
  { unfold run, afterTasks, Harvester.processPrefetchQueue, Harvester.afterTasks.
    apply (loop_stops_at stop onProgress fetchAoPSProblem wait); assumption. }
  rewrite Hrun. unfold afterTasks, Harvester.afterTasks.
  destruct (turns_fetched onProgress fetchAoPSProblem wait (length queue)
              (firstn k queue) (initial w)) as (m & Hm & Hft & Hall).
  cbn [initial st_trace st_i app Nat.add fetchedTasks flat_map] in Hft, Hall.
  rewrite length_firstn, Nat.min_l in Hm, Hall by lia.
  assert (Hdone :
    fst (turns onProgress fetchAoPSProblem wait (length queue) (firstn k queue) (initial w))
    = None ->
    fst (turns onProgress fetchAoPSProblem wait (length queue) (firstn k queue) (initial w))
    = None
    /\ firstn m (firstn k queue) = firstn k queue
    /\ length (firstn m (firstn k queue)) = k
    /\ st_i (snd (turns onProgress fetchAoPSProblem wait (length queue) (firstn k queue)
                    (initial w))) = k).
  { intros Hok. destruct (Hall Hok) as [-> Hi].
    rewrite Hi, firstn_firstn, Nat.min_id, length_firstn, Nat.min_l by lia.
    repeat split; auto. }
  rewrite Hft. split; [reflexivity|]. split; [|split].
  - exists m. split; [exact Hm|].
    rewrite firstn_firstn, Nat.min_l by exact Hm. reflexivity.
  - exact Hdone.
  - intros Hreturns. apply Hdone.
    destruct (turns_spec onProgress fetchAoPSProblem wait Hreturns (length queue)
                (firstn k queue) (initial w)) as (bs & Hok & _).
    exact Hok.
Qed.

End Claims.

(** A small run: five tasks of the catalog; the world counts the attempts
    made, holds the stop flag and keeps what the callback has received; the
    attempt numbered [failing] raises, the others succeed; the caller sets
    the flag during the pause that follows the attempt numbered [stopAfter];
    the callback keeps its arguments and then raises if the log line starts
    with the text [raising]. *)
Record sampleWorld := mkSample {
  attempts : nat;
  stopFlag : bool;
  received : list report
}.

Definition sampleStart : sampleWorld :=
  {| attempts := 0; stopFlag := false; received := [] |}.

Definition sampleQueue : list PrefetchTask :=
  addTask 2025 AMC8 (lit "AMC_8") (lit "AMC 8") (lit "amc8") 5.

Definition sampleProblem (id url : jsstring) : Problem.t :=
  {| Problem.id := id; Problem.source := AOPS; Problem.originalUrl := Some url;
     Problem.questionHtml := lit "<div><p>1+1?</p></div>"; Problem.images := [];
     Problem.options := map lit ["A"; "B"; "C"; "D"; "E"]%string;
     Problem.correctOption := lit "B";
     Problem.solutionHtml := lit "<div><p>2</p></div>"; Problem.difficulty := 5;
     Problem.userAnswer := None; Problem.isCorrect := None; Problem.hints := [];
     Problem.solutionChat := []; Problem.topic := None |}.

Definition sampleAssembler (failing : nat) (url id : jsstring) (level : ExamLevel)
    (w : sampleWorld) : completion (option Problem.t) * sampleWorld :=
  (if attempts w =? failing then Throw (Error (lit "Failed to fetch"))
   else Return (Some (sampleProblem id url)),
   {| attempts := S (attempts w); stopFlag := stopFlag w; received := received w |}).

Definition samplePause (stopAfter : nat) (ms : nat) (w : sampleWorld) : sampleWorld :=
  {| attempts := attempts w; stopFlag := stopFlag w || (attempts w =? stopAfter);
     received := received w |}.

Definition sampleProgress (raising : option jsstring) (stats : PrefetchStats)
    (log : jsstring) (result : option Problem.t) (w : sampleWorld)
    : completion unit * sampleWorld :=
  (match raising with
   | Some text =>
       if startsWith text log then Throw (Error (lit "Cannot update the view"))
       else Return tt
   | None => Return tt
   end,
   {| attempts := attempts w; stopFlag := stopFlag w;
      received := received w ++ [(stats, log, result)] |}).

Definition sampleRun (failing stopAfter : nat) : option error * state sampleWorld :=
  processPrefetchQueue stopFlag (sampleProgress None) (sampleAssembler failing)
    (samplePause stopAfter) sampleQueue sampleStart.

(** The small run with a callback that raises. *)
Definition raisingRun (text : string) (failing : nat) : option error * state sampleWorld :=
  processPrefetchQueue stopFlag (sampleProgress (Some (lit text))) (sampleAssembler failing)
    (samplePause 99) sampleQueue sampleStart.

(** C7 on the small run: the third attempt raises, the flag is never set. *)
Lemma C7_harvester_accounting_witness :
  fst (sampleRun 2 99) = None
  /\ st_success (snd (sampleRun 2 99)) = 4 /\ st_failed (snd (sampleRun 2 99)) = 1
  /\ length (received (st_world (snd (sampleRun 2 99)))) = 10.
Proof.
  pose proof (@C7_harvester_accounting sampleWorld stopFlag (sampleProgress None)
                (sampleAssembler 2) (samplePause 99) received sampleQueue sampleStart
                (fun _ _ _ _ => eq_refl)) as H.
  cbn zeta in H.
  destruct H as (Hok & _ & _ & _ & _ & _ & _ & Hcalls & _ & Hfive).
  destruct (Hcalls (fun _ _ _ _ => eq_refl) (fun _ _ _ _ => eq_refl) (fun _ _ => eq_refl))
    as [_ Hlen].
  split; [exact Hok|].
  split; [apply Hfive; vm_compute; reflexivity|].
  split; [apply Hfive; vm_compute; reflexivity|].
  unfold sampleRun. rewrite Hlen. vm_compute. reflexivity.
Defined.

(** Without the condition on the callback the accounting fails.  A callback
    that raises on the SUCCESS report has every task counted as a success
    and then as a failure, and is called three times per task; a callback
    that raises on the first report ends the run with its error before any
    task is attempted; and one that raises on the ERROR report ends the run
    with the first task whose attempt raises. *)
Lemma C7_raising_callback_is_counted_twice :
  (fst (raisingRun "SUCCESS" 99) = None
   /\ length (fetchedTasks (st_trace (snd (raisingRun "SUCCESS" 99)))) = 5
   /\ map classify (outcomes (st_trace (snd (raisingRun "SUCCESS" 99))))
      = [Success; Success; Success; Success; Success]
   /\ st_success (snd (raisingRun "SUCCESS" 99)) = 5
   /\ st_failed (snd (raisingRun "SUCCESS" 99)) = 5
   /\ length (received (st_world (snd (raisingRun "SUCCESS" 99)))) = 15)
  /\ (fst (raisingRun "Fetching" 99) = Some (Error (lit "Cannot update the view"))
      /\ fetchedTasks (st_trace (snd (raisingRun "Fetching" 99))) = [])
  /\ (fst (raisingRun "ERROR" 1) = Some (Error (lit "Cannot update the view"))
      /\ length (fetchedTasks (st_trace (snd (raisingRun "ERROR" 1)))) = 2
      /\ st_success (snd (raisingRun "ERROR" 1)) = 1
      /\ st_failed (snd (raisingRun "ERROR" 1)) = 1).
Proof.
  repeat match goal with |- _ /\ _ => split end; vm_compute; reflexivity.
Qed.

(** C8 on the small run: the flag is set when the second task has
    completed. *)
Lemma C8_stop_after_k_tasks_witness :
  fst (sampleRun 99 2) = None
  /\ length (fetchedTasks (st_trace (snd (sampleRun 99 2)))) = 2
  /\ st_i (snd (sampleRun 99 2)) = 2.
Proof.
  destruct (@C8_stop_after_k_tasks sampleWorld stopFlag (sampleProgress None)
              (sampleAssembler 99) (samplePause 2) sampleQueue sampleStart 2)
    as (_ & _ & Hdone & _).
  - vm_compute. lia.
  - intros [|[|j]] Hj; [reflexivity | reflexivity | lia].
  - reflexivity.
  - destruct (Hdone eq_refl) as (Hok & _ & Hlen & Hi).
    split; [exact Hok|]. split; [exact Hlen | exact Hi].
Defined.

End HarvesterFacts.

(* ------------------------------------------------------------------ *)
(** ** The proxy fetcher *)

Module ProxyFacts.
Import Json Dom Scraper.

Definition primaryUrl (url : jsstring) : jsstring :=
  lit "https://corsproxy.io/?" ++ encodeURIComponent url.

Definition backupUrl (url : jsstring) : jsstring :=
  lit "https://api.allorigins.win/get?url=" ++ encodeURIComponent url.

(** A small network: the world is the number of requests made so far; the
    primary proxy answers 200 with a short page, the backup answers with the
    given status and a JSON body whose [contents] is a short text. *)
Definition shortBody : jsstring := lit "<html>gone</html>".

Definition backupJson : value := JObject [(lit "contents", JString shortBody)].

Definition sampleFetch (backupStatus : N) (url : jsstring) (requests : nat)
    : completion Response * nat :=
  (Return
     (if startsWith (lit "https://corsproxy.io/") url
      then mkResponse true 200 (Return shortBody) (Throw JsonReader.syntaxError)
      else mkResponse (N.eqb backupStatus 200) backupStatus
             (Return []) (Return backupJson)),
   S requests).

Definition pageUrl : jsstring :=
  lit "https://artofproblemsolving.com/wiki/index.php?title=2025_AMC_8_Problems/Problem_1".

(** C10, as stated, fails: a backup answer whose JSON has a non-empty
    [contents] is rejected all the same when its HTTP status is not a
    success; the error raised is "Backup Proxy Error: 500". *)
Lemma C10_backup_status_is_checked :
  getProperty backupJson (lit "contents") = Return (Some (JString shortBody))
  /\ truthy (Some (JString shortBody)) = true
  /\ fst (fetchViaProxy (sampleFetch 500) pageUrl 1 (mkEnv 0 []))
     = Throw (Error (lit "Backup Proxy Error: 500")).
Proof. repeat split; vm_compute; reflexivity. Qed.

Section Claims.

Variable World : Type.
Variable fetch : jsstring -> World -> completion Response * World.

(** C10 (amended): a primary answer is rejected when its status is not a
    success or its text is shorter than 100 characters, and accepted
    otherwise; after a rejected primary answer, a backup answer is accepted
    whenever its status is a success and the [contents] of its JSON is
    non-empty, with no minimum length: the value returned is that
    [contents], also when it is a text shorter than 100 characters. *)
Theorem C10_length_guard_only_on_primary (url : jsstring) (s : env World) :
  forall (res1 : Response) (w1 : World),
    fetch (primaryUrl url) (world s) = (Return res1, w1) ->
    (* accepted primary answer *)
    (forall text,
        ok res1 = true -> bodyText res1 = Return text -> 100 <= length text ->
        fetchViaProxy fetch url 1 s
        = (Return (JString text), {| world := w1; console := console s |}))
    /\
    (* rejected primary answer, then an accepted backup answer *)
    (forall (res2 : Response) (w2 : World) (data contents : value),
        (ok res1 = false
         \/ exists text, bodyText res1 = Return text /\ length text < 100) ->
        fetch (backupUrl url) w1 = (Return res2, w2) ->
        ok res2 = true ->
        bodyJson res2 = Return data ->
        getProperty data (lit "contents") = Return (Some contents) ->
        truthy (Some contents) = true ->
        fetchViaProxy fetch url 1 s
        = (Return contents, {| world := w2; console := console s |})).
Proof.
  intros res1 w1 Hfetch1. split.
  - intros text Hok Htext Hlen.
    unfold fetchViaProxy, tryM, bindM, onWorld, lift, ret.
    fold (primaryUrl url). rewrite Hfetch1, Hok. cbn [negb world console].
    rewrite Htext.
    destruct text as [|c text]; [cbn in Hlen; lia|]. cbn [nonEmpty negb orb].
    replace (length (c :: text) <? 100) with false
      by (symmetry; apply Nat.ltb_ge; exact Hlen).
    reflexivity.
  - intros res2 w2 data contents Hrej Hfetch2 Hok2 Hjson Hprop Htruthy.
    unfold fetchViaProxy, tryM, bindM, onWorld, lift, ret, throw.
    fold (primaryUrl url) (backupUrl url). rewrite Hfetch1.
    cbn [world console].
    assert (Hbackup :
      (let '(r, w) := fetch (backupUrl url) w1 in
       (r, {| world := w; console := console s |}))
      = (Return res2, {| world := w2; console := console s |}))
      by now rewrite Hfetch2.
    destruct Hrej as [Hok1 | (text & Htext & Hlen)].
    + rewrite Hok1. cbn [negb Nat.ltb Nat.leb world console].
      rewrite Hfetch2, Hok2. cbn [negb]. rewrite Hjson, Hprop, Htruthy. reflexivity.
    + destruct (ok res1); cbn [negb].
      * rewrite Htext.
        replace (negb (nonEmpty text) || (length text <? 100)) with true
          by (symmetry; apply orb_true_iff; right; apply Nat.ltb_lt; exact Hlen).
        cbn [Nat.ltb Nat.leb world console].
        rewrite Hfetch2, Hok2. cbn [negb]. rewrite Hjson, Hprop, Htruthy. reflexivity.
      * cbn [Nat.ltb Nat.leb world console].
        rewrite Hfetch2, Hok2. cbn [negb]. rewrite Hjson, Hprop, Htruthy. reflexivity.
Qed.

End Claims.

(** The amended claim on the small network: the primary answer is too
    short, the backup answers 200, and the 17 characters of its [contents]
    are returned. *)
Lemma C10_length_guard_only_on_primary_witness :
  fetchViaProxy (sampleFetch 200) pageUrl 1 (mkEnv 0 [])
  = (Return (JString shortBody), mkEnv 2 [])
  /\ length shortBody < 100.
Proof.
  split; [|vm_compute; lia].
  refine (proj2 (@C10_length_guard_only_on_primary nat (sampleFetch 200) pageUrl (mkEnv 0 [])
            _ 1 eq_refl) _ 2 backupJson (JString shortBody) _ eq_refl eq_refl eq_refl
            eq_refl eq_refl).
  right. exists shortBody. split; [reflexivity | vm_compute; lia].
Defined.

End ProxyFacts.

(* ------------------------------------------------------------------ *)
(** ** The problem assembler *)

Module AssemblerFacts.
Import Json Dom Scraper.

(** The error that [getAiClient] raises. *)
Definition keyMissing : error := Error (lit "API Key not found in environment").

(** Whether [process.env.API_KEY] holds a non-empty key. *)
Definition hasKey (key : option jsstring) : bool :=
  match key with
  | Some k => nonEmpty k
  | None => false
  end.

Section Claims.

Variable World : Type.
Variable fetch : jsstring -> World -> completion Response * World.
Variable apiKey : World -> option jsstring.
Variable generateContent : jsstring -> jsstring -> World -> completion AiResponse * World.
Variable parseFromString : jsstring -> document.
Variable outerHTML : node -> jsstring.
Variable innerHTML : node -> jsstring.
Variable ToString : value -> jsstring.

Let assemble :=
  fetchAoPSProblem fetch apiKey generateContent parseFromString outerHTML innerHTML ToString.
Let scrape :=
  scrapeProblem fetch apiKey generateContent parseFromString outerHTML innerHTML ToString.
Let clean := cleanAndRestoreLatex parseFromString innerHTML.
Let answer := extractAnswer apiKey generateContent.

(** What the model is asked when the patterns found nothing, and the answer
    that is kept: the first letter A to E of the response; the empty string
    when the response has none, and when the call fails. *)
Definition modelCall (solutionHtml : jsstring) (w : World) : completion AiResponse * World :=
  generateContent MODEL_FLASH (extractionPrompt solutionHtml) w.

Definition modelAnswer (called : completion AiResponse) : jsstring :=
  match called with
  | Return response => firstLetter (aiText response)
  | Throw _ => []
  end.

(** The answer extraction spelled out, from the state [s1] in which it
    starts to the state [s'] in which it returns [correctOption]: a letter
    that the patterns find is the answer, and nothing else happens;
    otherwise there is an API key and the model is asked once; the console
    is not written. *)
Definition extraction (solutionHtml : jsstring) (s1 s' : env World)
    (correctOption : jsstring) : Prop :=
  if nonEmpty (regexCorrectOption solutionHtml) then
    correctOption = regexCorrectOption solutionHtml /\ s' = s1
  else
    hasKey (apiKey (world s1)) = true
    /\ correctOption = modelAnswer (fst (modelCall solutionHtml (world s1)))
    /\ s' = {| world := snd (modelCall solutionHtml (world s1)); console := console s1 |}.

(** Every field the record type requires is set, from data the pipeline
    produced in full: a question accumulator that is not blank and a
    solution text, both normalised, and the extractor's answer. *)
Definition fullyPopulated (url id : jsstring) (s' : env World) (p : Problem.t) : Prop :=
  Problem.id p = id
  /\ Problem.source p = AOPS
  /\ Problem.originalUrl p = Some url
  /\ Problem.options p = map lit ["A"; "B"; "C"; "D"; "E"]%string
  /\ Problem.difficulty p = 5
  /\ Problem.hints p = []
  /\ Problem.solutionChat p = []
  /\ exists (questionText solutionText : jsstring) (questionData solutionData : cleaned)
            (s1 : env World),
       nonEmpty (trim questionText) = true
       /\ nonEmpty solutionText = true
       /\ clean questionText = Return questionData
       /\ clean solutionText = Return solutionData
       /\ Problem.questionHtml p = html questionData
       /\ Problem.images p = images questionData
       /\ Problem.solutionHtml p = html solutionData
       /\ answer (html solutionData) s1 = (Return (Problem.correctOption p), s')
       /\ extraction (html solutionData) s1 s' (Problem.correctOption p).

(** The record that the assembler builds. *)
Definition assembled (url id : jsstring) (questionData solutionData : cleaned)
    (correctOption : jsstring) : Problem.t :=
  {| Problem.id := id;
     Problem.source := AOPS;
     Problem.originalUrl := Some url;
     Problem.questionHtml := html questionData;
     Problem.images := images questionData;
     Problem.options := map lit ["A"; "B"; "C"; "D"; "E"]%string;
     Problem.correctOption := correctOption;
     Problem.solutionHtml := html solutionData;
     Problem.difficulty := 5;
     Problem.userAnswer := None;
     Problem.isCorrect := None;
     Problem.hints := [];
     Problem.solutionChat := [];
     Problem.topic := None |}.

(** The state after [console.warn(`Scraping error for ${url}:`, e)]. *)
Definition warned (url : jsstring) (e : error) (s1 : env World) : env World :=
  {| world := world s1;
     console := console s1
       ++ [mkWarning (lit "Scraping error for " ++ url ++ lit ":") (Some e)] |}.

(** The extractor does what [extraction] says. *)
Lemma answer_extraction (solutionHtml : jsstring) (s1 s' : env World) (option : jsstring) :
  answer solutionHtml s1 = (Return option, s') -> extraction solutionHtml s1 s' option.
Proof.
  unfold answer, extractAnswer, extraction, modelCall, modelAnswer, hasKey.
  destruct (nonEmpty (regexCorrectOption solutionHtml)).
  - unfold ret. intros [= <- <-]. now split.
  - unfold extractCorrectOptionWithAI, bindM, getAiClient.
    destruct (apiKey (world s1)) as [key|]; [|discriminate].
    destruct (nonEmpty key); [|discriminate].
    unfold tryM, bindM, onWorld, ret.
    destruct (generateContent _ _ (world s1)) as [[response|e] w]; cbn [fst snd];
      intros [= <- <-]; repeat split.
Qed.

(** The three ways in which the extraction ends. *)
Lemma answer_by_pattern (solutionHtml : jsstring) (s1 : env World) :
  nonEmpty (regexCorrectOption solutionHtml) = true ->
  answer solutionHtml s1 = (Return (regexCorrectOption solutionHtml), s1).
Proof. intros H. unfold answer, extractAnswer. now rewrite H. Qed.

Lemma answer_without_key (solutionHtml : jsstring) (s1 : env World) :
  nonEmpty (regexCorrectOption solutionHtml) = false ->
  hasKey (apiKey (world s1)) = false ->
  answer solutionHtml s1 = (Throw keyMissing, s1).
Proof.
  intros H Hkey. unfold answer, extractAnswer. rewrite H.
  unfold extractCorrectOptionWithAI, bindM, getAiClient. unfold hasKey in Hkey.
  destruct (apiKey (world s1)) as [key|]; [|reflexivity].
  now rewrite Hkey.
Qed.

Lemma answer_by_model (solutionHtml : jsstring) (s1 : env World) :
  nonEmpty (regexCorrectOption solutionHtml) = false ->
  hasKey (apiKey (world s1)) = true ->
  answer solutionHtml s1
  = (Return (modelAnswer (fst (modelCall solutionHtml (world s1)))),
     {| world := snd (modelCall solutionHtml (world s1)); console := console s1 |}).
Proof.
  intros H Hkey. unfold answer, extractAnswer. rewrite H.
  unfold extractCorrectOptionWithAI, bindM, getAiClient. unfold hasKey in Hkey.
  destruct (apiKey (world s1)) as [key|]; [|discriminate].
  rewrite Hkey. unfold tryM, bindM, onWorld, ret, modelCall, modelAnswer.
  destruct (generateContent _ _ (world s1)) as [[response|e] w]; reflexivity.
Qed.

(** A fetch that returns has logged nothing. *)
Lemma fetchViaProxy_returns_quietly (url : jsstring) (retries : nat) (s s1 : env World)
    (fetched : value) :
  fetchViaProxy fetch url retries s = (Return fetched, s1) -> console s1 = console s.
Proof.
  unfold fetchViaProxy, tryM, bindM, onWorld, lift, throw, ret, consoleWarn.
  repeat match goal with
         | |- context [fetch ?u ?x] =>
             destruct (fetch u x) as [[?res|?e] ?w']; cbn [world console]
         | |- context [if ?b then _ else _] => destruct b; cbn [world console]
         | |- context [match bodyText ?r with _ => _ end] => destruct (bodyText r)
         | |- context [match bodyJson ?r with _ => _ end] => destruct (bodyJson r)
         | |- context [match getProperty ?d ?k with _ => _ end] =>
             destruct (getProperty d k) as [[?v|]|?e]
         end;
    intros H; try discriminate H; injection H as _ <-; reflexivity.
Qed.

(** The statements of the [try] once the page is fetched and its content
    root found: the two texts, and what follows them. *)
Lemma scrape_after_fetch (url id : jsstring) (level : ExamLevel) (s s1 : env World)
    (fetched : value) (contentDiv : node) :
  fetchViaProxy fetch url 1 s = (Return fetched, s1) ->
  let doc := parseFromString (domString ToString fetched) in
  querySelector (quirks doc) [SelClass (lit "mw-parser-output")] (documentNode doc)
  = Some contentDiv ->
  let walked :=
    segment (quirks doc) outerHTML (startOfWalk (quirks doc) (stripNotices (quirks doc) contentDiv)) in
  nonEmpty (trim (questionAccumulator walked)) = true ->
  scrape url id level s
  = match clean (questionAccumulator walked) with
    | Throw e => (Throw e, s1)
    | Return questionData =>
        match clean (if nonEmpty (solutionAccumulator walked)
                     then solutionAccumulator walked else placeholderSolution) with
        | Throw e => (Throw e, s1)
        | Return solutionData =>
            match answer (html solutionData) s1 with
            | (Return correctOption, s') =>
                (Return (assembled url id questionData solutionData correctOption), s')
            | (Throw e, s') => (Throw e, s')
            end
        end
    end.
Proof.
  intros E doc Hsome walked Hq.
  unfold scrape, scrapeProblem. unfold bindM at 1. rewrite E. fold doc. rewrite Hsome.
  fold walked. rewrite Hq. cbn [negb].
  unfold bindM at 1, lift at 1. fold clean.
  destruct (clean (questionAccumulator walked)) as [qd|e]; [|reflexivity].
  unfold bindM at 1, lift at 1.
  destruct (clean _) as [sd|e]; [|reflexivity].
  unfold bindM at 1. fold answer.
  destruct (answer (html sd) s1) as [[opt|e] s']; reflexivity.
Qed.

(** When the statements of the [try] return, every field is populated. *)
Lemma scrape_returns_full (url id : jsstring) (level : ExamLevel) (s s' : env World)
    (p : Problem.t) :
  scrape url id level s = (Return p, s') -> fullyPopulated url id s' p.
Proof.
  unfold scrape, scrapeProblem. intros E.
  unfold bindM at 1 in E.
  destruct (fetchViaProxy fetch url 1 s) as [[fetched|e0] s2]; [|discriminate E].
  destruct (querySelector _ _ _) as [contentDiv|]; [|discriminate E].
  destruct (negb (nonEmpty (trim (questionAccumulator _)))) eqn:Hq; [discriminate E|].
  apply negb_false_iff in Hq.
  unfold bindM at 1, lift at 1 in E.
  destruct (cleanAndRestoreLatex _ _ (questionAccumulator _)) as [qd|e1] eqn:Eq;
    [|discriminate E].
  unfold bindM at 1, lift at 1 in E.
  match type of E with
  | context [cleanAndRestoreLatex _ _ ?txt] =>
      destruct (cleanAndRestoreLatex parseFromString innerHTML txt) as [sd|e2] eqn:Es;
        [|discriminate E];
      assert (Hs : nonEmpty txt = true)
        by (destruct (nonEmpty (solutionAccumulator _)) eqn:Hne; [exact Hne | reflexivity])
  end.
  unfold bindM at 1 in E.
  destruct (extractAnswer _ _ _ s2) as [[opt|e3] s3] eqn:Ea; [|discriminate E].
  unfold ret in E. injection E as <- <-.
  repeat split; try reflexivity.
  eexists _, _, qd, sd, s2.
  repeat split; try reflexivity; try eassumption.
  apply answer_extraction. exact Ea.
Qed.

(** A record is returned without a word on the console. *)
Lemma scrape_returns_quietly (url id : jsstring) (level : ExamLevel) (s s' : env World)
    (p : Problem.t) :
  scrape url id level s = (Return p, s') -> console s' = console s.
Proof.
  unfold scrape, scrapeProblem. intros E.
  unfold bindM at 1 in E.
  destruct (fetchViaProxy fetch url 1 s) as [[fetched|e0] s2] eqn:Ef; [|discriminate E].
  apply fetchViaProxy_returns_quietly in Ef.
  destruct (querySelector _ _ _) as [contentDiv|]; [|discriminate E].
  destruct (negb (nonEmpty (trim (questionAccumulator _)))); [discriminate E|].
  unfold bindM at 1, lift at 1 in E.
  destruct (cleanAndRestoreLatex _ _ (questionAccumulator _)) as [qd|e1];
    [|discriminate E].
  unfold bindM at 1, lift at 1 in E.
  destruct (cleanAndRestoreLatex _ _ _) as [sd|e2]; [|discriminate E].
  unfold bindM at 1 in E.
  destruct (extractAnswer _ _ _ s2) as [[opt|e3] s3] eqn:Ea; [|discriminate E].
  unfold ret in E. injection E as _ <-.
  apply answer_extraction in Ea. unfold extraction in Ea.
  destruct (nonEmpty (regexCorrectOption (html sd))).
  - destruct Ea as [_ ->]. exact Ef.
  - destruct Ea as (_ & _ & ->). exact Ef.
Qed.

(** C1: whatever the network, the parser and the model service do, the
    assembler returns and never raises: it returns a record with every
    field populated, and has logged nothing, when the statements of its [try]
    return one, and any error they raise becomes the absent result with a
    warning logged.  The errors are those of the fetch, a page without
    content root, a blank question, a normaliser that raises, and, when the
    patterns find no answer, a missing API key.  A failure of the answer
    extraction is not among them: when the patterns find no answer and an
    API key is there, the record is returned with the model's letter, and
    with the empty answer when the model names none or the call fails. *)
Theorem C1_problem_or_nothing (url id : jsstring) (level : ExamLevel) (s : env World) :
  (exists (r : option Problem.t) (s' : env World),
      assemble url id level s = (Return r, s')
      /\ match r with
         | Some p => fullyPopulated url id s' p /\ console s' = console s
         | None => exists e s1, s' = warned url e s1
         end)
  /\ (forall p s', scrape url id level s = (Return p, s') ->
        assemble url id level s = (Return (Some p), s'))
  /\ (forall e s1, scrape url id level s = (Throw e, s1) ->
        assemble url id level s = (Return None, warned url e s1))
  /\ (forall e s1, fetchViaProxy fetch url 1 s = (Throw e, s1) ->
        scrape url id level s = (Throw e, s1))
  /\ (forall fetched s1,
        fetchViaProxy fetch url 1 s = (Return fetched, s1) ->
        let doc := parseFromString (domString ToString fetched) in
        (querySelector (quirks doc) [SelClass (lit "mw-parser-output")] (documentNode doc)
         = None ->
         scrape url id level s
         = (Throw (Error (lit "Could not find content (.mw-parser-output)")), s1))
        /\ (forall contentDiv,
              querySelector (quirks doc) [SelClass (lit "mw-parser-output")] (documentNode doc)
              = Some contentDiv ->
              nonEmpty
                (trim (questionAccumulator
                         (segment (quirks doc) outerHTML
                            (startOfWalk (quirks doc)
                               (stripNotices (quirks doc) contentDiv))))) = false ->
              scrape url id level s
              = (Throw (Error (lit "No question content found")), s1))
        /\ (forall contentDiv,
              querySelector (quirks doc) [SelClass (lit "mw-parser-output")] (documentNode doc)
              = Some contentDiv ->
              let walked :=
                segment (quirks doc) outerHTML
                  (startOfWalk (quirks doc) (stripNotices (quirks doc) contentDiv)) in
              let solutionText :=
                if nonEmpty (solutionAccumulator walked)
                then solutionAccumulator walked else placeholderSolution in
              nonEmpty (trim (questionAccumulator walked)) = true ->
              (forall e, clean (questionAccumulator walked) = Throw e ->
                 assemble url id level s = (Return None, warned url e s1))
              /\ (forall questionData e,
                    clean (questionAccumulator walked) = Return questionData ->
                    clean solutionText = Throw e ->
                    assemble url id level s = (Return None, warned url e s1))
              /\ (forall questionData solutionData,
                    clean (questionAccumulator walked) = Return questionData ->
                    clean solutionText = Return solutionData ->
                    let found := regexCorrectOption (html solutionData) in
                    let called := modelCall (html solutionData) (world s1) in
                    (nonEmpty found = true ->
                     assemble url id level s
                     = (Return (Some (assembled url id questionData solutionData found)), s1))
                    /\ (nonEmpty found = false -> hasKey (apiKey (world s1)) = false ->
                        assemble url id level s
                        = (Return None, warned url keyMissing s1))
                    /\ (nonEmpty found = false -> hasKey (apiKey (world s1)) = true ->
                        assemble url id level s
                        = (Return (Some (assembled url id questionData solutionData
                                           (modelAnswer (fst called)))),
                           {| world := snd called; console := console s1 |}))))).
Proof.
  assert (Hret : forall p s', scrape url id level s = (Return p, s') ->
            assemble url id level s = (Return (Some p), s')).
  { intros p s' E. unfold assemble, fetchAoPSProblem, tryM, bindM. fold scrape.
    now rewrite E. }
  assert (Hthrow : forall e s1, scrape url id level s = (Throw e, s1) ->
            assemble url id level s = (Return None, warned url e s1)).
  { intros e s1 E. unfold assemble, fetchAoPSProblem, tryM, bindM. fold scrape.
    now rewrite E. }
  split; [|split; [exact Hret | split; [exact Hthrow | split]]].
  - destruct (scrape url id level s) as [[p|e] s1] eqn:E.
    + exists (Some p), s1. split; [now apply Hret|]. split.
      * now apply (@scrape_returns_full url id level s s1 p).
      * now apply (@scrape_returns_quietly url id level s s1 p).
    + exists None, (warned url e s1). split; [now apply Hthrow|].
      now exists e, s1.
  - intros e s1 E. unfold scrape, scrapeProblem, bindM. now rewrite E.
  - intros fetched s1 E doc. split; [|split].
    + intros Hnone. unfold scrape, scrapeProblem, bindM. rewrite E.
      fold doc. now rewrite Hnone.
    + intros contentDiv Hsome Hblank. unfold scrape, scrapeProblem, bindM. rewrite E.
      fold doc. rewrite Hsome, Hblank. reflexivity.
    + intros contentDiv Hsome walked solutionText Hq.
      pose proof (@scrape_after_fetch url id level s s1 fetched contentDiv E Hsome Hq)
        as Hscrape.
      fold doc in Hscrape. fold walked in Hscrape. fold solutionText in Hscrape.
      split; [|split].
      * intros e Eq. rewrite Eq in Hscrape. now apply Hthrow.
      * intros qd e Eq Es. rewrite Eq, Es in Hscrape. now apply Hthrow.
      * intros qd sd Eq Es found called. rewrite Eq, Es in Hscrape.
        split; [|split].
        -- intros Hfound. rewrite (answer_by_pattern _ s1 Hfound) in Hscrape.
           now apply Hret.
        -- intros Hfound Hkey. rewrite (answer_without_key _ s1 Hfound Hkey) in Hscrape.
           now apply Hthrow.
        -- intros Hfound Hkey. rewrite (answer_by_model _ s1 Hfound Hkey) in Hscrape.
           now apply Hret.
Qed.

End Claims.

(** C1 on the archive that serves a page without content root: the result
    is the absent one, after one warning. *)
Definition emptyArchive (url : jsstring) (w : unit) : completion Response * unit :=
  (Return (mkResponse true 200
             (Return (lit "<!DOCTYPE html><p>There is currently no text in this page. You can search for this page title in other pages.</p>"))
             (Throw JsonReader.syntaxError)), w).

Lemma C1_problem_or_nothing_witness :
  fetchAoPSProblem emptyArchive (fun _ => None)
    (fun _ _ w => (Throw (Error (lit "no model")), w))
    HtmlReference.parseFromString HtmlReference.outerHTML HtmlReference.innerHTML
    (fun _ => []) (lit "https://artofproblemsolving.com/wiki/index.php?title=X")
    (lit "real-0") AMC8 (mkEnv tt [])
  = (Return None,
     mkEnv tt [mkWarning
                 (lit "Scraping error for https://artofproblemsolving.com/wiki/index.php?title=X:")
                 (Some (Error (lit "Could not find content (.mw-parser-output)")))]).
Proof.
  refine (proj1 (proj2 (proj2 (@C1_problem_or_nothing unit emptyArchive (fun _ => None)
            (fun _ _ w => (Throw (Error (lit "no model")), w))
            HtmlReference.parseFromString HtmlReference.outerHTML HtmlReference.innerHTML
            (fun _ => []) (lit "https://artofproblemsolving.com/wiki/index.php?title=X")
            (lit "real-0") AMC8 (mkEnv tt [])))) _ (mkEnv tt []) _).
  vm_compute. reflexivity.
Defined.

(** A page of the archive whose solution names no answer in any of the
    forms the patterns know, an API key, and a model service that fails. *)
Definition unansweredPage : jsstring :=
  lit "<!DOCTYPE html><div class=" ++ quoted "mw-parser-output"
    ++ lit "><h2><span class=" ++ quoted "mw-headline" ++ lit " id=" ++ quoted "Problem"
    ++ lit ">Problem</span></h2><p>What is 1+1?</p><h2>Solution</h2><p>Add the two numbers.</p></div>".

Definition unansweredArchive (url : jsstring) (w : unit) : completion Response * unit :=
  (Return (mkResponse true 200 (Return unansweredPage) (Throw JsonReader.syntaxError)), w).

Definition assembleUnanswered : completion (option Problem.t) * env unit :=
  fetchAoPSProblem unansweredArchive (fun _ => Some (lit "key"))
    (fun _ _ w => (Throw (Error (lit "503 Service Unavailable")), w))
    HtmlReference.parseFromString HtmlReference.outerHTML HtmlReference.innerHTML
    (fun _ => [])
    (lit "https://artofproblemsolving.com/wiki/index.php?title=2025_AMC_8_Problems/Problem_1")
    (lit "2025-amc8-1") AMC8 (mkEnv tt []).

(** A failed extraction is not converted into the absent result: on that
    page neither pattern finds an answer and the call of the model fails,
    yet the assembler returns a record, with the empty [correctOption], and
    logs no warning. *)
Lemma C1_failed_extraction_is_kept :
  regexCorrectOption (lit "<div>" ++ subHeading (lit "Solution")
                        ++ lit "<p>Add the two numbers.</p></div>") = []
  /\ exists p,
       assembleUnanswered = (Return (Some p), mkEnv tt [])
       /\ Problem.correctOption p = []
       /\ Problem.solutionHtml p
          = lit "<div>" ++ subHeading (lit "Solution")
              ++ lit "<p>Add the two numbers.</p></div>".
Proof.
  split; [vm_compute; reflexivity|].
  eexists. split; [vm_compute; reflexivity|]. split; vm_compute; reflexivity.
Qed.

End AssemblerFacts.

(* ------------------------------------------------------------------ *)
(** ** The document segmenter *)

Module SegmenterFacts.
Import Dom Scraper.

(** What an accumulator is made of: the markup of sibling elements and
    synthesized sub-headings. *)
Inductive piece :=
| Markup (e : node)
| SubHeading (title : jsstring).

Section Walk.

Variable quirksMode : bool.
Variable outerHTML : node -> jsstring.

Let saysSolution := saysSolution quirksMode.
Let saysSeeAlso := saysSeeAlso quirksMode.
Let walk := walk quirksMode outerHTML.
Let segment := segment quirksMode outerHTML.

Definition render (p : piece) : jsstring :=
  match p with
  | Markup e => outerHTML e
  | SubHeading title => subHeading title
  end.

(** A heading that makes the walk change state. *)
Definition isTrigger (e : node) : bool :=
  isH2 e && (saysSolution e || saysSeeAlso e).

(** The pieces the walk adds to the two accumulators, in order. *)
Fixpoint piecesOf (siblings : list node) (m : mode) : list piece * list piece :=
  match siblings with
  | [] => ([], [])
  | curr :: rest =>
      if isH2 curr && saysSolution curr then
        let '(q, s) := piecesOf rest solution in
        (q, SubHeading (trim (textContent curr)) :: s)
      else if isH2 curr && saysSeeAlso curr then ([], [])
      else
        match m with
        | question => let '(q, s) := piecesOf rest question in (Markup curr :: q, s)
        | solution => let '(q, s) := piecesOf rest solution in (q, Markup curr :: s)
        | done => piecesOf rest done
        end
  end.

Lemma walk_pieces (siblings : list node) (st : walkState) :
  questionAccumulator (walk siblings st)
  = questionAccumulator st ++ flat_map render (fst (piecesOf siblings (w_mode st)))
  /\ solutionAccumulator (walk siblings st)
     = solutionAccumulator st ++ flat_map render (snd (piecesOf siblings (w_mode st))).
Proof.
  unfold walk. revert st.
  induction siblings as [|curr rest IH]; intros st; cbn [Scraper.walk piecesOf].
  - cbn. now rewrite !app_nil_r.
  - fold saysSolution saysSeeAlso.
    destruct (isH2 curr && saysSolution curr).
    + specialize (IH {| w_mode := solution;
                        questionAccumulator := questionAccumulator st;
                        solutionAccumulator :=
                          solutionAccumulator st ++ subHeading (trim (textContent curr)) |}).
      cbn [w_mode questionAccumulator solutionAccumulator] in IH.
      destruct (piecesOf rest solution) as [q s]. cbn [fst snd flat_map render] in *.
      destruct IH as [IHq IHs]. rewrite IHq, IHs, <- app_assoc. split; reflexivity.
    + destruct (isH2 curr && saysSeeAlso curr).
      * cbn. now rewrite !app_nil_r.
      * destruct st as [[] qa sa]; cbn [w_mode questionAccumulator solutionAccumulator].
        -- specialize (IH {| w_mode := question;
                             questionAccumulator := qa ++ outerHTML curr;
                             solutionAccumulator := sa |}).
           cbn [w_mode questionAccumulator solutionAccumulator] in IH.
           destruct (piecesOf rest question) as [q s]. cbn [fst snd flat_map render] in *.
           destruct IH as [IHq IHs]. rewrite IHq, IHs, <- app_assoc. split; reflexivity.
        -- specialize (IH {| w_mode := solution;
                             questionAccumulator := qa;
                             solutionAccumulator := sa ++ outerHTML curr |}).
           cbn [w_mode questionAccumulator solutionAccumulator] in IH.
           destruct (piecesOf rest solution) as [q s]. cbn [fst snd flat_map render] in *.
           destruct IH as [IHq IHs]. rewrite IHq, IHs, <- app_assoc. split; reflexivity.
        -- apply (IH {| w_mode := done; questionAccumulator := qa;
                        solutionAccumulator := sa |}).
Qed.

(** Where the pieces come from. *)
Definition fromSiblings (siblings : list node) (pieces : list piece) : Prop :=
  (forall e, In (Markup e) pieces -> In e siblings /\ isTrigger e = false)
  /\ (forall t, In (SubHeading t) pieces ->
        exists h, In h siblings /\ isH2 h = true /\ saysSolution h = true
                  /\ t = trim (textContent h)).

Lemma fromSiblings_cons (curr : node) (rest : list node) (pieces : list piece) :
  fromSiblings rest pieces -> fromSiblings (curr :: rest) pieces.
Proof.
  intros [Hm Hs]; split.
  - intros e He. destruct (Hm e He). split; [now right | assumption].
  - intros t Ht. destruct (Hs t Ht) as (h & Hin & H). exists h. split; [now right | exact H].
Qed.

Lemma fromSiblings_nil (siblings : list node) : fromSiblings siblings [].
Proof. split; intros ? H; destruct H. Qed.

Lemma fromSiblings_markup (curr : node) (rest : list node) (pieces : list piece) :
  isTrigger curr = false -> fromSiblings rest pieces ->
  fromSiblings (curr :: rest) (Markup curr :: pieces).
Proof.
  intros Hnot [Hm Hs]; split.
  - intros e [He | He].
    + injection He as <-. split; [now left | exact Hnot].
    + destruct (Hm e He). split; [now right | assumption].
  - intros t [Ht | Ht]; [discriminate Ht|].
    destruct (Hs t Ht) as (h & Hin & H). exists h. split; [now right | exact H].
Qed.

Lemma fromSiblings_subHeading (curr : node) (rest : list node) (pieces : list piece) :
  isH2 curr = true -> saysSolution curr = true -> fromSiblings rest pieces ->
  fromSiblings (curr :: rest) (SubHeading (trim (textContent curr)) :: pieces).
Proof.
  intros Hh2 Hsays [Hm Hs]; split.
  - intros e [He | He]; [discriminate He|].
    destruct (Hm e He). split; [now right | assumption].
  - intros t [Ht | Ht].
    + injection Ht as <-. exists curr. split; [now left | auto].
    + destruct (Hs t Ht) as (h & Hin & H). exists h. split; [now right | exact H].
Qed.

Lemma piecesOf_fromSiblings (siblings : list node) (m : mode) :
  fromSiblings siblings (fst (piecesOf siblings m))
  /\ fromSiblings siblings (snd (piecesOf siblings m))
  /\ (forall t, ~ In (SubHeading t) (fst (piecesOf siblings m))).
Proof.
  revert m; induction siblings as [|curr rest IH]; intros m; cbn [piecesOf].
  - split; [|split]; try apply fromSiblings_nil. intros t [].
  - destruct (isH2 curr && saysSolution curr) eqn:Hsol.
    + destruct (IH solution) as (Hq & Hs & Hno).
      destruct (piecesOf rest solution) as [q s]. cbn [fst snd] in *.
      apply andb_true_iff in Hsol as [Hh2 Hsays].
      split; [|split].
      * now apply fromSiblings_cons.
      * now apply fromSiblings_subHeading.
      * exact Hno.
    + destruct (isH2 curr && saysSeeAlso curr) eqn:Hsee.
      * split; [|split]; try apply fromSiblings_nil. intros t [].
      * assert (Hnot : isTrigger curr = false).
        { unfold isTrigger. destruct (isH2 curr); [|reflexivity].
          cbn in Hsol, Hsee |- *. now rewrite Hsol, Hsee. }
        destruct m.
        -- destruct (IH question) as (Hq & Hs & Hno).
           destruct (piecesOf rest question) as [q s]. cbn [fst snd] in *.
           split; [|split].
           ++ now apply fromSiblings_markup.
           ++ now apply fromSiblings_cons.
           ++ intros t [Ht | Ht]; [discriminate Ht | exact (Hno t Ht)].
        -- destruct (IH solution) as (Hq & Hs & Hno).
           destruct (piecesOf rest solution) as [q s]. cbn [fst snd] in *.
           split; [|split].
           ++ now apply fromSiblings_cons.
           ++ now apply fromSiblings_markup.
           ++ exact Hno.
        -- destruct (IH done) as (Hq & Hs & Hno).
           split; [|split]; try (now apply fromSiblings_cons). exact Hno.
Qed.

(** The walk ends at a "See also" heading that does not say "Solution":
    what comes after it makes no difference. *)
Lemma walk_stops (before : list node) (h : node) (after : list node) (st : walkState) :
  isH2 h = true -> saysSolution h = false -> saysSeeAlso h = true ->
  walk (before ++ h :: after) st
  = {| w_mode := done;
       questionAccumulator := questionAccumulator (walk before st);
       solutionAccumulator := solutionAccumulator (walk before st) |}.
Proof.
  intros Hh2 Hsol Hsee. unfold walk. revert st.
  induction before as [|curr rest IH]; intros st; cbn [app Scraper.walk].
  - fold saysSolution saysSeeAlso. now rewrite Hh2, Hsol, Hsee.
  - destruct (isH2 curr && Scraper.saysSolution quirksMode curr); [apply IH|].
    destruct (isH2 curr && Scraper.saysSeeAlso quirksMode curr); [reflexivity|].
    apply IH.
Qed.

(** C4 (amended): the accumulators are made of the markup of siblings that
    are not triggering headings and, in the solution accumulator only, of
    sub-headings synthesized from the text of "Solution" headings; and after
    a level-2 heading that indicates a "See also" section without saying
    "Solution", nothing is accumulated, whatever follows. *)
Theorem C4_segmenter_leaves_out_triggers (siblings : list node) :
  (exists qs ss : list piece,
      questionAccumulator (segment siblings) = flat_map render qs
      /\ solutionAccumulator (segment siblings) = flat_map render ss
      /\ fromSiblings siblings qs
      /\ fromSiblings siblings ss
      /\ (forall t, ~ In (SubHeading t) qs))
  /\ (forall before h after,
        siblings = before ++ h :: after ->
        isH2 h = true -> saysSolution h = false -> saysSeeAlso h = true ->
        segment siblings
        = {| w_mode := done;
             questionAccumulator := questionAccumulator (segment before);
             solutionAccumulator := solutionAccumulator (segment before) |}).
Proof.
  split.
  - exists (fst (piecesOf siblings question)), (snd (piecesOf siblings question)).
    destruct (walk_pieces siblings
                {| w_mode := question; questionAccumulator := [];
                   solutionAccumulator := [] |}) as [Hq Hs].
    destruct (piecesOf_fromSiblings siblings question) as (Fq & Fs & Hno).
    split; [exact Hq|]. split; [exact Hs|]. split; [exact Fq|]. split; [exact Fs | exact Hno].
  - intros before h after -> Hh2 Hsol Hsee.
    unfold segment, Scraper.segment. now apply walk_stops.
Qed.

End Walk.

(** Two siblings: a level-2 heading "See also: Solutions" and a paragraph. *)
Definition seeAlsoSolutions : node :=
  Element (lit "h2") [] [Text (lit "See also: Solutions")].

Definition laterParagraph : node := Element (lit "p") [] [Text (lit "later")].

(** C4, as stated, fails: a level-2 heading whose text says "See also" but
    also "Solution" is taken for a solution heading, and the sibling after it
    is accumulated. *)
Lemma C4_see_also_that_says_solution :
  isH2 seeAlsoSolutions = true
  /\ saysSeeAlso false seeAlsoSolutions = true
  /\ solutionAccumulator
       (segment false HtmlReference.outerHTML [seeAlsoSolutions; laterParagraph])
     = subHeading (lit "See also: Solutions") ++ lit "<p>later</p>".
Proof. repeat split; vm_compute; reflexivity. Qed.

(** The amended claim on a question, a solution and a "See also" section. *)
Lemma C4_segmenter_leaves_out_triggers_witness :
  segment false HtmlReference.outerHTML
    [laterParagraph;
     Element (lit "h2") [] [Text (lit "See also")];
     laterParagraph]
  = {| w_mode := done;
       questionAccumulator := lit "<p>later</p>";
       solutionAccumulator := [] |}.
Proof.
  apply (proj2 (C4_segmenter_leaves_out_triggers false HtmlReference.outerHTML
                  [laterParagraph; Element (lit "h2") [] [Text (lit "See also")];
                   laterParagraph])
           [laterParagraph] (Element (lit "h2") [] [Text (lit "See also")])
           [laterParagraph]); reflexivity.
Defined.

End SegmenterFacts.

(* ------------------------------------------------------------------ *)
(** ** The HTML normaliser *)

Module NormalizerFacts.
Import Dom Scraper.

(** Induction on trees. *)
Fixpoint node_rect' (P : node -> Prop)
    (HText : forall d, P (Text d)) (HComment : forall d, P (Comment d))
    (HElement : forall tag attrs cs, Forall P cs -> P (Element tag attrs cs))
    (n : node) : P n :=
  match n with
  | Text d => HText d
  | Comment d => HComment d
  | Element tag attrs cs =>
      HElement tag attrs cs
        ((fix all (l : list node) : Forall P l :=
            match l with
            | [] => Forall_nil P
            | c :: l' => Forall_cons c (node_rect' HText HComment HElement c) (all l')
            end) cs)
  end.

(** *** Attributes *)

Lemma lookup_update_same (k v : jsstring) (attrs : list (jsstring * jsstring)) :
  lookupAttr k (updateAttr k v attrs) = Some v.
Proof.
  induction attrs as [|[k' v'] attrs IH]; cbn.
  - now rewrite streq_refl.
  - destruct (streq k' k) eqn:E; cbn; rewrite E; [reflexivity | exact IH].
Qed.

Lemma lookup_update_other (k k' v : jsstring) (attrs : list (jsstring * jsstring)) :
  streq k' k = false ->
  lookupAttr k (updateAttr k' v attrs) = lookupAttr k attrs.
Proof.
  intros Hk. induction attrs as [|[k0 v0] attrs IH]; cbn.
  - now rewrite Hk.
  - destruct (streq k0 k') eqn:E; cbn.
    + apply streq_eq in E. subst k0. now rewrite Hk.
    + now rewrite IH.
Qed.

Lemma update_present (k v : jsstring) (attrs : list (jsstring * jsstring)) :
  lookupAttr k attrs = Some v -> updateAttr k v attrs = attrs.
Proof.
  induction attrs as [|[k0 v0] attrs IH]; cbn; [discriminate|].
  destruct (streq k0 k) eqn:E.
  - now intros [= ->].
  - intros H. now rewrite IH.
Qed.

(** *** Absolute addresses *)

Definition host : jsstring := lit "https://artofproblemsolving.com".

Lemma absoluteSrc_idempotent (src : jsstring) :
  absoluteSrc (absoluteSrc src) = absoluteSrc src.
Proof.
  unfold absoluteSrc.
  destruct (startsWith (lit "//") src) eqn:E1; [reflexivity|].
  destruct (startsWith (lit "/") src) eqn:E2; [reflexivity|].
  now rewrite E1, E2.
Qed.

Lemma absoluteSrc_nonEmpty (src : jsstring) :
  nonEmpty src = true -> nonEmpty (absoluteSrc src) = true.
Proof.
  unfold absoluteSrc. intros H.
  destruct (startsWith (lit "//") src); [reflexivity|].
  destruct (startsWith (lit "/") src); [reflexivity | exact H].
Qed.

(** *** The three rewrites, seen from the attributes of an element *)

Definition imageAttrs (tag : jsstring) (attrs : list (jsstring * jsstring))
    : list (jsstring * jsstring) :=
  if streq tag (lit "img") then
    match lookupAttr (lit "src") attrs with
    | Some src =>
        if nonEmpty src then updateAttr (lit "src") (absoluteSrc src) attrs else attrs
    | None => attrs
    end
  else attrs.

Definition linkAttrs (tag : jsstring) (attrs : list (jsstring * jsstring))
    : list (jsstring * jsstring) :=
  if streq tag (lit "a") then
    match lookupAttr (lit "href") attrs with
    | Some href =>
        if nonEmpty href && startsWith (lit "/") href then
          updateAttr (lit "target") (lit "_blank")
            (updateAttr (lit "href") (host ++ href) attrs)
        else attrs
    | None => attrs
    end
  else attrs.

Section Passes.

Variable q : bool.

Lemma isTag_Element (name tag : jsstring) attrs cs :
  matches q [SelTag name] (Element tag attrs cs) = streq tag name.
Proof. cbn. now rewrite orb_false_r. Qed.

Lemma fixImage_Element tag attrs cs :
  fixImage q (Element tag attrs cs) = Element tag (imageAttrs tag attrs) cs.
Proof.
  unfold fixImage, imageSrc, imageAttrs. rewrite isTag_Element.
  destruct (streq tag (lit "img")); [|reflexivity].
  cbn [getAttribute]. destruct (lookupAttr (lit "src") attrs) as [src|]; [|reflexivity].
  destruct (nonEmpty src); reflexivity.
Qed.

Lemma fixLink_Element tag attrs cs :
  fixLink q (Element tag attrs cs) = Element tag (linkAttrs tag attrs) cs.
Proof.
  unfold fixLink, linkAttrs. rewrite isTag_Element.
  destruct (streq tag (lit "a")); [|reflexivity].
  cbn [getAttribute]. destruct (lookupAttr (lit "href") attrs) as [href|]; [|reflexivity].
  destruct (nonEmpty href && startsWith (lit "/") href); reflexivity.
Qed.

(** Whether an image is replaced depends on its name and on its [class]
    and [alt] attributes only. *)
Lemma latexReplacement_attrs tag attrs attrs' cs cs' :
  lookupAttr (lit "class") attrs' = lookupAttr (lit "class") attrs ->
  lookupAttr (lit "alt") attrs' = lookupAttr (lit "alt") attrs ->
  latexReplacement q (Element tag attrs' cs') = latexReplacement q (Element tag attrs cs).
Proof.
  intros Hclass Halt.
  unfold latexReplacement, isLatexImage, matches, matchesSimple, classList, getAttribute.
  cbn [existsb isElement localNameOf andb]. now rewrite Hclass, Halt.
Qed.

(** The replacement of an image is a span around a text. *)
Lemma latexReplacement_span (n r : node) :
  latexReplacement q n = Some r ->
  exists alt, r = Element (lit "span") [] [Text (lit " " ++ alt ++ lit " ")].
Proof.
  unfold latexReplacement. destruct (isLatexImage q n); [|discriminate].
  destruct (getAttribute (lit "alt") n) as [alt|]; [|discriminate].
  destruct (nonEmpty alt && negb (startsWith (lit "[asy]") (trim alt))); [|discriminate].
  intros [= <-]. now exists alt.
Qed.

Lemma lookup_imageAttrs (k tag : jsstring) attrs :
  streq (lit "src") k = false -> lookupAttr k (imageAttrs tag attrs) = lookupAttr k attrs.
Proof.
  intros Hk. unfold imageAttrs.
  destruct (streq tag (lit "img")); [|reflexivity].
  destruct (lookupAttr (lit "src") attrs) as [src|]; [|reflexivity].
  destruct (nonEmpty src); [|reflexivity].
  now apply lookup_update_other.
Qed.

Lemma lookup_linkAttrs (k tag : jsstring) attrs :
  streq (lit "href") k = false -> streq (lit "target") k = false ->
  lookupAttr k (linkAttrs tag attrs) = lookupAttr k attrs.
Proof.
  intros Hk1 Hk2. unfold linkAttrs.
  destruct (streq tag (lit "a")); [|reflexivity].
  destruct (lookupAttr (lit "href") attrs) as [href|]; [|reflexivity].
  destruct (nonEmpty href && startsWith (lit "/") href); [|reflexivity].
  now rewrite !lookup_update_other.
Qed.

Lemma imageAttrs_idempotent tag attrs :
  imageAttrs tag (imageAttrs tag attrs) = imageAttrs tag attrs.
Proof.
  unfold imageAttrs. destruct (streq tag (lit "img")); [|reflexivity].
  destruct (lookupAttr (lit "src") attrs) as [src|] eqn:Es.
  - destruct (nonEmpty src) eqn:En.
    + rewrite lookup_update_same, (absoluteSrc_nonEmpty _ En), absoluteSrc_idempotent.
      apply update_present, lookup_update_same.
    + now rewrite Es, En.
  - now rewrite Es.
Qed.

Lemma linkAttrs_idempotent tag attrs :
  linkAttrs tag (linkAttrs tag attrs) = linkAttrs tag attrs.
Proof.
  unfold linkAttrs. destruct (streq tag (lit "a")); [|reflexivity].
  destruct (lookupAttr (lit "href") attrs) as [href|] eqn:Eh.
  - destruct (nonEmpty href && startsWith (lit "/") href) eqn:Ec.
    + rewrite lookup_update_other, lookup_update_same by reflexivity.
      replace (nonEmpty (host ++ href) && startsWith (lit "/") (host ++ href)) with false
        by reflexivity.
      reflexivity.
    + now rewrite Eh, Ec.
  - now rewrite Eh.
Qed.

(** A link is not an image. *)
Lemma imageAttrs_of_link tag attrs :
  imageAttrs tag attrs = attrs -> imageAttrs tag (linkAttrs tag attrs) = linkAttrs tag attrs.
Proof.
  intros H. unfold linkAttrs. destruct (streq tag (lit "a")) eqn:Et; [|exact H].
  apply streq_eq in Et. subst tag. reflexivity.
Qed.

(** *** Normalising a tree in one pass *)

(** What the three passes together make of one node below the root. *)
Fixpoint normNode (n : node) : node :=
  match n with
  | Element tag attrs cs =>
      match latexReplacement q n with
      | Some span => span
      | None => Element tag (linkAttrs tag (imageAttrs tag attrs)) (map normNode cs)
      end
  | other => other
  end.

Definition replaceChild (c : node) : node :=
  match latexReplacement q c with
  | Some c' => c'
  | None => replaceWhere (latexReplacement q) c
  end.

Definition updateChild (g : node -> node) (c : node) : node :=
  match g c with
  | Element tag attrs _ => Element tag attrs (children (updateElements g c))
  | other => other
  end.

Lemma passes_on_child (c : node) :
  updateChild (fixLink q) (updateChild (fixImage q) (replaceChild c)) = normNode c.
Proof.
  induction c as [d|d|tag attrs cs IH] using node_rect'; try reflexivity.
  unfold replaceChild. cbn [normNode].
  destruct (latexReplacement q (Element tag attrs cs)) as [span|] eqn:E.
  - destruct (latexReplacement_span _ E) as [alt ->]. reflexivity.
  - cbn [replaceWhere]. fold replaceChild.
    unfold updateChild at 2. rewrite fixImage_Element.
    cbn [updateElements children]. fold (updateChild (fixImage q)).
    unfold updateChild at 1. rewrite fixLink_Element.
    cbn [updateElements children]. fold (updateChild (fixLink q)).
    f_equal. rewrite !map_map. apply map_ext_Forall. exact IH.
Qed.

Lemma normalizeTree_Element tag attrs cs :
  normalizeTree q (Element tag attrs cs) = Element tag attrs (map normNode cs).
Proof.
  unfold normalizeTree, restoreLatex. cbn [replaceWhere updateElements].
  fold replaceChild (updateChild (fixImage q)) (updateChild (fixLink q)).
  f_equal. rewrite !map_map. apply map_ext. intros c. apply passes_on_child.
Qed.

Lemma normNode_idempotent (n : node) : normNode (normNode n) = normNode n.
Proof.
  induction n as [d|d|tag attrs cs IH] using node_rect'; try reflexivity.
  cbn [normNode].
  destruct (latexReplacement q (Element tag attrs cs)) as [span|] eqn:E.
  - destruct (latexReplacement_span _ E) as [alt ->]. reflexivity.
  - cbn [normNode].
    assert (Hkeep : latexReplacement q
              (Element tag (linkAttrs tag (imageAttrs tag attrs)) (map normNode cs)) = None).
    { rewrite <- E. apply latexReplacement_attrs.
      - now rewrite lookup_linkAttrs, lookup_imageAttrs.
      - now rewrite lookup_linkAttrs, lookup_imageAttrs. }
    rewrite Hkeep.
    rewrite (@imageAttrs_of_link tag (imageAttrs tag attrs) (imageAttrs_idempotent tag attrs)).
    rewrite linkAttrs_idempotent. f_equal.
    rewrite map_map. apply map_ext_Forall. exact IH.
Qed.

Lemma normalizeTree_idempotent (n : node) :
  normalizeTree q (normalizeTree q n) = normalizeTree q n.
Proof.
  destruct n as [d|d|tag attrs cs]; try reflexivity.
  rewrite !normalizeTree_Element. f_equal.
  rewrite map_map. apply map_ext. intros c. apply normNode_idempotent.
Qed.

(** The children of a normalised node are normalised. *)
Lemma children_normNode_fixed (n : node) :
  map normNode (children (normNode n)) = children (normNode n).
Proof.
  destruct n as [d|d|tag attrs cs]; try reflexivity.
  cbn [normNode].
  destruct (latexReplacement q (Element tag attrs cs)) as [span|] eqn:E.
  - destruct (latexReplacement_span _ E) as [alt ->]. reflexivity.
  - cbn [children]. rewrite map_map. apply map_ext. intros c. apply normNode_idempotent.
Qed.

Lemma body_children_fixed (doc : document) (body : node) :
  bodyOf (normalizeTree q (documentNode doc)) = Some body ->
  map normNode (children body) = children body.
Proof.
  unfold documentNode. rewrite normalizeTree_Element. unfold bodyOf. cbn [map children].
  intros H. apply find_some in H as [Hin _].
  assert (Hn : exists b0, body = normNode b0).
  { destruct (documentElement doc) as [d|d|tag attrs cs]; try contradiction.
    cbn [normNode] in Hin.
    destruct (latexReplacement q (Element tag attrs cs)) as [span|] eqn:E.
    - destruct (latexReplacement_span _ E) as [alt ->].
      destruct Hin as [<- | []]. now exists (Text (lit " " ++ alt ++ lit " ")).
    - cbn [children] in Hin. apply in_map_iff in Hin as (b0 & <- & _). now exists b0. }
  destruct Hn as [b0 ->]. apply children_normNode_fixed.
Qed.

End Passes.

Section Claims.

Variable parseFromString : jsstring -> document.
Variable innerHTML : node -> jsstring.

Let clean := cleanAndRestoreLatex parseFromString innerHTML.

(** The body holding one more container around the given content. *)
Definition rewrapped (content : list node) : node :=
  Element (lit "body") [] [Element (lit "div") [] content].

Definition rewrappedDocument (quirksMode : bool) (content : list node) : document :=
  {| quirks := quirksMode;
     documentElement :=
       Element (lit "html") [] [Element (lit "head") [] []; rewrapped content] |}.

(** C6 (amended): when the first application succeeds on a fragment, the
    parser reads its output, inside the new container, back as the tree it
    was written from, and the writer puts the container's tags around its
    content, then a second application returns the first output wrapped in
    one more [<div>] element, which is not the first output; the rewrites
    underneath are idempotent on every tree. *)
Theorem C6_second_pass_wraps_again (raw : jsstring) (first : cleaned) (body1 : node) :
  let doc1 := parseFromString (lit "<div>" ++ raw ++ lit "</div>") in
  clean raw = Return first ->
  bodyOf (normalizeTree (quirks doc1) (documentNode doc1)) = Some body1 ->
  parseFromString (lit "<div>" ++ html first ++ lit "</div>")
  = rewrappedDocument (quirks doc1) (children body1) ->
  innerHTML (rewrapped (children body1)) = lit "<div>" ++ innerHTML body1 ++ lit "</div>" ->
  (exists second,
      clean (html first) = Return second
      /\ html second = lit "<div>" ++ html first ++ lit "</div>"
      /\ html second <> html first)
  /\ (forall quirksMode n,
        normalizeTree quirksMode (normalizeTree quirksMode n) = normalizeTree quirksMode n).
Proof.
  intros doc1 Hfirst Hbody Hstable Hwriter.
  split; [|intros; apply normalizeTree_idempotent].
  assert (Hhtml : html first = innerHTML body1).
  { unfold clean, cleanAndRestoreLatex in Hfirst. fold doc1 in Hfirst.
    rewrite Hbody in Hfirst. now injection Hfirst as <-. }
  pose proof (body_children_fixed _ _ Hbody) as Hfixed.
  unfold clean, cleanAndRestoreLatex at 1. rewrite Hstable.
  unfold rewrappedDocument, rewrapped, documentNode. cbn [quirks documentElement].
  rewrite normalizeTree_Element.
  assert (Hnorm : map (normNode (quirks doc1))
            [Element (lit "html") []
               [Element (lit "head") [] [];
                Element (lit "body") [] [Element (lit "div") [] (children body1)]]]
          = [Element (lit "html") []
               [Element (lit "head") [] [];
                Element (lit "body") [] [Element (lit "div") [] (children body1)]]]).
  { cbn [map normNode]. rewrite Hfixed.
    destruct (quirks doc1); reflexivity. }
  rewrite Hnorm.
  eexists. split; [reflexivity|]. cbn [html].
  fold (rewrapped (children body1)). rewrite Hwriter, <- Hhtml.
  split; [reflexivity|].
  intros Heq. apply (f_equal (@length ascii)) in Heq.
  rewrite !length_app in Heq. cbn [length lit list_ascii_of_string] in Heq. lia.
Qed.

End Claims.

(** C6, as stated, fails: on the fragment [<p>x</p>], whose content has no
    image and no link, the first application returns
    [<div><p>x</p></div>] and the second, on that output,
    [<div><div><p>x</p></div></div>]. *)
Lemma C6_wrapper_is_added_each_time :
  cleanAndRestoreLatex HtmlReference.parseFromString HtmlReference.innerHTML
    (lit "<p>x</p>")
  = Return {| html := lit "<div><p>x</p></div>"; images := [] |}
  /\ cleanAndRestoreLatex HtmlReference.parseFromString HtmlReference.innerHTML
       (lit "<div><p>x</p></div>")
     = Return {| html := lit "<div><div><p>x</p></div></div>"; images := [] |}
  /\ lit "<div><div><p>x</p></div></div>" <> lit "<div><p>x</p></div>".
Proof. repeat split; try (vm_compute; reflexivity). discriminate. Qed.

(** The amended claim on a fragment with an absolute image and an absolute
    link. *)
Definition absoluteFragment : jsstring :=
  lit "<p>See <img src=" ++ quoted "https://artofproblemsolving.com/d.png" ++ lit "> and <a href="
    ++ quoted "https://artofproblemsolving.com/wiki" ++ lit ">the wiki</a>.</p>".

Lemma C6_second_pass_wraps_again_witness :
  exists second,
    cleanAndRestoreLatex HtmlReference.parseFromString HtmlReference.innerHTML
      (lit "<div>" ++ absoluteFragment ++ lit "</div>") = Return second
    /\ html second = lit "<div><div>" ++ absoluteFragment ++ lit "</div></div>".
Proof.
  destruct (@C6_second_pass_wraps_again HtmlReference.parseFromString
              HtmlReference.innerHTML absoluteFragment
              {| html := lit "<div>" ++ absoluteFragment ++ lit "</div>";
                 images := [lit "https://artofproblemsolving.com/d.png"] |}
              (Element (lit "body") []
                 (rev (HtmlReference.build
                         (HtmlReference.tokenize false []
                            (lit "<div>" ++ absoluteFragment ++ lit "</div>")) [] [])))
              ltac:(vm_compute; reflexivity) ltac:(vm_compute; reflexivity)
              ltac:(vm_compute; reflexivity) ltac:(vm_compute; reflexivity))
    as [(second & Hsecond & Hhtml & _) _].
  exists second. split; [exact Hsecond | exact Hhtml].
Defined.

End NormalizerFacts.

(* ------------------------------------------------------------------ *)
(** ** The answer extractor *)

Module ExtractorFacts.
Import Regex Json Dom Scraper RegexFacts.

(** The command name of the boxed-answer convention, in any letter case. *)
Definition boxedWord : regex := mkRegex (chars "\boxed") true.

Definition literal (w : jsstring) : list item := map (fun c => Chr (CChar c)) w.

Lemma matchHere_literal (ic : bool) (w : jsstring) (r : list item) (s : jsstring) :
  matchHere ic (literal w ++ r) s
  = match matchHere ic (literal w) s with
    | Some (_, rest) => matchHere ic r rest
    | None => None
    end.
Proof.
  revert s; induction w as [|x w IH]; intros s; [reflexivity|].
  cbn [literal map app matchHere]. fold (literal w).
  destruct s as [|c s]; [reflexivity|].
  destruct (classMatches ic (CChar x) c); [apply IH | reflexivity].
Qed.

(** A literal whose characters cannot match [x] does not match across an
    occurrence of [x]. *)
Lemma literal_stays_before (ic : bool) (w : jsstring) (x : ascii) (y t : jsstring) :
  Forall (fun c => classMatches ic (CChar c) x = false) w ->
  matchHere ic (literal w) y = None ->
  matchHere ic (literal w) (y ++ x :: t) = None.
Proof.
  intros Hw. revert y. induction Hw as [|c w Hc _ IH]; intros y; [discriminate|].
  cbn [literal map matchHere]. fold (literal w).
  destruct y as [|d y]; cbn [app].
  - now rewrite Hc.
  - destruct (classMatches ic (CChar c) d); [apply IH | reflexivity].
Qed.

Lemma boxedWord_stays_before (y tail : jsstring) :
  y <> [] -> tail = [] \/ (exists t, tail = backslash :: t) ->
  matchHere true (literal (lit "\boxed")) y = None ->
  matchHere true (literal (lit "\boxed")) (y ++ tail) = None.
Proof.
  intros Hy [-> | [t ->]] H; [now rewrite app_nil_r|].
  destruct y as [|d y]; [congruence|].
  change (lit "\boxed") with (backslash :: lit "boxed") in *.
  cbn [literal map matchHere app] in *. fold (literal (lit "boxed")) in *.
  destruct (classMatches true (CChar backslash) d); [|reflexivity].
  apply literal_stays_before; [|exact H].
  repeat constructor.
Qed.

Lemma search_none (re : regex) (s : jsstring) :
  search re s = None ->
  forall x y, s = x ++ y -> matchHere (ignoreCase re) (items re) y = None.
Proof.
  intros H x; revert s H; induction x as [|c x IH]; intros s H y ->; cbn [app] in H.
  - destruct y as [|c y]; cbn [search] in H;
      destruct (matchHere _ _ _) as [[caps rest]|]; [discriminate | reflexivity
                                                    | discriminate | reflexivity].
  - cbn [search] in H.
    destruct (matchHere _ _ (c :: x ++ y)) as [[caps rest]|]; [discriminate|].
    destruct (search re (x ++ y)) as [[[b caps] rest]|] eqn:E; [discriminate|].
    now apply (IH (x ++ y) E).
Qed.

Lemma search_skip (re : regex) (pre tail : jsstring) :
  (forall x y, pre = x ++ y -> y <> [] ->
     matchHere (ignoreCase re) (items re) (y ++ tail) = None) ->
  search re (pre ++ tail)
  = match search re tail with
    | Some (before, caps, rest) => Some (pre ++ before, caps, rest)
    | None => None
    end.
Proof.
  induction pre as [|c pre IH]; intros H; cbn [app].
  - destruct (search re tail) as [[[b caps] rest]|]; reflexivity.
  - cbn [search]. pose proof (H [] (c :: pre) eq_refl) as H0. cbn [app] in H0.
    rewrite H0 by discriminate.
    rewrite IH by (intros x y -> Hy; now apply (H (c :: x) y)).
    destruct (search re tail) as [[[b caps] rest]|]; reflexivity.
Qed.

(** Whether a match of [re] begins at one of the positions of [pre] in the
    text [pre ++ tail]. *)
Fixpoint matchesInside (re : regex) (pre tail : jsstring) : bool :=
  match pre with
  | [] => false
  | _ :: pre' =>
      match matchHere (ignoreCase re) (items re) (pre ++ tail) with
      | Some _ => true
      | None => matchesInside re pre' tail
      end
  end.

Lemma matchesInside_false (re : regex) (pre tail : jsstring) :
  matchesInside re pre tail = false ->
  forall x y, pre = x ++ y -> y <> [] ->
    matchHere (ignoreCase re) (items re) (y ++ tail) = None.
Proof.
  induction pre as [|c pre IH]; intros H x y Hxy Hy.
  - destruct x; destruct y; try discriminate Hxy. congruence.
  - cbn [matchesInside] in H.
    destruct (matchHere _ _ ((c :: pre) ++ tail)) as [r|] eqn:E; [discriminate H|].
    destruct x as [|d x]; cbn [app] in Hxy.
    + subst y. exact E.
    + injection Hxy as _ Hxy. now apply (IH H x y).
Qed.

Lemma matchesInside_none (re : regex) (pre tail : jsstring) :
  (forall x y, pre = x ++ y -> y <> [] ->
     matchHere (ignoreCase re) (items re) (y ++ tail) = None) ->
  matchesInside re pre tail = false.
Proof.
  induction pre as [|c pre IH]; intros H; [reflexivity|].
  cbn [matchesInside]. rewrite (H [] (c :: pre) eq_refl) by discriminate.
  apply IH. intros x y -> Hy. now apply (H (c :: x) y).
Qed.

(** The leftmost match is not among the positions at which no match
    begins. *)
Lemma search_past (re : regex) (pre tail : jsstring) :
  matchesInside re pre tail = false ->
  search re (pre ++ tail)
  = match search re tail with
    | Some (before, caps, rest) => Some (pre ++ before, caps, rest)
    | None => None
    end.
Proof.
  intros H. apply search_skip. now apply matchesInside_false.
Qed.

(** The letter [c] is captured by the leftmost match of [re] in the text:
    the pattern matches at some position, capturing [c], and at no position
    before it. *)
Definition leftmostAt (re : regex) (html : jsstring) (c : ascii) : Prop :=
  exists before tail rest,
    html = before ++ tail
    /\ matchHere (ignoreCase re) (items re) tail = Some ([[c]], rest)
    /\ matchesInside re before tail = false.

Lemma search_leftmost (re : regex) (s before rest : jsstring) (caps : list jsstring) :
  search re s = Some (before, caps, rest) ->
  exists tail,
    s = before ++ tail
    /\ matchHere (ignoreCase re) (items re) tail = Some (caps, rest)
    /\ matchesInside re before tail = false.
Proof.
  revert before; induction s as [|c s IH]; intros before; cbn [search].
  - destruct (matchHere _ _ []) as [[caps0 rest0]|] eqn:E; [|discriminate].
    intros [= <- <- <-]. exists []. auto.
  - destruct (matchHere _ _ (c :: s)) as [[caps0 rest0]|] eqn:E.
    + intros [= <- <- <-]. exists (c :: s). auto.
    + destruct (search re s) as [[[b caps0] rest0]|]; [|discriminate].
      intros [= <- <- <-]. destruct (IH b eq_refl) as (tail & -> & Hm & Hin).
      exists tail. split; [reflexivity|]. split; [exact Hm|].
      cbn [matchesInside app]. now rewrite E.
Qed.

(** A text that does not mention the command has no place where a boxed
    pattern could start, also when a backslash follows it. *)
Lemma no_boxed_start (re : regex) (r : list item) (pre tail : jsstring) :
  items re = literal (lit "\boxed") ++ r -> ignoreCase re = true ->
  search boxedWord pre = None ->
  tail = [] \/ (exists t, tail = backslash :: t) ->
  forall x y, pre = x ++ y -> y <> [] ->
    matchHere (ignoreCase re) (items re) (y ++ tail) = None.
Proof.
  intros Hitems Hic Hpre Htail x y Hxy Hy.
  rewrite Hitems, Hic, matchHere_literal.
  rewrite boxedWord_stays_before; auto.
  exact (@search_none boxedWord pre Hpre x y Hxy).
Qed.

Lemma search_without_boxed (re : regex) (r : list item) (s : jsstring) :
  items re = literal (lit "\boxed") ++ r -> ignoreCase re = true ->
  search boxedWord s = None -> search re s = None.
Proof.
  intros Hitems Hic Hs.
  assert (H : forall x y, s = x ++ y -> matchHere (ignoreCase re) (items re) y = None).
  { intros x y Hxy. rewrite Hitems, Hic, matchHere_literal.
    pose proof (@search_none boxedWord s Hs x y Hxy) as Hn.
    change (matchHere true (literal (lit "\boxed")) y = None) in Hn.
    now rewrite Hn. }
  clear Hs. induction s as [|c s IH]; cbn [search].
  - now rewrite (H [] [] eq_refl).
  - rewrite (H [] (c :: s) eq_refl).
    rewrite IH; [reflexivity|]. intros x y ->. now apply (H (c :: x) y).
Qed.

Lemma letter_cases (X : ascii) :
  inRange (ch "A") (ch "E") X = true ->
  X = ch "A" \/ X = ch "B" \/ X = ch "C" \/ X = ch "D" \/ X = ch "E".
Proof.
  destruct X as [[] [] [] [] [] [] [] []]; vm_compute; intros H;
    first [discriminate H | tauto].
Qed.

(** The two boxed forms of the specification. *)
Definition boxedTextbf (X : ascii) : jsstring := lit "\boxed{\textbf{(" ++ [X] ++ lit ")}}".
Definition boxedPlain (X : ascii) : jsstring := lit "\boxed{(" ++ [X] ++ lit ")}".

Lemma boxedTextbf_matches (X : ascii) (post : jsstring) :
  inRange (ch "A") (ch "E") X = true ->
  search boxedTextbfRe (boxedTextbf X ++ post) = Some ([], [[X]], post).
Proof.
  intros H. destruct (letter_cases _ H) as [-> | [-> | [-> | [-> | ->]]]];
    vm_compute; reflexivity.
Qed.

Lemma boxedPlain_matches (X : ascii) (post : jsstring) :
  inRange (ch "A") (ch "E") X = true ->
  search boxedRe (boxedPlain X ++ post) = Some ([], [[X]], post).
Proof.
  intros H. destruct (letter_cases _ H) as [-> | [-> | [-> | [-> | ->]]]];
    vm_compute; reflexivity.
Qed.

(** On the plain form the pattern with [textbf] finds nothing, and the
    search goes on in what follows. *)
Lemma boxedPlain_no_textbf (X : ascii) (post : jsstring) :
  inRange (ch "A") (ch "E") X = true ->
  search boxedTextbfRe post = None ->
  search boxedTextbfRe (boxedPlain X ++ post) = None.
Proof.
  intros H Hpost. destruct (letter_cases _ H) as [-> | [-> | [-> | [-> | ->]]]];
    unfold boxedPlain; cbn [lit list_ascii_of_string app];
    repeat (cbn [search];
            match goal with
            | |- context [matchHere ?ic ?r (?c :: ?s)] =>
                replace (matchHere ic r (c :: s)) with (@None result)
                  by (vm_compute; reflexivity)
            end;
            cbn iota);
    rewrite Hpost; reflexivity.
Qed.

Lemma boxedTextbf_found (pre post : jsstring) (X : ascii) :
  inRange (ch "A") (ch "E") X = true ->
  search boxedWord pre = None ->
  boxedMatch (pre ++ boxedTextbf X ++ post) = Some [[X]].
Proof.
  intros HX Hpre. unfold boxedMatch, matchRe.
  rewrite (@search_skip boxedTextbfRe pre (boxedTextbf X ++ post)).
  - now rewrite boxedTextbf_matches.
  - apply no_boxed_start with (r := skipn 6 (items boxedTextbfRe)); auto.
    right. eexists. reflexivity.
Qed.

Lemma boxedPlain_found (pre post : jsstring) (X : ascii) :
  inRange (ch "A") (ch "E") X = true ->
  search boxedWord pre = None -> search boxedWord post = None ->
  boxedMatch (pre ++ boxedPlain X ++ post) = Some [[X]].
Proof.
  intros HX Hpre Hpost. unfold boxedMatch, matchRe.
  assert (Hstart : forall re r, items re = literal (lit "\boxed") ++ r ->
            ignoreCase re = true ->
            forall x y, pre = x ++ y -> y <> [] ->
              matchHere (ignoreCase re) (items re) (y ++ boxedPlain X ++ post) = None).
  { intros re r Hi Hc. apply no_boxed_start with (r := r); auto.
    right. eexists. reflexivity. }
  rewrite (@search_skip boxedTextbfRe pre (boxedPlain X ++ post))
    by (apply Hstart with (r := skipn 6 (items boxedTextbfRe)); reflexivity).
  rewrite boxedPlain_no_textbf; auto.
  2: { apply search_without_boxed with (r := skipn 6 (items boxedTextbfRe)); auto. }
  rewrite (@search_skip boxedRe pre (boxedPlain X ++ post))
    by (apply Hstart with (r := skipn 6 (items boxedRe)); reflexivity).
  now rewrite boxedPlain_matches.
Qed.

(** The form with [textbf] that is the leftmost match of its pattern gives
    the boxed match, whatever stands before and after it. *)
Lemma leftmost_textbf_found (pre post : jsstring) (X : ascii) :
  inRange (ch "A") (ch "E") X = true ->
  matchesInside boxedTextbfRe pre (boxedTextbf X ++ post) = false ->
  boxedMatch (pre ++ boxedTextbf X ++ post) = Some [[X]].
Proof.
  intros HX Hpre. unfold boxedMatch, matchRe.
  rewrite (search_past _ _ _ Hpre). now rewrite boxedTextbf_matches.
Qed.

(** The plain form gives it when the pattern with [textbf] matches nowhere
    and the form is the leftmost match of the plain pattern. *)
Lemma leftmost_plain_found (pre post : jsstring) (X : ascii) :
  inRange (ch "A") (ch "E") X = true ->
  search boxedTextbfRe (pre ++ boxedPlain X ++ post) = None ->
  matchesInside boxedRe pre (boxedPlain X ++ post) = false ->
  boxedMatch (pre ++ boxedPlain X ++ post) = Some [[X]].
Proof.
  intros HX Hnone Hpre. unfold boxedMatch, matchRe.
  rewrite Hnone, (search_past _ _ _ Hpre). now rewrite boxedPlain_matches.
Qed.

(** A letter A to E, in either case: what [[A-E]] captures under the i
    flag. *)
Definition letterOfEitherCase (c : ascii) : Prop := classMatches true letterAE c = true.

(** Whatever a boxed pattern captures is one such letter. *)
Lemma boxedMatch_letter (html : jsstring) (m : list jsstring) :
  boxedMatch html = Some m -> exists c, m = [[c]] /\ letterOfEitherCase c.
Proof.
  assert (H : forall re, groupsOf (items re) = [letterAE] -> ignoreCase re = true ->
            matchRe re html = Some m -> exists c, m = [[c]] /\ letterOfEitherCase c).
  { intros re Hg Hic. unfold matchRe.
    destruct (search re html) as [[[b caps] rest]|] eqn:E; [|discriminate].
    intros [= <-]. apply search_captures in E. rewrite Hg, Hic in E.
    inversion E as [|cls cap l l' (c & -> & Hc) Hnil]; subst.
    inversion Hnil; subst. now exists c. }
  unfold boxedMatch.
  destruct (matchRe boxedTextbfRe html) as [m'|] eqn:E1.
  - intros [= <-]. now apply (H boxedTextbfRe).
  - now apply (H boxedRe).
Qed.

(** Which letter the boxed match holds: that of the leftmost match of the
    pattern with [textbf] or, when that pattern matches nowhere, that of the
    leftmost match of the plain pattern. *)
Definition leftmostBoxed (html : jsstring) (c : ascii) : Prop :=
  leftmostAt boxedTextbfRe html c
  \/ (search boxedTextbfRe html = None /\ leftmostAt boxedRe html c).

Lemma boxedMatch_leftmost (html : jsstring) (c : ascii) :
  boxedMatch html = Some [[c]] -> leftmostBoxed html c.
Proof.
  unfold boxedMatch, matchRe, leftmostBoxed, leftmostAt.
  destruct (search boxedTextbfRe html) as [[[b caps] rest]|] eqn:E1.
  - intros [= ->]. left. apply search_leftmost in E1 as (tail & Hs & Hm & Hin).
    now exists b, tail, rest.
  - destruct (search boxedRe html) as [[[b caps] rest]|] eqn:E2; [|discriminate].
    intros [= ->]. right. split; [reflexivity|].
    apply search_leftmost in E2 as (tail & Hs & Hm & Hin).
    now exists b, tail, rest.
Qed.

(** A text that contains one of the two boxed forms has a boxed match. *)
Lemma boxed_form_is_found (pre post : jsstring) (X : ascii) :
  inRange (ch "A") (ch "E") X = true ->
  boxedMatch (pre ++ boxedTextbf X ++ post) <> None
  /\ boxedMatch (pre ++ boxedPlain X ++ post) <> None.
Proof.
  intros HX. unfold boxedMatch, matchRe. split.
  - pose proof (@search_found_later boxedTextbfRe pre (boxedTextbf X ++ post)) as H.
    rewrite boxedTextbf_matches in H by exact HX.
    destruct (search boxedTextbfRe (pre ++ boxedTextbf X ++ post)) as [[[b caps] rest]|];
      [discriminate|]. exfalso. apply H; [discriminate | reflexivity].
  - destruct (search boxedTextbfRe (pre ++ boxedPlain X ++ post)) as [[[b caps] rest]|];
      [discriminate|].
    pose proof (@search_found_later boxedRe pre (boxedPlain X ++ post)) as H.
    rewrite boxedPlain_matches in H by exact HX.
    destruct (search boxedRe (pre ++ boxedPlain X ++ post)) as [[[b caps] rest]|];
      [discriminate|]. exfalso. apply H; [discriminate | reflexivity].
Qed.

Section Claims.

Variable World : Type.
Variable apiKey : World -> option jsstring.
Variable generateContent : jsstring -> jsstring -> World -> completion AiResponse * World.

Let extract := extractAnswer apiKey generateContent.

(** The answer is the letter of the boxed match, the model is not called. *)
Lemma boxed_match_decides (html : jsstring) (m : list jsstring) (s : env World) :
  boxedMatch html = Some m ->
  exists c, m = [[c]] /\ letterOfEitherCase c
            /\ regexCorrectOption html = [c]
            /\ extract html s = (Return [c], s).
Proof.
  intros Hm. destruct (@boxedMatch_letter html m Hm) as (c & -> & Hc).
  exists c. unfold extract, extractAnswer, regexCorrectOption. rewrite Hm.
  repeat split; auto.
Qed.


End Claims.

(** A solution text with a boxed number and a prose answer B before a
    boxed answer C. *)
Definition proseBefore : jsstring :=
  lit "<div><p>There are \boxed{12} cases. The answer is (B)? No: ".

Definition proseThenBoxed : jsstring :=
  proseBefore ++ boxedTextbf (ch "C") ++ lit ".</p></div>".


(** A solution text with the boxed answer C in the plain form, the prose
    answer B, and then a boxed answer D in the form with [textbf]. *)
Definition twoBoxed : jsstring :=
  lit "<div><p>First " ++ boxedPlain (ch "C") ++ lit ", so the answer is (B). Or is it "
    ++ boxedTextbf (ch "D") ++ lit "?</p></div>".


(** ** The shape of the extracted answer *)

Definition emptyOrLetter (inClass : ascii -> Prop) (answer : jsstring) : Prop :=
  answer = [] \/ exists c, answer = [c] /\ inClass c.

Lemma textMatch_letter (html : jsstring) (m : list jsstring) :
  textMatch html = Some m -> exists c, m = [[c]] /\ letterOfEitherCase c.
Proof.
  unfold textMatch, matchRe.
  destruct (search answerIsRe _) as [[[b caps] rest]|] eqn:E; [|discriminate].
  intros [= <-]. apply search_captures in E.
  change (groupsOf (items answerIsRe)) with [letterAE] in E.
  inversion E as [|cls cap l l' (c & -> & Hc) Hnil]; subst.
  inversion Hnil; subst. now exists c.
Qed.

Lemma regexCorrectOption_shape (html : jsstring) :
  emptyOrLetter letterOfEitherCase (regexCorrectOption html).
Proof.
  unfold regexCorrectOption.
  destruct (boxedMatch html) as [m|] eqn:Eb.
  - destruct (@boxedMatch_letter html m Eb) as (c & -> & Hc). right. now exists c.
  - destruct (textMatch html) as [m|] eqn:Et; [|now left].
    destruct (@textMatch_letter html m Et) as (c & -> & Hc). right. now exists c.
Qed.

(** Deleting what is not A to E leaves letters A to E. *)
Lemma only_letters_left (skip : nat) (s : jsstring) :
  Forall (fun c => inRange (ch "A") (ch "E") c = true) (replaceFrom notLetterRe [] skip s).
Proof.
  revert skip; induction s as [|c s IH]; intros skip; cbn [replaceFrom].
  - destruct skip; cbn; constructor.
  - destruct skip as [|n]; [|apply IH].
    cbn [notLetterRe items ignoreCase matchHere classMatches letterAE].
    destruct (inRange (ch "A") (ch "E") c) eqn:Ec; cbn [negb].
    + constructor; [exact Ec | apply IH].
    + replace (length (c :: s) - length s) with 1 by (cbn [length]; lia).
      cbn [app]. apply IH.
Qed.

Lemma firstLetter_shape (responseText : option jsstring) :
  emptyOrLetter (fun c => inRange (ch "A") (ch "E") c = true) (firstLetter responseText).
Proof.
  unfold firstLetter. destruct responseText as [t|]; [|now left].
  pose proof (only_letters_left 0 (toUpperCase (trim t))) as H.
  unfold replaceAll. destruct (replaceFrom notLetterRe [] 0 _) as [|c rest]; [now left|].
  right. exists c. split; [reflexivity|]. now inversion H.
Qed.

Lemma upper_is_either_case (c : ascii) :
  inRange (ch "A") (ch "E") c = true -> letterOfEitherCase c.
Proof.
  intros H. unfold letterOfEitherCase, letterAE. cbn [classMatches]. now rewrite H.
Qed.

Section Shape.

Variable World : Type.
Variable apiKey : World -> option jsstring.
Variable generateContent : jsstring -> jsstring -> World -> completion AiResponse * World.

(** What the extractor returns is empty or one letter A to E, of either
    case when it comes from a pattern. *)
Lemma extractAnswer_shape (html : jsstring) (s s' : env World) (answer : jsstring) :
  extractAnswer apiKey generateContent html s = (Return answer, s') ->
  emptyOrLetter letterOfEitherCase answer.
Proof.
  unfold extractAnswer.
  destruct (nonEmpty (regexCorrectOption html)).
  - intros [= <- _]. apply regexCorrectOption_shape.
  - unfold extractCorrectOptionWithAI, bindM, getAiClient.
    destruct (apiKey (world s)) as [key|]; [|discriminate].
    destruct (nonEmpty key); [|discriminate].
    unfold tryM, bindM, onWorld.
    destruct (generateContent _ _ (world s)) as [[response|e] w]; cbn.
    + intros [= <- _].
      destruct (firstLetter_shape (aiText response)) as [-> | (c & -> & Hc)]; [now left|].
      right. exists c. split; [reflexivity | now apply upper_is_either_case].
    + intros [= <- _]. now left.
Qed.

Variable fetch : jsstring -> World -> completion Response * World.
Variable parseFromString : jsstring -> document.
Variable outerHTML : node -> jsstring.
Variable innerHTML : node -> jsstring.
Variable ToString : value -> jsstring.

(** So the [correctOption] of every assembled problem is empty or a single
    letter A to E, in upper or lower case. *)
Lemma correctOption_shape (url id : jsstring) (level : ExamLevel) (s s' : env World)
    (p : Problem.t) :
  scrapeProblem fetch apiKey generateContent parseFromString outerHTML innerHTML ToString
    url id level s = (Return p, s') ->
  emptyOrLetter letterOfEitherCase (Problem.correctOption p).
Proof.
  intros H. apply AssemblerFacts.scrape_returns_full in H.
  destruct H as (_ & _ & _ & _ & _ & _ & _ & qt & st & qd & sd & s1 & H).
  destruct H as (_ & _ & _ & _ & _ & _ & _ & Hanswer & _).
  exact (extractAnswer_shape _ _ Hanswer).
Qed.

End Shape.

(** ** The case of the extracted letter *)

(** A page of the archive whose solution writes the boxed answer with a
    lower-case letter. *)
Definition lowerCasePage : jsstring :=
  lit "<!DOCTYPE html><div class=" ++ quoted "mw-parser-output"
    ++ lit "><h2><span class=" ++ quoted "mw-headline" ++ lit " id=" ++ quoted "Problem"
    ++ lit ">Problem</span></h2><p>What is 1+1?</p><h2>Solution</h2><p>It is \boxed{\textbf{(c)}}.</p></div>".

Definition archive (url : jsstring) (w : unit) : completion Response * unit :=
  (Return (mkResponse true 200 (Return lowerCasePage) (Throw JsonReader.syntaxError)), w).

Definition assembleFromArchive : completion (option Problem.t) * env unit :=
  fetchAoPSProblem archive (fun _ => None)
    (fun _ _ w => (Throw (Error (lit "no model")), w))
    HtmlReference.parseFromString HtmlReference.outerHTML HtmlReference.innerHTML
    (fun _ => [])
    (lit "https://artofproblemsolving.com/wiki/index.php?title=2025_AMC_8_Problems/Problem_1")
    (lit "2025-amc8-1") AMC8 (mkEnv tt []).

(** C5 does not hold of the code: on that page the assembler returns a
    problem whose [correctOption] is the lower-case letter [c].  The patterns
    carry the i flag, so [[A-E]] also captures a to e, and the captured
    letter is stored without being converted to upper case. *)
Lemma C5_lower_case_letter_is_kept :
  exists p,
    fst assembleFromArchive = Return (Some p)
    /\ Problem.correctOption p = lit "c"
    /\ Problem.solutionHtml p
       = lit "<div>" ++ subHeading (lit "Solution")
           ++ lit "<p>It is \boxed{\textbf{(c)}}.</p></div>".
Proof.
  eexists. split; [vm_compute; reflexivity|]. split; vm_compute; reflexivity.
Qed.

End ExtractorFacts.

Module ProxyOutcomes.
Import Json Dom Scraper ProxyFacts.

(** The warning of the inner [catch]. *)
Definition bothFailed : warning := mkWarning (lit "Both proxies failed") None.

(** Whether the answer to the first request passes the checks of the outer
    [try]: it arrived, its status is a success, and its text has at least
    100 characters. *)
Definition primaryAccepted (answer : completion Response) : bool :=
  match answer with
  | Return res =>
      ok res && match bodyText res with
                | Return text => 100 <=? length text
                | Throw _ => false
                end
  | Throw _ => false
  end.

Section Outcomes.

Variable World : Type.
Variable fetch : jsstring -> World -> completion Response * World.

(** The inner [try] with its [catch], on its own. *)
Let backupAttempt (url : jsstring) : M World value :=
  tryM
    (bindM (onWorld (fetch (backupUrl url))) (fun res =>
       if negb (ok res) then
         throw (Error (lit "Backup Proxy Error: " ++ numToString (status res)))
       else
         bindM (lift (bodyJson res)) (fun data =>
         bindM (lift (getProperty data (lit "contents"))) (fun contents =>
           match contents with
           | Some v =>
               if truthy contents then ret v
               else throw (Error (lit "Empty contents from backup"))
           | None => throw (Error (lit "Empty contents from backup"))
           end))))
    (fun e2 => bindM (consoleWarn (lit "Both proxies failed") None) (fun _ => throw e2)).

Lemma backup_outcomes (url : jsstring) (s1 : env World) :
  let '(r, s') := backupAttempt url s1 in
  world s' = snd (fetch (backupUrl url) (world s1))
  /\ match r with
     | Return _ => console s' = console s1
     | Throw _ => console s' = console s1 ++ [bothFailed]
     end.
Proof.
  unfold backupAttempt, tryM, bindM, onWorld, lift, ret, throw, consoleWarn.
  destruct (fetch (backupUrl url) (world s1)) as [[res2|e2] w2]; cbn [snd world console];
    [|split; reflexivity].
  destruct (ok res2); cbn [negb]; [|split; reflexivity].
  destruct (bodyJson res2) as [data|e]; [|split; reflexivity].
  destruct (getProperty data (lit "contents")) as [[v|]|e]; try (split; reflexivity).
  destruct (truthy (Some v)); split; reflexivity.
Qed.

(** X1: the fetcher asks the primary proxy, and the backup proxy only after
    the primary answer was rejected.  When the primary answer is accepted
    one request has been made, a text is returned and nothing is logged.
    Otherwise two requests have been made, and the warning "Both proxies
    failed" is logged exactly when the call raises.  Called with no retry
    left, the fetcher makes one request, logs nothing, and raises when the
    primary answer is rejected. *)
Theorem proxy_requests_and_warning (url : jsstring) (s : env World) :
  let first := fetch (primaryUrl url) (world s) in
  let second := fetch (backupUrl url) (snd first) in
  (let '(r, s') := fetchViaProxy fetch url 1 s in
   if primaryAccepted (fst first) then
     world s' = snd first /\ console s' = console s
     /\ exists text, r = Return (JString text)
   else
     world s' = snd second
     /\ match r with
        | Return _ => console s' = console s
        | Throw _ => console s' = console s ++ [bothFailed]
        end)
  /\ (let '(r, s') := fetchViaProxy fetch url 0 s in
      world s' = snd first /\ console s' = console s
      /\ if primaryAccepted (fst first) then exists text, r = Return (JString text)
         else exists e, r = Throw e).
Proof.
  intros first second.
  assert (Hlen : forall text, negb (nonEmpty text) || (length text <? 100)
                              = negb (100 <=? length text)).
  { intros text. rewrite Nat.leb_antisym, negb_involutive.
    destruct text as [|c text]; reflexivity. }
  assert (Hretry : forall (e : error) s1, world s1 = snd first -> console s1 = console s ->
            let '(r, s') := backupAttempt url s1 in
            world s' = snd second
            /\ match r with
               | Return _ => console s' = console s
               | Throw _ => console s' = console s ++ [bothFailed]
               end).
  { intros _ s1 Hw Hc. pose proof (backup_outcomes url s1) as H.
    destruct (backupAttempt url s1) as [r s']. now rewrite Hw, Hc in H. }
  change (fetchViaProxy fetch url 1 s)
    with (tryM (bindM (onWorld (fetch (primaryUrl url))) (fun res =>
                  if negb (ok res) then
                    throw (Error (lit "Primary Proxy Error: " ++ numToString (status res)))
                  else
                    bindM (lift (bodyText res)) (fun text =>
                      if negb (nonEmpty text) || (length text <? 100) then
                        throw (Error (lit "Empty contents"))
                      else ret (JString text))))
               (fun e => backupAttempt url) s).
  unfold fetchViaProxy. fold (primaryUrl url).
  change (0 <? 0) with false. cbv iota.
  unfold tryM, bindM, onWorld, lift, ret, throw.
  subst first second.
  destruct (fetch (primaryUrl url) (world s)) as [[res1|e1] w1];
    cbn [fst snd primaryAccepted world console] in *.
  2: { split; [now apply Hretry | repeat split; eauto]. }
  destruct (ok res1); cbn [negb andb].
  2: { split; [now apply Hretry | repeat split; eauto]. }
  destruct (bodyText res1) as [text|e]; cbn [world console].
  2: { split; [now apply Hretry | repeat split; eauto]. }
  rewrite Hlen. destruct (100 <=? length text); cbn [negb world console].
  - repeat split; eauto.
  - split; [now apply Hretry | repeat split; eauto].
Qed.

End Outcomes.
End ProxyOutcomes.

Module NormalizerOutcomes.
Import Dom Scraper NormalizerFacts.

(** An address that does not begin with a slash: it is neither relative to
    the site root nor protocol-relative. *)
Definition noLeadingSlash (address : jsstring) : Prop :=
  startsWith (lit "/") address = false.

Lemma absoluteSrc_noLeadingSlash (src : jsstring) : noLeadingSlash (absoluteSrc src).
Proof.
  unfold noLeadingSlash, absoluteSrc.
  destruct (startsWith (lit "//") src) eqn:E2; [reflexivity|].
  destruct (startsWith (lit "/") src) eqn:E1; [reflexivity | exact E1].
Qed.

(** *** The list of images *)

Lemma pushNew_NoDup (images : list jsstring) (src : jsstring) :
  NoDup images -> NoDup (pushNew images src).
Proof.
  intros H. unfold pushNew. destruct (existsb (streq src) images) eqn:E; [exact H|].
  apply NoDup_app; [exact H | constructor; [intros [] | constructor] |].
  intros x Hx [<- | []].
  assert (existsb (streq src) images = true); [|congruence].
  apply existsb_exists. exists src. split; [exact Hx | apply streq_refl].
Qed.

Lemma pushNew_Forall (P : jsstring -> Prop) (images : list jsstring) (src : jsstring) :
  Forall P images -> P src -> Forall P (pushNew images src).
Proof.
  intros H Hs. unfold pushNew. destruct (existsb (streq src) images); [exact H|].
  apply Forall_app. split; [exact H | now constructor].
Qed.

Lemma pushed_invariant (P : jsstring -> Prop) (srcs images : list jsstring) :
  Forall P srcs -> NoDup images -> Forall P images ->
  NoDup (fold_left pushNew srcs images) /\ Forall P (fold_left pushNew srcs images).
Proof.
  revert images; induction srcs as [|src srcs IH]; intros images Hs Hn Hi; cbn [fold_left].
  - now split.
  - inversion Hs; subst. apply IH; auto using pushNew_NoDup, pushNew_Forall.
Qed.

Lemma pushed_complete (srcs images : list jsstring) (x : jsstring) :
  In x images \/ In x srcs -> In x (fold_left pushNew srcs images).
Proof.
  revert images; induction srcs as [|src srcs IH]; intros images; cbn [fold_left].
  - intros [H | []]. exact H.
  - intros H. apply IH. unfold pushNew.
    destruct (existsb (streq src) images) eqn:E.
    + destruct H as [H | [<- | H]]; auto.
      apply existsb_exists in E as (y & Hy & Heq). apply streq_eq in Heq. subst y. auto.
    + destruct H as [H | [<- | H]]; auto.
      * left. apply in_or_app. auto.
      * left. apply in_or_app. right. now left.
Qed.

Section Images.

Variable parseFromString : jsstring -> document.
Variable innerHTML : node -> jsstring.

(** X2: the image list that the normaliser reports never names an address
    twice, and every address in it is non-empty and does not begin with a
    slash: addresses relative to the site root or to the protocol have been
    made absolute. *)
Theorem images_are_distinct_and_absolute (rawHtml : jsstring) (result : cleaned) :
  cleanAndRestoreLatex parseFromString innerHTML rawHtml = Return result ->
  NoDup (images result)
  /\ Forall (fun address => nonEmpty address = true /\ noLeadingSlash address)
       (images result).
Proof.
  unfold cleanAndRestoreLatex. destruct (bodyOf _) as [body|]; [|discriminate].
  intros [= <-]. cbn [images]. unfold collectImages.
  apply pushed_invariant; [|constructor|constructor].
  apply Forall_flat_map, Forall_forall. intros n _.
  unfold imageSrc. destruct (matches _ _ n); [|constructor].
  destruct (getAttribute (lit "src") n) as [src|]; [|constructor].
  destruct (nonEmpty src) eqn:E; constructor; [|constructor].
  split; [now apply absoluteSrc_nonEmpty | apply absoluteSrc_noLeadingSlash].
Qed.

End Images.

(** A fragment that shows the same root-relative picture twice and a
    protocol-relative one once. *)
Definition gallery : jsstring :=
  lit "<p><img src=" ++ quoted "/a.png" ++ lit "><img src=" ++ quoted "/a.png"
    ++ lit "><img src=" ++ quoted "//latex.artofproblemsolving.com/b.png" ++ lit "></p>".

Lemma images_are_distinct_and_absolute_witness :
  match cleanAndRestoreLatex HtmlReference.parseFromString HtmlReference.innerHTML gallery with
  | Return result =>
      images result = [lit "https://artofproblemsolving.com/a.png";
                       lit "https://latex.artofproblemsolving.com/b.png"]
      /\ NoDup (images result)
      /\ Forall (fun address => nonEmpty address = true /\ noLeadingSlash address)
           (images result)
  | Throw _ => False
  end.
Proof.
  destruct (cleanAndRestoreLatex HtmlReference.parseFromString HtmlReference.innerHTML gallery)
    as [result|e] eqn:E.
  - split.
    + vm_compute in E. injection E as <-. reflexivity.
    + exact (@images_are_distinct_and_absolute HtmlReference.parseFromString
               HtmlReference.innerHTML gallery result E).
  - vm_compute in E. discriminate E.
Defined.

(** *** The tree after the three passes *)

Section Tree.

Variable q : bool.

(** What holds of every element once the passes are done. *)
Definition settled (n : node) : Prop :=
  latexReplacement q n = None
  /\ (matches q [SelTag (lit "img")] n = true ->
      forall src, getAttribute (lit "src") n = Some src -> noLeadingSlash src)
  /\ (matches q [SelTag (lit "a")] n = true ->
      forall href, getAttribute (lit "href") n = Some href -> noLeadingSlash href).

Lemma span_settled (alt : jsstring) :
  settled (Element (lit "span") [] [Text (lit " " ++ alt ++ lit " ")]).
Proof.
  split; [|split].
  - unfold latexReplacement, isLatexImage. rewrite 2?isTag_Element.
    destruct q; reflexivity.
  - rewrite isTag_Element. discriminate.
  - rewrite isTag_Element. discriminate.
Qed.

Lemma text_settled (n : node) : isElement n = false -> settled n.
Proof.
  intros H. destruct n; try discriminate; repeat split; try discriminate;
    unfold latexReplacement, isLatexImage, matches, matchesSimple; reflexivity.
Qed.

Lemma rewritten_settled tag attrs cs :
  latexReplacement q (Element tag attrs cs) = None ->
  settled (Element tag (linkAttrs tag (imageAttrs tag attrs)) cs).
Proof.
  intros Hkeep. split; [|split].
  - rewrite <- Hkeep. apply latexReplacement_attrs;
      now rewrite lookup_linkAttrs, lookup_imageAttrs.
  - rewrite isTag_Element. intros Htag src. cbn [getAttribute].
    assert (Hlink : linkAttrs tag (imageAttrs tag attrs) = imageAttrs tag attrs).
    { unfold linkAttrs. destruct (streq tag (lit "a")) eqn:Ea; [|reflexivity].
      apply streq_eq in Ea, Htag. rewrite Ea in Htag. discriminate. }
    rewrite Hlink. unfold imageAttrs. rewrite Htag.
    destruct (lookupAttr (lit "src") attrs) as [src0|] eqn:Es.
    + destruct (nonEmpty src0) eqn:En.
      * rewrite lookup_update_same. intros [= <-]. apply absoluteSrc_noLeadingSlash.
      * rewrite Es. intros [= <-]. destruct src0; [reflexivity | discriminate].
    + rewrite Es. discriminate.
  - rewrite isTag_Element. intros Htag href. cbn [getAttribute].
    assert (Himg : imageAttrs tag attrs = attrs).
    { unfold imageAttrs. destruct (streq tag (lit "img")) eqn:Ei; [|reflexivity].
      apply streq_eq in Ei, Htag. rewrite Ei in Htag. discriminate. }
    rewrite Himg. unfold linkAttrs. rewrite Htag.
    destruct (lookupAttr (lit "href") attrs) as [href0|] eqn:Eh.
    + destruct (nonEmpty href0 && startsWith (lit "/") href0) eqn:Ec.
      * rewrite lookup_update_other, lookup_update_same by reflexivity.
        intros [= <-]. reflexivity.
      * rewrite Eh. intros [= <-]. unfold noLeadingSlash.
        destruct href0; [reflexivity|]. exact Ec.
    + rewrite Eh. discriminate.
Qed.

Lemma normNode_settled (n : node) :
  settled (normNode q n) /\ Forall settled (descendants (normNode q n)).
Proof.
  induction n as [d|d|tag attrs cs IH] using node_rect'.
  - split; [now apply text_settled | constructor].
  - split; [now apply text_settled | constructor].
  - cbn [normNode].
    destruct (latexReplacement q (Element tag attrs cs)) as [span|] eqn:E.
    + destruct (latexReplacement_span _ _ E) as [alt ->]. split; [apply span_settled|].
      cbn [descendants flat_map app].
      constructor; [now apply text_settled | constructor].
    + split; [now apply rewritten_settled|].
      cbn [descendants]. apply Forall_flat_map. rewrite Forall_map.
      eapply Forall_impl; [|exact IH]. intros c [Hc Hd]. now constructor.
Qed.

(** X3: once the three passes have run over a document, no element below
    the root is a LaTeX image that the first pass would still replace, no
    image has a source address that begins with a slash, and no link has
    a target address that begins with a slash. *)
Theorem normalized_tree_is_settled (docNode : node) :
  Forall (fun n =>
            latexReplacement q n = None
            /\ (matches q [SelTag (lit "img")] n = true ->
                forall src, getAttribute (lit "src") n = Some src ->
                  startsWith (lit "/") src = false)
            /\ (matches q [SelTag (lit "a")] n = true ->
                forall href, getAttribute (lit "href") n = Some href ->
                  startsWith (lit "/") href = false))
    (descendants (normalizeTree q docNode)).
Proof.
  change (Forall settled (descendants (normalizeTree q docNode))).
  destruct docNode as [d|d|tag attrs cs]; try constructor.
  rewrite normalizeTree_Element. cbn [descendants].
  apply Forall_flat_map. rewrite Forall_map. apply Forall_forall. intros c _.
  destruct (normNode_settled c). now constructor.
Qed.

End Tree.

End NormalizerOutcomes.

Module FallbackFacts.
Import Regex Json Dom Scraper AssemblerFacts ExtractorFacts.

(** An upper-case letter A to E. *)
Definition upperLetter (c : ascii) : Prop := inRange (ch "A") (ch "E") c = true.

Section Fallback.

Variable World : Type.
Variable apiKey : World -> option jsstring.
Variable generateContent : jsstring -> jsstring -> World -> completion AiResponse * World.

(** Without a key the client cannot be made: the call raises, and the
    model is not asked. *)
Lemma extract_without_key (solutionText : jsstring) (s : env World) :
  hasKey (apiKey (world s)) = false ->
  extractCorrectOptionWithAI apiKey generateContent solutionText s = (Throw keyMissing, s).
Proof.
  unfold extractCorrectOptionWithAI, bindM, getAiClient, hasKey.
  destruct (apiKey (world s)) as [key|]; [|reflexivity].
  destruct (nonEmpty key); [discriminate | reflexivity].
Qed.

(** X4: with an API key configured, asking the model for the answer never
    raises and logs nothing: the model is called once, with the Flash model
    and the extraction prompt, and the result is the empty string or one
    upper-case letter A to E; it is the empty string when the call fails or
    the response has no text.  Without a key it raises "API Key not found
    in environment" and the model is not called. *)
Theorem model_answer_is_a_letter_or_empty (solutionText : jsstring) (s : env World) :
  if hasKey (apiKey (world s)) then
    let called := generateContent MODEL_FLASH (extractionPrompt solutionText) (world s) in
    exists answer,
      extractCorrectOptionWithAI apiKey generateContent solutionText s
      = (Return answer, {| world := snd called; console := console s |})
      /\ emptyOrLetter upperLetter answer
      /\ match fst called with
         | Return response => aiText response = None -> answer = []
         | Throw _ => answer = []
         end
  else
    extractCorrectOptionWithAI apiKey generateContent solutionText s = (Throw keyMissing, s).
Proof.
  unfold extractCorrectOptionWithAI, bindM, getAiClient, hasKey.
  destruct (apiKey (world s)) as [key|]; [|reflexivity].
  destruct (nonEmpty key); [|reflexivity].
  unfold tryM, bindM, onWorld, ret.
  destruct (generateContent _ _ (world s)) as [[response|e] w]; cbn [fst snd].
  - exists (firstLetter (aiText response)). split; [reflexivity|]. split.
    + apply firstLetter_shape.
    + now intros ->.
  - exists []. split; [reflexivity|]. split; [now left | reflexivity].
Qed.

Variable fetch : jsstring -> World -> completion Response * World.
Variable parseFromString : jsstring -> document.
Variable outerHTML : node -> jsstring.
Variable innerHTML : node -> jsstring.
Variable ToString : value -> jsstring.

Let assemble :=
  fetchAoPSProblem fetch apiKey generateContent parseFromString outerHTML innerHTML ToString.
Let scrape :=
  scrapeProblem fetch apiKey generateContent parseFromString outerHTML innerHTML ToString.

Lemma assembled_is_scraped (url id : jsstring) (level : ExamLevel) (s s' : env World)
    (p : Problem.t) :
  assemble url id level s = (Return (Some p), s') -> scrape url id level s = (Return p, s').
Proof.
  unfold assemble, fetchAoPSProblem, tryM, bindM, ret, consoleWarn. fold scrape.
  destruct (scrape url id level s) as [[p0|e] s0]; [|discriminate].
  now intros [= <- <-].
Qed.

(** X5: the [correctOption] of every problem that the assembler returns is
    the empty string or one letter A to E, in upper or lower case. *)
Theorem assembled_answer_is_a_letter_or_empty (url id : jsstring) (level : ExamLevel)
    (s s' : env World) (p : Problem.t) :
  assemble url id level s = (Return (Some p), s') ->
  Problem.correctOption p = []
  \/ exists c, Problem.correctOption p = [c] /\ classMatches true letterAE c = true.
Proof.
  intros H. apply assembled_is_scraped in H.
  unfold scrape in H. eapply correctOption_shape. exact H.
Qed.

(** X6: when no API key is configured, every problem that the assembler
    returns has the answer that the two patterns find in its solution text,
    and that answer is not empty: a page whose answer the patterns do not
    find yields no problem. *)
Theorem without_key_only_pattern_answers (url id : jsstring) (level : ExamLevel)
    (s s' : env World) (p : Problem.t) :
  (forall w, hasKey (apiKey w) = false) ->
  assemble url id level s = (Return (Some p), s') ->
  Problem.correctOption p = regexCorrectOption (Problem.solutionHtml p)
  /\ nonEmpty (Problem.correctOption p) = true.
Proof.
  intros Hkey H. apply assembled_is_scraped in H.
  apply AssemblerFacts.scrape_returns_full in H.
  destruct H as (_ & _ & _ & _ & _ & _ & _ & qt & st & qd & sd & s1 & H).
  destruct H as (_ & _ & _ & _ & _ & _ & -> & Hanswer & _).
  unfold extractAnswer in Hanswer.
  destruct (nonEmpty (regexCorrectOption (html sd))) eqn:E.
  - injection Hanswer as <- _. now split.
  - rewrite (extract_without_key (html sd) s1 (Hkey (world s1))) in Hanswer.
    discriminate Hanswer.
Qed.

End Fallback.

Lemma assembled_answer_is_a_letter_or_empty_witness :
  match fst assembleFromArchive with
  | Return (Some p) =>
      Problem.correctOption p = lit "c"
      /\ (Problem.correctOption p = []
          \/ exists c, Problem.correctOption p = [c] /\ classMatches true letterAE c = true)
  | _ => False
  end.
Proof.
  destruct assembleFromArchive as [[[p|]|e] s'] eqn:E; cbn [fst].
  - split.
    + vm_compute in E. injection E as <- _. reflexivity.
    + exact (@assembled_answer_is_a_letter_or_empty unit (fun _ => None)
               (fun _ _ w => (Throw (Error (lit "no model")), w)) archive
               HtmlReference.parseFromString HtmlReference.outerHTML HtmlReference.innerHTML
               (fun _ => [])
               (lit "https://artofproblemsolving.com/wiki/index.php?title=2025_AMC_8_Problems/Problem_1")
               (lit "2025-amc8-1") AMC8 (mkEnv tt []) s' p E).
  - vm_compute in E. discriminate E.
  - vm_compute in E. discriminate E.
Defined.

Lemma without_key_only_pattern_answers_witness :
  match fst assembleFromArchive with
  | Return (Some p) =>
      Problem.correctOption p = regexCorrectOption (Problem.solutionHtml p)
      /\ nonEmpty (Problem.correctOption p) = true
  | _ => False
  end.
Proof.
  destruct assembleFromArchive as [[[p|]|e] s'] eqn:E; cbn [fst].
  - exact (@without_key_only_pattern_answers unit (fun _ => None)
             (fun _ _ w => (Throw (Error (lit "no model")), w)) archive
             HtmlReference.parseFromString HtmlReference.outerHTML HtmlReference.innerHTML
             (fun _ => [])
             (lit "https://artofproblemsolving.com/wiki/index.php?title=2025_AMC_8_Problems/Problem_1")
             (lit "2025-amc8-1") AMC8 (mkEnv tt []) s' p (fun _ => eq_refl) E).
  - vm_compute in E. discriminate E.
  - vm_compute in E. discriminate E.
Defined.

End FallbackFacts.

Module JsonArrayFacts.
Import Regex Json JsonRecovery StringFacts RegexFacts JsonRecoveryFacts.

(** The text of a JSON array: the brackets and whatever stands in between. *)
Definition arrayText (mid : jsstring) : jsstring := ch "[" :: mid ++ [ch "]"].

Definition noBracket (c : ascii) : Prop := c <> ch "]".

Lemma arrayText_no_match (re : regex) (r : list item) (mid b : jsstring) :
  items re = ticks ++ r ->
  includes (lit "```") (arrayText mid) = false ->
  forall x y, arrayText mid = x ++ y -> y <> [] ->
    matchHere (ignoreCase re) (items re) (y ++ b) = None.
Proof.
  intros Hre Hinc x y Hxy Hy. rewrite Hre. apply ticks_needed.
  assert (Hd : ch "]" <> ch "`") by discriminate.
  exact (@no_ticks_inside (arrayText mid) (ch "]") (ch "[" :: mid) b eq_refl Hd Hinc
           x y Hxy Hy).
Qed.

Lemma replace_keeps_array (re : regex) (r : list item) (mid post : jsstring) :
  items re = ticks ++ r ->
  accepts (ignoreCase re) (items re) (ch "[") = false ->
  includes (lit "```") (arrayText mid) = false ->
  forall pre skip, skip <= length pre ->
    exists pre',
      replaceFrom re [] skip (pre ++ arrayText mid ++ post)
      = pre' ++ arrayText mid ++ replaceFrom re [] 0 post
      /\ (forall P : ascii -> Prop, Forall P pre -> Forall P pre').
Proof.
  intros Hre Hbracket Hinc. induction pre as [|c pre IH]; intros skip Hskip.
  - assert (skip = 0) by (cbn in Hskip; lia). subst skip.
    exists []. split; [|auto]. cbn [app].
    apply replaceFrom_copy. now apply arrayText_no_match with (r := r).
  - destruct skip as [|n].
    + cbn [app replaceFrom].
      destruct (matchHere (ignoreCase re) (items re) (c :: pre ++ arrayText mid ++ post))
        as [[caps rest]|] eqn:E.
      * assert (Hstop : length (c :: pre ++ arrayText mid ++ post) - length rest
                        <= length (c :: pre))
          by exact (@match_stops_before (ignoreCase re) (items re) (c :: pre) (ch "[")
                      ((mid ++ [ch "]"]) ++ post) (caps, rest) Hbracket E).
        destruct (length (c :: pre ++ arrayText mid ++ post) - length rest) as [|k].
        -- destruct (IH 0 (Nat.le_0_l _)) as (pre' & Heq & HP).
           exists (c :: pre'). cbn [app]. rewrite Heq. split; [reflexivity|].
           intros P HPc. inversion HPc; subst. constructor; auto.
        -- destruct (IH k) as (pre' & Heq & HP); [cbn [length] in Hstop; lia|].
           exists pre'. cbn [app]. rewrite Heq. split; [reflexivity|].
           intros P HPc. inversion HPc; subst. auto.
      * destruct (IH 0 (Nat.le_0_l _)) as (pre' & Heq & HP).
        exists (c :: pre'). cbn [app]. rewrite Heq. split; [reflexivity|].
        intros P HPc. inversion HPc; subst. constructor; auto.
    + cbn [app replaceFrom].
      destruct (IH n) as (pre' & Heq & HP); [cbn [length] in Hskip; lia|].
      exists pre'. split; [exact Heq|].
      intros P HPc. inversion HPc; subst. auto.
Qed.

Lemma trim_around_array (pre mid post : jsstring) :
  trim (pre ++ arrayText mid ++ post) = trimStart pre ++ arrayText mid ++ trimEnd post.
Proof.
  unfold trim.
  rewrite (@trimStart_app pre (arrayText mid ++ post) (ch "[") ((mid ++ [ch "]"]) ++ post))
    by reflexivity.
  unfold trimEnd at 1.
  rewrite !rev_app_distr, <- app_assoc.
  assert (Hrev : rev (arrayText mid) ++ rev (trimStart pre)
                 = ch "]" :: rev (ch "[" :: mid) ++ rev (trimStart pre)).
  { unfold arrayText. change (ch "[" :: mid ++ [ch "]"]) with ((ch "[" :: mid) ++ [ch "]"]).
    now rewrite rev_app_distr. }
  rewrite (@trimStart_app (rev post) _ (ch "]") _ Hrev) by reflexivity.
  rewrite !rev_app_distr, !rev_involutive, <- app_assoc. reflexivity.
Qed.

Lemma stripFences_keeps_array (pre mid post : jsstring) :
  includes (lit "```") (arrayText mid) = false ->
  exists pre' post',
    stripFences (pre ++ arrayText mid ++ post) = pre' ++ arrayText mid ++ post'
    /\ (forall P : ascii -> Prop, Forall P pre -> Forall P pre')
    /\ (forall P : ascii -> Prop, Forall P post -> Forall P post').
Proof.
  intros Hinc. unfold stripFences, replaceAll.
  destruct (@replace_keeps_array fenceJsonRe (chars "json" ++ [ws]) mid post
              eq_refl eq_refl Hinc pre 0 (Nat.le_0_l _)) as (p1 & -> & HP1).
  destruct (@replace_keeps_array fenceAtEndRe [ws; EndOfInput] mid
              (replaceFrom fenceJsonRe [] 0 post)
              eq_refl eq_refl Hinc p1 0 (Nat.le_0_l _)) as (p2 & -> & HP2).
  destruct (@replace_keeps_array fenceRe [] mid
              (replaceFrom fenceAtEndRe [] 0 (replaceFrom fenceJsonRe [] 0 post))
              eq_refl eq_refl Hinc p2 0 (Nat.le_0_l _)) as (p3 & -> & HP3).
  rewrite trim_around_array.
  eexists _, _. split; [reflexivity|]. split.
  - intros P HP. apply trimStart_Forall. auto.
  - intros P HP. apply trimEnd_Forall. now repeat apply replaceFrom_Forall.
Qed.

Lemma cutToBoundaries_array (pre mid post : jsstring) :
  Forall noOpening pre -> Forall noBracket post ->
  cutToBoundaries (pre ++ arrayText mid ++ post) = arrayText mid.
Proof.
  intros Hpre Hpost. unfold cutToBoundaries.
  assert (HfirstArr : indexOf (ch "[") (pre ++ arrayText mid ++ post) = Some (length pre + 0)).
  { rewrite indexOf_after by (eapply Forall_impl; [|exact Hpre]; now intros c [_ H]).
    cbn [arrayText app]. now rewrite indexOf_head. }
  assert (Hfirst : forall f,
            indexOf (ch "{") (pre ++ arrayText mid ++ post) = Some f ->
            (length pre + 0 <? f) = true).
  { intros f. rewrite indexOf_after by (eapply Forall_impl; [|exact Hpre]; now intros c [H _]).
    cbn [arrayText app indexOf].
    replace (Ascii.eqb (ch "[") (ch "{")) with false by reflexivity.
    destruct (indexOf (ch "{") ((mid ++ [ch "]"]) ++ post)); [|discriminate].
    cbn [option_map]. intros [= <-]. apply Nat.ltb_lt. lia. }
  assert (HlastArr : lastIndexOf (ch "]") (pre ++ arrayText mid ++ post)
                     = Some (length pre + S (length mid))).
  { unfold arrayText.
    replace (pre ++ (ch "[" :: mid ++ [ch "]"]) ++ post)
      with ((pre ++ ch "[" :: mid) ++ ch "]" :: post)
      by (rewrite <- !app_assoc; cbn [app]; now rewrite <- app_assoc).
    rewrite lastIndexOf_last by exact Hpost.
    rewrite length_app. reflexivity. }
  assert (Hcut : substring (length pre + 0) (length pre + S (length mid) + 1)
                   (pre ++ arrayText mid ++ post) = arrayText mid).
  { unfold substring.
    rewrite Nat.min_l, Nat.max_r by lia.
    rewrite skipn_app, skipn_all2 by lia.
    replace (length pre + 0 - length pre) with 0 by lia. cbn [skipn app].
    replace (length pre + S (length mid) + 1 - (length pre + 0))
      with (length (arrayText mid) + 0)
      by (unfold arrayText; cbn [length]; rewrite length_app; cbn [length]; lia).
    rewrite firstn_app_2. cbn [firstn]. apply app_nil_r. }
  rewrite HfirstArr, HlastArr.
  destruct (indexOf (ch "{") (pre ++ arrayText mid ++ post)) as [f|] eqn:Ef.
  - rewrite (Hfirst f eq_refl). exact Hcut.
  - exact Hcut.
Qed.

(** When a bracket opens before any brace and no bracket closes, nothing is
    cut, whatever objects the text holds. *)
Lemma cutToBoundaries_unclosed (pre rest : jsstring) :
  Forall noOpening pre -> Forall noBracket (pre ++ rest) ->
  cutToBoundaries (pre ++ ch "[" :: rest) = pre ++ ch "[" :: rest.
Proof.
  intros Hpre Hnone. unfold cutToBoundaries.
  assert (HfirstArr : indexOf (ch "[") (pre ++ ch "[" :: rest) = Some (length pre + 0)).
  { rewrite indexOf_after by (eapply Forall_impl; [|exact Hpre]; now intros c [_ H]).
    now rewrite indexOf_head. }
  assert (Hfirst : forall f,
            indexOf (ch "{") (pre ++ ch "[" :: rest) = Some f ->
            (length pre + 0 <? f) = true).
  { intros f. rewrite indexOf_after by (eapply Forall_impl; [|exact Hpre]; now intros c [H _]).
    cbn [indexOf].
    replace (Ascii.eqb (ch "[") (ch "{")) with false by reflexivity.
    destruct (indexOf (ch "{") rest); [|discriminate].
    cbn [option_map]. intros [= <-]. apply Nat.ltb_lt. lia. }
  assert (HlastArr : lastIndexOf (ch "]") (pre ++ ch "[" :: rest) = None).
  { apply lastIndexOf_absent. apply Forall_app in Hnone as [H1 H2].
    apply Forall_app. split; [exact H1|]. constructor; [discriminate | exact H2]. }
  rewrite HfirstArr, HlastArr.
  destruct (indexOf (ch "{") (pre ++ ch "[" :: rest)) as [f|] eqn:Ef.
  - now rewrite (Hfirst f eq_refl).
  - reflexivity.
Qed.

Section Arrays.

Variable JSON_parse : jsstring -> completion value.

(** X7: when the text of a JSON array that has no three backticks in a row
    stands between an opening part without [{] and [[] and a closing part
    without []], the lenient parser returns what [JSON.parse] makes of the
    array text, braces inside the array notwithstanding.  The bracket has
    precedence: a text in which [[] comes before any [{] and that has no
    []] at all is not cut, whatever objects it holds. *)
Theorem outer_array_recovered :
  (forall (opening mid closing : jsstring) (v : value),
      Forall noOpening opening ->
      Forall noBracket closing ->
      includes (lit "```") (arrayText mid) = false ->
      JSON_parse (arrayText mid) = Return v ->
      parseJsonFromResponse JSON_parse (Some (opening ++ arrayText mid ++ closing))
      = Return v)
  /\ (forall pre rest : jsstring,
        Forall noOpening pre -> Forall noBracket (pre ++ rest) ->
        cutToBoundaries (pre ++ ch "[" :: rest) = pre ++ ch "[" :: rest).
Proof.
  split; [|exact cutToBoundaries_unclosed].
  intros opening mid closing v Hopen Hclose Hinc Hparse.
  destruct (@stripFences_keeps_array opening mid closing Hinc)
    as (pre' & post' & Hstrip & Hpre & Hpost).
  assert (Hcut : cutToBoundaries (stripFences (opening ++ arrayText mid ++ closing))
                 = arrayText mid).
  { rewrite Hstrip. apply cutToBoundaries_array; auto. }
  unfold parseJsonFromResponse.
  destruct (opening ++ arrayText mid ++ closing) as [|c text] eqn:Etext.
  - destruct opening; discriminate Etext.
  - now rewrite Hcut, Hparse.
Qed.

End Arrays.

(** A fenced list of grades, as the grading prompt asks for. *)
Definition gradeList : jsstring :=
  lit "{" ++ quoted "id" ++ lit ":" ++ quoted "real-0" ++ lit "," ++ quoted "difficulty"
    ++ lit ":7}".

Lemma outer_array_recovered_witness :
  parseJsonFromResponse JsonReader.parse
    (Some ((lit "```json" ++ [newline]) ++ arrayText gradeList ++ [newline] ++ lit "```"))
  = Return (JArray [JObject [(lit "id", JString (lit "real-0"));
                             (lit "difficulty", JNumber 7)]]).
Proof.
  apply (proj1 (outer_array_recovered JsonReader.parse)).
  - repeat constructor; discriminate.
  - repeat constructor; discriminate.
  - vm_compute; reflexivity.
  - vm_compute; reflexivity.
Defined.

End JsonArrayFacts.

Module BackslashFacts.
Import Regex Json JsonRecovery StringFacts RegexFacts.

(** The text with every backslash written twice. *)
Definition doubled (s : jsstring) : jsstring :=
  flat_map (fun c => if Ascii.eqb backslash c then [backslash; backslash] else [c]) s.

Definition pair : jsstring := [backslash; backslash].
Definition triple : jsstring := [backslash; backslash; backslash].

Lemma doubling (s : jsstring) : replaceAll backslashRe pair s = doubled s.
Proof.
  unfold replaceAll. induction s as [|c s IH]; [reflexivity|].
  cbn [replaceFrom backslashRe items ignoreCase matchHere classMatches doubled flat_map].
  destruct (Ascii.eqb backslash c).
  - replace (length (c :: s) - length s) with 1 by (cbn [length]; lia).
    cbn [app]. now rewrite IH.
  - cbn [app]. now rewrite IH.
Qed.

Lemma triple_needed (y : jsstring) :
  startsWith triple y = false ->
  matchHere (ignoreCase threeBackslashesRe) (items threeBackslashesRe) y = None.
Proof.
  cbn [threeBackslashesRe items ignoreCase matchHere classMatches triple startsWith].
  destruct y as [|c1 [|c2 [|c3 y]]]; try reflexivity;
    destruct (Ascii.eqb backslash c1); try reflexivity;
    destruct (Ascii.eqb backslash c2); try reflexivity;
    destruct (Ascii.eqb backslash c3); try reflexivity; discriminate.
Qed.

Lemma untouched (t : jsstring) :
  (forall x y, t = x ++ y -> startsWith triple y = false) ->
  replaceAll threeBackslashesRe pair t = t.
Proof.
  intros H. unfold replaceAll.
  rewrite <- (app_nil_r t) at 1. rewrite replaceFrom_copy.
  - cbn. apply app_nil_r.
  - intros x y Hxy _. rewrite app_nil_r. apply triple_needed. now apply (H x).
Qed.

Definition headIsBackslash (s : jsstring) : bool :=
  match s with
  | c :: _ => Ascii.eqb backslash c
  | [] => false
  end.

Lemma doubled_head (s : jsstring) : headIsBackslash (doubled s) = headIsBackslash s.
Proof.
  destruct s as [|c s]; [reflexivity|]. cbn [doubled flat_map headIsBackslash].
  destruct (Ascii.eqb backslash c) eqn:E; cbn [app headIsBackslash]; [reflexivity | exact E].
Qed.

Lemma triple_after_one (t : jsstring) :
  headIsBackslash t = false -> startsWith triple (backslash :: t) = false.
Proof.
  destruct t as [|c t]; [reflexivity|]. cbn [headIsBackslash triple startsWith].
  intros ->. now rewrite andb_false_r.
Qed.

Lemma triple_after_two (t : jsstring) :
  headIsBackslash t = false -> startsWith triple (backslash :: backslash :: t) = false.
Proof.
  destruct t as [|c t]; [reflexivity|]. cbn [headIsBackslash triple startsWith].
  intros ->. now rewrite !andb_false_r.
Qed.

Lemma pair_at_head (c : ascii) (s : jsstring) :
  includes pair (c :: s) = false ->
  (Ascii.eqb backslash c = true -> headIsBackslash s = false)
  /\ includes pair s = false.
Proof.
  cbn [includes]. intros H. apply orb_false_iff in H as [Hs Hi]. split; [|exact Hi].
  intros Hc. cbn [pair startsWith] in Hs. rewrite Hc in Hs.
  destruct s as [|d s]; [reflexivity|]. cbn [headIsBackslash].
  now rewrite andb_true_r in Hs.
Qed.

(** Doubling isolated backslashes never puts three in a row. *)
Lemma doubled_has_no_triple (s : jsstring) :
  includes pair s = false ->
  forall x y, doubled s = x ++ y -> startsWith triple y = false.
Proof.
  induction s as [|c s IH]; intros Hinc x y Hxy.
  - destruct x; [|discriminate]. cbn in Hxy. now subst y.
  - apply pair_at_head in Hinc as [Hhead Hinc].
    cbn [doubled flat_map] in Hxy. fold (doubled s) in Hxy.
    destruct (Ascii.eqb backslash c) eqn:Ec.
    + specialize (Hhead eq_refl). rewrite <- doubled_head in Hhead.
      cbn [app] in Hxy.
      destruct x as [|x0 [|x1 x]]; cbn [app] in Hxy.
      * subst y. now apply triple_after_two.
      * injection Hxy as _ <-. now apply triple_after_one.
      * injection Hxy as _ _ Hxy. now apply (IH Hinc x).
    + cbn [app] in Hxy. destruct x as [|x0 x]; cbn [app] in Hxy.
      * subst y. cbn [triple startsWith]. now rewrite Ec.
      * injection Hxy as _ Hxy. now apply (IH Hinc x).
Qed.

(** The repair on a text whose backslashes stand alone: each one is
    doubled. *)
Lemma repair_doubles (s : jsstring) :
  includes pair s = false -> repairBackslashes s = doubled s.
Proof.
  intros H. unfold repairBackslashes. fold pair. rewrite doubling.
  apply untouched. now apply doubled_has_no_triple.
Qed.

(** The repair on a text with one pair of backslashes: the pair comes out
    as three. *)
Lemma repair_triples_a_pair (a b : jsstring) :
  Forall (fun c => c <> backslash) a -> Forall (fun c => c <> backslash) b ->
  repairBackslashes (a ++ pair ++ b) = a ++ triple ++ b.
Proof.
  intros Ha Hb.
  assert (Hplain : forall t, Forall (fun c => c <> backslash) t -> doubled t = t).
  { induction 1 as [|c t Hc _ IH]; [reflexivity|]. cbn [doubled flat_map].
    fold (doubled t). rewrite IH.
    apply not_eq_sym, Ascii.eqb_neq in Hc. now rewrite Hc. }
  assert (Hcopy : forall t u, Forall (fun c => c <> backslash) t ->
            replaceFrom threeBackslashesRe pair 0 (t ++ u)
            = t ++ replaceFrom threeBackslashesRe pair 0 u).
  { intros t u Ht. apply replaceFrom_copy. intros x y -> Hy.
    apply triple_needed. apply Forall_app in Ht as [_ Ht].
    destruct y as [|c y]; [congruence|]. inversion Ht; subst.
    cbn [app triple startsWith].
    replace (Ascii.eqb backslash c) with false; [reflexivity|].
    symmetry. apply Ascii.eqb_neq. auto. }
  unfold repairBackslashes. fold pair. rewrite doubling.
  unfold doubled. rewrite !flat_map_app. fold (doubled a) (doubled b).
  rewrite (Hplain a Ha), (Hplain b Hb).
  change (flat_map _ pair) with (triple ++ [backslash]).
  unfold replaceAll. rewrite Hcopy by exact Ha. f_equal.
  assert (Htail : replaceFrom threeBackslashesRe pair 0 (backslash :: b) = backslash :: b).
  { apply (untouched (t := backslash :: b)). intros x y Hxy.
    destruct x as [|x0 x]; cbn [app] in Hxy.
    - subst y. apply triple_after_one. destruct b as [|c b]; [reflexivity|].
      inversion Hb; subst. cbn [headIsBackslash]. apply Ascii.eqb_neq. auto.
    - injection Hxy as _ Hxy. destruct y as [|c y]; [reflexivity|].
      assert (Hc : In c b) by (rewrite Hxy; apply in_or_app; right; now left).
      rewrite Forall_forall in Hb. specialize (Hb c Hc).
      cbn [triple startsWith].
      replace (Ascii.eqb backslash c) with false; [reflexivity|].
      symmetry. apply Ascii.eqb_neq. auto. }
  assert (Hmatch : forall u,
            replaceFrom threeBackslashesRe pair 0 (triple ++ u)
            = pair ++ replaceFrom threeBackslashesRe pair 0 u).
  { intros u.
    cbn [triple app replaceFrom threeBackslashesRe items ignoreCase matchHere classMatches].
    rewrite Ascii.eqb_refl.
    replace (length (backslash :: backslash :: backslash :: u) - length u) with 3
      by (cbn [length]; lia).
    reflexivity. }
  rewrite <- app_assoc, Hmatch. cbn [app]. rewrite Htail. reflexivity.
Qed.

Section Repair.

Variable JSON_parse : jsstring -> completion value.

(** X8: when the text recovered from a response does not parse and its
    backslashes stand alone, the second attempt parses the text with each
    backslash doubled, and its value is the result, [null] when it fails
    too.  An already doubled backslash is not preserved: a pair comes out
    as three. *)
Theorem lone_backslashes_are_doubled :
  (forall clean, includes pair clean = false -> repairBackslashes clean = doubled clean)
  /\ (forall text e,
        text <> [] ->
        let clean := cutToBoundaries (stripFences text) in
        includes pair clean = false ->
        JSON_parse clean = Throw e ->
        parseJsonFromResponse JSON_parse (Some text)
        = match JSON_parse (doubled clean) with
          | Return v => Return v
          | Throw _ => Return JNull
          end)
  /\ (forall a b,
        Forall (fun c => c <> backslash) a -> Forall (fun c => c <> backslash) b ->
        repairBackslashes (a ++ pair ++ b) = a ++ triple ++ b).
Proof.
  split; [exact repair_doubles | split; [|exact repair_triples_a_pair]].
  intros [|c text] e Hne clean Hinc Hfail; [congruence|].
  cbn [parseJsonFromResponse]. fold clean. rewrite Hfail. cbn [tryCatch].
  rewrite (repair_doubles _ Hinc).
  destruct (JSON_parse (doubled clean)); reflexivity.
Qed.

End Repair.

(** A response with a LaTeX command in a string: the first attempt fails on
    the escape, the repaired text parses. *)
Definition latexAnswer : jsstring :=
  lit "{" ++ quoted "hint" ++ lit ":" ++ [dquote] ++ lit "Use \sqrt{2}." ++ [dquote] ++ lit "}".

Lemma lone_backslashes_are_doubled_witness :
  parseJsonFromResponse JsonReader.parse (Some latexAnswer)
  = Return (JObject [(lit "hint", JString (lit "Use \sqrt{2}."))]).
Proof.
  refine (eq_trans
            (proj1 (proj2 (lone_backslashes_are_doubled JsonReader.parse)) latexAnswer
               JsonReader.syntaxError _ _ _) _);
    try (vm_compute; reflexivity).
  discriminate.
Defined.

End BackslashFacts.

Module ProgressFacts.
Import Catalog Harvester HarvesterFacts.

(** The statistics passed to [onProgress], in order, and the pauses made. *)
Definition statsOf (call : report) : PrefetchStats := fst (fst call).

Definition reports (tr : list event) : list PrefetchStats :=
  flat_map (fun e => match e with EvProgress stats _ _ => [stats] | _ => [] end) tr.

Definition pauses (tr : list event) : list nat :=
  flat_map (fun e => match e with EvWait ms => [ms] | _ => [] end) tr.

(** The number of finished tasks that a report shows. *)
Definition finished (stats : PrefetchStats) : nat := success stats + failed stats.

Definition subject (stats : PrefetchStats) : N * jsstring :=
  (currentYear stats, currentExam stats).

Lemma reports_app (a b : list event) : reports (a ++ b) = reports a ++ reports b.
Proof. apply flat_map_app. Qed.

Lemma pauses_app (a b : list event) : pauses (a ++ b) = pauses a ++ pauses b.
Proof. apply flat_map_app. Qed.

Lemma reports_calls (tr : list event) : map statsOf (progressCalls tr) = reports tr.
Proof.
  induction tr as [|e tr IH]; [reflexivity|].
  destruct e; cbn [progressCalls reports flat_map app map statsOf fst];
    fold (progressCalls tr); fold (reports tr); rewrite IH; reflexivity.
Qed.

Section Reports.

Variable World : Type.
Variable stop : World -> bool.
Variable onProgress :
  PrefetchStats -> jsstring -> option Problem.t -> World -> completion unit * World.
Variable fetchAoPSProblem :
  jsstring -> jsstring -> ExamLevel -> World -> completion (option Problem.t) * World.
Variable wait : nat -> World -> World.
Variable calls : World -> list report.

Let run := processPrefetchQueue stop onProgress fetchAoPSProblem wait.

Section ReturningCallback.

Hypothesis onProgress_returns : forall s l r w, fst (onProgress s l r w) = Return tt.

Ltac returned :=
  repeat match goal with
         | |- context [onProgress ?s ?l ?r ?w] =>
             let E := fresh "Ecall" in
             let H := fresh "Hcall" in
             pose proof (onProgress_returns s l r w) as H;
             destruct (onProgress s l r w) as [? ?] eqn:E;
             cbn [fst] in H; subst;
             cbn -[lit numToString lastSegment reports pauses]
         end.

(** The two reports of one turn of the loop, and its pause. *)
Lemma iteration_reports (n : nat) (task : PrefetchTask) (st : state World) :
  let st' := snd (iteration onProgress fetchAoPSProblem wait n task st) in
  exists first second : PrefetchStats,
    reports (st_trace st') = reports (st_trace st) ++ [first; second]
    /\ pauses (st_trace st') = pauses (st_trace st) ++ [800]
    /\ finished first = st_success st + st_failed st
    /\ finished second = S (st_success st + st_failed st)
    /\ st_success st' + st_failed st' = S (st_success st + st_failed st)
    /\ total first = n /\ total second = n
    /\ subject first = (year task, examType task)
    /\ subject second = (year task, examType task).
Proof.
  unfold iteration, callProgress.
  returned.
  destruct (fetchAoPSProblem _ _ _ _) as [o w2].
  destruct o as [[p|]|e]; cbn -[lit numToString lastSegment reports pauses]; returned;
    rewrite !reports_app, !pauses_app; cbn [reports pauses flat_map app];
    rewrite ?app_nil_r, <- ?app_assoc; cbn [app];
    eexists; eexists; (split; [reflexivity|]); (split; [reflexivity|]);
    unfold finished, subject; cbn; repeat split; lia.
Qed.

Lemma turns_reports (n : nat) (tasks : list PrefetchTask) (st : state World) :
  let st' := snd (turns onProgress fetchAoPSProblem wait n tasks st) in
  exists rs : list PrefetchStats,
    reports (st_trace st') = reports (st_trace st) ++ rs
    /\ pauses (st_trace st') = pauses (st_trace st) ++ repeat 800 (length tasks)
    /\ map finished rs
       = flat_map (fun k => [k; S k]) (seq (st_success st + st_failed st) (length tasks))
    /\ Forall (fun stats => total stats = n) rs
    /\ map subject rs
       = flat_map (fun t => [(year t, examType t); (year t, examType t)]) tasks.
Proof.
  revert st; induction tasks as [|t tasks IH]; intros st; cbn zeta.
  - exists []. cbn. rewrite !app_nil_r. repeat split; auto.
  - cbn [turns].
    destruct (iteration_reports n t st)
      as (r1 & r2 & Hr & Hp & H1 & H2 & Hsum & Ht1 & Ht2 & Hs1 & Hs2).
    destruct (iteration_spec onProgress fetchAoPSProblem wait onProgress_returns n t st)
      as (_ & _ & Hok & _).
    destruct (iteration onProgress fetchAoPSProblem wait n t st) as [r st'] eqn:Eit.
    cbn [fst snd] in *. subst r.
    destruct (IH st') as (rs & Hrs & Hps & Hfin & Htot & Hsub).
    exists (r1 :: r2 :: rs).
    rewrite Hrs, Hr, Hps, Hp, <- !app_assoc. cbn [app length repeat seq flat_map map].
    rewrite Hfin, Hsum, H1, H2, Hs1, Hs2, Hsub.
    repeat split; auto.
Qed.

End ReturningCallback.


End Reports.


End ProgressFacts.

Module CatalogOrder.
Import Catalog CatalogFacts.

(** The place of a family in the queue. *)
Definition rank (lvl : ExamLevel) : N :=
  match lvl with
  | AMC8 => 0
  | AMC10 => 1
  | AMC12 => 2
  end.

(** [a] may stand before [b]: an earlier family, or the same family and a
    year that is not older. *)
Definition mayPrecede (a b : PrefetchTask) : Prop :=
  (rank (level a) < rank (level b))%N
  \/ (level a = level b /\ (year b <= year a)%N).

Definition mayPrecedeb (a b : PrefetchTask) : bool :=
  (rank (level a) <? rank (level b))%N
  || (ExamLevel_eqb (level a) (level b) && (year b <=? year a)%N).

Lemma mayPrecedeb_sound (a b : PrefetchTask) : mayPrecedeb a b = true -> mayPrecede a b.
Proof.
  unfold mayPrecedeb, mayPrecede. intros H. apply orb_true_iff in H as [H | H].
  - left. now apply N.ltb_lt.
  - right. apply andb_true_iff in H as [Hl Hy]. split; [|now apply N.leb_le].
    destruct (level a), (level b); try discriminate; reflexivity.
Qed.

Lemma mayPrecede_trans (a b c : PrefetchTask) :
  mayPrecede a b -> mayPrecede b c -> mayPrecede a c.
Proof.
  unfold mayPrecede. intros [H1 | [H1 H1']] [H2 | [H2 H2']].
  - left. lia.
  - left. rewrite <- H2. exact H1.
  - left. rewrite H1. exact H2.
  - right. split; [congruence | lia].
Qed.

Fixpoint adjacentOk (q : list PrefetchTask) : bool :=
  match q with
  | a :: (b :: _) as rest => mayPrecedeb a b && adjacentOk rest
  | _ => true
  end.

Lemma adjacentOk_sound (q : list PrefetchTask) :
  adjacentOk q = true -> StronglySorted mayPrecede q.
Proof.
  intros H. apply Sorted_StronglySorted.
  - intros a b c. apply mayPrecede_trans.
  - induction q as [|a q IH]; [constructor|].
    destruct q as [|b q]; [repeat constructor|].
    cbn [adjacentOk] in H. apply andb_true_iff in H as [Hab H].
    constructor; [now apply IH | constructor; now apply mayPrecedeb_sound].
Qed.

Lemma catalog_adjacentOk : adjacentOk generateFullCatalogQueue = true.
Proof. vm_compute. reflexivity. Qed.

Definition isWikiAddress (t : PrefetchTask) : bool :=
  startsWith (lit "https://artofproblemsolving.com/wiki/index.php?title=" ++ numToString (year t)
                ++ lit "_") (url t)
  && streq (lastSegment (ch "_") (url t)) (problemNumber t).

Lemma catalog_addresses_ok : forallb isWikiAddress generateFullCatalogQueue = true.
Proof. vm_compute. reflexivity. Qed.

(** The part of an address after the common beginning of 53 characters. *)
Definition pageTitle (t : PrefetchTask) : jsstring := skipn 53 (url t).

Lemma titles_distinct_codes :
  strictlyIncreasing (NSort.sort (map strCode (map pageTitle generateFullCatalogQueue)))
  = true.
Proof. vm_compute. reflexivity. Qed.

Lemma catalog_length : length generateFullCatalogQueue = 3525.
Proof. vm_compute. reflexivity. Qed.

(** X10: the catalog lists the AMC 8 family first, then AMC 10, then
    AMC 12, and within a family the years from the newest to the oldest:
    of two tasks, the earlier one is of an earlier family, or of the same
    family and of a year that is not older.  It starts with the current
    year's AMC 8 and has 3525 tasks. *)
Theorem catalog_is_ordered :
  (forall i j a b, i < j ->
      nth_error generateFullCatalogQueue i = Some a ->
      nth_error generateFullCatalogQueue j = Some b ->
      mayPrecede a b)
  /\ option_map (fun t => (level t, year t)) (head generateFullCatalogQueue)
     = Some (AMC8, CURRENT_YEAR)
  /\ length generateFullCatalogQueue = 3525.
Proof.
  split; [|split; [vm_compute; reflexivity | exact catalog_length]].
  pose proof (adjacentOk_sound _ catalog_adjacentOk) as Hs.
  induction Hs as [|x q Hs IH Hx]; intros i j a b Hij Hi Hj.
  - destruct i; discriminate.
  - destruct j as [|j]; [lia|]. cbn [nth_error] in Hj. destruct i as [|i].
    + injection Hi as <-. rewrite Forall_forall in Hx. apply Hx.
      eapply nth_error_In; eauto.
    + cbn [nth_error] in Hi. apply (IH i j); auto. lia.
Qed.

(** X11: the addresses of the catalog are pairwise distinct; each is the
    wiki address of its task's year and ends, after the last underscore,
    with the problem number that the task's id ends with. *)
Theorem catalog_addresses :
  NoDup (map url generateFullCatalogQueue)
  /\ (forall t, In t generateFullCatalogQueue ->
        startsWith (lit "https://artofproblemsolving.com/wiki/index.php?title="
                      ++ numToString (year t) ++ lit "_") (url t) = true
        /\ lastSegment (ch "_") (url t) = problemNumber t).
Proof.
  split.
  { apply (NoDup_map_inv (skipn 53)). rewrite map_map.
    exact (NoDup_by_codes _ titles_distinct_codes). }
  intros t Ht. pose proof catalog_addresses_ok as H.
  rewrite forallb_forall in H. specialize (H t Ht).
  apply andb_true_iff in H as [H1 H2]. split; [exact H1 | now apply streq_eq].
Qed.

End CatalogOrder.

(* ------------------------------------------------------------------ *)
(** ** Retry with backoff *)

Module RetryFacts.
Import Retry.

(** The pauses before the first [k] retries: [delay], [2 delay],
    [4 delay], ... *)
Fixpoint schedule (k : nat) (delay : N) : list N :=
  match k with
  | 0 => []
  | S k' => delay :: schedule k' (delay * 2)%N
  end.

Definition sum (l : list N) : N := fold_right N.add 0%N l.

Lemma schedule_total (k : nat) (delay : N) :
  sum (schedule k delay) = (delay * (2 ^ N.of_nat k - 1))%N.
Proof.
  revert delay; induction k as [|k IH]; intros delay.
  - cbn. lia.
  - cbn [schedule sum fold_right]. fold (sum (schedule k (delay * 2))). rewrite IH.
    rewrite Nat2N.inj_succ, N.pow_succ_r'.
    assert (2 ^ N.of_nat k <> 0)%N by (apply N.pow_nonzero; lia).
    nia.
Qed.

(** A call that was rejected with an error that is retried. *)
Definition isRejectedRetryable {T} (o : outcome T) : Prop :=
  match o with
  | Rejected e => retryable e = true
  | Resolved _ => False
  end.

Lemma attempts_app {T} (a b : list (event T)) : attempts (a ++ b) = attempts a ++ attempts b.
Proof. apply flat_map_app. Qed.

Lemma waits_app {T} (a b : list (event T)) : waits (a ++ b) = waits a ++ waits b.
Proof. apply flat_map_app. Qed.

Lemma warnings_app {T} (a b : list (event T)) :
  warnings (a ++ b) = warnings a ++ warnings b.
Proof. apply flat_map_app. Qed.

Section Facts.

Variable World : Type.
Variable T : Type.
Variable fn : World -> outcome T * World.
Variable consoleWarn : jsstring -> World -> World.
Variable wait : N -> World -> World.

Let retry := retryWithBackoff fn consoleWarn wait.

(** What one call of the wrapper adds to the trace. *)
Lemma retry_trace (retries : nat) (delay : N) (w : World) (tr : list (event T)) :
  exists (failed : list (outcome T)) (k : nat),
    let '(o, _, tr') := retry retries delay w tr in
    attempts tr' = attempts tr ++ failed ++ [o]
    /\ length failed = k
    /\ k <= retries
    /\ Forall isRejectedRetryable failed
    /\ waits tr' = waits tr ++ schedule k delay
    /\ length (warnings tr') = length (warnings tr) + k
    /\ (k < retries -> isRejectedRetryable o -> False).
Proof.
  revert delay w tr; induction retries as [|retries IH]; intros delay w tr;
    unfold retry in *; cbn [retryWithBackoff].
  - destruct (fn w) as [[v|e] w1]; exists [], 0;
      rewrite !attempts_app, !waits_app, !warnings_app; cbn;
      rewrite ?app_nil_r;
      repeat match goal with |- _ /\ _ => split end; auto; lia.
  - destruct (fn w) as [[v|e] w1].
    + exists [], 0. rewrite !attempts_app, !waits_app, !warnings_app; cbn.
      rewrite ?app_nil_r.
      repeat match goal with |- _ /\ _ => split end; auto; lia.
    + destruct (retryable e) eqn:Er.
      * cbv zeta.
        specialize (IH (delay * 2)%N
                      (wait delay (consoleWarn (retryWarning e delay (S retries)) w1))
                      ((tr ++ [EvAttempt (Rejected e)])
                         ++ [EvWarn (retryWarning e delay (S retries)); EvWait delay])).
        destruct IH as (failed & k & IH). exists (Rejected e :: failed), (S k).
        destruct (retryWithBackoff fn consoleWarn wait retries _ _ _) as [[o w'] tr'].
        destruct IH as (Ha & Hl & Hk & Hf & Hw & Hn & Hlast).
        rewrite Ha, Hw, Hn, !attempts_app, !waits_app, !warnings_app.
        cbn -[retryWarning].
        rewrite ?app_nil_r, <- ?app_assoc, ?length_app. cbn -[retryWarning].
        repeat match goal with |- _ /\ _ => split end; auto; try lia.
        intros Hlt. apply Hlast. lia.
      * exists [], 0. rewrite !attempts_app, !waits_app, !warnings_app; cbn.
        rewrite ?app_nil_r.
        repeat match goal with |- _ /\ _ => split end; auto; try lia.
        intros _ H. congruence.
Qed.

(** The result is the outcome of a call of the function. *)
Lemma retry_result_is_an_attempt (retries : nat) (delay : N) (w : World)
    (tr : list (event T)) :
  exists w0, fn w0 = fst (retry retries delay w tr).
Proof.
  revert delay w tr; induction retries as [|retries IH]; intros delay w tr;
    unfold retry in *; cbn [retryWithBackoff].
  - exists w. destruct (fn w) as [[v|e] w1]; reflexivity.
  - destruct (fn w) as [[v|e] w1] eqn:E; try (exists w; now rewrite E).
    destruct (retryable e); [apply IH | exists w; now rewrite E].
Qed.

(** A call that is not rejected with a retried error is the only one. *)
Lemma retry_single_call (retries : nat) (delay : N) (w : World) :
  (forall e, fst (fn w) = Rejected e -> retryable e = false) ->
  retry retries delay w [] = (fn w, [EvAttempt (fst (fn w))]).
Proof.
  intros H. unfold retry. destruct retries as [|retries]; cbn [retryWithBackoff];
    destruct (fn w) as [[v|e] w1]; cbn [fst] in *; try reflexivity.
  now rewrite (H e eq_refl).
Qed.



End Facts.

(** A service whose quota is used up; the world counts the calls and the
    milliseconds waited. *)
Definition alwaysLimited (w : nat * N) : outcome jsstring * (nat * N) :=
  (Rejected (mkFailure None (Some (lit "You exceeded your current quota"))),
   (S (fst w), snd w)).

Definition timer (ms : N) (w : nat * N) : nat * N := (fst w, (snd w + ms)%N).

Definition silent (msg : jsstring) (w : nat * N) : nat * N := w.


End RetryFacts.

(* ------------------------------------------------------------------ *)
(** ** The model-backed services *)

Module AiFacts.
Import Regex Json JsonRecovery Retry Exam Ai RetryFacts.

(** The 1-10 scale of [difficulty]. *)
Definition onScale (d : Q) : Prop := (1 <= d)%Q /\ (d <= 10)%Q.

Lemma Qle_bool_false (a b : Q) : Qle_bool a b = false -> (b < a)%Q.
Proof.
  intros H. apply Qnot_le_lt. intros Hle. apply Qle_bool_iff in Hle. congruence.
Qed.

Lemma clamp_onScale (x : Q) : onScale (clamp x).
Proof.
  unfold onScale, clamp, Math_max, Math_min.
  destruct (Qle_bool 10 x) eqn:E10.
  - replace (Qle_bool 1 10) with true by reflexivity. split; [discriminate | apply Qle_refl].
  - apply Qle_bool_false in E10. destruct (Qle_bool 1 x) eqn:E1.
    + apply Qle_bool_iff in E1. split; [exact E1 | now apply Qlt_le_weak].
    + split; [apply Qle_refl | discriminate].
Qed.

Lemma clamp_inside (x : Q) : onScale x -> (clamp x == x)%Q.
Proof.
  intros [H1 H10]. unfold clamp, Math_max, Math_min.
  destruct (Qle_bool 10 x) eqn:E10.
  - apply Qle_bool_iff in E10. replace (Qle_bool 1 10) with true by reflexivity.
    now apply Qle_antisym.
  - apply Qle_bool_iff in H1. rewrite H1. reflexivity.
Qed.

Lemma clamp_below (x : Q) : (x <= 1)%Q -> (clamp x == 1)%Q.
Proof.
  intros H. unfold clamp, Math_max, Math_min.
  destruct (Qle_bool 10 x) eqn:E10.
  - apply Qle_bool_iff in E10. exfalso.
    apply (Qle_not_lt _ _ (Qle_trans _ _ _ E10 H)). reflexivity.
  - destruct (Qle_bool 1 x) eqn:E1; [|reflexivity].
    apply Qle_bool_iff in E1. now apply Qle_antisym.
Qed.

Lemma clamp_above (x : Q) : (10 <= x)%Q -> (clamp x == 10)%Q.
Proof.
  intros H. unfold clamp, Math_max, Math_min.
  apply Qle_bool_iff in H. rewrite H. reflexivity.
Qed.

Section Estimate.

Variable ToString : value -> jsstring.

(** X14: the difficulty that the generator gives a problem always lies on
    the 1-10 scale.  A numeric estimate is taken as it is when it lies on
    the scale, and is moved to the nearer end otherwise; without an
    estimate the requested level decides: 3 for Easy, 5 for Medium, 8 for
    Hard and 10 for Extreme; an estimate in words is read the same way, the
    first of the four words that it contains counting, and gives 5 when it
    contains none. *)
Theorem estimated_difficulty_on_scale :
  (forall estimate difficulty, onScale (estimatedDifficulty ToString estimate difficulty))
  /\ (forall n difficulty,
        (onScale n -> estimatedDifficulty ToString (Some (JNumber n)) difficulty == n)%Q
        /\ ((n <= 1)%Q -> estimatedDifficulty ToString (Some (JNumber n)) difficulty == 1)%Q
        /\ ((10 <= n)%Q -> estimatedDifficulty ToString (Some (JNumber n)) difficulty == 10)%Q)
  /\ (forall difficulty,
        estimatedDifficulty ToString None difficulty
        = match difficulty with
          | Easy => 3
          | Medium => 5
          | Hard => 8
          | Extreme => 10
          end%Q)
  /\ (forall (words : jsstring) difficulty,
        words <> [] ->
        estimatedDifficulty ToString (Some (JString words)) difficulty
        = (if includes (lit "Easy") words then 3
           else if includes (lit "Medium") words then 5
           else if includes (lit "Hard") words then 8
           else if includes (lit "Extreme") words then 10
           else 5)%Q).
Proof.
  split; [|split; [|split]].
  - intros estimate difficulty. apply clamp_onScale.
  - intros n difficulty. unfold estimatedDifficulty.
    split; [apply clamp_inside | split; [apply clamp_below | apply clamp_above]].
  - intros []; reflexivity.
  - intros words difficulty Hne. destruct words as [|c words]; [congruence|].
    unfold estimatedDifficulty. cbn [truthy stringOf].
    destruct (includes (lit "Easy") (c :: words)); [reflexivity|].
    destruct (includes (lit "Medium") (c :: words)); [reflexivity|].
    destruct (includes (lit "Hard") (c :: words)); [reflexivity|].
    destruct (includes (lit "Extreme") (c :: words)); reflexivity.
Qed.

End Estimate.

(** *** Sorting by difficulty *)

Definition notHarder (a b : problem) : Prop := (difficulty a <= difficulty b)%Q.

Lemma insert_permutation (p : problem) (l : list problem) :
  Permutation (p :: l) (insertByDifficulty p l).
Proof.
  induction l as [|q l IH]; cbn [insertByDifficulty]; [reflexivity|].
  destruct (Qle_bool (difficulty p) (difficulty q)); [reflexivity|].
  rewrite perm_swap. now apply perm_skip.
Qed.

Lemma sort_permutation (l : list problem) : Permutation l (sortByDifficulty l).
Proof.
  induction l as [|p l IH]; cbn [sortByDifficulty fold_right]; [reflexivity|].
  fold (sortByDifficulty l). rewrite <- insert_permutation. now apply perm_skip.
Qed.

Lemma insert_sorted (p : problem) (l : list problem) :
  StronglySorted notHarder l -> StronglySorted notHarder (insertByDifficulty p l).
Proof.
  induction 1 as [|q l Hl IH Hq]; cbn [insertByDifficulty].
  - repeat constructor.
  - destruct (Qle_bool (difficulty p) (difficulty q)) eqn:E.
    + apply Qle_bool_iff in E. constructor; [now constructor|].
      constructor; [exact E|]. eapply Forall_impl; [|exact Hq].
      intros r Hr. unfold notHarder in *. eapply Qle_trans; eauto.
    + apply Qle_bool_false in E. constructor; [exact IH|].
      rewrite <- insert_permutation. constructor; [|exact Hq].
      now apply Qlt_le_weak.
Qed.

Lemma sort_sorted (l : list problem) : StronglySorted notHarder (sortByDifficulty l).
Proof.
  induction l as [|p l IH]; cbn [sortByDifficulty fold_right]; [constructor|].
  now apply insert_sorted.
Qed.

(** The problems of one difficulty, in the order in which they stand. *)
Definition ofDifficulty (d : Q) (l : list problem) : list problem :=
  filter (fun p => Qeq_bool (difficulty p) d) l.

Lemma insert_stable (d : Q) (p : problem) (l : list problem) :
  ofDifficulty d (insertByDifficulty p l) = ofDifficulty d (p :: l).
Proof.
  induction l as [|q l IH]; cbn [insertByDifficulty]; [reflexivity|].
  destruct (Qle_bool (difficulty p) (difficulty q)) eqn:E; [reflexivity|].
  apply Qle_bool_false in E.
  unfold ofDifficulty in *. cbn [filter] in *. rewrite IH.
  destruct (Qeq_bool (difficulty p) d) eqn:Ep; [|reflexivity].
  destruct (Qeq_bool (difficulty q) d) eqn:Eq; [|reflexivity].
  apply Qeq_bool_iff in Ep, Eq. exfalso. rewrite Ep, Eq in E.
  exact (Qlt_irrefl _ E).
Qed.

Lemma sort_stable (d : Q) (l : list problem) :
  ofDifficulty d (sortByDifficulty l) = ofDifficulty d l.
Proof.
  induction l as [|p l IH]; cbn [sortByDifficulty fold_right]; [reflexivity|].
  fold (sortByDifficulty l). rewrite insert_stable.
  unfold ofDifficulty in *. cbn [filter]. now rewrite IH.
Qed.

(** *** Grading *)

(** A problem after grading: itself, or itself with a grade on the scale
    for difficulty. *)
Definition regraded (p p' : problem) : Prop :=
  p' = p \/ exists d, p' = setDifficulty (clamp d) p.

Lemma regraded_refl (l : list problem) : Forall2 regraded l l.
Proof. induction l; constructor; auto. now left. Qed.

Lemma setDifficulty_twice (d d' : Q) (p : problem) :
  setDifficulty d' (setDifficulty d p) = setDifficulty d' p.
Proof. reflexivity. Qed.

Lemma gradeFirst_regraded (gid : jsstring) (d : Q) (original l : list problem) :
  Forall2 regraded original l -> Forall2 regraded original (gradeFirst gid d l).
Proof.
  induction 1 as [|p p' original l Hp Hl IH]; cbn [gradeFirst]; [constructor|].
  destruct (streq (id p') gid).
  - constructor; [|exact Hl]. right. exists d.
    destruct Hp as [-> | [d0 ->]]; [reflexivity | apply setDifficulty_twice].
  - now constructor.
Qed.

Lemma applyGrade_regraded (g : value) (original l graded : list problem) :
  Forall2 regraded original l -> applyGrade g l = Resolved graded ->
  Forall2 regraded original graded.
Proof.
  intros H. unfold applyGrade.
  destruct (getProperty g (lit "id")) as [[[| | |gid| |]|]|e]; try (now intros [= <-]);
    try discriminate.
  destruct (getProperty g (lit "difficulty")) as [[[| |d| | |]|]|e];
    intros [= <-]; auto using gradeFirst_regraded.
Qed.

Lemma applyGrades_regraded (grades : list value) (original l : list problem) :
  Forall2 regraded original l ->
  Forall2 regraded original (fst (applyGrades grades l)).
Proof.
  revert l; induction grades as [|g grades IH]; intros l H; cbn [applyGrades]; [exact H|].
  destruct (applyGrade g l) as [graded|e] eqn:E; [|exact H].
  apply IH. eapply applyGrade_regraded; eauto.
Qed.

Lemma regraded_ids (original graded : list problem) :
  Forall2 regraded original graded -> map id graded = map id original.
Proof.
  induction 1 as [|p p' original graded Hp _ IH]; [reflexivity|].
  cbn [map]. rewrite IH. f_equal. destruct Hp as [-> | [d ->]]; reflexivity.
Qed.

Lemma regraded_onScale (original graded : list problem) :
  Forall2 regraded original graded ->
  Forall (fun p => onScale (difficulty p)) original ->
  Forall (fun p => onScale (difficulty p)) graded.
Proof.
  induction 1 as [|p p' original graded Hp _ IH]; intros Ho; [constructor|].
  inversion Ho; subst. constructor; [|auto].
  destruct Hp as [-> | [d ->]]; [assumption | apply clamp_onScale].
Qed.

Section Services.

Variable World : Type.
Variable apiKey : World -> option jsstring.
Variable generateContent :
  jsstring -> jsstring -> option value -> World -> outcome Scraper.AiResponse * World.
Variable consoleWarn : jsstring -> option failure -> World -> World.
Variable wait : N -> World -> World.
Variable JSON_parse : jsstring -> completion value.
Variable JSON_stringify : value -> jsstring.
Variable ToString : value -> jsstring.

Let grade := gradeProblemsByDifficulty apiKey generateContent consoleWarn JSON_parse
               JSON_stringify.

(** What grading returns is the sorted list of the regraded problems. *)
Lemma grading_resolved (problems : list problem) (w w' : World) (result : list problem) :
  grade problems w = (Resolved result, w') ->
  exists graded, Forall2 regraded problems graded /\ result = sortByDifficulty graded.
Proof.
  unfold grade, gradeProblemsByDifficulty.
  destruct (getAiClient apiKey w); [|discriminate].
  destruct (summarize problems) as [summaries|e]; [|discriminate].
  destruct (generateContent _ _ _ w) as [r w1].
  assert (H : exists graded w2,
            Forall2 regraded problems graded
            /\ match r with
               | Rejected e => (problems, consoleWarn gradingFailed (Some e) w1)
               | Resolved response =>
                   match parse JSON_parse response with
                   | Rejected e => (problems, consoleWarn gradingFailed (Some e) w1)
                   | Resolved (JArray grades) =>
                       match applyGrades grades problems with
                       | (graded, None) => (graded, w1)
                       | (graded, Some e) => (graded, consoleWarn gradingFailed (Some e) w1)
                       end
                   | Resolved _ => (problems, w1)
                   end
               end = (graded, w2)).
  { destruct r as [response|e]; [|eauto using regraded_refl].
    destruct (parse JSON_parse response) as [[| | | |grades|]|e];
      eauto using regraded_refl.
    pose proof (applyGrades_regraded grades (regraded_refl problems)) as Hg.
    destruct (applyGrades grades problems) as [graded [e|]]; eauto. }
  destruct H as (graded & w2 & Hg & ->). intros [= <- <-].
  exists graded. now split.
Qed.

(** Grading raises before it calls the model, for a missing key or a
    question that is not a string. *)
Lemma grading_rejected (problems : list problem) (w w' : World) (e : failure) :
  grade problems w = (Rejected e, w') ->
  w' = w
  /\ (getAiClient apiKey w = Rejected e
      \/ exists p, In p problems /\ summaryText p = Rejected e).
Proof.
  unfold grade, gradeProblemsByDifficulty.
  destruct (getAiClient apiKey w) as [[]|e0]; [|intros [= <- <-]; auto].
  destruct (summarize problems) as [summaries|e0] eqn:Es.
  - destruct (generateContent _ _ _ w) as [r w1].
    destruct (match r with Resolved _ => _ | Rejected _ => _ end) as [graded w2].
    discriminate.
  - intros [= <- <-]. split; [reflexivity|]. right.
    induction problems as [|p rest IH]; [discriminate|]. cbn [summarize] in Es.
    destruct (summaryText p) as [text|e1] eqn:Et.
    + destruct (summarize rest) as [ss|e2]; [discriminate|].
      injection Es as ->. destruct (IH eq_refl) as (q & Hq & Hs).
      exists q. split; [now right | exact Hs].
    + injection Es as ->. exists p. split; [now left | exact Et].
Qed.

(** X15: when grading returns, its result is a rearrangement of the given
    problems in which a problem either is as it was or has a grade on the
    1-10 scale for difficulty and is otherwise as it was.  The result is in
    ascending order of difficulty, and problems of equal difficulty keep
    their order.  So the ids are the given ones, and difficulties that were
    on the scale are on the scale afterwards. *)
Theorem grading_sorts_the_regraded (problems : list problem) (w : World) :
  forall result w',
    grade problems w = (Resolved result, w') ->
    exists graded,
      Forall2 regraded problems graded
      /\ result = sortByDifficulty graded
      /\ Permutation graded result
      /\ StronglySorted notHarder result
      /\ (forall d, ofDifficulty d result = ofDifficulty d graded)
      /\ Permutation (map id problems) (map id result)
      /\ (Forall (fun p => onScale (difficulty p)) problems ->
          Forall (fun p => onScale (difficulty p)) result).
Proof.
  intros result w' H. apply grading_resolved in H. destruct H as (graded & Hg & ->).
  exists graded.
  repeat match goal with |- _ /\ _ => split end; auto.
  - apply sort_permutation.
  - apply sort_sorted.
  - intros d. apply sort_stable.
  - rewrite <- (regraded_ids Hg). apply Permutation_map, sort_permutation.
  - intros Ho. eapply Permutation_Forall; [apply sort_permutation|].
    eapply regraded_onScale; eauto.
Qed.

Let mock := fetchMockProblem apiKey generateContent consoleWarn wait JSON_parse ToString.
Let generate := generateAIProblem apiKey generateContent consoleWarn wait JSON_parse ToString.
Let hint := getProblemHint apiKey generateContent consoleWarn wait JSON_stringify ToString.
Let explain :=
  getSolutionExplanation apiKey generateContent consoleWarn wait ToString.
Let analyze := analyzePerformance apiKey generateContent JSON_parse JSON_stringify.

(** What a generator call that was rejected without an answer of the model
    having been unusable can only be: the missing key, or the error of a
    rejected request. *)
Definition noKey : failure := newError "API Key not found in environment".

Lemma client_cases (w : World) :
  getAiClient apiKey w = Resolved tt \/ getAiClient apiKey w = Rejected noKey.
Proof.
  unfold getAiClient. destruct (apiKey w) as [key|]; [|now right].
  destruct (nonEmpty key); [now left | now right].
Qed.

(** X16: grading raises only for a missing API key and for a problem whose
    question is not a string, and then without having called the model;
    otherwise it returns, after one call.  When that call is rejected, or
    its answer is not an array, the result is the given problems in
    ascending order of difficulty, no difficulty changed. *)
Theorem grading_failure_modes (problems : list problem) (w : World) :
  match getAiClient apiKey w, summarize problems with
  | Rejected e, _ => grade problems w = (Rejected e, w)
  | Resolved _, Rejected e =>
      grade problems w = (Rejected e, w)
      /\ exists p, In p problems /\ summaryText p = Rejected e
  | Resolved _, Resolved summaries =>
      let called :=
        generateContent MODEL_FLASH (gradingPrompt JSON_stringify (JArray summaries))
          (Some jsonConfig) w in
      exists result w',
        grade problems w = (Resolved result, w')
        /\ match fst called with
           | Rejected e =>
               result = sortByDifficulty problems
               /\ w' = consoleWarn gradingFailed (Some e) (snd called)
           | Resolved response =>
               forall answer,
                 parse JSON_parse response = Resolved answer ->
                 (forall grades, answer <> JArray grades) ->
                 result = sortByDifficulty problems /\ w' = snd called
           end
  end.
Proof.
  unfold grade, gradeProblemsByDifficulty.
  destruct (getAiClient apiKey w) as [[]|e]; [|reflexivity].
  destruct (summarize problems) as [summaries|e] eqn:Es.
  - cbv zeta. destruct (generateContent _ _ _ w) as [[response|e] w1]; cbn [fst snd].
    + destruct (parse JSON_parse response) as [answer|e] eqn:Ep.
      * destruct answer as [| | | |grades|];
          try (eexists; eexists; split; [reflexivity|];
               intros answer [= <-] Hna; split; reflexivity).
        destruct (applyGrades grades problems) as [graded [e|]];
          eexists; eexists; (split; [reflexivity|]);
          intros answer [= <-] Hna; exfalso; now apply (Hna grades).
      * eexists; eexists. split; [reflexivity|]. intros answer [=].
    + eexists; eexists. split; [reflexivity|]. split; reflexivity.
  - split; [reflexivity|].
    induction problems as [|p rest IH]; [discriminate|]. cbn [summarize] in Es.
    destruct (summaryText p) as [text|e0] eqn:Et.
    + destruct (summarize rest) as [ss|e1]; [discriminate|].
      injection Es as ->. destruct (IH eq_refl) as (q & Hq & Hs).
      exists q. split; [now right | exact Hs].
    + injection Es as ->. exists p. split; [now left | exact Et].
Qed.

(** The recovery of JSON from an answer never raises. *)
Lemma parse_resolves (response : Scraper.AiResponse) :
  exists data, parse JSON_parse response = Resolved data.
Proof.
  unfold parse, parseJsonFromResponse.
  destruct (Scraper.aiText response) as [[|c t]|]; try (now exists JNull).
  destruct (JSON_parse (cutToBoundaries _)) as [v|e]; cbn; [now exists v|].
  destruct (JSON_parse (repairBackslashes _)) as [v|e2]; cbn; [now exists v | now exists JNull].
Qed.

(** The problem that a generator returns was built by one of its
    attempts. *)
Lemma retried_resolved (T : Type) (fn : World -> outcome T * World) (w w' : World) (v : T) :
  retried fn (warn consoleWarn) wait w = (Resolved v, w') ->
  exists w0, fn w0 = (Resolved v, w').
Proof.
  unfold retried. intros H.
  destruct (retry_result_is_an_attempt fn (warn consoleWarn) wait 3 3000 w []) as [w0 H0].
  exists w0. now rewrite H0.
Qed.

(** What a generated problem carries. *)
Lemma generation_resolved (level : ExamLevel) (difficulty : Difficulty) (id : jsstring)
    (topic : option jsstring) (model : jsstring) (w w' : World) (p : problem) :
  generate level difficulty id topic model w = (Resolved p, w') ->
  onScale (Exam.difficulty p)
  /\ Exam.id p = id /\ source p = AI_GENERATED /\ Exam.topic p = topic
  /\ images p = [] /\ hints p = [] /\ solutionChat p = []
  /\ userAnswer p = None /\ isCorrect p = None.
Proof.
  unfold generate, generateAIProblem.
  destruct (getAiClient apiKey w); [|discriminate].
  intros H. apply retried_resolved in H as [w0 H]. revert H.
  unfold generationAttempt. destruct (generateContent _ _ _ w0) as [[response|e] w1];
    [|discriminate].
  destruct (parse JSON_parse response) as [data|e]; [|discriminate].
  destruct (negb (truthy (Some data))); [discriminate|].
  destruct (getProperty data (lit "estimatedDifficulty")) as [estimate|e]; [|discriminate].
  destruct (getProperty data (lit "questionHtml")) as [question|e]; [|discriminate].
  destruct (getProperty data (lit "options")) as [choices|e]; [|discriminate].
  destruct (getProperty data (lit "correctOption")) as [answer|e]; [|discriminate].
  destruct (getProperty data (lit "solutionHtml")) as [solution|e]; [|discriminate].
  intros [= <- _]. split; [apply clamp_onScale|]. cbn.
  repeat match goal with |- _ /\ _ => split end; reflexivity.
Qed.

(** What a mock problem carries. *)
Lemma mock_resolved (level : ExamLevel) (id : jsstring) (w w' : World) (p : problem) :
  mock level id w = (Resolved p, w') ->
  Exam.difficulty p = 5%Q
  /\ Exam.id p = id /\ source p = MOCK /\ Exam.topic p = None
  /\ truthy (questionHtml p) = true
  /\ (exists answer, correctOption p = Some answer)
  /\ (exists solution, solutionHtml p = Some solution /\ (solution = JString []
                                                          \/ truthy (Some solution) = true))
  /\ options p = JArray (map JString letters)
  /\ images p = [] /\ hints p = [] /\ solutionChat p = []
  /\ userAnswer p = None /\ isCorrect p = None.
Proof.
  unfold mock, fetchMockProblem.
  destruct (getAiClient apiKey w); [|discriminate].
  intros H. apply retried_resolved in H as [w0 H]. revert H.
  unfold mockAttempt. destruct (generateContent _ _ _ w0) as [[response|e] w1];
    [|discriminate].
  destruct (parse JSON_parse response) as [data|e]; [|discriminate].
  destruct (negb (truthy (Some data))); [discriminate|].
  destruct (getProperty data (lit "questionHtml")) as [question|e]; [|discriminate].
  destruct (getProperty data (lit "correctOption")) as [answer|e]; [|discriminate].
  destruct (getProperty data (lit "solutionHtml")) as [solution|e]; [|discriminate].
  destruct (truthy question) eqn:Eq; [|discriminate].
  intros [= <- _]. cbn [Exam.difficulty Exam.id source Exam.topic questionHtml
                        correctOption solutionHtml options images hints solutionChat
                        userAnswer isCorrect].
  repeat match goal with |- _ /\ _ => split end; try reflexivity; eauto.
  eexists. split; [reflexivity|]. unfold orElse.
  destruct solution as [sol|]; [|now left].
  destruct (truthy (Some sol)) eqn:Ev; [now right | now left].
Qed.

(** Where the texts of a mock problem come from: they are the members of
    the data recovered from an answer of the model, kept as values of
    whatever type the model sent. *)
Definition asSent (level : ExamLevel) (p : problem) : Prop :=
  exists (response : Scraper.AiResponse) (w0 w1 : World) (data : value)
         (question answer solution : option value),
    generateContent MODEL_FLASH (mockPrompt level) (Some searchConfig) w0
    = (Resolved response, w1)
    /\ parse JSON_parse response = Resolved data
    /\ getProperty data (lit "questionHtml") = Return question
    /\ getProperty data (lit "correctOption") = Return answer
    /\ getProperty data (lit "solutionHtml") = Return solution
    /\ questionHtml p = question
    /\ correctOption p = Some (match optionalToString ToString answer with
                               | Some s => s
                               | None => []
                               end)
    /\ solutionHtml p = Some (orElse solution (JString [])).

Lemma mock_asSent (level : ExamLevel) (id : jsstring) (w w' : World) (p : problem) :
  mock level id w = (Resolved p, w') -> asSent level p.
Proof.
  unfold mock, fetchMockProblem.
  destruct (getAiClient apiKey w); [|discriminate].
  intros H. apply retried_resolved in H as [w0 H]. revert H.
  unfold mockAttempt.
  destruct (generateContent _ _ _ w0) as [[response|e] w1] eqn:Ecall; [|discriminate].
  destruct (parse JSON_parse response) as [data|e] eqn:Eparse; [|discriminate].
  destruct (negb (truthy (Some data))); [discriminate|].
  destruct (getProperty data (lit "questionHtml")) as [question|e] eqn:E1; [|discriminate].
  destruct (getProperty data (lit "correctOption")) as [answer|e] eqn:E2; [|discriminate].
  destruct (getProperty data (lit "solutionHtml")) as [solution|e] eqn:E3; [|discriminate].
  destruct (truthy question); [|discriminate].
  intros [= <- _]. exists response, w0, w1, data, question, answer, solution.
  repeat match goal with |- _ /\ _ => split end; auto.
Qed.

(** X17: every problem that the two generators return lies on the 1-10
    scale of difficulty and carries the id it was asked for: a generated
    problem has the source "Gemini Generated", the requested topic and a
    difficulty between 1 and 10; a mock problem has the source "Online
    Mock", the difficulty 5 and the options A to E.  The texts of a mock
    problem are the members of the data recovered from an answer of the
    model: its question is the member [questionHtml] as it was sent, a
    truthy value of any type; its answer is a string, the member
    [correctOption] converted, or the empty string when the member is
    missing or null; its solution is the member [solutionHtml] as it was
    sent when that is truthy, a value of any type, and the empty string
    otherwise.  Neither kind has images, hints, messages or a recorded
    answer. *)
Theorem generated_problems_are_tagged (level : ExamLevel) (id : jsstring) (w : World) :
  (forall difficulty topic model p w',
      generate level difficulty id topic model w = (Resolved p, w') ->
      onScale (Exam.difficulty p)
      /\ Exam.id p = id /\ source p = AI_GENERATED /\ Exam.topic p = topic
      /\ images p = [] /\ hints p = [] /\ solutionChat p = []
      /\ userAnswer p = None /\ isCorrect p = None)
  /\ (forall p w',
        mock level id w = (Resolved p, w') ->
        (Exam.difficulty p = 5%Q
         /\ Exam.id p = id /\ source p = MOCK /\ Exam.topic p = None
         /\ truthy (questionHtml p) = true
         /\ (exists answer, correctOption p = Some answer)
         /\ (exists solution, solutionHtml p = Some solution /\ (solution = JString []
                                                                 \/ truthy (Some solution) = true))
         /\ options p = JArray (map JString letters)
         /\ images p = [] /\ hints p = [] /\ solutionChat p = []
         /\ userAnswer p = None /\ isCorrect p = None)
        /\ asSent level p).
Proof.
  split.
  - intros difficulty topic model p w'. apply generation_resolved.
  - intros p w' H. split; [now apply mock_resolved in H | now apply mock_asSent in H].
Qed.

(** X18: the retry wrapper repeats a generator's request only when the
    request itself is rejected.  When the model answers, one request is
    made, whatever the answer: an answer from which no data is recovered
    makes the mock fetcher raise "Failed to parse JSON content." and the
    generator raise "Invalid JSON from AI Generation", at once. *)
Theorem answered_requests_are_not_repeated (level : ExamLevel) (id : jsstring) (w : World) :
  getAiClient apiKey w = Resolved tt ->
  (forall response w1,
      generateContent MODEL_FLASH (mockPrompt level) (Some searchConfig) w
      = (Resolved response, w1) ->
      mock level id w = mockAttempt generateContent JSON_parse ToString level id w
      /\ snd (mock level id w) = w1
      /\ (parse JSON_parse response = Resolved JNull ->
          mock level id w = (Rejected (newError "Failed to parse JSON content."), w1)))
  /\ (forall difficulty topic model response w1,
        generateContent model (generationPrompt level difficulty topic)
          (Some (generationConfig model)) w
        = (Resolved response, w1) ->
        generate level difficulty id topic model w
        = generationAttempt generateContent JSON_parse ToString level difficulty id topic
            model w
        /\ snd (generate level difficulty id topic model w) = w1
        /\ (parse JSON_parse response = Resolved JNull ->
            generate level difficulty id topic model w
            = (Rejected (newError "Invalid JSON from AI Generation"), w1))).
Proof.
  intros Hkey.
  assert (Hsingle : forall T (fn : World -> outcome T * World),
            (forall e, fst (fn w) = Rejected e -> retryable e = false) ->
            retried fn (warn consoleWarn) wait w = fn w).
  { intros T fn H. unfold retried. now rewrite retry_single_call. }
  split.
  - intros response w1 Hcall.
    assert (Hone : mock level id w
                   = mockAttempt generateContent JSON_parse ToString level id w).
    { unfold mock, fetchMockProblem. rewrite Hkey. apply Hsingle.
      unfold mockAttempt. rewrite Hcall. cbn [fst].
      destruct (parse_resolves response) as [data ->].
      destruct (negb (truthy (Some data))); [now intros e [= <-]|].
      destruct (getProperty data (lit "questionHtml")) as [question|e0];
        [|now intros e [= <-]].
      destruct (getProperty data (lit "correctOption")) as [answer|e0];
        [|now intros e [= <-]].
      destruct (getProperty data (lit "solutionHtml")) as [solution|e0];
        [|now intros e [= <-]].
      destruct (negb (truthy question)); [now intros e [= <-] | discriminate]. }
    rewrite Hone. unfold mockAttempt. rewrite Hcall. cbn [snd].
    split; [reflexivity | split; [reflexivity|]]. now intros ->.
  - intros difficulty topic model response w1 Hcall.
    assert (Hone : generate level difficulty id topic model w
                   = generationAttempt generateContent JSON_parse ToString level difficulty
                       id topic model w).
    { unfold generate, generateAIProblem. rewrite Hkey. apply Hsingle.
      unfold generationAttempt. rewrite Hcall. cbn [fst].
      destruct (parse_resolves response) as [data ->].
      destruct (negb (truthy (Some data))); [now intros e [= <-]|].
      destruct (getProperty data (lit "estimatedDifficulty")) as [estimate|e0];
        [|now intros e [= <-]].
      destruct (getProperty data (lit "questionHtml")) as [question|e0];
        [|now intros e [= <-]].
      destruct (getProperty data (lit "options")) as [choices|e0]; [|now intros e [= <-]].
      destruct (getProperty data (lit "correctOption")) as [answer|e0];
        [|now intros e [= <-]].
      destruct (getProperty data (lit "solutionHtml")) as [solution|e0];
        [|now intros e [= <-]].
      discriminate. }
    rewrite Hone. unfold generationAttempt. rewrite Hcall. cbn [snd].
    split; [reflexivity | split; [reflexivity|]]. now intros ->.
Qed.

(** X19: the two tutoring services never return an empty text: when the
    model's answer has no text, the hint is the stock hint and the
    explanation the stock apology.  Both raise without calling the model
    when the API key is missing, and the hint service also when the
    problem's solution is not a string; the calls they make are those of
    the retry wrapper, four at most. *)
Theorem tutoring_texts_are_not_empty (problem : problem) (w : World) :
  (forall text w', hint problem w = (Resolved text, w') -> text <> [])
  /\ (forall userQuery history text w',
        explain problem userQuery history w = (Resolved text, w') -> text <> [])
  /\ (getAiClient apiKey w = Rejected noKey ->
      hint problem w = (Rejected noKey, w)
      /\ forall userQuery history,
           explain problem userQuery history w = (Rejected noKey, w))
  /\ (getAiClient apiKey w = Resolved tt ->
      (forall solutionText, solutionHtml problem <> Some (JString solutionText)) ->
      hint problem w = (Rejected typeError, w))
  /\ (getAiClient apiKey w = Resolved tt ->
      forall solutionText, solutionHtml problem = Some (JString solutionText) ->
      exists tr,
        retryWithBackoff
          (hintAttempt generateContent
             (hintPrompt JSON_stringify ToString problem solutionText))
          (warn consoleWarn) wait 3 3000 w []
        = (hint problem w, tr)
        /\ length (attempts tr) <= 4).
Proof.
  assert (Hattempt : forall stock model config prompt w0 text w',
            stock <> [] ->
            (let '(r, w1) := generateContent model prompt config w0 in
             (match r with
              | Rejected e => Rejected e
              | Resolved response =>
                  match Scraper.aiText response with
                  | Some (c :: t) => Resolved (c :: t)
                  | _ => Resolved stock
                  end
              end, w1)) = (Resolved text, w') -> text <> []).
  { intros stock model config prompt w0 text w' Hstock.
    destruct (generateContent model prompt config w0) as [[response|e] w1]; [|discriminate].
    destruct (Scraper.aiText response) as [[|c t]|]; intros [= <- _];
      try exact Hstock; discriminate. }
  repeat match goal with |- _ /\ _ => split end.
  - intros text w'. unfold hint, getProblemHint.
    destruct (getAiClient apiKey w); [|discriminate].
    destruct (solutionHtml problem) as [[| | |solutionText| |]|]; try discriminate.
    intros H. apply retried_resolved in H as [w0 H]. revert H.
    apply Hattempt. discriminate.
  - intros userQuery history text w'. unfold explain, getSolutionExplanation.
    destruct (getAiClient apiKey w); [|discriminate].
    intros H. apply retried_resolved in H as [w0 H]. revert H.
    apply Hattempt. discriminate.
  - intros Hkey. split.
    + unfold hint, getProblemHint. now rewrite Hkey.
    + intros userQuery history. unfold explain, getSolutionExplanation. now rewrite Hkey.
  - intros Hkey Hnot. unfold hint, getProblemHint. rewrite Hkey.
    destruct (solutionHtml problem) as [[| | |solutionText| |]|]; try reflexivity.
    exfalso. now apply (Hnot solutionText).
  - intros Hkey solutionText Hs. unfold hint, getProblemHint, retried. rewrite Hkey, Hs.
    destruct (retry_trace
                (hintAttempt generateContent
                   (hintPrompt JSON_stringify ToString problem solutionText))
                (warn consoleWarn) wait 3 3000 w []) as (failed & k & H).
    destruct (retryWithBackoff _ _ _ 3 3000 w []) as [[o w'] tr].
    destruct H as (Ha & Hl & Hk & _). exists tr. split; [reflexivity|].
    rewrite Ha. cbn [attempts flat_map app]. rewrite length_app. cbn [length]. lia.
Qed.

(** X20: with an API key, the performance analysis never raises and makes
    one request: whatever the model does, the result has an analysis and a
    list of topics that are not empty values.  When the request is rejected
    or the answer yields [null], the result is "Analysis unavailable." with
    the topic "General Math"; when the answer is an object without
    [analysis] and [topics], it is "Great job completing the exam!" with
    Algebra, Geometry and Counting.  Without a key it raises. *)
Theorem analysis_always_has_content (problems : list problem) (w : World) :
  let called :=
    generateContent MODEL_PRO
      (analysisPrompt JSON_stringify (JArray (map performanceEntry problems)))
      (Some jsonConfig) w in
  match getAiClient apiKey w with
  | Rejected e => analyze problems w = (Rejected e, w)
  | Resolved _ =>
      exists result,
        analyze problems w = (Resolved result, snd called)
        /\ truthy (Some (analysis result)) = true
        /\ truthy (Some (topics result)) = true
        /\ match fst called with
           | Rejected _ => result = analysisUnavailable
           | Resolved response =>
               (parse JSON_parse response = Resolved JNull -> result = analysisUnavailable)
               /\ (parse JSON_parse response = Resolved (JObject []) ->
                   result
                   = {| analysis := JString (lit "Great job completing the exam!");
                        topics := JArray (map JString
                                    (map lit ["Algebra"; "Geometry"; "Counting"]%string)) |})
           end
  end.
Proof.
  cbv zeta. unfold analyze, analyzePerformance.
  destruct (getAiClient apiKey w); [|reflexivity].
  destruct (generateContent _ _ _ w) as [[response|e] w1]; cbn [fst snd].
  - assert (Hor : forall v fallback, truthy (Some fallback) = true ->
              truthy (Some (orElse v fallback)) = true).
    { intros [x|] fallback Hf; unfold orElse; [|exact Hf].
      destruct (truthy (Some x)) eqn:Ex; [exact Ex | exact Hf]. }
    destruct (parse JSON_parse response) as [res|e].
    + destruct (getProperty res (lit "analysis")) as [a|e] eqn:Ea.
      * destruct (getProperty res (lit "topics")) as [t|e] eqn:Et.
        -- eexists. split; [reflexivity|]. cbn [analysis topics].
           split; [now apply Hor | split; [now apply Hor|]].
           split; intros [= ->]; [discriminate Ea|].
           cbn in Ea, Et. injection Ea as <-. injection Et as <-. reflexivity.
        -- eexists. split; [reflexivity|]. do 2 (split; [reflexivity|]).
           split; [reflexivity|]. intros [= ->]. discriminate Et.
      * eexists. split; [reflexivity|]. do 2 (split; [reflexivity|]).
        split; [reflexivity|]. intros [= ->]. discriminate Ea.
    + eexists. split; [reflexivity|]. do 2 (split; [reflexivity|]).
      split; discriminate.
  - eexists. repeat split; reflexivity.
Qed.

End Services.

(** ** A model service that answers every request with the same text *)

(** The world counts the requests made. *)
Definition answering (text : jsstring) (model prompt : jsstring) (config : option value)
    (requests : nat) : outcome Scraper.AiResponse * nat :=
  (Resolved (Scraper.mkAiResponse (Some text)), S requests).

Definition configured (requests : nat) : option jsstring := Some (lit "key").
Definition unheard (msg : jsstring) (e : option failure) (requests : nat) : nat := requests.
Definition unwaited (ms : N) (requests : nat) : nat := requests.
Definition unwritten (v : value) : jsstring := [].

Definition candidate (name : string) (d : Q) : problem :=
  {| id := lit name; source := AOPS; originalUrl := None;
     questionHtml := Some (JString (lit "<p>What is 1+1?</p>"));
     images := []; options := JArray (map JString letters);
     correctOption := Some (lit "B"); solutionHtml := Some (JString (lit "<p>2</p>"));
     difficulty := d; userAnswer := None; isCorrect := None; hints := [];
     solutionChat := []; topic := None |}.

Definition grades : jsstring :=
  lit "[{" ++ quoted "id" ++ lit ":" ++ quoted "real-0" ++ lit "," ++ quoted "difficulty"
    ++ lit ":9},{" ++ quoted "id" ++ lit ":" ++ quoted "real-1" ++ lit ","
    ++ quoted "difficulty" ++ lit ":0}]".

Lemma grading_sorts_the_regraded_witness :
  let problems := [candidate "real-0" 5; candidate "real-1" 5; candidate "ai-0" 3] in
  let result := [candidate "real-1" 1; candidate "ai-0" 3; candidate "real-0" 9] in
  gradeProblemsByDifficulty configured (answering grades) unheard JsonReader.parse unwritten
    problems 0
  = (Resolved result, 1)
  /\ exists graded,
       Forall2 regraded problems graded
       /\ result = sortByDifficulty graded
       /\ Permutation graded result
       /\ StronglySorted notHarder result
       /\ (forall d, ofDifficulty d result = ofDifficulty d graded)
       /\ Permutation (map id problems) (map id result)
       /\ (Forall (fun p => onScale (difficulty p)) problems ->
           Forall (fun p => onScale (difficulty p)) result).
Proof.
  cbv zeta. split; [vm_compute; reflexivity|].
  apply (@grading_sorts_the_regraded nat configured (answering grades) unheard
           JsonReader.parse unwritten
           [candidate "real-0" 5; candidate "real-1" 5; candidate "ai-0" 3] 0
           [candidate "real-1" 1; candidate "ai-0" 3; candidate "real-0" 9] 1).
  vm_compute. reflexivity.
Defined.

(** An answer of the model whose solution is a number: the mock problem
    keeps the number. *)
Definition numericSolution : jsstring :=
  lit "{" ++ quoted "questionHtml" ++ lit ":" ++ quoted "<p>What is 3+4?</p>" ++ lit ","
    ++ quoted "correctOption" ++ lit ":" ++ quoted "B" ++ lit "," ++ quoted "solutionHtml"
    ++ lit ":7}".

Lemma mock_solution_need_not_be_text :
  exists p,
    fetchMockProblem configured (answering numericSolution) unheard unwaited
      JsonReader.parse unwritten AMC8 (lit "mock-0") 0
    = (Resolved p, 1)
    /\ questionHtml p = Some (JString (lit "<p>What is 3+4?</p>"))
    /\ correctOption p = Some (lit "B")
    /\ solutionHtml p = Some (JNumber 7).
Proof.
  eexists. split; [vm_compute; reflexivity|].
  repeat split.
Qed.

Lemma answered_requests_are_not_repeated_witness :
  fetchMockProblem configured (answering (lit "I found no problem.")) unheard unwaited
    JsonReader.parse unwritten AMC8 (lit "mock-0") 0
  = (Rejected (newError "Failed to parse JSON content."), 1).
Proof.
  refine (proj2 (proj2 (proj1 (@answered_requests_are_not_repeated nat configured
            (answering (lit "I found no problem.")) unheard unwaited JsonReader.parse
            unwritten AMC8 (lit "mock-0") 0 eq_refl)
            (Scraper.mkAiResponse (Some (lit "I found no problem."))) 1 eq_refl)) _).
  vm_compute. reflexivity.
Defined.

End AiFacts.

(* ------------------------------------------------------------------ *)
(** ** The exam generator *)

Module ExamFacts.
Import Json Retry Exam Ai ProblemService.

(** *** The addresses that are drawn *)

(** The name of the contest in an address, for a drawn year, index of
    the variant and comparison [Math.random() > 0.5]. *)
Definition contest (level : option ExamLevel) (year i : Z) (coin : bool) : jsstring :=
  match level with
  | Some AMC8 => if (year <=? 1998)%Z then lit "AJHSME_Problems" else lit "AMC_8_Problems"
  | _ =>
      let type := match level with Some AMC10 => lit "10" | _ => lit "12" end in
      if ((2000 <=? year) && (year <=? 2001))%Z then lit "AMC_" ++ type ++ lit "P_Problems"
      else if (year =? 2021)%Z then element (variants type) i
      else lit "AMC_" ++ type ++ (if coin then lit "A" else lit "B")
  end.

(** The address for a year, a contest and a problem number. *)
Definition addressOf (year : Z) (name : jsstring) (n : Z) : meta :=
  {| url := wiki ++ numberToString year ++ lit "_" ++ name ++ lit "/Problem_"
              ++ numberToString n;
     problemNum := n |}.

Definition address (level : option ExamLevel) (year n i : Z) (coin : bool) : meta :=
  addressOf year (contest level year i coin) n.

(** The contests that can be drawn for a year. *)
Definition contests (level : option ExamLevel) (year : Z) : list jsstring :=
  match level with
  | Some AMC8 => [contest level year 0 true]
  | _ =>
      if ((2000 <=? year) && (year <=? 2001))%Z then [contest level year 0 true]
      else if (year =? 2021)%Z then map (fun i => contest level year i true) [0; 1; 2; 3]%Z
      else [contest level year 0 true; contest level year 0 false]
  end.

Lemma contest_in_contests (level : option ExamLevel) (year i : Z) (coin : bool) :
  (0 <= i <= 3)%Z -> In (contest level year i coin) (contests level year).
Proof.
  intros Hi. unfold contests, contest.
  destruct level as [[]|]; try (now left);
    destruct ((2000 <=? year) && (year <=? 2001))%Z; try (now left);
    destruct (year =? 2021)%Z;
    try (destruct coin; cbn; now auto);
    assert (H : (i = 0 \/ i = 1 \/ i = 2 \/ i = 3)%Z) by lia;
    destruct H as [-> | [-> | [-> | ->]]]; cbn; auto.
Qed.

(** The first year of a family's range. *)
Definition firstYear (level : option ExamLevel) : Z :=
  match level with
  | Some AMC8 => Z.of_N Catalog.AMC8_START_YEAR
  | _ => Z.of_N Catalog.AMC10_12_START_YEAR
  end.

Definition lastYear : Z := Z.of_N Catalog.CURRENT_YEAR.

(** The whole numbers from [lo], [count] of them. *)
Definition numbersFrom (lo : Z) (count : nat) : list Z :=
  map (fun k => (lo + Z.of_nat k)%Z) (seq 0 count).

Lemma in_numbersFrom (lo hi z : Z) :
  (lo <= z <= hi)%Z -> In z (numbersFrom lo (Z.to_nat (hi + 1 - lo))).
Proof.
  intros H. unfold numbersFrom. apply in_map_iff.
  exists (Z.to_nat (z - lo)). split; [lia|]. apply in_seq. lia.
Qed.

(** A property of all addresses of a family, checked on each of them. *)
Definition allAddresses (level : option ExamLevel) (P : meta -> bool) : bool :=
  forallb (fun year =>
    forallb (fun name => forallb (fun n => P (addressOf year name n)) (numbersFrom 1 25))
      (contests level year))
    (numbersFrom (firstYear level) (Z.to_nat (lastYear + 1 - firstYear level))).

Lemma allAddresses_sound (level : option ExamLevel) (P : meta -> bool) (year n i : Z)
    (coin : bool) :
  allAddresses level P = true ->
  (firstYear level <= year <= lastYear)%Z -> (1 <= n <= 25)%Z -> (0 <= i <= 3)%Z ->
  P (address level year n i coin) = true.
Proof.
  intros H Hy Hn Hi. unfold allAddresses in H.
  rewrite forallb_forall in H. specialize (H year (in_numbersFrom Hy)).
  rewrite forallb_forall in H. specialize (H _ (contest_in_contests level year coin Hi)).
  rewrite forallb_forall in H. apply H. exact (in_numbersFrom (lo := 1) (hi := 25) Hn).
Qed.

(** An address of the catalog names its contest with [_Problems/], and
    never with [P_Problems/]. *)
Definition catalogStyle (u : jsstring) : bool :=
  includes (lit "_Problems/") (skipn 53 u) && negb (includes (lit "P_Problems/") (skipn 53 u)).

Lemma catalog_is_catalogStyle :
  forallb (fun t => catalogStyle (Catalog.url t)) Catalog.generateFullCatalogQueue = true.
Proof. vm_compute. reflexivity. Qed.

(** The AMC 8 tasks are the first 1025 of the catalog: the years from the
    current one down, the problems 1 to 25 of each. *)
Definition amc8Addresses : list (jsstring * ExamLevel * jsstring) :=
  flat_map (fun k =>
    map (fun n =>
           (url (address (Some AMC8) (lastYear - Z.of_nat k) n 0 true), AMC8, numberToString n))
      (numbersFrom 1 25))
    (seq 0 41).

Lemma amc8_tasks_of_catalog :
  map (fun t => (Catalog.url t, Catalog.level t, Catalog.problemNumber t))
    (firstn 1025 Catalog.generateFullCatalogQueue)
  = amc8Addresses.
Proof. vm_compute. reflexivity. Qed.

Lemma amc8_address_in_catalog (year n i : Z) (coin : bool) :
  (firstYear (Some AMC8) <= year <= lastYear)%Z -> (1 <= n <= 25)%Z ->
  exists t, In t Catalog.generateFullCatalogQueue
            /\ Catalog.url t = url (address (Some AMC8) year n i coin)
            /\ Catalog.level t = AMC8
            /\ Catalog.problemNumber t = numberToString n.
Proof.
  intros Hy Hn.
  assert (Hin : In (url (address (Some AMC8) year n i coin), AMC8, numberToString n)
                  amc8Addresses).
  { unfold amc8Addresses. apply in_flat_map. exists (Z.to_nat (lastYear - year)).
    change (firstYear (Some AMC8)) with 1985%Z in Hy. change lastYear with 2025%Z in *.
    split; [apply in_seq; lia|]. apply in_map_iff. exists n.
    split; [|exact (in_numbersFrom (lo := 1) (hi := 25) Hn)].
    replace (2025 - Z.of_nat (Z.to_nat (2025 - year)))%Z with year by lia. reflexivity. }
  rewrite <- amc8_tasks_of_catalog in Hin. apply in_map_iff in Hin.
  destruct Hin as (t & Ht & Hin). injection Ht as Hu Hl Hp.
  exists t. repeat match goal with |- _ /\ _ => split end; auto.
  rewrite <- (firstn_skipn 1025 Catalog.generateFullCatalogQueue).
  apply in_or_app. now left.
Qed.

Lemma other_addresses_not_catalogStyle (level : option ExamLevel) :
  level <> Some AMC8 ->
  allAddresses level (fun m => negb (catalogStyle (url m))) = true.
Proof. destruct level as [[]|]; intros H; try congruence; vm_compute; reflexivity. Qed.

Section Addresses.

Variable World : Type.
Variable Math_random : World -> number * World.

(** The bounds that the address generator passes to [randomInt]. *)
Definition usedBounds : list (Z * Z) := [(1985, 2025); (2000, 2025); (1, 25); (0, 3)]%Z.

(** Every draw lies within its bounds. *)
Definition drawsKeepBounds : Prop :=
  forall min max w,
    In (min, max) usedBounds -> (min <= fst (randomInt Math_random min max w) <= max)%Z.

Lemma drawn_is_address (level : option ExamLevel) (w : World) :
  let year := randomInt Math_random (firstYear level) lastYear w in
  let n := randomInt Math_random 1 25 (snd year) in
  let i := randomInt Math_random 0 3 (snd n) in
  let coin := PrimFloat.ltb half (fst (Math_random (snd n))) in
  fst (getAoPSUrlAndMeta Math_random level w) = address level (fst year) (fst n) (fst i) coin.
Proof.
  cbv zeta. unfold getAoPSUrlAndMeta, address, addressOf, contest.
  destruct level as [[]|]; cbn [firstYear]; fold lastYear;
    destruct (randomInt Math_random _ lastYear w) as [year w1]; cbn [fst snd];
    destruct (randomInt Math_random 1 25 w1) as [n w2]; cbn [fst snd];
    try (destruct (year <=? 1998)%Z; cbn [fst url]; now rewrite <- ?app_assoc);
    destruct ((2000 <=? year) && (year <=? 2001))%Z;
    try (cbn [fst url]; now rewrite <- ?app_assoc);
    (destruct (year =? 2021)%Z;
     [ destruct (randomInt Math_random 0 3 w2) as [i w3]; cbn [fst url];
       now rewrite <- ?app_assoc
     | destruct (Math_random w2) as [r w3]; cbn [fst];
       destruct (PrimFloat.ltb half r); cbn [fst url]; now rewrite <- ?app_assoc ]).
Qed.

(** X21: when the draws lie within their bounds, the address generator
    returns a problem number from 1 to 25 and an address that ends with
    [/Problem_] and that number.  For AMC 8 the address is the address of a task of the
    full catalog, with that level and problem number; for AMC 10, AMC 12
    and an undefined level it is never an address of the catalog, which
    names the contests of these families differently. *)
Theorem drawn_addresses_and_the_catalog (level : option ExamLevel) (w : World) :
  drawsKeepBounds ->
  let m := fst (getAoPSUrlAndMeta Math_random level w) in
  (1 <= problemNum m <= 25)%Z
  /\ (exists front, url m = front ++ lit "/Problem_" ++ numberToString (problemNum m))
  /\ (level = Some AMC8 ->
      exists t, In t Catalog.generateFullCatalogQueue
                /\ Catalog.url t = url m
                /\ Catalog.level t = AMC8
                /\ Catalog.problemNumber t = numberToString (problemNum m))
  /\ (level <> Some AMC8 -> ~ In (url m) (map Catalog.url Catalog.generateFullCatalogQueue)).
Proof.
  intros Hdraws. cbv zeta. rewrite drawn_is_address.
  set (year := randomInt Math_random (firstYear level) lastYear w).
  set (n := randomInt Math_random 1 25 (snd year)).
  set (i := randomInt Math_random 0 3 (snd n)).
  set (coin := PrimFloat.ltb half (fst (Math_random (snd n)))).
  assert (Hy : (firstYear level <= fst year <= lastYear)%Z).
  { apply Hdraws. destruct level as [[]|]; cbn; auto. }
  assert (Hn : (1 <= fst n <= 25)%Z) by (apply Hdraws; cbn; auto).
  assert (Hi : (0 <= fst i <= 3)%Z) by (apply Hdraws; cbn; auto).
  assert (Hnum : problemNum (address level (fst year) (fst n) (fst i) coin) = fst n)
    by reflexivity.
  rewrite Hnum. repeat match goal with |- _ /\ _ => split end; try apply Hn.
  - eexists. unfold address, addressOf. cbn [url]. rewrite !app_assoc. reflexivity.
  - intros ->. now apply amc8_address_in_catalog.
  - intros Hl Hin. apply in_map_iff in Hin. destruct Hin as (t & Ht & Hin).
    pose proof catalog_is_catalogStyle as Hc. rewrite forallb_forall in Hc.
    specialize (Hc t Hin). rewrite Ht in Hc.
    pose proof (allAddresses_sound level _ coin (other_addresses_not_catalogStyle Hl)
                  Hy Hn Hi) as H.
    cbv beta in H. rewrite Hc in H. discriminate H.
Qed.

End Addresses.

(** A generator of random numbers that is stuck at one half. *)
Definition stuck (w : unit) : number * unit := (half, w).

Lemma drawn_addresses_and_the_catalog_witness :
  url (fst (getAoPSUrlAndMeta stuck (Some AMC8) tt))
  = lit "https://artofproblemsolving.com/wiki/index.php?title=2005_AMC_8_Problems/Problem_13"
  /\ exists t, In t Catalog.generateFullCatalogQueue
               /\ Catalog.url t = url (fst (getAoPSUrlAndMeta stuck (Some AMC8) tt))
               /\ Catalog.level t = AMC8
               /\ Catalog.problemNumber t
                  = numberToString (problemNum (fst (getAoPSUrlAndMeta stuck (Some AMC8) tt))).
Proof.
  split; [vm_compute; reflexivity|].
  refine (proj1 (proj2 (proj2 (@drawn_addresses_and_the_catalog unit stuck (Some AMC8) tt _)))
            eq_refl).
  intros min max w H. cbn in H.
  repeat (destruct H as [H | H]; [injection H as <- <-; vm_compute; split; discriminate|]).
  destruct H.
Defined.

(** *** The loop over the slots for real problems *)

(** Reading a trace: the fetches and their results, the fetches that
    returned a problem, the warnings, the progress reports, the pauses. *)
Definition fetched (tr : list event) : list (jsstring * completion (option Problem.t)) :=
  flat_map (fun ev => match ev with EvFetch u _ _ r => [(u, r)] | _ => [] end) tr.

Definition found (tr : list event) : list (jsstring * Problem.t) :=
  flat_map (fun ev => match ev with
                      | EvFetch u _ _ (Return (Some p)) => [(u, p)]
                      | _ => []
                      end) tr.

Definition warned (tr : list event) : list jsstring :=
  flat_map (fun ev => match ev with EvWarn msg => [msg] | _ => [] end) tr.

Definition reported (tr : list event) : list (jsstring * Z) :=
  flat_map (fun ev => match ev with EvProgress msg pct => [(msg, pct)] | _ => [] end) tr.

Definition graded (tr : list event) : list (list problem) :=
  flat_map (fun ev => match ev with EvGrade ps _ => [ps] | _ => [] end) tr.

Lemma fetched_app (a b : list event) : fetched (a ++ b) = fetched a ++ fetched b.
Proof. apply flat_map_app. Qed.

Lemma found_app (a b : list event) : found (a ++ b) = found a ++ found b.
Proof. apply flat_map_app. Qed.

Lemma warned_app (a b : list event) : warned (a ++ b) = warned a ++ warned b.
Proof. apply flat_map_app. Qed.

Lemma reported_app (a b : list event) : reported (a ++ b) = reported a ++ reported b.
Proof. apply flat_map_app. Qed.

Lemma graded_app (a b : list event) : graded (a ++ b) = graded a ++ graded b.
Proof. apply flat_map_app. Qed.

(** The ids under which the fetches were made, the results of the fetches
    made under one id, and how often a message was written as a warning. *)
Definition fetchIds (tr : list event) : list jsstring :=
  flat_map (fun ev => match ev with EvFetch _ id _ _ => [id] | _ => [] end) tr.

Definition fetchedFor (slot : jsstring) (tr : list event)
    : list (completion (option Problem.t)) :=
  flat_map (fun ev => match ev with
                      | EvFetch _ id _ r => if streq id slot then [r] else []
                      | _ => []
                      end) tr.

Definition warnings (msg : jsstring) (tr : list event) : nat :=
  length (filter (streq msg) (warned tr)).

(** A fetch that gave no problem: it returned [null] or raised. *)
Definition fruitless (r : completion (option Problem.t)) : Prop :=
  match r with
  | Return (Some _) => False
  | _ => True
  end.

Lemma fetchIds_app (a b : list event) : fetchIds (a ++ b) = fetchIds a ++ fetchIds b.
Proof. apply flat_map_app. Qed.

Lemma fetchedFor_app (slot : jsstring) (a b : list event) :
  fetchedFor slot (a ++ b) = fetchedFor slot a ++ fetchedFor slot b.
Proof. apply flat_map_app. Qed.

Lemma slotWarnings_app (msg : jsstring) (a b : list event) :
  warnings msg (a ++ b) = warnings msg a + warnings msg b.
Proof. unfold warnings. now rewrite warned_app, filter_app, length_app. Qed.

Lemma slotWarnings_none (msg : jsstring) (tr : list event) :
  warned tr = [] -> warnings msg tr = 0.
Proof. unfold warnings. now intros ->. Qed.

(** No fetch under another id. *)
Lemma fetchedFor_other (slot other : jsstring) (tr : list event) :
  Forall (fun id => id = other) (fetchIds tr) -> slot <> other ->
  fetchedFor slot tr = [].
Proof.
  intros H Hne. induction tr as [|ev tr IH]; [reflexivity|].
  destruct ev; cbn [fetchIds fetchedFor flat_map app] in *; auto.
  inversion H as [|x l Hid Hrest]; subst.
  destruct (streq other slot) eqn:E; [apply streq_eq in E; congruence|].
  cbn [app]. now apply IH.
Qed.

Lemma fetchedFor_nothing (slot : jsstring) (tr : list event) :
  fetchIds tr = [] -> fetchedFor slot tr = [].
Proof.
  intros H. induction tr as [|ev tr IH]; [reflexivity|].
  destruct ev; cbn [fetchIds fetchedFor flat_map app] in *; auto; discriminate H.
Qed.

Lemma counterToString_inj (i j : nat) : counterToString i = counterToString j -> i = j.
Proof.
  unfold counterToString, numToString, lit. intros H.
  apply (f_equal string_of_list_ascii) in H.
  rewrite !string_of_list_ascii_of_string in H.
  apply (f_equal NilEmpty.uint_of_string) in H. rewrite !NilEmpty.usu in H.
  injection H as H. apply (f_equal N.of_uint) in H.
  rewrite !DecimalN.Unsigned.of_to in H. lia.
Qed.

Lemma realId_inj (i j : nat) : realId i = realId j -> i = j.
Proof. unfold realId. intros H. apply app_inv_head in H. now apply counterToString_inj. Qed.

Lemma slotWarning_inj (i j : nat) : slotWarning i = slotWarning j -> i = j.
Proof.
  unfold slotWarning. intros H. apply app_inv_head in H. apply app_inv_tail in H.
  now apply counterToString_inj.
Qed.

Lemma not_known (u : jsstring) (l : list jsstring) :
  existsb (streq u) l = false -> ~ In u l.
Proof.
  intros H Hin. assert (existsb (streq u) l = true); [|congruence].
  apply existsb_exists. exists u. split; [exact Hin | apply streq_refl].
Qed.

Section Run.

Variable World : Type.
Variable Math_random : World -> number * World.
Variable fetchAoPSProblem :
  jsstring -> jsstring -> option ExamLevel -> World -> completion (option Problem.t) * World.
Variable fetchMockProblem :
  option ExamLevel -> jsstring -> World -> outcome (option problem) * World.
Variable generateAIProblem :
  option ExamLevel -> Difficulty -> jsstring -> World -> outcome problem * World.
Variable gradeProblemsByDifficulty : list problem -> World -> outcome (list problem) * World.
Variable delay : N -> World -> World.
Variable consoleWarn : jsstring -> World -> World.
Variable consoleError : jsstring -> failure -> World -> World.
Variable onProgress : jsstring -> Z -> World -> World.
Variable levels : list ExamLevel.
Variable config : ExamConfig.
Variable mode : ExamMode.

(** How a scraped problem enters the exam: as it is, or, in warm-up mode,
    with a difficulty from 1 to 10 in place of its own. *)
Definition adopted (p0 : Problem.t) (p : problem) : Prop :=
  if isWarmup mode then
    exists d, (1 <= d <= 10)%Z /\ p = setDifficulty (inject_Z d) (ofScraped p0)
  else p = ofScraped p0.

(** What the rounds of one slot add to the state. *)
Lemma attemptSlot_spec (left i : nat) (lvl : option ExamLevel) (st : state World) :
  let '(p, st') := attemptSlot Math_random fetchAoPSProblem delay mode left i lvl st in
  exists evs,
    trace st' = trace st ++ evs
    /\ problems st' = problems st
    /\ completedTasks st' = completedTasks st
    /\ warned evs = [] /\ reported evs = [] /\ graded evs = []
    /\ length (fetched evs) <= left
    /\ match p with
       | Some q =>
           exists u p0,
             found evs = [(u, p0)] /\ adopted p0 q
             /\ ~ In u (generatedUrls st)
             /\ generatedUrls st' = generatedUrls st ++ [u]
       | None => found evs = [] /\ generatedUrls st' = generatedUrls st
       end.
Proof.
  revert st; induction left as [|left IH]; intros st; cbn [attemptSlot].
  - exists []. rewrite app_nil_r. repeat match goal with |- _ /\ _ => split end; auto.
  - destruct (getAoPSUrlAndMeta Math_random lvl (world st)) as [m w1].
    cbn [generatedUrls setWorld].
    destruct (existsb (streq (url m)) (generatedUrls st)) eqn:Eknown.
    + specialize (IH (setWorld w1 st)).
      destruct (attemptSlot _ _ _ _ left i lvl (setWorld w1 st)) as [p st'].
      destruct IH as (evs & Ht & Hp & Hc & Hw & Hr & Hg & Hf & Hres).
      exists evs. cbn [trace problems completedTasks generatedUrls setWorld] in *.
      repeat match goal with |- _ /\ _ => split end; auto.
    + destruct (fetchAoPSProblem (url m) (realId i) lvl w1) as [r w2].
      destruct r as [[p0|]|e].
      * cbn [addUrl record setWorld generatedUrls trace problems completedTasks world].
        rewrite Eknown.
        exists [EvFetch (url m) (realId i) lvl (Return (Some p0)); EvDelay 750].
        rewrite <- app_assoc. cbn [app].
        repeat match goal with |- _ /\ _ => split end; auto; try (cbn; lia).
        exists (url m), p0.
        repeat match goal with |- _ /\ _ => split end; auto.
        -- unfold adopted. destruct (isWarmup mode); [|reflexivity].
           exists (warmupDifficulty (problemNum m)). split; [|reflexivity].
           unfold warmupDifficulty. lia.
        -- now apply not_known.
      * match goal with
        | |- context [attemptSlot _ _ _ _ left i lvl ?s] => specialize (IH s)
        end.
        destruct (attemptSlot _ _ _ _ left i lvl _) as [p st'].
        destruct IH as (evs & Ht & Hp & Hc & Hw & Hr & Hg & Hf & Hres).
        cbn [trace problems completedTasks generatedUrls setWorld record] in *.
        exists ([EvFetch (url m) (realId i) lvl (Return None); EvDelay 200] ++ evs).
        rewrite Ht, <- !app_assoc.
        rewrite warned_app, reported_app, graded_app, fetched_app, found_app, Hw, Hr, Hg.
        cbn [warned reported graded fetched found flat_map app length] in *.
        repeat match goal with |- _ /\ _ => split end; auto; try lia.
      * match goal with
        | |- context [attemptSlot _ _ _ _ left i lvl ?s] => specialize (IH s)
        end.
        destruct (attemptSlot _ _ _ _ left i lvl _) as [p st'].
        destruct IH as (evs & Ht & Hp & Hc & Hw & Hr & Hg & Hf & Hres).
        cbn [trace problems completedTasks generatedUrls setWorld record] in *.
        exists ([EvFetch (url m) (realId i) lvl (Throw e); EvDelay 200] ++ evs).
        rewrite Ht, <- !app_assoc.
        rewrite warned_app, reported_app, graded_app, fetched_app, found_app, Hw, Hr, Hg.
        cbn [warned reported graded fetched found flat_map app length] in *.
        repeat match goal with |- _ /\ _ => split end; auto; try lia.
Qed.

(** What holds between the slots of the three loops, after [n] slots of
    which the first [k] were slots for real problems. *)
Definition sound (k n : nat) (st : state World) : Prop :=
  generatedUrls st = map fst (found (trace st))
  /\ NoDup (map fst (found (trace st)))
  /\ (exists real others,
        problems st = real ++ others
        /\ Forall2 adopted (map snd (found (trace st))) real
        /\ length (warned (trace st)) + length real = k
        /\ length others <= n - k)
  /\ length (fetched (trace st)) <= 10 * k
  /\ completedTasks st = n
  /\ map snd (reported (trace st)) = map (percentOf config) (seq 1 n)
  /\ graded (trace st) = [].

Lemma sound_start (w : World) :
  sound 0 0 {| world := w; trace := []; problems := []; generatedUrls := [];
               completedTasks := 0 |}.
Proof.
  unfold sound. cbn. repeat match goal with |- _ /\ _ => split end; auto; try constructor.
  exists [], []. cbn. repeat match goal with |- _ /\ _ => split end; auto.
Qed.

Lemma realSlot_sound (n i : nat) (st : state World) :
  sound n n st ->
  sound (S n) (S n)
    (realSlot Math_random fetchAoPSProblem delay consoleWarn onProgress levels config mode
       i st).
Proof.
  intros (Hu & Hn & (real & others & Hp & Had & Hw & Ho) & Hf & Hc & Hr & Hg).
  assert (others = []) by (destruct others; [reflexivity | cbn in Ho; lia]). subst others.
  rewrite app_nil_r in Hp.
  unfold realSlot, getRandomLevel.
  destruct (randomInt Math_random 0 _ (world st)) as [i0 w1].
  pose proof (attemptSlot_spec MAX_ATTEMPTS i
                (if (i0 <? 0)%Z then None else nth_error levels (Z.to_nat i0))
                (setWorld w1 st)) as Hspec.
  destruct (attemptSlot _ _ _ _ MAX_ATTEMPTS i _ (setWorld w1 st)) as [p st2].
  destruct Hspec as (evs & Ht & Hp2 & Hc2 & Hw2 & Hr2 & Hg2 & Hf2 & Hres).
  cbn [trace problems completedTasks generatedUrls setWorld] in *.
  destruct p as [q|].
  - destruct Hres as (u & p0 & Hfound & Hq & Hnew & Hurls).
    unfold sound, updateProgress, push.
    cbn [trace problems completedTasks generatedUrls world].
    rewrite Ht, <- !app_assoc, !found_app, !warned_app, !fetched_app, !reported_app,
      !graded_app, Hfound, Hw2, Hr2, Hg2, Hg, Hurls, Hu, Hp2, Hp, Hc2, Hc.
    cbn [found warned fetched reported graded flat_map app].
    rewrite !map_app, !app_nil_r, Hr, seq_S, map_app. cbn [map fst snd].
    repeat match goal with |- _ /\ _ => split end; auto.
    + apply NoDup_app; [exact Hn | constructor; [intros [] | constructor] |].
      intros x Hx [<- | []]. apply Hnew. now rewrite Hu.
    + exists (real ++ [q]), []. rewrite app_nil_r.
      repeat match goal with |- _ /\ _ => split end; auto;
        try (rewrite ?length_app; cbn [length]; lia).
      apply Forall2_app; [exact Had | now constructor].
    + rewrite length_app. unfold MAX_ATTEMPTS in Hf2. lia.
  - destruct Hres as (Hfound & Hurls).
    unfold sound, updateProgress, record.
    cbn [trace problems completedTasks generatedUrls world].
    rewrite Ht, <- !app_assoc, !found_app, !warned_app, !fetched_app, !reported_app,
      !graded_app, Hfound, Hw2, Hr2, Hg2, Hg, Hurls, Hu, Hp2, Hp, Hc2, Hc.
    cbn [found warned fetched reported graded flat_map app].
    rewrite !app_nil_r, !map_app, Hr, seq_S, map_app. cbn [map fst snd].
    repeat match goal with |- _ /\ _ => split end; auto.
    + exists real, []. rewrite app_nil_r.
      repeat match goal with |- _ /\ _ => split end; auto;
        try (rewrite ?length_app; cbn [length]; lia).
    + rewrite length_app. unfold MAX_ATTEMPTS in Hf2. lia.
Qed.

Ltac slot_done :=
  cbn [trace problems completedTasks generatedUrls];
  rewrite <- ?app_assoc, ?app_nil_r;
  first [reflexivity | eassumption | cbn; lia].

(** A slot of the second or third loop adds one report and at most one
    problem. *)
Lemma later_slot_sound (k n : nat) (st st' : state World) (evs : list event)
    (ps : list problem) (msg : jsstring) :
  sound k n st -> k <= n ->
  trace st' = trace st ++ evs ++ [EvProgress msg (percentOf config (S n))] ->
  fetched evs = [] -> found evs = [] -> warned evs = [] -> reported evs = [] ->
  graded evs = [] ->
  problems st' = problems st ++ ps -> length ps <= 1 ->
  generatedUrls st' = generatedUrls st ->
  completedTasks st' = S n ->
  sound k (S n) st'.
Proof.
  intros (Hu & Hn & (real & others & Hp & Had & Hw & Ho) & Hf & Hc & Hr & Hg) Hkn
    Ht Hfe Hfo Hwa Hre Hgr Hps Hlen Hurls Hcompleted.
  unfold sound.
  rewrite Ht, !found_app, !warned_app, !fetched_app, !reported_app, !graded_app,
    Hfe, Hfo, Hwa, Hre, Hgr, Hg, Hurls, Hps, Hp.
  cbn [found warned fetched reported graded flat_map app].
  rewrite !app_nil_r, !map_app, Hr, seq_S, map_app. cbn [map fst snd].
  repeat match goal with |- _ /\ _ => split end; auto.
  exists real, (others ++ ps). rewrite app_assoc.
  repeat match goal with |- _ /\ _ => split end; auto.
  rewrite length_app. lia.
Qed.

Lemma mockSlot_sound (k n i : nat) (st : state World) :
  sound k n st -> k <= n ->
  sound k (S n)
    (mockSlot Math_random fetchMockProblem consoleError onProgress levels config i st).
Proof.
  intros Hs Hkn. pose proof Hs as (_ & _ & _ & _ & Hc & _).
  unfold mockSlot, getRandomLevel.
  destruct (randomInt Math_random 0 _ (world st)) as [i0 w1].
  cbn [world setWorld].
  destruct (fetchMockProblem _ _ w1) as [[[p|]|e] w2];
    unfold updateProgress, record, push, setWorld;
    cbn [trace problems completedTasks generatedUrls world]; rewrite Hc.
  - eapply later_slot_sound with (ps := [p]) (evs := [_]); slot_done.
  - eapply later_slot_sound with (ps := []) (evs := [_]); slot_done.
  - eapply later_slot_sound with (ps := []) (evs := [_; _]); slot_done.
Qed.

Lemma aiSlot_sound (k n i : nat) (st : state World) :
  sound k n st -> k <= n ->
  sound k (S n)
    (aiSlot Math_random generateAIProblem consoleError onProgress levels config i st).
Proof.
  intros Hs Hkn. pose proof Hs as (_ & _ & _ & _ & Hc & _).
  unfold aiSlot, getRandomLevel.
  destruct (randomInt Math_random 0 _ (world st)) as [i0 w1].
  cbn [world setWorld].
  destruct (generateAIProblem _ _ _ w1) as [[p|e] w2];
    unfold updateProgress, record, push, setWorld;
    cbn [trace problems completedTasks generatedUrls world]; rewrite Hc.
  - eapply later_slot_sound with (ps := [p]) (evs := [_]); slot_done.
  - eapply later_slot_sound with (ps := []) (evs := [_; _]); slot_done.
Qed.

Lemma forCount_S (n : nat) (body : nat -> state World -> state World) (st : state World) :
  forCount (S n) body st = body n (forCount n body st).
Proof. unfold forCount. rewrite seq_S, fold_left_app. reflexivity. Qed.

Lemma real_loop_sound (n : nat) (w : World) :
  sound n n
    (forCount n
       (realSlot Math_random fetchAoPSProblem delay consoleWarn onProgress levels config mode)
       {| world := w; trace := []; problems := []; generatedUrls := [];
          completedTasks := 0 |}).
Proof.
  induction n as [|n IH]; [apply sound_start|].
  rewrite forCount_S. now apply realSlot_sound.
Qed.

Lemma later_loop_sound (k n m : nat) (body : nat -> state World -> state World)
    (st : state World) :
  (forall i j st0, sound k j st0 -> k <= j -> sound k (S j) (body i st0)) ->
  sound k n st -> k <= n -> sound k (n + m) (forCount m body st).
Proof.
  intros Hbody Hs Hkn. induction m as [|m IH].
  - now rewrite Nat.add_0_r.
  - rewrite forCount_S, Nat.add_succ_r. apply Hbody; [exact IH | lia].
Qed.

Lemma collect_sound (w : World) :
  sound (realCount config) (totalTasks config)
    (collect Math_random fetchAoPSProblem fetchMockProblem generateAIProblem delay
       consoleWarn consoleError onProgress levels config mode w).
Proof.
  unfold collect, totalTasks.
  apply later_loop_sound; [intros; now apply aiSlot_sound | | lia].
  apply later_loop_sound; [intros; now apply mockSlot_sound | | lia].
  apply real_loop_sound.
Qed.

(** The reports of the last step. *)
Definition lastReports (found : list problem) (r : outcome (list problem)) : list Z :=
  match found with
  | [] => []
  | _ :: _ =>
      if isWarmup mode then [98%Z]
      else match r with
           | Resolved _ => [95; 100]%Z
           | Rejected _ => [95%Z]
           end
  end.

(** The last step adds its reports and the call of the grader, nothing
    else. *)
Lemma finish_spec (st : state World) :
  let '(r, st') := finish gradeProblemsByDifficulty onProgress mode st in
  problems st' = problems st
  /\ fetched (trace st') = fetched (trace st)
  /\ found (trace st') = found (trace st)
  /\ warned (trace st') = warned (trace st)
  /\ map snd (reported (trace st'))
     = map snd (reported (trace st)) ++ lastReports (problems st) r
  /\ match problems st with
     | [] => r = Resolved [] /\ graded (trace st') = graded (trace st)
     | _ :: _ =>
         if isWarmup mode then
           r = Resolved (sortByDifficulty (problems st))
           /\ graded (trace st') = graded (trace st)
         else
           graded (trace st') = graded (trace st) ++ [problems st]
           /\ exists w0, r = fst (gradeProblemsByDifficulty (problems st) w0)
     end.
Proof.
  unfold finish, lastReports. destruct (problems st) as [|p ps] eqn:Ep.
  - rewrite app_nil_r. repeat match goal with |- _ /\ _ => split end; auto.
  - destruct (isWarmup mode).
    + unfold report, record. cbn [trace problems].
      rewrite fetched_app, found_app, warned_app, reported_app, graded_app, map_app.
      cbn. rewrite !app_nil_r. repeat match goal with |- _ /\ _ => split end; auto.
    + unfold report, record. cbn [trace problems world]. rewrite Ep.
      destruct (gradeProblemsByDifficulty (p :: ps) _) as [[sorted|e] w1] eqn:Eg;
        cbn [trace problems world];
        rewrite ?fetched_app, ?found_app, ?warned_app, ?reported_app, ?graded_app, ?map_app;
        cbn; rewrite ?app_nil_r, <- ?app_assoc;
        repeat match goal with |- _ /\ _ => split end; auto;
        eexists; rewrite Eg; reflexivity.
Qed.

(** *** The rounds of each slot *)

(** Slot [i] has been worked through: at most ten fetches were made under
    its id; either the last of them gave a problem, the ones before gave
    none, and the warning of the slot was not written, or none of them gave
    a problem and the warning of the slot was written once. *)
Definition slotDone (i : nat) (tr : list event) : Prop :=
  length (fetchedFor (realId i) tr) <= 10
  /\ ((exists failures p0,
         fetchedFor (realId i) tr = failures ++ [Return (Some p0)]
         /\ Forall fruitless failures
         /\ warnings (slotWarning i) tr = 0)
      \/ (Forall fruitless (fetchedFor (realId i) tr)
          /\ warnings (slotWarning i) tr = 1)).

(** Nothing was fetched or warned for slot [i]. *)
Definition slotUntouched (i : nat) (tr : list event) : Prop :=
  fetchedFor (realId i) tr = [] /\ warnings (slotWarning i) tr = 0.

(** The first [k] slots have been worked through, and every fetch and
    every warning of the trace belongs to one of them. *)
Definition slotted (k : nat) (tr : list event) : Prop :=
  (forall i, i < k -> slotDone i tr)
  /\ (forall i, k <= i -> slotUntouched i tr)
  /\ Forall (fun id => exists i, i < k /\ id = realId i) (fetchIds tr)
  /\ Forall (fun msg => exists i, i < k /\ msg = slotWarning i) (warned tr).

Lemma slotted_start : slotted 0 [].
Proof.
  unfold slotted, slotUntouched. cbn.
  repeat match goal with |- _ /\ _ => split end; auto; intros; lia.
Qed.

Lemma warnings_of_other (i k : nat) (new : list event) :
  i <> k -> warned new = [] \/ warned new = [slotWarning k] ->
  warnings (slotWarning i) new = 0.
Proof.
  intros Hne [H | H]; unfold warnings; rewrite H; [reflexivity|].
  cbn [filter]. destruct (streq (slotWarning i) (slotWarning k)) eqn:E; [|reflexivity].
  apply streq_eq, slotWarning_inj in E. congruence.
Qed.

Lemma fetchedFor_of_other (i k : nat) (new : list event) :
  i <> k -> Forall (fun id => id = realId k) (fetchIds new) ->
  fetchedFor (realId i) new = [].
Proof.
  intros Hne H. apply fetchedFor_other with (other := realId k); [exact H|].
  intros E. apply realId_inj in E. congruence.
Qed.

(** The events of slot [k], after those of the slots before it. *)
Lemma slotted_next (k : nat) (tr new : list event) :
  slotted k tr ->
  Forall (fun id => id = realId k) (fetchIds new) ->
  length (fetchedFor (realId k) new) <= 10 ->
  ((exists failures p0,
      fetchedFor (realId k) new = failures ++ [Return (Some p0)]
      /\ Forall fruitless failures /\ warned new = [])
   \/ (Forall fruitless (fetchedFor (realId k) new) /\ warned new = [slotWarning k])) ->
  slotted (S k) (tr ++ new).
Proof.
  intros (Hdone & Hnot & Hids & Hwarn) Hnew Hlen Hres.
  assert (Hw : warned new = [] \/ warned new = [slotWarning k]).
  { destruct Hres as [(f & p0 & _ & _ & H) | [_ H]]; auto. }
  unfold slotted. repeat match goal with |- _ /\ _ => split end.
  - intros i Hi. unfold slotDone. rewrite fetchedFor_app, slotWarnings_app.
    destruct (Nat.eq_dec i k) as [-> | Hne].
    + destruct (Hnot k (le_n k)) as [Hf Hz]. rewrite Hf, Hz. cbn [app Nat.add].
      split; [exact Hlen|].
      destruct Hres as [(f & p0 & Hrs & Hfail & H) | [Hfail H]].
      * left. exists f, p0. repeat split; auto. unfold warnings. now rewrite H.
      * right. split; [exact Hfail|]. unfold warnings. rewrite H. cbn [filter].
        now rewrite streq_refl.
    + rewrite (@fetchedFor_of_other i k new Hne Hnew), (@warnings_of_other i k new Hne Hw), app_nil_r,
        Nat.add_0_r.
      apply Hdone. lia.
  - intros i Hi. unfold slotUntouched. rewrite fetchedFor_app, slotWarnings_app.
    assert (Hne : i <> k) by lia.
    rewrite (@fetchedFor_of_other i k new Hne Hnew), (@warnings_of_other i k new Hne Hw).
    destruct (Hnot i) as [Hf Hz]; [lia|]. rewrite Hf, Hz. split; reflexivity.
  - rewrite fetchIds_app. apply Forall_app. split.
    + eapply Forall_impl; [|exact Hids]. intros id (i & Hi & ->). exists i. split; [lia | auto].
    + eapply Forall_impl; [|exact Hnew]. intros id ->. exists k. split; [lia | reflexivity].
  - rewrite warned_app. apply Forall_app. split.
    + eapply Forall_impl; [|exact Hwarn]. intros msg (i & Hi & ->). exists i. split; [lia | auto].
    + destruct Hw as [-> | ->]; [constructor|].
      constructor; [|constructor]. exists k. split; [lia | reflexivity].
Qed.

(** Events that are neither fetches nor warnings change nothing. *)
Lemma slotted_later (k : nat) (tr new : list event) :
  slotted k tr -> fetchIds new = [] -> warned new = [] -> slotted k (tr ++ new).
Proof.
  intros (Hdone & Hnot & Hids & Hwarn) Hf Hw.
  assert (Hsame : forall i, fetchedFor (realId i) (tr ++ new) = fetchedFor (realId i) tr
                            /\ warnings (slotWarning i) (tr ++ new)
                               = warnings (slotWarning i) tr).
  { intros i. rewrite fetchedFor_app, slotWarnings_app, (@fetchedFor_nothing (realId i) new Hf),
      (@slotWarnings_none (slotWarning i) new Hw), app_nil_r, Nat.add_0_r. split; reflexivity. }
  unfold slotted, slotDone, slotUntouched.
  repeat match goal with |- _ /\ _ => split end.
  - intros i Hi. destruct (Hsame i) as [-> ->]. now apply Hdone.
  - intros i Hi. destruct (Hsame i) as [-> ->]. now apply Hnot.
  - rewrite fetchIds_app, Hf, app_nil_r. exact Hids.
  - rewrite warned_app, Hw, app_nil_r. exact Hwarn.
Qed.

(** The rounds of one slot: its fetches carry the id of the slot, they are
    at most as many as the rounds, and all but a last successful one gave
    no problem. *)
Lemma attemptSlot_rounds (left i : nat) (lvl : option ExamLevel) (st : state World) :
  let '(p, st') := attemptSlot Math_random fetchAoPSProblem delay mode left i lvl st in
  exists evs,
    trace st' = trace st ++ evs
    /\ warned evs = []
    /\ Forall (fun id => id = realId i) (fetchIds evs)
    /\ length (fetchedFor (realId i) evs) <= left
    /\ match p with
       | Some _ =>
           exists failures p0,
             fetchedFor (realId i) evs = failures ++ [Return (Some p0)]
             /\ Forall fruitless failures
       | None => Forall fruitless (fetchedFor (realId i) evs)
       end.
Proof.
  revert st; induction left as [|left IH]; intros st; cbn [attemptSlot].
  - exists []. rewrite app_nil_r. cbn.
    repeat match goal with |- _ /\ _ => split end; auto.
  - destruct (getAoPSUrlAndMeta Math_random lvl (world st)) as [m w1].
    cbn [generatedUrls setWorld].
    destruct (existsb (streq (url m)) (generatedUrls st)).
    + specialize (IH (setWorld w1 st)).
      destruct (attemptSlot _ _ _ _ left i lvl (setWorld w1 st)) as [p st'].
      destruct IH as (evs & Ht & Hw & Hids & Hlen & Hres).
      exists evs. cbn [trace setWorld] in *.
      repeat match goal with |- _ /\ _ => split end; auto.
    + destruct (fetchAoPSProblem (url m) (realId i) lvl w1) as [r w2].
      destruct r as [[p0|]|e].
      * cbn [addUrl record setWorld trace world].
        exists [EvFetch (url m) (realId i) lvl (Return (Some p0)); EvDelay 750].
        rewrite <- app_assoc. cbn [app warned fetchIds fetchedFor flat_map].
        rewrite streq_refl. cbn [app length].
        repeat match goal with |- _ /\ _ => split end; auto; try lia.
        exists [], p0. split; [reflexivity | constructor].
      * match goal with
        | |- context [attemptSlot _ _ _ _ left i lvl ?s] => specialize (IH s)
        end.
        destruct (attemptSlot _ _ _ _ left i lvl _) as [p st'].
        destruct IH as (evs & Ht & Hw & Hids & Hlen & Hres).
        cbn [trace setWorld record] in *.
        exists ([EvFetch (url m) (realId i) lvl (Return None); EvDelay 200] ++ evs).
        rewrite Ht, <- !app_assoc, warned_app, fetchIds_app, fetchedFor_app, Hw.
        cbn [app warned fetchIds fetchedFor flat_map]. rewrite streq_refl.
        cbn [app length].
        repeat match goal with |- _ /\ _ => split end; auto; try lia.
        destruct p as [q|].
        -- destruct Hres as (f & p1 & -> & Hfail).
           exists (Return None :: f), p1. split; [reflexivity|]. constructor; [exact I | auto].
        -- constructor; [exact I | auto].
      * match goal with
        | |- context [attemptSlot _ _ _ _ left i lvl ?s] => specialize (IH s)
        end.
        destruct (attemptSlot _ _ _ _ left i lvl _) as [p st'].
        destruct IH as (evs & Ht & Hw & Hids & Hlen & Hres).
        cbn [trace setWorld record] in *.
        exists ([EvFetch (url m) (realId i) lvl (Throw e); EvDelay 200] ++ evs).
        rewrite Ht, <- !app_assoc, warned_app, fetchIds_app, fetchedFor_app, Hw.
        cbn [app warned fetchIds fetchedFor flat_map]. rewrite streq_refl.
        cbn [app length].
        repeat match goal with |- _ /\ _ => split end; auto; try lia.
        destruct p as [q|].
        -- destruct Hres as (f & p1 & -> & Hfail).
           exists (Throw e :: f), p1. split; [reflexivity|]. constructor; [exact I | auto].
        -- constructor; [exact I | auto].
Qed.

Lemma realSlot_slotted (k : nat) (st : state World) :
  slotted k (trace st) ->
  slotted (S k)
    (trace (realSlot Math_random fetchAoPSProblem delay consoleWarn onProgress levels config
              mode k st)).
Proof.
  intros Hs. unfold realSlot, getRandomLevel.
  destruct (randomInt Math_random 0 _ (world st)) as [i0 w1].
  pose proof (attemptSlot_rounds MAX_ATTEMPTS k
                (if (i0 <? 0)%Z then None else nth_error levels (Z.to_nat i0))
                (setWorld w1 st)) as Hspec.
  destruct (attemptSlot _ _ _ _ MAX_ATTEMPTS k _ (setWorld w1 st)) as [p st2].
  destruct Hspec as (evs & Ht & Hw & Hids & Hlen & Hres).
  cbn [trace setWorld] in Ht. unfold MAX_ATTEMPTS in Hlen.
  destruct p as [q|]; unfold updateProgress, push, record; cbn [trace];
    rewrite Ht, <- !app_assoc; apply slotted_next; auto;
    rewrite ?fetchIds_app, ?fetchedFor_app, ?warned_app, ?Hw;
    cbn [fetchIds fetchedFor warned flat_map app]; rewrite ?app_nil_r; auto.
  - left. destruct Hres as (f & p0 & Hrs & Hfail). exists f, p0. auto.
Qed.

Lemma mockSlot_slotted (k i : nat) (st : state World) :
  slotted k (trace st) ->
  slotted k
    (trace (mockSlot Math_random fetchMockProblem consoleError onProgress levels config i
              st)).
Proof.
  intros Hs. unfold mockSlot, getRandomLevel.
  destruct (randomInt Math_random 0 _ (world st)) as [i0 w1].
  cbn [world setWorld].
  destruct (fetchMockProblem _ _ w1) as [[[p|]|e] w2];
    unfold updateProgress, record, push, setWorld; cbn [trace];
    rewrite <- !app_assoc; apply slotted_later; auto.
Qed.

Lemma aiSlot_slotted (k i : nat) (st : state World) :
  slotted k (trace st) ->
  slotted k
    (trace (aiSlot Math_random generateAIProblem consoleError onProgress levels config i
              st)).
Proof.
  intros Hs. unfold aiSlot, getRandomLevel.
  destruct (randomInt Math_random 0 _ (world st)) as [i0 w1].
  cbn [world setWorld].
  destruct (generateAIProblem _ _ _ w1) as [[p|e] w2];
    unfold updateProgress, record, push, setWorld; cbn [trace];
    rewrite <- !app_assoc; apply slotted_later; auto.
Qed.

Lemma later_loop_slotted (k m : nat) (body : nat -> state World -> state World)
    (st : state World) :
  (forall i st0, slotted k (trace st0) -> slotted k (trace (body i st0))) ->
  slotted k (trace st) -> slotted k (trace (forCount m body st)).
Proof.
  intros Hbody Hs. induction m as [|m IH]; [exact Hs|].
  rewrite forCount_S. now apply Hbody.
Qed.

Lemma collect_slotted (w : World) :
  slotted (realCount config)
    (trace (collect Math_random fetchAoPSProblem fetchMockProblem generateAIProblem delay
              consoleWarn consoleError onProgress levels config mode w)).
Proof.
  unfold collect.
  apply later_loop_slotted; [intros; now apply aiSlot_slotted|].
  apply later_loop_slotted; [intros; now apply mockSlot_slotted|].
  induction (realCount config) as [|n IH]; [apply slotted_start|].
  rewrite forCount_S. now apply realSlot_slotted.
Qed.

(** The last step fetches nothing and warns of nothing. *)
Lemma finish_slotted (k : nat) (st : state World) :
  slotted k (trace st) ->
  slotted k (trace (snd (finish gradeProblemsByDifficulty onProgress mode st))).
Proof.
  intros Hs. unfold finish. destruct (problems st) as [|p ps]; [exact Hs|].
  destruct (isWarmup mode).
  - unfold report, record. cbn [snd trace]. apply slotted_later; auto.
  - unfold report, record. cbn [trace problems world].
    destruct (gradeProblemsByDifficulty _ _) as [[sorted|e] w1]; cbn [snd trace];
      rewrite <- ?app_assoc; apply slotted_later; auto.
Qed.


End Run.

(** *** The exam that is returned *)

Section Outcome.

Variable World : Type.
Variable Math_random : World -> number * World.
Variable fetchAoPSProblem :
  jsstring -> jsstring -> option ExamLevel -> World -> completion (option Problem.t) * World.
Variable fetchMockProblem :
  option ExamLevel -> jsstring -> World -> outcome (option problem) * World.
Variable generateAIProblem :
  option ExamLevel -> Difficulty -> jsstring -> World -> outcome problem * World.
Variable delay : N -> World -> World.
Variable consoleWarn : jsstring -> World -> World.
Variable consoleError : jsstring -> failure -> World -> World.
Variable onProgress : jsstring -> Z -> World -> World.
Variable levels : list ExamLevel.
Variable config : ExamConfig.
Variable mode : ExamMode.

(** The grader is the one of geminiService.ts. *)
Variable apiKey : World -> option jsstring.
Variable generateContent :
  jsstring -> jsstring -> option value -> World -> outcome Scraper.AiResponse * World.
Variable warnWith : jsstring -> option failure -> World -> World.
Variable JSON_parse : jsstring -> completion value.
Variable JSON_stringify : value -> jsstring.


End Outcome.

(** *** The ids and the addresses of the problems *)

(** [`mock-${i}`] and [`ai-${i}`] *)
Definition mockId (i : nat) : jsstring := lit "mock-" ++ counterToString i.
Definition aiId (i : nat) : jsstring := lit "ai-" ++ counterToString i.

(** The ids of the slots [used] of each of the three loops. *)
Definition slotIds (usedReal usedMock usedAi : list nat) : list jsstring :=
  map realId usedReal ++ map mockId usedMock ++ map aiId usedAi.

Lemma increasing_NoDup (used : list nat) : StronglySorted lt used -> NoDup used.
Proof.
  induction 1 as [|u used Hs IH Hu]; constructor; auto.
  intros Hin. rewrite Forall_forall in Hu. specialize (Hu u Hin). lia.
Qed.

Lemma increasing_snoc (used : list nat) (n : nat) :
  StronglySorted lt used -> Forall (fun i => i < n) used -> StronglySorted lt (used ++ [n]).
Proof.
  induction 1 as [|u used Hs IH Hu]; intros Hlt; cbn; [repeat constructor|].
  inversion Hlt; subst. constructor; [now apply IH|].
  apply Forall_app. split; [assumption | constructor; [lia | constructor]].
Qed.

Lemma slotIds_NoDup (usedReal usedMock usedAi : list nat) :
  NoDup usedReal -> NoDup usedMock -> NoDup usedAi ->
  NoDup (slotIds usedReal usedMock usedAi).
Proof.
  intros Hr Hm Ha. unfold slotIds.
  assert (Hinj : forall (prefix : jsstring) (used : list nat),
            NoDup used -> NoDup (map (fun i => prefix ++ counterToString i) used)).
  { intros prefix used Hu. apply Finite.Injective_map_NoDup; [|exact Hu].
    intros i j H. apply app_inv_head in H. now apply counterToString_inj. }
  apply NoDup_app; [now apply (Hinj (lit "real-")) | |].
  - apply NoDup_app; [now apply (Hinj (lit "mock-")) | now apply (Hinj (lit "ai-")) |].
    intros x Hx Hy. apply in_map_iff in Hx, Hy.
    destruct Hx as (i & <- & _). destruct Hy as (j & Hj & _). discriminate Hj.
  - intros x Hx Hy. apply in_map_iff in Hx. destruct Hx as (i & <- & _).
    apply in_app_or in Hy. destruct Hy as [Hy | Hy]; apply in_map_iff in Hy;
      destruct Hy as (j & Hj & _); discriminate Hj.
Qed.

Section Distinct.

Variable World : Type.
Variable Math_random : World -> number * World.
Variable fetchAoPSProblem :
  jsstring -> jsstring -> option ExamLevel -> World -> completion (option Problem.t) * World.
Variable fetchMockProblem :
  option ExamLevel -> jsstring -> World -> outcome (option problem) * World.
Variable generateAIProblem :
  option ExamLevel -> Difficulty -> jsstring -> World -> outcome problem * World.
Variable gradeProblemsByDifficulty : list problem -> World -> outcome (list problem) * World.
Variable delay : N -> World -> World.
Variable consoleWarn : jsstring -> World -> World.
Variable consoleError : jsstring -> failure -> World -> World.
Variable onProgress : jsstring -> Z -> World -> World.
Variable levels : list ExamLevel.
Variable config : ExamConfig.
Variable mode : ExamMode.

(** What the three services of geminiService.ts do with the id and the
    address they are given. *)
Definition keepsIdAndAddress : Prop :=
  forall u i l w p w',
    fetchAoPSProblem u i l w = (Return (Some p), w') ->
    Problem.id p = i /\ Problem.originalUrl p = Some u.

Definition mockKeepsId : Prop :=
  forall l i w p w', fetchMockProblem l i w = (Resolved (Some p), w') -> Exam.id p = i.

Definition generatorKeepsId : Prop :=
  forall l d i w p w', generateAIProblem l d i w = (Resolved p, w') -> Exam.id p = i.

Hypothesis fetch_keeps : keepsIdAndAddress.
Hypothesis mock_keeps : mockKeepsId.
Hypothesis generator_keeps : generatorKeepsId.

(** The problem that the rounds of slot [i] deliver. *)
Lemma attemptSlot_delivers (left i : nat) (lvl : option ExamLevel) (st : state World) :
  let '(p, st') := attemptSlot Math_random fetchAoPSProblem delay mode left i lvl st in
  problems st' = problems st
  /\ match p with
     | Some q =>
         Exam.id q = realId i
         /\ exists u, originalUrl q = Some u
                      /\ ~ In u (generatedUrls st)
                      /\ generatedUrls st' = generatedUrls st ++ [u]
     | None => generatedUrls st' = generatedUrls st
     end.
Proof.
  revert st; induction left as [|left IH]; intros st; cbn [attemptSlot].
  - now split.
  - destruct (getAoPSUrlAndMeta Math_random lvl (world st)) as [m w1].
    cbn [generatedUrls setWorld].
    destruct (existsb (streq (url m)) (generatedUrls st)) eqn:Eknown.
    + specialize (IH (setWorld w1 st)).
      destruct (attemptSlot _ _ _ _ left i lvl (setWorld w1 st)) as [p st']. exact IH.
    + destruct (fetchAoPSProblem (url m) (realId i) lvl w1) as [r w2] eqn:Ef.
      destruct r as [[p0|]|e].
      * destruct (fetch_keeps Ef) as (Hid & Hurl).
        cbn [addUrl record setWorld generatedUrls trace problems completedTasks world].
        rewrite Eknown. split; [reflexivity|]. split.
        -- destruct (isWarmup mode); cbn [Exam.id setDifficulty ofScraped]; exact Hid.
        -- exists (url m). repeat match goal with |- _ /\ _ => split end; auto.
           ++ destruct (isWarmup mode); cbn [originalUrl setDifficulty ofScraped];
                exact Hurl.
           ++ now apply not_known.
      * match goal with
        | |- context [attemptSlot _ _ _ _ left i lvl ?s] => specialize (IH s)
        end.
        destruct (attemptSlot _ _ _ _ left i lvl _) as [p st']. exact IH.
      * match goal with
        | |- context [attemptSlot _ _ _ _ left i lvl ?s] => specialize (IH s)
        end.
        destruct (attemptSlot _ _ _ _ left i lvl _) as [p st']. exact IH.
Qed.

(** What holds of the problems between the slots: [nr], [nm] and [na]
    slots of the three loops are done. *)
Definition labelled (nr nm na : nat) (st : state World) : Prop :=
  exists real others usedReal usedMock usedAi,
    problems st = real ++ others
    /\ map originalUrl real = map Some (generatedUrls st)
    /\ NoDup (generatedUrls st)
    /\ map Exam.id real = map realId usedReal
    /\ map Exam.id others = map mockId usedMock ++ map aiId usedAi
    /\ StronglySorted lt usedReal /\ Forall (fun i => i < nr) usedReal
    /\ StronglySorted lt usedMock /\ Forall (fun i => i < nm) usedMock
    /\ StronglySorted lt usedAi /\ Forall (fun i => i < na) usedAi
    /\ (nm + na = 0 -> others = [])
    /\ (na = 0 -> usedAi = []).

Lemma bound_weaken (n : nat) (used : list nat) :
  Forall (fun i => i < n) used -> Forall (fun i => i < S n) used.
Proof. apply Forall_impl. intros; lia. Qed.

Lemma realSlot_labelled (n : nat) (st : state World) :
  labelled n 0 0 st ->
  labelled (S n) 0 0
    (realSlot Math_random fetchAoPSProblem delay consoleWarn onProgress levels config mode
       n st).
Proof.
  intros (real & others & ur & um & ua & Hp & Hu & Hnd & Hir & Hio & Hsr & Hbr & Hsm & Hbm
          & Hsa & Hba & Hno & Hna).
  rewrite (Hno eq_refl) in *. rewrite app_nil_r in Hp.
  unfold realSlot, getRandomLevel.
  destruct (randomInt Math_random 0 _ (world st)) as [i0 w1].
  pose proof (attemptSlot_delivers MAX_ATTEMPTS n
                (if (i0 <? 0)%Z then None else nth_error levels (Z.to_nat i0))
                (setWorld w1 st)) as Hd.
  destruct (attemptSlot _ _ _ _ MAX_ATTEMPTS n _ (setWorld w1 st)) as [p st2].
  cbn [problems generatedUrls setWorld] in Hd. destruct Hd as (Hp2 & Hd).
  destruct p as [q|].
  - destruct Hd as (Hid & u & Hurl & Hnew & Hurls).
    exists (real ++ [q]), [], (ur ++ [n]), um, ua.
    unfold updateProgress, push. cbn [problems generatedUrls].
    rewrite Hp2, Hp, Hurls, !map_app, Hu, Hir, app_nil_r. cbn [map]. rewrite Hid, Hurl.
    repeat match goal with |- _ /\ _ => split end; auto using bound_weaken.
    + apply NoDup_app; [exact Hnd | constructor; [intros [] | constructor] |].
      intros x Hx [<- | []]. contradiction.
    + now apply increasing_snoc.
    + apply Forall_app. split; [now apply bound_weaken | repeat constructor].
  - exists real, [], ur, um, ua.
    unfold updateProgress, record. cbn [problems generatedUrls].
    rewrite Hp2, Hp, Hd, app_nil_r.
    repeat match goal with |- _ /\ _ => split end; auto using bound_weaken.
Qed.

Lemma mockSlot_labelled (nr n : nat) (st : state World) :
  labelled nr n 0 st ->
  labelled nr (S n) 0
    (mockSlot Math_random fetchMockProblem consoleError onProgress levels config n st).
Proof.
  intros (real & others & ur & um & ua & Hp & Hu & Hnd & Hir & Hio & Hsr & Hbr & Hsm & Hbm
          & Hsa & Hba & Hno & Hna).
  rewrite (Hna eq_refl) in *. cbn [map] in Hio. rewrite app_nil_r in Hio.
  unfold mockSlot, getRandomLevel.
  destruct (randomInt Math_random 0 _ (world st)) as [i0 w1]. cbn [world setWorld].
  destruct (fetchMockProblem _ _ w1) as [[[p|]|e] w2] eqn:Ef;
    unfold updateProgress, record, push, setWorld; cbn [problems generatedUrls].
  - apply mock_keeps in Ef.
    exists real, (others ++ [p]), ur, (um ++ [n]), [].
    rewrite Hp, <- app_assoc, !map_app, Hio, app_nil_r. cbn [map]. rewrite Ef.
    repeat match goal with |- _ /\ _ => split end; auto using bound_weaken; try lia.
    + now apply increasing_snoc.
    + apply Forall_app. split; [now apply bound_weaken | repeat constructor].
  - exists real, others, ur, um, [].
    rewrite Hp, Hio, app_nil_r.
    repeat match goal with |- _ /\ _ => split end; auto using bound_weaken; try lia.
  - exists real, others, ur, um, [].
    rewrite Hp, Hio, app_nil_r.
    repeat match goal with |- _ /\ _ => split end; auto using bound_weaken; try lia.
Qed.

Lemma aiSlot_labelled (nr nm n : nat) (st : state World) :
  labelled nr nm n st ->
  labelled nr nm (S n)
    (aiSlot Math_random generateAIProblem consoleError onProgress levels config n st).
Proof.
  intros (real & others & ur & um & ua & Hp & Hu & Hnd & Hir & Hio & Hsr & Hbr & Hsm & Hbm
          & Hsa & Hba & Hno & Hna).
  unfold aiSlot, getRandomLevel.
  destruct (randomInt Math_random 0 _ (world st)) as [i0 w1]. cbn [world setWorld].
  destruct (generateAIProblem _ _ _ w1) as [[p|e] w2] eqn:Eg;
    unfold updateProgress, record, push, setWorld; cbn [problems generatedUrls].
  - apply generator_keeps in Eg.
    exists real, (others ++ [p]), ur, um, (ua ++ [n]).
    rewrite Hp, <- app_assoc, !map_app, Hio, <- app_assoc. cbn [map]. rewrite Eg.
    repeat match goal with |- _ /\ _ => split end; auto using bound_weaken; try lia.
    + now apply increasing_snoc.
    + apply Forall_app. split; [now apply bound_weaken | repeat constructor].
  - exists real, others, ur, um, ua.
    rewrite Hp, Hio.
    repeat match goal with |- _ /\ _ => split end; auto using bound_weaken; try lia.
Qed.

Lemma collect_labelled (w : World) :
  labelled (realCount config) (mockCount config) (aiCount config)
    (collect Math_random fetchAoPSProblem fetchMockProblem generateAIProblem delay
       consoleWarn consoleError onProgress levels config mode w).
Proof.
  unfold collect.
  set (st1 := forCount (realCount config) _ _).
  assert (H1 : labelled (realCount config) 0 0 st1).
  { subst st1. induction (realCount config) as [|n IH];
      [|rewrite forCount_S; now apply realSlot_labelled].
    exists [], [], [], [], []. cbn.
    repeat match goal with |- _ /\ _ => split end; auto; constructor. }
  clearbody st1.
  set (st2 := forCount (mockCount config) _ st1).
  assert (H2 : labelled (realCount config) (mockCount config) 0 st2).
  { subst st2. induction (mockCount config) as [|n IH];
      [exact H1 | rewrite forCount_S; now apply mockSlot_labelled]. }
  clearbody st2.
  induction (aiCount config) as [|n IH]; [exact H2|].
  rewrite forCount_S. now apply aiSlot_labelled.
Qed.


End Distinct.

(** An archive that has every page, services that are out of order, and a
    grader that only sorts. *)
Definition everyPage (u i : jsstring) (l : option ExamLevel) (w : unit)
    : completion (option Problem.t) * unit :=
  (Return (Some {| Problem.id := i; Problem.source := AOPS; Problem.originalUrl := Some u;
                   Problem.questionHtml := lit "<div><p>1+1?</p></div>";
                   Problem.images := [];
                   Problem.options := map lit ["A"; "B"; "C"; "D"; "E"]%string;
                   Problem.correctOption := lit "B";
                   Problem.solutionHtml := lit "<div><p>2</p></div>";
                   Problem.difficulty := 5; Problem.userAnswer := None;
                   Problem.isCorrect := None; Problem.hints := [];
                   Problem.solutionChat := []; Problem.topic := None |}), w).

Definition outOfOrder : failure := mkFailure (Some 503%N) (Some (lit "Service Unavailable")).

Definition noMock (l : option ExamLevel) (i : jsstring) (w : unit)
    : outcome (option problem) * unit := (Rejected outOfOrder, w).

Definition noGenerator (l : option ExamLevel) (d : Difficulty) (i : jsstring) (w : unit)
    : outcome problem * unit := (Rejected outOfOrder, w).

Definition sorter (ps : list problem) (w : unit) : outcome (list problem) * unit :=
  (Resolved (sortByDifficulty ps), w).


(** *** The warm-up difficulty *)

Lemma warmup_table :
  forallb (fun n => (warmupDifficulty n =? (2 * n + 4) / 5)%Z) (numbersFrom 1 25) = true.
Proof. vm_compute. reflexivity. Qed.

(** X24: in warm-up mode the difficulty of problem number [n] of 25 is
    two fifths of [n], rounded up: the computation in floating point gives
    exactly that whole number for every [n] from 1 to 25.  So it is 1 for
    the first two problems and 10 for the last three, lies between 1 and
    10, and does not decrease with the problem number. *)
Theorem warmup_difficulty_by_problem_number (n : Z) :
  (1 <= n <= 25)%Z ->
  warmupDifficulty n = ((2 * n + 4) / 5)%Z
  /\ (1 <= warmupDifficulty n <= 10)%Z
  /\ (forall m, (n <= m <= 25)%Z -> (warmupDifficulty n <= warmupDifficulty m)%Z).
Proof.
  assert (Hall : forall k, (1 <= k <= 25)%Z -> warmupDifficulty k = ((2 * k + 4) / 5)%Z).
  { intros k Hk. pose proof warmup_table as H. rewrite forallb_forall in H.
    apply Z.eqb_eq, H. exact (in_numbersFrom (lo := 1) (hi := 25) Hk). }
  intros Hn. rewrite (Hall n Hn). split; [reflexivity|]. split.
  - split; [apply Z.div_le_lower_bound; lia|].
    assert ((2 * n + 4) / 5 < 11)%Z by (apply Z.div_lt_upper_bound; lia). lia.
  - intros m Hm. rewrite (Hall m) by lia. apply Z.div_le_mono; lia.
Qed.

Lemma warmup_difficulty_by_problem_number_witness :
  warmupDifficulty 13 = 6%Z /\ warmupDifficulty 1 = 1%Z /\ warmupDifficulty 25 = 10%Z.
Proof.
  pose proof (@warmup_difficulty_by_problem_number 13 ltac:(lia)) as (H & _).
  split; [rewrite H; reflexivity | split; vm_compute; reflexivity].
Defined.

(** *** The mini quiz *)

(** [`quiz-${i}`] *)
Definition quizId (i : nat) : jsstring := lit "quiz-" ++ counterToString i.

Lemma quizId_inj (i j : nat) : i < 5 -> j < 5 -> quizId i = quizId j -> i = j.
Proof.
  intros Hi Hj.
  do 5 (destruct i as [|i]; [do 5 (destruct j as [|j]; [vm_compute; congruence|]); lia|]).
  lia.
Qed.

Section QuizFacts.

Variable World : Type.
Variable apiKey : World -> option jsstring.
Variable generateContent :
  jsstring -> jsstring -> option value -> World -> outcome Scraper.AiResponse * World.
Variable consoleWarn : jsstring -> option failure -> World -> World.
Variable wait : N -> World -> World.
Variable JSON_parse : jsstring -> completion value.
Variable JSON_stringify : value -> jsstring.
Variable ToString : value -> jsstring.

Variable topic : jsstring.
Variable level : ExamLevel.

(** What a problem of the quiz carries. *)
Definition ofQuiz (p : problem) : Prop :=
  source p = AI_GENERATED /\ Exam.topic p = Some topic
  /\ AiFacts.onScale (difficulty p)
  /\ exists i, i < 5 /\ Exam.id p = quizId i.

Lemma quiz_loop (n : nat) (w : World) :
  n <= 5 ->
  exists used,
    StronglySorted lt used /\ Forall (fun i => i < n) used
    /\ Forall2 (fun i p => Exam.id p = quizId i /\ ofQuiz p) used
         (fst (fold_left
                 (quizSlot apiKey generateContent consoleWarn wait JSON_parse ToString topic
                    level)
                 (seq 0 n) ([], w))).
Proof.
  induction n as [|n IH]; intros Hn.
  - exists []. cbn. repeat match goal with |- _ /\ _ => split end; constructor.
  - destruct (IH ltac:(lia)) as (used & Hs & Hlt & Hps).
    rewrite seq_S, fold_left_app. cbn [fold_left Nat.add].
    destruct (fold_left _ (seq 0 n) ([], w)) as [ps w1]. cbn [fst] in Hps.
    unfold quizSlot at 1.
    destruct (Ai.generateAIProblem _ _ _ _ _ _ level (quizDifficulty n) _ (Some topic)
                MODEL_FLASH w1) as [[p|e] w2] eqn:Eg; cbn [fst].
    + apply AiFacts.generation_resolved in Eg.
      destruct Eg as (Hscale & Hid & Hsource & Htopic & _).
      exists (used ++ [n]). repeat match goal with |- _ /\ _ => split end.
      * clear Hps. induction used as [|u used IHu]; cbn; [repeat constructor|].
        inversion Hs; subst. inversion Hlt; subst. constructor; [now apply IHu|].
        apply Forall_app. split; [assumption | constructor; [lia | constructor]].
      * apply Forall_app. split; [|repeat constructor].
        eapply Forall_impl; [|exact Hlt]. cbv beta. intros; lia.
      * apply Forall2_app; [exact Hps|]. constructor; [|constructor].
        split; [exact Hid|]. unfold ofQuiz.
        repeat match goal with |- _ /\ _ => split end; auto.
        exists n. split; [lia | exact Hid].
    + exists used. repeat match goal with |- _ /\ _ => split end; auto.
      eapply Forall_impl; [|exact Hlt]. cbv beta. intros; lia.
Qed.

Lemma quiz_problems (w : World) :
  let ps := fst (quizProblems apiKey generateContent consoleWarn wait JSON_parse ToString
                   topic level w) in
  length ps <= 5 /\ NoDup (map Exam.id ps) /\ Forall ofQuiz ps.
Proof.
  cbv zeta. unfold quizProblems.
  destruct (quiz_loop w (le_n 5)) as (used & Hs & Hlt & Hps).
  set (ps := fst (fold_left _ (seq 0 5) ([], w))) in *. clearbody ps.
  assert (Hnd : NoDup used).
  { clear Hps Hlt. induction Hs as [|u used Hs IH Hu]; constructor; auto.
    intros Hin. rewrite Forall_forall in Hu. specialize (Hu u Hin). lia. }
  assert (Hlen : length used <= 5).
  { assert (incl used (seq 0 5)).
    { intros i Hi. rewrite Forall_forall in Hlt. apply in_seq. specialize (Hlt i Hi). lia. }
    apply NoDup_incl_length in H; [|exact Hnd]. now rewrite length_seq in H. }
  rewrite <- (Forall2_length Hps). split; [exact Hlen|].
  clear Hlen Hs. split.
  - induction Hps as [|i p used ps (Hid & _) Hps IH]; cbn [map]; [constructor|].
    inversion Hnd; subst. inversion Hlt; subst. constructor; [|now apply IH].
    intros Hin. apply in_map_iff in Hin. destruct Hin as (q & Hq & Hin).
    assert (Hj : exists j, In j used /\ Exam.id q = quizId j).
    { clear - Hps Hin. induction Hps as [|j q' used ps (Hj & _) Hps IH]; [destruct Hin|].
      destruct Hin as [-> | Hin]; [exists j; split; [now left | exact Hj]|].
      destruct (IH Hin) as (j' & Hj' & Hq'). exists j'. split; [now right | exact Hq']. }
    destruct Hj as (j & Hj & Hqj). rewrite Forall_forall in H4.
    assert (i = j); [|now subst].
    apply quizId_inj; [assumption | now apply H4 | congruence].
  - clear Hnd Hlt. induction Hps as [|i p used ps (_ & Hp) Hps IH]; constructor; auto.
Qed.

Lemma regraded_ofQuiz (p p' : problem) : AiFacts.regraded p p' -> ofQuiz p -> ofQuiz p'.
Proof.
  intros [-> | (d & ->)] Hq; [exact Hq|]. destruct Hq as (Hs & Ht & _ & Hi).
  unfold ofQuiz. cbn [source Exam.topic difficulty Exam.id setDifficulty].
  split; [exact Hs | split; [exact Ht | split; [apply AiFacts.clamp_onScale | exact Hi]]].
Qed.

(** X25: a mini quiz that is returned has at most five problems, in
    ascending order of difficulty and with pairwise distinct ids from
    quiz-0 to quiz-4; each is a generated problem on the topic asked for,
    with a difficulty between 1 and 10.  A problem that the generator does
    not deliver is left out.  When the API key is missing, no model call is
    made and the quiz raises "API Key not found in environment". *)
Theorem mini_quiz_shape (w : World) :
  (forall result w',
      generateMiniQuiz apiKey generateContent consoleWarn wait JSON_parse JSON_stringify
        ToString topic level w = (Resolved result, w') ->
      length result <= 5
      /\ StronglySorted AiFacts.notHarder result
      /\ NoDup (map Exam.id result)
      /\ Forall ofQuiz result)
  /\ ((forall w0, getAiClient apiKey w0 = Rejected AiFacts.noKey) ->
      generateMiniQuiz apiKey generateContent consoleWarn wait JSON_parse JSON_stringify
        ToString topic level w = (Rejected AiFacts.noKey, w)).
Proof.
  split.
  - intros result w'. unfold generateMiniQuiz.
    pose proof (quiz_problems w) as H. cbv zeta in H.
    destruct (quizProblems _ _ _ _ _ _ topic level w) as [ps w1]. cbn [fst] in H.
    destruct H as (Hlen & Hnd & Hall). intros Hg.
    apply AiFacts.grading_resolved in Hg. destruct Hg as (regraded & Hreg & ->).
    pose proof (AiFacts.sort_permutation regraded) as Hperm.
    repeat match goal with |- _ /\ _ => split end.
    + rewrite <- (Permutation_length Hperm), <- (Forall2_length Hreg). exact Hlen.
    + apply AiFacts.sort_sorted.
    + eapply Permutation_NoDup; [apply Permutation_map, Hperm|].
      now rewrite (AiFacts.regraded_ids Hreg).
    + eapply Permutation_Forall; [exact Hperm|].
      clear - Hreg Hall. induction Hreg as [|p p' ps ps' Hp Hreg IH]; [constructor|].
      inversion Hall; subst. constructor; [now apply (regraded_ofQuiz Hp) | now apply IH].
  - intros Hnokey. unfold generateMiniQuiz, quizProblems.
    assert (Hloop : forall l ps,
              fold_left
                (quizSlot apiKey generateContent consoleWarn wait JSON_parse ToString topic
                   level) l (ps, w) = (ps, w)).
    { induction l as [|i l IH]; intros ps; [reflexivity|]. cbn [fold_left].
      unfold quizSlot at 2. unfold Ai.generateAIProblem. rewrite Hnokey. apply IH. }
    rewrite Hloop. unfold Ai.gradeProblemsByDifficulty. now rewrite Hnokey.
Qed.

End QuizFacts.

(** What the model answers in the example: a problem of difficulty 4. *)
Definition quizAnswer : jsstring :=
  lit "{" ++ quoted "questionHtml" ++ lit ":" ++ quoted "<p>What is 2+2?</p>" ++ lit ","
    ++ quoted "options" ++ lit ":[" ++ quoted "1" ++ lit "," ++ quoted "2" ++ lit ","
    ++ quoted "3" ++ lit "," ++ quoted "4" ++ lit "," ++ quoted "5" ++ lit "],"
    ++ quoted "correctOption" ++ lit ":" ++ quoted "D" ++ lit "," ++ quoted "solutionHtml"
    ++ lit ":" ++ quoted "<p>It is 4.</p>" ++ lit "," ++ quoted "estimatedDifficulty"
    ++ lit ":4}".

Lemma mini_quiz_shape_witness :
  match generateMiniQuiz AiFacts.configured (AiFacts.answering quizAnswer) AiFacts.unheard
          AiFacts.unwaited JsonReader.parse AiFacts.unwritten AiFacts.unwritten
          (lit "Geometry") AMC10 0 with
  | (Resolved result, requests) =>
      requests = 6 /\ map Exam.id result = map quizId [0; 1; 2; 3; 4]
      /\ length result <= 5
      /\ StronglySorted AiFacts.notHarder result
      /\ NoDup (map Exam.id result)
      /\ Forall (ofQuiz (lit "Geometry")) result
  | (Rejected _, _) => False
  end.
Proof.
  destruct (generateMiniQuiz AiFacts.configured (AiFacts.answering quizAnswer)
              AiFacts.unheard AiFacts.unwaited JsonReader.parse AiFacts.unwritten
              AiFacts.unwritten (lit "Geometry") AMC10 0) as [[result|e] requests] eqn:E.
  - split; [|split].
    + vm_compute in E. now injection E as _ <-.
    + vm_compute in E. injection E as <- _. reflexivity.
    + exact (proj1 (@mini_quiz_shape nat AiFacts.configured (AiFacts.answering quizAnswer)
                      AiFacts.unheard AiFacts.unwaited JsonReader.parse AiFacts.unwritten
                      AiFacts.unwritten (lit "Geometry") AMC10 0) result requests E).
  - vm_compute in E. discriminate E.
Defined.

End ExamFacts.

(* ------------------------------------------------------------------ *)
(** ** The application state and the problem card *)

Module UiFacts.
Import Regex Json Dom Scraper Retry Exam Ai App ProblemCard.

(** *** Selecting levels *)

Lemma sameLevel_eq (a b : ExamLevel) : sameLevel a b = true <-> a = b.
Proof. destruct a, b; cbn; split; congruence. Qed.

Lemma filter_nil_all (level : ExamLevel) (l : list ExamLevel) :
  filter (fun x => negb (sameLevel x level)) l = [] -> Forall (fun x => x = level) l.
Proof.
  induction l as [|x l IH]; cbn; [constructor|].
  destruct (sameLevel x level) eqn:E; cbn; [|discriminate].
  intros H. constructor; [now apply sameLevel_eq | now apply IH].
Qed.

(** X26: toggling a level in the setup form never leaves the selection
    empty and never selects a level twice.  It changes the selection of
    that level only, and it changes it unless the level is the only one
    selected; mode, timer and counts stay as they are. *)
Theorem toggle_keeps_a_level_selected (level : ExamLevel) (prev : ExamSettings) :
  levels prev <> [] -> NoDup (levels prev) ->
  let next := toggleLevel level prev in
  levels next <> [] /\ NoDup (levels next)
  /\ (forall l, l <> level -> (In l (levels next) <-> In l (levels prev)))
  /\ (In level (levels next) <-> ~ In level (levels prev) \/ levels prev = [level])
  /\ mode next = mode prev /\ timerMode next = timerMode prev
  /\ customTimeLimit next = customTimeLimit prev /\ config next = config prev.
Proof.
  intros Hne Hnd. cbv zeta. unfold toggleLevel.
  destruct (existsb (sameLevel level) (levels prev)) eqn:Ex.
  - apply existsb_exists in Ex. destruct Ex as (x & Hx & Hsame).
    apply sameLevel_eq in Hsame. subst x.
    destruct (filter _ (levels prev)) as [|y rest] eqn:Ef.
    + apply filter_nil_all in Ef.
      assert (Hone : levels prev = [level]).
      { destruct (levels prev) as [|a [|b l]]; [contradiction | |].
        - inversion Ef; subst. reflexivity.
        - inversion Ef as [|? ? Ha Hrest]; subst. inversion Hrest; subst.
          inversion Hnd as [|? ? Hnotin _]; subst. contradiction Hnotin. now left. }
      repeat match goal with |- _ /\ _ => split end; auto; try tauto.
    + cbn [levels mode timerMode customTimeLimit config]. rewrite <- Ef.
      repeat match goal with |- _ /\ _ => split end; auto.
      * rewrite Ef. discriminate.
      * now apply NoDup_filter.
      * intros l Hl. rewrite filter_In. split; [tauto|]. intros Hin. split; [exact Hin|].
        destruct (sameLevel l level) eqn:E; [|reflexivity].
        apply sameLevel_eq in E. contradiction.
      * rewrite filter_In. split.
        -- intros (_ & Hneg). assert (sameLevel level level = true) by now apply sameLevel_eq.
           rewrite H in Hneg. discriminate Hneg.
        -- intros [Hnot | Hone]; [contradiction|].
           rewrite Hone in Ef. cbn in Ef.
           assert (sameLevel level level = true) by now apply sameLevel_eq.
           rewrite H in Ef. discriminate Ef.
  - assert (Hnot : ~ In level (levels prev)).
    { intros Hin. assert (existsb (sameLevel level) (levels prev) = true); [|congruence].
      apply existsb_exists. exists level. split; [exact Hin | now apply sameLevel_eq]. }
    destruct (levels prev ++ [level]) as [|y rest] eqn:Ea.
    + destruct (levels prev); discriminate Ea.
    + cbn [levels mode timerMode customTimeLimit config]. rewrite <- Ea.
      repeat match goal with |- _ /\ _ => split end; auto.
      * rewrite Ea. discriminate.
      * apply NoDup_app; [exact Hnd | constructor; [intros [] | constructor] |].
        intros x Hx [<- | []]. contradiction.
      * intros l Hl. rewrite in_app_iff. cbn. split; [intros [H | [H | []]] | tauto];
          [exact H | congruence].
      * split; [intros _; now left | intros _; apply in_or_app; right; now left].
Qed.

Lemma toggle_keeps_a_level_selected_witness :
  levels (toggleLevel AMC8
            {| levels := [AMC8]; mode := INSTANT; timerMode := UNTIMED; customTimeLimit := 40;
               config := {| realCount := 18; mockCount := 0; aiCount := 0 |} |})
  <> [].
Proof.
  refine (proj1 (@toggle_keeps_a_level_selected AMC8
                   {| levels := [AMC8]; mode := INSTANT; timerMode := UNTIMED;
                      customTimeLimit := 40;
                      config := {| realCount := 18; mockCount := 0; aiCount := 0 |} |} _ _)).
  - discriminate.
  - repeat constructor. intros [].
Defined.

(** *** The stored verdict and the shown one *)

Lemma label_is_normal (answer : jsstring) :
  In answer labels -> nonEmpty answer = true /\ toUpperCase (trim answer) = answer.
Proof.
  intros H. cbn in H.
  repeat (destruct H as [<- | H]; [split; vm_compute; reflexivity|]). destruct H.
Qed.

Lemma lower_letter_cases (c : ascii) :
  inRange (ch "a") (ch "e") c = true ->
  c = ch "a" \/ c = ch "b" \/ c = ch "c" \/ c = ch "d" \/ c = ch "e".
Proof.
  destruct c as [[] [] [] [] [] [] [] []]; vm_compute; intros H;
    first [discriminate H | tauto].
Qed.

(** X27: after [handleAnswer(id, answer)] with one of the option letters A
    to E, every problem with that id holds the answer.  When its stored
    verdict is "correct", the card shows the answer as correct too; but a
    problem whose stored answer key is a lower-case letter is stored as
    answered wrongly when the student picks that letter, while the card,
    which compares with the key in upper case, shows the pick as
    correct. *)
Theorem stored_and_shown_verdicts (prev : ExamState) (id answer : jsstring) (p' : problem) :
  In answer labels ->
  In p' (problems (handleAnswer id answer prev)) -> Exam.id p' = id ->
  userAnswer p' = Some answer
  /\ (isCorrect p' = Some true -> shownCorrect answer p' = true)
  /\ (forall c, correctOption p' = Some [c] -> inRange (ch "a") (ch "e") c = true ->
        answer = [upperChar c] ->
        isCorrect p' = Some false /\ shownCorrect answer p' = true).
Proof.
  intros Hlabel Hin Hid. unfold handleAnswer in Hin. cbn [problems] in Hin.
  apply in_map_iff in Hin. destruct Hin as (p & Hp & _).
  destruct (label_is_normal Hlabel) as (Hne & Hnorm).
  destruct (streq (Exam.id p) id) eqn:E.
  - subst p'. cbn [userAnswer isCorrect answered]. unfold shownCorrect, correctOpt.
    cbn [correctOption answered].
    repeat match goal with |- _ /\ _ => split end; auto.
    + destruct (correctOption p) as [key|]; [|discriminate].
      intros [= Hs]. apply streq_eq in Hs. subst key. rewrite Hne, Hnorm. apply streq_refl.
    + intros c -> Hc ->. apply lower_letter_cases in Hc.
      destruct Hc as [-> | [-> | [-> | [-> | ->]]]]; split; vm_compute; reflexivity.
  - subst p'. rewrite Hid, streq_refl in E. discriminate E.
Qed.

(** A problem whose key was scraped in lower case. *)
Definition lowerKeyed : problem :=
  {| id := lit "real-0"; source := AOPS; originalUrl := None;
     questionHtml := Some (JString (lit "<p>What is 1+1?</p>"));
     images := []; options := JArray (map JString letters);
     correctOption := Some (lit "c"); solutionHtml := Some (JString (lit "<p>2</p>"));
     difficulty := 5; userAnswer := None; isCorrect := None; hints := [];
     solutionChat := []; topic := None |}.

Definition sitting : ExamState :=
  {| view := EXAM; problems := [lowerKeyed]; currentProblemIndex := 0; startTime := 0;
     endTime := None; analysis := None; suggestedTopics := None |}.

Lemma stored_and_shown_verdicts_witness :
  isCorrect (answered (lit "C") lowerKeyed) = Some false
  /\ shownCorrect (lit "C") (answered (lit "C") lowerKeyed) = true
  /\ correctCount (handleAnswer (lit "real-0") (lit "C") sitting) = 0.
Proof.
  assert (Hlabel : In (lit "C") labels) by (cbn; auto).
  assert (Hin : In (answered (lit "C") lowerKeyed)
                  (problems (handleAnswer (lit "real-0") (lit "C") sitting)))
    by (now left).
  destruct (proj2 (proj2 (@stored_and_shown_verdicts sitting (lit "real-0") (lit "C")
                            (answered (lit "C") lowerKeyed) Hlabel Hin eq_refl))
              (ch "c") eq_refl eq_refl eq_refl) as (Hstored & Hshown).
  split; [exact Hstored | split; [exact Hshown | reflexivity]].
Defined.

(** *** One answer, one problem *)

(** X30: when the ids of the problems are pairwise distinct, answering a
    problem changes that problem and no other: the list of problems is as
    before, with the answered problem, which holds the answer and the
    verdict, in the place of the old one; the number of problems counted as
    correct changes by one at most. *)
Theorem answer_marks_one_problem (prev : ExamState) (p : problem) (answer : jsstring) :
  NoDup (map Exam.id (problems prev)) -> In p (problems prev) ->
  let next := handleAnswer (Exam.id p) answer prev in
  (exists before after,
      problems prev = before ++ p :: after
      /\ problems next = before ++ answered answer p :: after)
  /\ correctCount next <= S (correctCount prev)
  /\ correctCount prev <= S (correctCount next)
  /\ view next = view prev /\ currentProblemIndex next = currentProblemIndex prev.
Proof.
  intros Hnd Hin. cbv zeta. apply in_split in Hin. destruct Hin as (before & after & Hp).
  assert (Hsame : forall l,
            Forall (fun q => Exam.id q <> Exam.id p) l ->
            map (fun q => if streq (Exam.id q) (Exam.id p) then answered answer q else q) l
            = l).
  { induction 1 as [|q l Hq _ IH]; [reflexivity|]. cbn [map]. rewrite IH.
    destruct (streq (Exam.id q) (Exam.id p)) eqn:E; [|reflexivity].
    apply streq_eq in E. contradiction. }
  assert (Hids : Forall (fun q => Exam.id q <> Exam.id p) before
                 /\ Forall (fun q => Exam.id q <> Exam.id p) after).
  { rewrite Hp, map_app in Hnd. cbn [map] in Hnd. apply NoDup_remove_2 in Hnd.
    split; apply Forall_forall; intros q Hq Heq; apply Hnd, in_or_app;
      [left | right]; apply in_map_iff; exists q; auto. }
  destruct Hids as (Hb & Ha).
  assert (Hnext : problems (handleAnswer (Exam.id p) answer prev)
                  = before ++ answered answer p :: after).
  { unfold handleAnswer. cbn [problems]. rewrite Hp, map_app. cbn [map].
    rewrite (Hsame before Hb), (Hsame after Ha), streq_refl. reflexivity. }
  split; [exists before, after; now split|].
  unfold correctCount. rewrite Hnext, Hp, !filter_app, !length_app. cbn [filter].
  repeat match goal with |- _ /\ _ => split end; try reflexivity;
    destruct (match isCorrect (answered answer p) with Some b => b | None => false end);
    destruct (match isCorrect p with Some b => b | None => false end); cbn [length]; lia.
Qed.

Lemma answer_marks_one_problem_witness :
  exists before after,
    problems sitting = before ++ lowerKeyed :: after
    /\ problems (handleAnswer (lit "real-0") (lit "C") sitting)
       = before ++ answered (lit "C") lowerKeyed :: after.
Proof.
  refine (proj1 (@answer_marks_one_problem sitting lowerKeyed (lit "C") _ _)).
  - repeat constructor. intros [].
  - now left.
Defined.

(** *** The image gallery *)

Lemma fixImageUrl_absoluteSrc (u : jsstring) : fixImageUrl u = absoluteSrc u.
Proof.
  unfold fixImageUrl, absoluteSrc. destruct u as [|c u]; [reflexivity|].
  cbn [nonEmpty negb].
  destruct (startsWith (lit "http") (c :: u)) eqn:E; [|reflexivity].
  cbn in E. apply andb_true_iff in E. destruct E as (Ec & _).
  apply Ascii.eqb_eq in Ec. subst c. reflexivity.
Qed.

Section Gallery.

Variable World : Type.
Variable fetch : jsstring -> World -> completion Response * World.
Variable apiKey : World -> option jsstring.
Variable askModel : jsstring -> jsstring -> World -> completion AiResponse * World.
Variable parseFromString : jsstring -> document.
Variable outerHTML : node -> jsstring.
Variable innerHTML : node -> jsstring.
Variable ToString : value -> jsstring.

Variable generateContent :
  jsstring -> jsstring -> option value -> World -> outcome AiResponse * World.
Variable consoleWarn : jsstring -> option failure -> World -> World.
Variable wait : N -> World -> World.
Variable JSON_parse : jsstring -> completion value.

(** X28: the card never shows its image gallery for a problem that the
    services produce: a scraped problem has the source "AoPS Archive", and
    mock and generated problems have no images.  Were it shown, the
    addresses would appear as stored: the card's [fixImageUrl] rewrites an
    address as the normaliser does, and leaves every address of the
    normaliser's image list unchanged. *)
Theorem gallery_is_never_shown :
  (forall url id level s s' p,
      fetchAoPSProblem fetch apiKey askModel parseFromString outerHTML innerHTML ToString
        url id level s = (Return (Some p), s') ->
      showImageGallery (ofScraped p) = false)
  /\ (forall level id w w' p,
        fetchMockProblem apiKey generateContent consoleWarn wait JSON_parse ToString level id
          w = (Resolved p, w') ->
        showImageGallery p = false)
  /\ (forall level difficulty id topic model w w' p,
        generateAIProblem apiKey generateContent consoleWarn wait JSON_parse ToString level
          difficulty id topic model w = (Resolved p, w') ->
        showImageGallery p = false)
  /\ (forall u, fixImageUrl u = absoluteSrc u)
  /\ (forall rawHtml result,
        cleanAndRestoreLatex parseFromString innerHTML rawHtml = Return result ->
        Forall (fun address => fixImageUrl address = address) (Scraper.images result)).
Proof.
  repeat match goal with |- _ /\ _ => split end.
  - intros url id level s s' p H. apply FallbackFacts.assembled_is_scraped in H.
    apply AssemblerFacts.scrape_returns_full in H. destruct H as (_ & Hsource & _).
    unfold showImageGallery, ofScraped. cbn [source]. now rewrite Hsource.
  - intros level id w w' p H. apply AiFacts.mock_resolved in H.
    destruct H as (_ & _ & _ & _ & _ & _ & _ & _ & Himages & _).
    unfold showImageGallery. rewrite Himages. apply andb_false_r.
  - intros level difficulty id topic model w w' p H. apply AiFacts.generation_resolved in H.
    destruct H as (_ & _ & _ & _ & Himages & _).
    unfold showImageGallery. rewrite Himages. apply andb_false_r.
  - apply fixImageUrl_absoluteSrc.
  - intros rawHtml result. unfold cleanAndRestoreLatex.
    destruct (bodyOf _) as [body|]; [|discriminate].
    intros [= <-]. cbn [Scraper.images]. unfold collectImages.
    refine (proj2 (NormalizerOutcomes.pushed_invariant
                     (P := fun address => fixImageUrl address = address) _ _ _));
      [|constructor|constructor].
    apply Forall_flat_map, Forall_forall. intros n _.
    unfold imageSrc. destruct (matches _ _ n); [|constructor].
    destruct (getAttribute (lit "src") n) as [src|]; [|constructor].
    destruct (nonEmpty src); constructor; [|constructor].
    rewrite fixImageUrl_absoluteSrc. apply NormalizerFacts.absoluteSrc_idempotent.
Qed.

(** The three services return their problem under the id they were given,
    and the archive service records the address it fetched. *)
Lemma services_keep_ids :
  (forall url id level s s' p,
      fetchAoPSProblem fetch apiKey askModel parseFromString outerHTML innerHTML ToString
        url id level s = (Return (Some p), s') ->
      Problem.id p = id /\ Problem.originalUrl p = Some url)
  /\ (forall level id w w' p,
        fetchMockProblem apiKey generateContent consoleWarn wait JSON_parse ToString level id
          w = (Resolved p, w') ->
        Exam.id p = id)
  /\ (forall level difficulty id topic model w w' p,
        generateAIProblem apiKey generateContent consoleWarn wait JSON_parse ToString level
          difficulty id topic model w = (Resolved p, w') ->
        Exam.id p = id).
Proof.
  repeat match goal with |- _ /\ _ => split end.
  - intros url id level s s' p H. apply FallbackFacts.assembled_is_scraped in H.
    apply AssemblerFacts.scrape_returns_full in H. destruct H as (Hid & _ & Hurl & _).
    now split.
  - intros level id w w' p H. apply AiFacts.mock_resolved in H. apply H.
  - intros level difficulty id topic model w w' p H.
    apply AiFacts.generation_resolved in H. apply H.
Qed.

End Gallery.

End UiFacts.
